(** * Azure OpenAI adapter of gemini-cli: a shallow embedding and its properties

    The development follows the TypeScript sources:
    - [jsonUtils.ts]                     ([extractJsonFromText]),
    - [config/auth.ts]                   ([validateAuthMethod]),
    - [contentGenerator.ts]              ([createContentGeneratorConfig],
      [createContentGenerator]),
    - [azureOpenaiContentGenerator.ts]   (message, tool and response
      conversion, the streaming generator, [countTokens]).

    JavaScript strings are sequences of UTF-16 code units; they are modelled
    as lists of [N].  Exceptions are modelled by [option] (or a sum type where
    the kind of failure matters), generators by the list of values they
    yield, and mutable objects by an explicit heap.  What the sources take
    from elsewhere is a parameter: [String.prototype.toLowerCase],
    [loadEnvironment], the clock, the parser of a stream chunk. *)

From Stdlib Require Import ZArith NArith List Ascii String Lia Bool.
From Stdlib Require Import DecimalString Sorting.Sorted Sorting.Permutation.
From Stdlib Require DecimalN DecimalPos.
From stdpp Require Import base option list gmap strings.

Set Warnings "-register-all".

Local Open Scope N_scope.
Local Open Scope list_scope.

(** ** JavaScript strings *)

Module JS.

Abbreviation char := N (only parsing).
Abbreviation jsstring := (list N) (only parsing).

(** [str s] is the JavaScript string with the characters of the literal. *)
Definition str (s : string) : jsstring :=
  List.map N_of_ascii (list_ascii_of_string s).

Definition DQUOTE : char := 34.
Definition BACKSLASH : char := 92.
Definition LBRACE : char := 123.
Definition RBRACE : char := 125.
Definition LBRACKET : char := 91.
Definition RBRACKET : char := 93.
Definition LF : char := 10.
Definition CR : char := 13.
Definition SPACE : char := 32.
Definition BACKTICK : char := 96.

(** [dq s] is [str s] with every apostrophe of the literal standing for the
    double-quote character, which keeps JSON texts readable. *)
Definition dq (s : string) : jsstring :=
  List.map (fun c => if c =? 39 then DQUOTE else c) (str s).

Definition str_eqb (a b : jsstring) : bool := bool_decide (a = b).

(** [WhiteSpace] and [LineTerminator] of ECMAScript: what [trim] strips and
    what the regular-expression class [\s] matches. *)
Definition is_js_space (c : char) : bool :=
  ((9 <=? c) && (c <=? 13)) || (c =? 32) || (c =? 160) || (c =? 5760)
  || ((8192 <=? c) && (c <=? 8202)) || (c =? 8232) || (c =? 8233)
  || (c =? 8239) || (c =? 8287) || (c =? 12288) || (c =? 65279).

(** Line terminators: the characters the regular-expression dot excludes. *)
Definition is_line_terminator (c : char) : bool :=
  (c =? 10) || (c =? 13) || (c =? 8232) || (c =? 8233).

Fixpoint trimStart (s : jsstring) : jsstring :=
  match s with
  | c :: r => if is_js_space c then trimStart r else s
  | [] => []
  end.

Definition trimEnd (s : jsstring) : jsstring := rev (trimStart (rev s)).

Definition trim (s : jsstring) : jsstring := trimEnd (trimStart s).

Fixpoint startsWith (s p : jsstring) {struct p} : bool :=
  match p, s with
  | [], _ => true
  | a :: p', b :: s' => (a =? b) && startsWith s' p'
  | _ :: _, [] => false
  end.

(** [s.slice(n)] and [s.substring(a, b)] for indices within bounds. *)
Definition slice_from (n : nat) (s : jsstring) : jsstring := drop n s.
Definition substring (a b : nat) (s : jsstring) : jsstring :=
  take (b - a) (drop a s).

(** [xs.join(sep)] on an array of strings. *)
Fixpoint join (sep : jsstring) (xs : list jsstring) : jsstring :=
  match xs with
  | [] => []
  | [x] => x
  | x :: rest => x ++ sep ++ join sep rest
  end.

(** Truthiness of a string: the empty string is the only falsy one. *)
Definition truthy_str (s : jsstring) : bool :=
  match s with [] => false | _ => true end.

(** Truthiness of an optional string ([undefined] is falsy too). *)
Definition truthy_opt (o : option jsstring) : bool :=
  match o with Some s => truthy_str s | None => false end.

(** [String.prototype.toLowerCase] is a function of the JavaScript library.
    It is taken as a parameter: what is proved holds for every function on
    strings in its place. *)
Class ToLowerCase : Type := toLowerCase : jsstring -> jsstring.

(** A string that [toLowerCase] returns. *)
Definition is_lowercase `{ToLowerCase} (s : jsstring) : Prop :=
  exists s0 : jsstring, s = toLowerCase s0.

(** For the examples: the function on strings of code units below U+0100,
    where the upper-case letters are A to Z and U+00C0 to U+00DE without
    U+00D7, each 32 below its lower-case letter. *)
Definition is_upper (c : char) : bool :=
  ((65 <=? c) && (c <=? 90))
  || ((192 <=? c) && (c <=? 222) && negb (c =? 215)).

Definition lower_char (c : char) : char :=
  if is_upper c then c + 32 else c.

Definition toLowerCase_latin1 : ToLowerCase := List.map lower_char.

(** Decimal rendering of a non-negative integer, as a template literal
    does it. *)
Definition decimal (n : N) : jsstring :=
  str (NilZero.string_of_uint (N.to_uint n)).

End JS.

Import JS.

(** ** JSON values, [JSON.parse] and [JSON.stringify] *)

Module Json.

(** A JSON value.  Numbers carry their literal; the members of an object
    are kept in the order they were written.  A value stands for a
    JavaScript value when each literal is the text JavaScript prints for
    the number, and each object has every key once, in the order in which
    the object enumerates its keys; [JsonText.printed_as_written] gives
    values that meet this. *)
Inductive json : Type :=
  | JNull
  | JBool (b : bool)
  | JNum (literal : jsstring)
  | JStr (s : jsstring)
  | JArr (elems : list json)
  | JObj (members : list (jsstring * json)).

Definition is_json_ws (c : char) : bool :=
  (c =? 32) || (c =? 9) || (c =? 10) || (c =? 13).

Fixpoint skip_ws (s : jsstring) : jsstring :=
  match s with
  | c :: r => if is_json_ws c then skip_ws r else s
  | [] => []
  end.

Definition is_digit (c : char) : bool := (48 <=? c) && (c <=? 57).

Definition hex_value (c : char) : option N :=
  if is_digit c then Some (c - 48)
  else if (97 <=? c) && (c <=? 102) then Some (c - 87)
  else if (65 <=? c) && (c <=? 70) then Some (c - 55)
  else None.

Definition hex4 (a b c d : char) : option N :=
  match hex_value a, hex_value b, hex_value c, hex_value d with
  | Some x, Some y, Some z, Some w => Some (((x * 16 + y) * 16 + z) * 16 + w)
  | _, _, _, _ => None
  end.

(** The characters of a string literal after its opening quote, decoded, and
    the text after the closing quote. *)
Fixpoint parse_string_body (s : jsstring) : option (jsstring * jsstring) :=
  match s with
  | [] => None
  | c :: r =>
      if c =? DQUOTE then Some ([], r)
      else if c =? BACKSLASH then
        match r with
        | e :: r1 =>
            let simple (d : char) :=
              match parse_string_body r1 with
              | Some (body, rest) => Some (d :: body, rest)
              | None => None
              end in
            if e =? 34 then simple 34
            else if e =? 92 then simple 92
            else if e =? 47 then simple 47
            else if e =? 98 then simple 8
            else if e =? 102 then simple 12
            else if e =? 110 then simple 10
            else if e =? 114 then simple 13
            else if e =? 116 then simple 9
            else if e =? 117 then
              match r1 with
              | h1 :: h2 :: h3 :: h4 :: r2 =>
                  match hex4 h1 h2 h3 h4, parse_string_body r2 with
                  | Some u, Some (body, rest) => Some (u :: body, rest)
                  | _, _ => None
                  end
              | _ => None
              end
            else None
        | [] => None
        end
      else if c <? 32 then None
      else
        match parse_string_body r with
        | Some (body, rest) => Some (c :: body, rest)
        | None => None
        end
  end.

Fixpoint span_digits (s : jsstring) : jsstring * jsstring :=
  match s with
  | c :: r =>
      if is_digit c then let '(ds, rest) := span_digits r in (c :: ds, rest)
      else ([], s)
  | [] => ([], [])
  end.

(** A number literal: an optional minus sign, an integer part ([0], or a
    non-zero digit and more digits), an optional fraction (a dot and at least
    one digit) and an optional exponent ([e] or [E], an optional sign and at
    least one digit). *)
Definition parse_number (s : jsstring) : option (jsstring * jsstring) :=
  let '(sign, s1) :=
    match s with
    | c :: r => if c =? 45 then ([c], r) else ([], s)
    | [] => ([], s)
    end in
  let int_part :=
    match s1 with
    | c :: r =>
        if c =? 48 then Some ([c], r)
        else if is_digit c then
          let '(ds, rest) := span_digits r in Some (c :: ds, rest)
        else None
    | [] => None
    end in
  match int_part with
  | None => None
  | Some (ip, s2) =>
      let frac :=
        match s2 with
        | c :: r =>
            if c =? 46 then
              match span_digits r with
              | ([], _) => None
              | (ds, rest) => Some (c :: ds, rest)
              end
            else Some ([], s2)
        | [] => Some ([], s2)
        end in
      match frac with
      | None => None
      | Some (fp, s3) =>
          let expo :=
            match s3 with
            | c :: r =>
                if (c =? 101) || (c =? 69) then
                  let '(sg, r1) :=
                    match r with
                    | d :: r' =>
                        if (d =? 43) || (d =? 45) then ([d], r') else ([], r)
                    | [] => ([], r)
                    end in
                  match span_digits r1 with
                  | ([], _) => None
                  | (ds, rest) => Some (c :: sg ++ ds, rest)
                  end
                else Some ([], s3)
            | [] => Some ([], s3)
            end in
          match expo with
          | None => None
          | Some (ep, s4) => Some (sign ++ ip ++ fp ++ ep, s4)
          end
      end
  end.

Definition strip_prefix (p s : jsstring) : option jsstring :=
  if startsWith s p then Some (drop (length p) s) else None.

(** Recursive descent over the JSON grammar.  The fuel bounds the number of
    nested calls; [JSON_parse] supplies more than any text can use. *)
Fixpoint parse_value (fuel : nat) (s : jsstring) : option (json * jsstring) :=
  match fuel with
  | O => None
  | S f =>
      match skip_ws s with
      | [] => None
      | c :: r =>
          if c =? LBRACE then
            match skip_ws r with
            | c' :: r' =>
                if c' =? RBRACE then Some (JObj [], r')
                else parse_members f (c' :: r') []
            | [] => None
            end
          else if c =? LBRACKET then
            match skip_ws r with
            | c' :: r' =>
                if c' =? RBRACKET then Some (JArr [], r')
                else parse_elements f (c' :: r') []
            | [] => None
            end
          else if c =? DQUOTE then
            match parse_string_body r with
            | Some (body, rest) => Some (JStr body, rest)
            | None => None
            end
          else if c =? 116 then
            match strip_prefix (str "true") (c :: r) with
            | Some rest => Some (JBool true, rest)
            | None => None
            end
          else if c =? 102 then
            match strip_prefix (str "false") (c :: r) with
            | Some rest => Some (JBool false, rest)
            | None => None
            end
          else if c =? 110 then
            match strip_prefix (str "null") (c :: r) with
            | Some rest => Some (JNull, rest)
            | None => None
            end
          else
            match parse_number (c :: r) with
            | Some (lit, rest) => Some (JNum lit, rest)
            | None => None
            end
      end
  end
with parse_elements (fuel : nat) (s : jsstring) (acc : list json)
  : option (json * jsstring) :=
  match fuel with
  | O => None
  | S f =>
      match parse_value f s with
      | None => None
      | Some (v, rest) =>
          match skip_ws rest with
          | c :: r =>
              if c =? 44 then parse_elements f r (v :: acc)
              else if c =? RBRACKET then Some (JArr (rev (v :: acc)), r)
              else None
          | [] => None
          end
      end
  end
with parse_members (fuel : nat) (s : jsstring) (acc : list (jsstring * json))
  : option (json * jsstring) :=
  match fuel with
  | O => None
  | S f =>
      match skip_ws s with
      | c :: r =>
          if c =? DQUOTE then
            match parse_string_body r with
            | None => None
            | Some (key, rest) =>
                match skip_ws rest with
                | c1 :: r1 =>
                    if c1 =? 58 then
                      match parse_value f r1 with
                      | None => None
                      | Some (v, rest2) =>
                          match skip_ws rest2 with
                          | c2 :: r2 =>
                              if c2 =? 44 then
                                parse_members f r2 ((key, v) :: acc)
                              else if c2 =? RBRACE then
                                Some (JObj (rev ((key, v) :: acc)), r2)
                              else None
                          | [] => None
                          end
                      end
                    else None
                | [] => None
                end
            end
          else None
      | [] => None
      end
  end.

(** [JSON.parse]: [None] stands for the [SyntaxError] it throws. *)
Definition JSON_parse (s : jsstring) : option json :=
  match parse_value (2 * length s + 2) s with
  | Some (v, rest) =>
      match skip_ws rest with
      | [] => Some v
      | _ :: _ => None
      end
  | None => None
  end.

Definition JSON_valid (s : jsstring) : bool :=
  match JSON_parse s with Some _ => true | None => false end.

(** [JSON.stringify], without indentation.  Quoting follows
    [QuoteJSONString]: short escapes, [\u00xx] for the other control
    characters and for lone surrogates. *)
Definition hex_digit (n : N) : char := if n <? 10 then 48 + n else 87 + n.

Definition unicode_escape (c : char) : jsstring :=
  [BACKSLASH; 117; hex_digit (c / 4096); hex_digit ((c / 256) mod 16);
   hex_digit ((c / 16) mod 16); hex_digit (c mod 16)].

Definition is_high_surrogate (c : char) : bool := (55296 <=? c) && (c <=? 56319).
Definition is_low_surrogate (c : char) : bool := (56320 <=? c) && (c <=? 57343).

Definition quote_unit (c : char) : jsstring :=
  if c =? 8 then [BACKSLASH; 98]
  else if c =? 9 then [BACKSLASH; 116]
  else if c =? 10 then [BACKSLASH; 110]
  else if c =? 12 then [BACKSLASH; 102]
  else if c =? 13 then [BACKSLASH; 114]
  else if c =? DQUOTE then [BACKSLASH; DQUOTE]
  else if c =? BACKSLASH then [BACKSLASH; BACKSLASH]
  else if c <? 32 then unicode_escape c
  else if is_high_surrogate c || is_low_surrogate c then unicode_escape c
  else [c].

Fixpoint quote_body (s : jsstring) : jsstring :=
  match s with
  | [] => []
  | c :: r =>
      match r with
      | d :: r' =>
          if is_high_surrogate c && is_low_surrogate d
          then c :: d :: quote_body r'
          else quote_unit c ++ quote_body r
      | [] => quote_unit c
      end
  end.

Definition quote (s : jsstring) : jsstring :=
  DQUOTE :: quote_body s ++ [DQUOTE].

(** The text of a value: [JSON.stringify] of the JavaScript value it stands
    for.  A number is printed as the literal it carries, the members of an
    object in the order written. *)
Fixpoint JSON_stringify (j : json) : jsstring :=
  match j with
  | JNull => str "null"
  | JBool true => str "true"
  | JBool false => str "false"
  | JNum lit => lit
  | JStr s => quote s
  | JArr l => LBRACKET :: join [44] (List.map JSON_stringify l) ++ [RBRACKET]
  | JObj ms =>
      LBRACE
        :: join [44]
             (List.map (fun kv => quote (fst kv) ++ 58 :: JSON_stringify (snd kv)) ms)
        ++ [RBRACE]
  end.

(** Whether a number literal denotes zero: no digit other than [0] before
    the exponent. *)
Fixpoint mantissa_zero (lit : jsstring) : bool :=
  match lit with
  | [] => true
  | c :: r =>
      if (c =? 101) || (c =? 69) then true
      else ((c =? 48) || (c =? 45) || (c =? 46)) && mantissa_zero r
  end.

(** Truthiness of a JSON value. *)
Definition truthy (j : json) : bool :=
  match j with
  | JNull => false
  | JBool b => b
  | JNum lit => negb (mantissa_zero lit)
  | JStr s => truthy_str s
  | JArr _ | JObj _ => true
  end.

End Json.

Import Json.

(** ** [jsonUtils.ts] *)

Module JsonUtils.

(** The loop of [extractJsonFromPosition] over the text from the current
    index on: the number of characters up to and including the bracket that
    brings [bracketCount] back to zero. *)
Fixpoint match_close (openChar closeChar : char) (s : jsstring)
    (bracketCount : Z) (inString escapeNext : bool) : option nat :=
  match s with
  | [] => None
  | currentChar :: r =>
      if escapeNext then
        S <$> match_close openChar closeChar r bracketCount inString false
      else if currentChar =? BACKSLASH then
        S <$> match_close openChar closeChar r bracketCount inString true
      else if currentChar =? DQUOTE then
        S <$> match_close openChar closeChar r bracketCount (negb inString) false
      else if negb inString then
        if currentChar =? openChar then
          S <$> match_close openChar closeChar r (bracketCount + 1) inString false
        else if currentChar =? closeChar then
          if (bracketCount - 1 =? 0)%Z then Some 1%nat
          else S <$> match_close openChar closeChar r (bracketCount - 1) inString false
        else S <$> match_close openChar closeChar r bracketCount inString false
      else S <$> match_close openChar closeChar r bracketCount inString false
  end.

Definition extractJsonFromPosition (text : jsstring) (startIndex : nat)
  : option jsstring :=
  match drop startIndex text with
  | [] => None
  | char :: _ =>
      if negb (char =? LBRACE) && negb (char =? LBRACKET) then None
      else
        let isObject := char =? LBRACE in
        let openChar := if isObject then LBRACE else LBRACKET in
        let closeChar := if isObject then RBRACE else RBRACKET in
        match match_close openChar closeChar (drop startIndex text) 0 false false with
        | Some n => Some (substring startIndex (startIndex + n) text)
        | None => None
        end
  end.

Definition fence : jsstring := [BACKTICK; BACKTICK; BACKTICK].

(** The part of both code-block patterns after the opening fence and before
    the capture group: [(?:json|JSON)?\s*\n?].  Every piece is greedy; the
    pieces contain no backtick, so giving characters back never finds a
    closing fence that the greedy choice misses. *)
Definition skip_lang (s : jsstring) : jsstring :=
  if startsWith s (str "json") then drop 4 s
  else if startsWith s (str "JSON") then drop 4 s
  else s.

Definition skip_optional_newline (s : jsstring) : jsstring :=
  match s with
  | c :: r => if c =? LF then r else s
  | [] => []
  end.

Definition after_opening_fence (s : jsstring) : jsstring :=
  skip_optional_newline (trimStart (skip_lang s)).

(** The lazy capture group followed by [\n?```]: the shortest capture after
    which an optional newline and a fence follow. *)
Fixpoint capture_until_fence (s : jsstring) : option jsstring :=
  if startsWith s (LF :: fence) || startsWith s fence then Some []
  else
    match s with
    | [] => None
    | c :: r => cons c <$> capture_until_fence r
    end.

(** The same with the end-of-input anchor after the fence. *)
Fixpoint capture_until_final_fence (s : jsstring) : option jsstring :=
  if str_eqb s (LF :: fence) || str_eqb s fence then Some []
  else
    match s with
    | [] => None
    | c :: r => cons c <$> capture_until_final_fence r
    end.

(** [trimmed.match(codeBlockPattern)]: the first capture group, if the
    anchored pattern matches. *)
Definition match_codeBlockPattern (s : jsstring) : option jsstring :=
  if startsWith s fence
  then capture_until_final_fence (after_opening_fence (drop 3 s))
  else None.

(** [trimmed.match(codeBlockWithTextPattern)]: the first capture group of the
    leftmost match. *)
Fixpoint match_codeBlockWithTextPattern (s : jsstring) : option jsstring :=
  match s with
  | [] => None
  | _ :: r =>
      match
        (if startsWith s fence
         then capture_until_fence (after_opening_fence (drop 3 s))
         else None)
      with
      | Some cap => Some cap
      | None => match_codeBlockWithTextPattern r
      end
  end.

(** The candidates of pattern 3, in the order of their start index. *)
Definition jsonCandidates (trimmed : jsstring) : list jsstring :=
  omap
    (fun i =>
       match drop i trimmed with
       | char :: _ =>
           if (char =? LBRACE) || (char =? LBRACKET) then
             match extractJsonFromPosition trimmed i with
             | Some candidate =>
                 if truthy_str candidate then Some candidate else None
             | None => None
             end
           else None
       | [] => None
       end)
    (seq 0 (length trimmed)).

(** [Array.prototype.sort] with the comparator [b.length - a.length]: a
    stable sort, longest first. *)
Fixpoint insert_by_length (x : jsstring) (l : list jsstring) : list jsstring :=
  match l with
  | [] => [x]
  | y :: l' =>
      if (length y <=? length x)%nat then x :: l
      else y :: insert_by_length x l'
  end.

Definition sort_longest_first (l : list jsstring) : list jsstring :=
  foldr insert_by_length [] l.

(** Pattern 4: from the first opening bracket, count brackets of its kind
    (strings are not recognised here) up to the one that closes it. *)
Fixpoint first_bracket (s : jsstring) : option nat :=
  match s with
  | [] => None
  | c :: r =>
      if (c =? LBRACE) || (c =? LBRACKET) then Some 0%nat
      else S <$> first_bracket r
  end.

Fixpoint count_to_close (openChar closeChar : char) (s : jsstring)
    (bracketCount : Z) : option nat :=
  match s with
  | [] => None
  | char :: r =>
      if char =? openChar then
        S <$> count_to_close openChar closeChar r (bracketCount + 1)
      else if char =? closeChar then
        if (bracketCount - 1 =? 0)%Z then Some 0%nat
        else S <$> count_to_close openChar closeChar r (bracketCount - 1)
      else S <$> count_to_close openChar closeChar r bracketCount
  end.

Definition pattern4_candidate (cleaned : jsstring) : option jsstring :=
  match first_bracket cleaned with
  | None => None
  | Some startIndex =>
      let candidateFromStart := drop startIndex cleaned in
      let isObject :=
        match candidateFromStart with c :: _ => c =? LBRACE | [] => false end in
      let openChar := if isObject then LBRACE else LBRACKET in
      let closeChar := if isObject then RBRACE else RBRACKET in
      match count_to_close openChar closeChar candidateFromStart 0 with
      | Some endIndex => Some (substring 0 (endIndex + 1) candidateFromStart)
      | None => None
      end
  end.

(** Pattern 5, [^.*?(\{[\s\S]*\}|\[[\s\S]*\]).*?$].  [greedy_to_close] is
    the greedy body of one alternative after its opening bracket: it ends at
    the last closing bracket, which the rest of the line must follow without
    a line terminator. *)
Fixpoint greedy_rev (closeChar : char) (reversed : jsstring) : option jsstring :=
  match reversed with
  | [] => None
  | c :: r =>
      if c =? closeChar then Some reversed
      else if is_line_terminator c then None
      else greedy_rev closeChar r
  end.

Definition greedy_to_close (closeChar : char) (rest : jsstring) : option jsstring :=
  (fun body => rev body) <$> greedy_rev closeChar (rev rest).

Fixpoint match_jsonWithContextPattern (s : jsstring) : option jsstring :=
  match s with
  | [] => None
  | c :: r =>
      let here :=
        if c =? LBRACE then cons c <$> greedy_to_close RBRACE r
        else if c =? LBRACKET then cons c <$> greedy_to_close RBRACKET r
        else None in
      match here with
      | Some cap => Some cap
      | None =>
          if is_line_terminator c then None
          else match_jsonWithContextPattern r
      end
  end.

Definition pattern5_candidate (cleaned : jsstring) : option jsstring :=
  trim <$> match_jsonWithContextPattern cleaned.

Definition valid_candidate (o : option jsstring) : option jsstring :=
  match o with
  | Some candidate => if JSON_valid candidate then Some candidate else None
  | None => None
  end.

Definition extractJsonFromText (text : jsstring) : jsstring :=
  let trimmed := trim text in
  match match_codeBlockPattern trimmed with
  | Some m1 => trim m1
  | None =>
      match match_codeBlockWithTextPattern trimmed with
      | Some m1 => trim m1
      | None =>
          match List.find JSON_valid (sort_longest_first (jsonCandidates trimmed)) with
          | Some candidate => candidate
          | None =>
              match valid_candidate (pattern4_candidate trimmed) with
              | Some candidate => candidate
              | None =>
                  match valid_candidate (pattern5_candidate trimmed) with
                  | Some candidate => candidate
                  | None => trimmed
                  end
              end
          end
      end
  end.

(** A text contains a fenced code block when two fences occur in it without
    overlapping. *)
Definition fenced_block (s : jsstring) : Prop :=
  exists a b c, s = a ++ fence ++ b ++ fence ++ c.

(** [parseJsonFromText]: [None] is the error thrown by [JSON.parse]. *)
Definition parseJsonFromText (text : jsstring) : option json :=
  JSON_parse (extractJsonFromText text).

(** [a] comes before [b] in a list sorted by [b.length - a.length]. *)
Definition longest_first (a b : jsstring) : Prop :=
  (length b <= length a)%nat.

End JsonUtils.

(** ** Following the specification: string-aware bracket matching

    The specification describes the candidates of the third strategy: from
    every opening brace or bracket, the text up to the matching close, found
    by a scan of the bracket depth that tracks the quote state and the
    backslash-escape state.  The definitions below say that without the
    loop of the source; the properties relate the two. *)

Module BracketMatching.

Import JS JsonUtils.

(** The state of a scan that tracks the bracket depth, the quote state and
    the backslash-escape state. *)
Record Scan : Type := {
  depth : Z;
  inside_string : bool;
  after_backslash : bool
}.

Definition scan_start : Scan :=
  {| depth := 0; inside_string := false; after_backslash := false |}.

(** One character: the character after a backslash is passed over; a quote
    opens or closes a string literal; outside string literals a bracket of
    the kind looked for changes the depth. *)
Definition scan_char (openChar closeChar : char) (st : Scan) (c : char) : Scan :=
  if after_backslash st then
    {| depth := depth st; inside_string := inside_string st;
       after_backslash := false |}
  else if c =? BACKSLASH then
    {| depth := depth st; inside_string := inside_string st;
       after_backslash := true |}
  else if c =? DQUOTE then
    {| depth := depth st; inside_string := negb (inside_string st);
       after_backslash := false |}
  else if inside_string st then st
  else if c =? openChar then
    {| depth := depth st + 1; inside_string := false; after_backslash := false |}
  else if c =? closeChar then
    {| depth := depth st - 1; inside_string := false; after_backslash := false |}
  else st.

Definition scan_from (openChar closeChar : char) (st : Scan) (s : jsstring) : Scan :=
  fold_left (scan_char openChar closeChar) s st.

(** A text that is not empty and after which the depth is zero. *)
Definition balanced (openChar closeChar : char) (s : jsstring) : Prop :=
  s <> [] /\ depth (scan_from openChar closeChar scan_start s) = 0%Z.

(** [candidate] is the bracket-matched substring of [text] at [i]: it is the
    part of the text that starts at [i] with an opening brace or bracket and
    ends at the matching close, the first place where the depth is back to
    zero. *)
Definition bracket_matched (text : jsstring) (i : nat) (candidate : jsstring)
  : Prop :=
  exists openChar closeChar before after,
    text = before ++ candidate ++ after /\
    length before = i /\
    ((openChar = LBRACE /\ closeChar = RBRACE) \/
     (openChar = LBRACKET /\ closeChar = RBRACKET)) /\
    head candidate = Some openChar /\
    balanced openChar closeChar candidate /\
    forall n, (n < length candidate)%nat ->
              ~ balanced openChar closeChar (take n candidate).

(** The candidate of pattern 3 at a start index. *)
Definition candidate_at (trimmed : jsstring) (i : nat) : option jsstring :=
  match drop i trimmed with
  | char :: _ =>
      if (char =? LBRACE) || (char =? LBRACKET) then
        match extractJsonFromPosition trimmed i with
        | Some candidate => if truthy_str candidate then Some candidate else None
        | None => None
        end
      else None
  | [] => None
  end.

End BracketMatching.

(** ** [contentGenerator.ts]: the enum [AuthType] *)

Module AuthTypes.

Import JS.

Inductive AuthType : Type :=
  | LOGIN_WITH_GOOGLE_PERSONAL
  | USE_GEMINI
  | USE_VERTEX_AI
  | USE_DEEPSEEK
  | USE_OPENAI_LIKE
  | USE_AZURE_OPENAI.

(** The string value of a member of the enum. *)
Definition authType_value (t : AuthType) : jsstring :=
  match t with
  | LOGIN_WITH_GOOGLE_PERSONAL => str "oauth-personal"
  | USE_GEMINI => str "gemini-api-key"
  | USE_VERTEX_AI => str "vertex-ai"
  | USE_DEEPSEEK => str "deepseek-api-key"
  | USE_OPENAI_LIKE => str "openai-like-api"
  | USE_AZURE_OPENAI => str "azure-openai"
  end.

(** The members of the enum, by name. *)
Definition AuthType_members : list (string * AuthType) :=
  [ ("LOGIN_WITH_GOOGLE_PERSONAL", LOGIN_WITH_GOOGLE_PERSONAL);
    ("USE_GEMINI", USE_GEMINI);
    ("USE_VERTEX_AI", USE_VERTEX_AI);
    ("USE_DEEPSEEK", USE_DEEPSEEK);
    ("USE_OPENAI_LIKE", USE_OPENAI_LIKE);
    ("USE_AZURE_OPENAI", USE_AZURE_OPENAI) ]%string.

(** The expression [AuthType.NAME]: the value of the member of that name,
    and [undefined] ([None]) when the enum has no such member. *)
Definition AuthType_member (name : string) : option jsstring :=
  (fun m => authType_value m.2)
    <$> List.find (fun m => String.eqb m.1 name) AuthType_members.

End AuthTypes.

(** ** [config/auth.ts] *)

Module Auth.

Import JS.
Export AuthTypes.

(** The argument of [validateAuthMethod], of type [string | AuthType]: a
    string, or [undefined] ([None]), which is what a caller passes who
    writes a member that the enum does not have. *)
Definition AuthMethod : Type := option jsstring.

(** A member of the enum as an argument. *)
Definition OfType (t : AuthType) : AuthMethod := Some (authType_value t).

(** [a === b] on such values. *)
Definition same (a b : option jsstring) : bool :=
  match a, b with
  | None, None => true
  | Some x, Some y => str_eqb x y
  | _, _ => false
  end.

Record AuthValidationResult : Type := {
  message : jsstring;
  missing : list string
}.

(** [process.env]: variable names to values. *)
Abbreviation Env := (gmap string jsstring).

(** [!!process.env.NAME]: the variable is present and not empty. *)
Definition is_set (env : Env) (name : string) : bool :=
  truthy_opt (env !! name).

Definition BULLET : char := 8226.

Definition retry_hint : jsstring :=
  str "Update your environment and try again (no reload needed if using .env)!".

Definition azure_message : jsstring :=
  str "When using Azure OpenAI, you must specify the following environment variables:"
    ++ [LF] ++ [BULLET] ++ str " AZURE_OPENAI_API_KEY"
    ++ [LF] ++ [BULLET] ++ str " AZURE_OPENAI_ENDPOINT"
    ++ [LF] ++ retry_hint.

(** The message of the second Azure block. *)
Definition azure_model_message : jsstring :=
  str "When using Azure OpenAI, you must specify the following environment variables:"
    ++ [LF] ++ [BULLET] ++ str " AZURE_OPENAI_API_KEY"
    ++ [LF] ++ [BULLET] ++ str " AZURE_OPENAI_ENDPOINT"
    ++ [LF] ++ [BULLET] ++ str " AZURE_OPENAI_MODEL"
    ++ [LF] ++ retry_hint.

Definition vertex_message : jsstring :=
  str "When using Vertex AI, you must specify either:"
    ++ [LF] ++ [BULLET]
    ++ str " GOOGLE_CLOUD_PROJECT and GOOGLE_CLOUD_LOCATION environment variables."
    ++ [LF] ++ [BULLET]
    ++ str " GOOGLE_API_KEY environment variable (if using express mode)."
    ++ [LF] ++ retry_hint.

(** [missing.push(name)] under [if (!process.env.name)]. *)
Definition push_if_unset (env : Env) (name : string) (missing : list string)
  : list string :=
  if negb (is_set env name) then missing ++ [name] else missing.

Section ValidateAuthMethod.

(** [loadEnvironment] of [settings.ts] updates [process.env] from the
    project's [.env] file before the checks read it. *)
Variable loadEnvironment : Env -> Env.

(** [None] is the [null] result.  The tests are those of the source, in its
    order; each compares the argument with a member expression. *)
Definition validateAuthMethod (process_env : Env) (authMethod : AuthMethod)
  : option AuthValidationResult :=
  let env := loadEnvironment process_env in
  if same authMethod (AuthType_member "CLOUD_SHELL") then None
  else if same authMethod (AuthType_member "LOGIN_WITH_GOOGLE") then
    if negb (is_set env "GOOGLE_CLOUD_PROJECT") then
      Some {| message :=
                str "GOOGLE_CLOUD_PROJECT environment variable not found. Add that to your environment and try again (no reload needed if using .env)!";
              missing := ["GOOGLE_CLOUD_PROJECT"%string] |}
    else None
  else if same authMethod (AuthType_member "USE_GEMINI") then
    if negb (is_set env "GEMINI_API_KEY") then
      Some {| message :=
                str "GEMINI_API_KEY environment variable not found. Add that to your environment and try again (no reload needed if using .env)!";
              missing := ["GEMINI_API_KEY"%string] |}
    else None
  else if same authMethod (AuthType_member "USE_VERTEX_AI") then
    let hasVertexProjectLocationConfig :=
      is_set env "GOOGLE_CLOUD_PROJECT" && is_set env "GOOGLE_CLOUD_LOCATION" in
    let hasGoogleApiKey := is_set env "GOOGLE_API_KEY" in
    if negb hasVertexProjectLocationConfig && negb hasGoogleApiKey then
      let missing0 := push_if_unset env "GOOGLE_CLOUD_PROJECT" [] in
      let missing1 := push_if_unset env "GOOGLE_CLOUD_LOCATION" missing0 in
      let missing2 := push_if_unset env "GOOGLE_API_KEY" missing1 in
      Some {| message := vertex_message; missing := missing2 |}
    else None
  else if same authMethod (AuthType_member "AZURE_OPENAI") then
    let missing0 := push_if_unset env "AZURE_OPENAI_API_KEY" [] in
    let missing1 := push_if_unset env "AZURE_OPENAI_ENDPOINT" missing0 in
    if (0 <? length missing1)%nat then
      Some {| message := azure_message; missing := missing1 |}
    else None
  else if same authMethod (AuthType_member "AZURE_OPENAI") then
    let missing0 := push_if_unset env "AZURE_OPENAI_API_KEY" [] in
    let missing1 := push_if_unset env "AZURE_OPENAI_ENDPOINT" missing0 in
    let missing2 := push_if_unset env "AZURE_OPENAI_MODEL" missing1 in
    if (0 <? length missing2)%nat then
      Some {| message := azure_model_message; missing := missing2 |}
    else None
  else
    Some {| message := str "Invalid auth method selected."; missing := [] |}.

End ValidateAuthMethod.

(** The result for a method that no test recognises. *)
Definition invalid_method : AuthValidationResult :=
  {| message := str "Invalid auth method selected."; missing := [] |}.

End Auth.

(** ** [azureOpenaiContentGenerator.ts]: requests *)

Module Azure.

(** *** Types of [@google/genai] the adapter reads

    Every property of these interfaces is optional; [None] is an absent
    property. *)

Record FunctionCall : Type := {
  fc_id : option jsstring;
  fc_name : option jsstring;
  fc_args : option json
}.

Record FunctionResponse : Type := {
  fr_id : option jsstring;
  fr_name : option jsstring;
  fr_response : option json
}.

(** A part is an object; the adapter asks which of the keys [text],
    [functionCall] and [functionResponse] it has.  One object can have
    several of them. *)
Record Part : Type := {
  text : option jsstring;
  functionCall : option FunctionCall;
  functionResponse : option FunctionResponse
}.

Record Content : Type := {
  role : option jsstring;
  parts : option (list Part)
}.

Definition text_part (s : jsstring) : Part :=
  {| text := Some s; functionCall := None; functionResponse := None |}.

Definition functionCall_part (fc : FunctionCall) : Part :=
  {| text := None; functionCall := Some fc; functionResponse := None |}.

Definition functionResponse_part (fr : FunctionResponse) : Part :=
  {| text := None; functionCall := None; functionResponse := Some fr |}.

Definition empty_part : Part :=
  {| text := None; functionCall := None; functionResponse := None |}.

(** [ContentListUnion]: one content, string or part, or an array of them. *)
Inductive ContentOrPart : Type :=
  | AContent (c : Content)
  | AString (s : jsstring)
  | APart (p : Part).

Inductive ContentListUnion : Type :=
  | One (x : ContentOrPart)
  | Many (xs : list ContentOrPart).

(** [toContent].  The declared type has no array at this place, so the
    branch that throws on an array has no input here.  An object is taken as
    a content when it has the key [parts]. *)
Definition toContent (content : ContentOrPart) : Content :=
  match content with
  | AString s => {| role := Some (str "user"); parts := Some [text_part s] |}
  | AContent c =>
      match parts c with
      | Some _ => c
      | None => {| role := Some (str "user"); parts := Some [empty_part] |}
      end
  | APart p => {| role := Some (str "user"); parts := Some [p] |}
  end.

Definition toContents (contents : ContentListUnion) : list Content :=
  match contents with
  | Many xs => List.map toContent xs
  | One x => [toContent x]
  end.

(** *** Wire messages *)

Record ToolCall : Type := {
  tc_id : jsstring;
  tc_type : jsstring;
  tc_name : option jsstring;
  tc_arguments : jsstring
}.

(** The [content] of a message: a string, [null], or [undefined] (what
    [JSON.stringify(undefined)] gives). *)
Inductive MessageContent : Type :=
  | ContentString (s : jsstring)
  | ContentNull
  | ContentUndefined.

Record OpenAILikeMessage : Type := {
  m_role : option jsstring;
  m_content : MessageContent;
  m_tool_calls : option (list ToolCall);
  m_tool_call_id : option jsstring
}.

(** [Date.now()]: the readings the clock gives during one conversion, by
    the number of earlier readings. *)
Definition Clock := nat -> N.

(** [content.role === 'model' ? 'assistant' : content.role]. *)
Definition mapRole (r : option jsstring) : option jsstring :=
  match r with
  | Some s => if str_eqb s (str "model") then Some (str "assistant") else Some s
  | None => None
  end.

Definition synthesized_id (now : N) (index : nat) : jsstring :=
  str "call_" ++ decimal now ++ str "_" ++ decimal (N.of_nat index).

(** [part.functionCall.args || {}]. *)
Definition args_or_empty (args : option json) : json :=
  match args with
  | Some a => if truthy a then a else JObj []
  | None => JObj []
  end.

(** The callback of [functionCalls.map] at one function call, with the
    number [ticks] of clock readings taken before it. *)
Definition toolCall_of (clock : Clock) (ticks : nat) (fc : FunctionCall)
    (index : nat) : ToolCall * nat :=
  let '(id, ticks') :=
    match fc_id fc with
    | Some i => if truthy_str i then (i, ticks)
                else (synthesized_id (clock ticks) index, S ticks)
    | None => (synthesized_id (clock ticks) index, S ticks)
    end in
  ({| tc_id := id;
      tc_type := str "function";
      tc_name := fc_name fc;
      tc_arguments := JSON_stringify (args_or_empty (fc_args fc)) |},
   ticks').

Fixpoint toolCalls_from (clock : Clock) (ticks : nat) (index : nat)
    (functionCalls : list FunctionCall) : list ToolCall * nat :=
  match functionCalls with
  | [] => ([], ticks)
  | fc :: rest =>
      let '(tc, ticks1) := toolCall_of clock ticks fc index in
      let '(tcs, ticks2) := toolCalls_from clock ticks1 (S index) rest in
      (tc :: tcs, ticks2)
  end.

(** [textParts.map(part => part.text).join('\n')]. *)
Definition combinedText (textParts : list jsstring) : jsstring :=
  join [LF] textParts.

(** [JSON.stringify(functionResponse.response)]. *)
Definition stringify_response (response : option json) : MessageContent :=
  match response with
  | Some v => ContentString (JSON_stringify v)
  | None => ContentUndefined
  end.

(** The body of the loop of [convertToOpenAIMessages] for one content: the
    messages it pushes. *)
Definition convertContent (clock : Clock) (ticks : nat) (content : Content)
  : list OpenAILikeMessage * nat :=
  let role := mapRole (role content) in
  let parts := default [] (parts content) in
  let functionCalls := omap functionCall parts in
  let functionResponses := omap functionResponse parts in
  let textParts := omap text parts in
  if (0 <? length functionCalls)%nat then
    let '(tool_calls, ticks') := toolCalls_from clock ticks 0 functionCalls in
    let combined := combinedText textParts in
    ([{| m_role := role;
         m_content := if truthy_str combined then ContentString combined
                      else ContentNull;
         m_tool_calls := Some tool_calls;
         m_tool_call_id := None |}],
     ticks')
  else if (0 <? length functionResponses)%nat then
    (List.map
       (fun fr =>
          {| m_role := Some (str "tool");
             m_content := stringify_response (fr_response fr);
             m_tool_calls := None;
             m_tool_call_id := fr_id fr |})
       functionResponses,
     ticks)
  else if (0 <? length textParts)%nat then
    ([{| m_role := role;
         m_content := ContentString (combinedText textParts);
         m_tool_calls := None;
         m_tool_call_id := None |}],
     ticks)
  else ([], ticks).

Fixpoint convertContents_from (clock : Clock) (ticks : nat)
    (contents : list Content) : list OpenAILikeMessage * nat :=
  match contents with
  | [] => ([], ticks)
  | content :: rest =>
      let '(ms, ticks1) := convertContent clock ticks content in
      let '(ms', ticks2) := convertContents_from clock ticks1 rest in
      (ms ++ ms', ticks2)
  end.

Definition convertToOpenAIMessages (clock : Clock) (contents : list Content)
  : list OpenAILikeMessage :=
  fst (convertContents_from clock 0 contents).

(** [m.content || '']. *)
Definition content_or_empty (c : MessageContent) : jsstring :=
  match c with
  | ContentString s => s
  | ContentNull | ContentUndefined => []
  end.

(** [Math.ceil(n / 4)] for a string length [n]: the division by four and the
    rounding are exact in double precision. *)
Definition ceil_div4 (n : nat) : nat := ((n + 3) / 4)%nat.

Definition totalText (clock : Clock) (contents : ContentListUnion) : jsstring :=
  join [SPACE]
    (List.map (fun m => content_or_empty (m_content m))
       (convertToOpenAIMessages clock (toContents contents))).

(** [countTokens]: the [totalTokens] of the response the promise resolves
    to. *)
Definition countTokens (clock : Clock) (contents : ContentListUnion) : nat :=
  ceil_div4 (length (totalText clock contents)).

(** Predicates on parts, as the three filters of the source have them. *)
Definition has_functionCall (p : Part) : bool :=
  match functionCall p with Some _ => true | None => false end.
Definition has_functionResponse (p : Part) : bool :=
  match functionResponse p with Some _ => true | None => false end.
Definition has_text (p : Part) : bool :=
  match text p with Some _ => true | None => false end.

(** A text turn: at least one text part, no function call and no function
    result. *)
Definition text_only_turn (c : Content) : bool :=
  let ps := default [] (parts c) in
  existsb has_text ps
  && forallb (fun p => negb (has_functionCall p) && negb (has_functionResponse p)) ps.

(** The function calls before position [i] that carry no usable id: each of
    them takes one reading of the clock. *)
Definition readings_before (i : nat) (functionCalls : list FunctionCall) : nat :=
  length (List.filter (fun fc => negb (truthy_opt (fc_id fc))) (take i functionCalls)).

(** Sample turns. *)
Definition sample_call : FunctionCall :=
  {| fc_id := None; fc_name := Some (str "read_file"); fc_args := None |}.

Definition sample_result : FunctionResponse :=
  {| fr_id := Some (str "call_7"); fr_name := Some (str "read_file");
     fr_response := Some (JObj [(str "ok", JBool true)]) |}.

Definition user_turn_with_call : Content :=
  {| role := Some (str "user"); parts := Some [functionCall_part sample_call] |}.

Definition model_turn_with_call : Content :=
  {| role := Some (str "model");
     parts := Some [text_part (str "Reading"); functionCall_part sample_call;
                    text_part (str "the file")] |}.

Definition user_turn_with_call_and_result : Content :=
  {| role := Some (str "user");
     parts := Some [functionCall_part sample_call;
                    functionResponse_part sample_result] |}.

Definition tool_turn_with_call_and_result : Content :=
  {| role := Some (str "tool");
     parts := Some [functionResponse_part sample_result;
                    functionCall_part sample_call] |}.

Definition sample_clock : Clock := fun k => 1700000000000 + N.of_nat k.

Definition text_conversation : list Content :=
  [ {| role := Some (str "user"); parts := Some [text_part (str "Hello")] |};
    {| role := Some (str "model");
       parts := Some [text_part (str "Hi"); text_part (str "there")] |};
    {| role := Some (str "system"); parts := Some [text_part (str "Be brief")] |} ].

Definition four_hundred_characters : ContentListUnion :=
  One (AString (repeat 97 400)).

(** Whether a projection is defined on a value. *)
Definition defined {A B : Type} (f : A -> option B) (a : A) : bool :=
  match f a with Some _ => true | None => false end.

End Azure.

(** ** [azureOpenaiContentGenerator.ts]: responses *)

Module AzureResponse.

Import Azure.

(** [OpenAILikeResponse], with the properties the adapter reads. *)
Record WireToolCall : Type := {
  wtc_id : jsstring;
  wtc_name : jsstring;
  wtc_arguments : jsstring
}.

Record WireMessage : Type := {
  wm_role : jsstring;
  wm_content : option jsstring;
  wm_tool_calls : option (list WireToolCall)
}.

Record Choice : Type := {
  ch_message : WireMessage;
  ch_finish_reason : jsstring
}.

Record Usage : Type := {
  prompt_tokens : Z;
  completion_tokens : Z;
  total_tokens : Z
}.

Record OpenAILikeResponse : Type := {
  choices : list Choice;
  usage : Usage
}.

(** [GenerateContentResponse], with the [functionCalls] property that the
    adapter defines on it. *)
Record Candidate : Type := {
  cand_parts : list Part;
  cand_role : jsstring;
  finishReason : option jsstring;
  cand_index : Z;
  safetyRatings : list json
}.

Record UsageMetadata : Type := {
  promptTokenCount : Z;
  candidatesTokenCount : Z;
  totalTokenCount : Z
}.

Record GenerateContentResponse : Type := {
  candidates : list Candidate;
  functionCalls : option (list FunctionCall);
  usageMetadata : option UsageMetadata
}.

(** What the conversion can throw. *)
Inductive Error : Type :=
  | NoChoices
  | JSONSyntaxError (text : jsstring).

Inductive Result (A : Type) : Type :=
  | Ok (a : A)
  | Throw (e : Error).

Arguments Ok {A} a.
Arguments Throw {A} e.

Definition bind {A B : Type} (r : Result A) (k : A -> Result B) : Result B :=
  match r with
  | Ok a => k a
  | Throw e => Throw e
  end.

(** [xs.map(f)] where [f] can throw: the first failure ends the map. *)
Fixpoint mapM {A B : Type} (f : A -> Result B) (xs : list A) : Result (list B) :=
  match xs with
  | [] => Ok []
  | x :: rest =>
      bind (f x) (fun y => bind (mapM f rest) (fun ys => Ok (y :: ys)))
  end.

(** [arguments || '{}']. *)
Definition arguments_text (arguments : option jsstring) : jsstring :=
  match arguments with
  | Some a => if truthy_str a then a else str "{}"
  | None => str "{}"
  end.

(** [JSON.parse(arguments || '{}')]. *)
Definition parse_arguments (arguments : option jsstring) : Result json :=
  let text := arguments_text arguments in
  match JSON_parse text with
  | Some v => Ok v
  | None => Throw (JSONSyntaxError text)
  end.

Definition candidate (ps : list Part) (finish : option jsstring) : Candidate :=
  {| cand_parts := ps;
     cand_role := str "model";
     finishReason := finish;
     cand_index := 0%Z;
     safetyRatings := [] |}.

Definition functionCall_of_toolCall (toolCall : WireToolCall) : Result FunctionCall :=
  bind (parse_arguments (Some (wtc_arguments toolCall)))
    (fun args =>
       Ok {| fc_id := Some (wtc_id toolCall);
             fc_name := Some (wtc_name toolCall);
             fc_args := Some args |}).

Definition convertToGeminiResponse (response : OpenAILikeResponse)
  : Result GenerateContentResponse :=
  match choices response with
  | [] => Throw NoChoices
  | choice :: _ =>
      let text_response :=
        Ok {| candidates :=
                [candidate
                   [text_part (default [] (wm_content (ch_message choice)))]
                   (Some (ch_finish_reason choice))];
              functionCalls := None;
              usageMetadata :=
                Some {| promptTokenCount := prompt_tokens (usage response);
                        candidatesTokenCount := completion_tokens (usage response);
                        totalTokenCount := total_tokens (usage response) |} |} in
      match wm_tool_calls (ch_message choice) with
      | Some tool_calls =>
          if (0 <? length tool_calls)%nat then
            let parts0 :=
              if truthy_opt (wm_content (ch_message choice))
              then [text_part (default [] (wm_content (ch_message choice)))]
              else [] in
            bind (mapM functionCall_of_toolCall tool_calls) (fun functionCalls1 =>
            bind (mapM functionCall_of_toolCall tool_calls) (fun functionCallsArray =>
              Ok {| candidates :=
                      [candidate (parts0 ++ List.map functionCall_part functionCalls1)
                         (Some (ch_finish_reason choice))];
                    functionCalls := Some functionCallsArray;
                    usageMetadata := None |}))
          else text_response
      | None => text_response
      end
  end.

(** Sample responses. *)
Definition response_with (arguments : jsstring) : OpenAILikeResponse :=
  {| choices :=
       [{| ch_message :=
             {| wm_role := str "assistant";
                wm_content := None;
                wm_tool_calls :=
                  Some [{| wtc_id := str "call_1";
                           wtc_name := str "read_file";
                           wtc_arguments := arguments |}] |};
           ch_finish_reason := str "tool_calls" |}];
     usage := {| prompt_tokens := 3; completion_tokens := 5; total_tokens := 8 |} |}.

End AzureResponse.

(** ** [azureOpenaiContentGenerator.ts]: the streaming generator *)

Module AzureStream.

Import Azure AzureResponse.

(** [OpenAILikeStreamChunk], with the properties the generator reads. *)
Record FunctionDelta : Type := {
  fd_name : option jsstring;
  fd_arguments : option jsstring
}.

Record ToolCallDelta : Type := {
  d_index : option Z;
  d_id : option jsstring;
  d_type : option jsstring;
  d_function : option FunctionDelta
}.

Record Delta : Type := {
  delta_content : option jsstring;
  delta_tool_calls : option (list ToolCallDelta)
}.

Record StreamChoice : Type := {
  delta : Delta;
  finish_reason : option jsstring
}.

Record OpenAILikeStreamChunk : Type := {
  chunk_choices : option (list StreamChoice)
}.

(** The records of [accumulatedToolCalls]. *)
Record AccumulatedFunction : Type := {
  af_name : option jsstring;
  af_arguments : option jsstring
}.

Record AccumulatedToolCall : Type := {
  acc_id : option jsstring;
  acc_type : option jsstring;
  acc_function : option AccumulatedFunction
}.

Definition empty_record : AccumulatedToolCall :=
  {| acc_id := None; acc_type := None; acc_function := None |}.

(** A JavaScript [Map] from numbers to records: its entries in insertion
    order, one per key. *)
Definition ToolCallMap := list (Z * AccumulatedToolCall).

Definition map_has (m : ToolCallMap) (index : Z) : bool :=
  existsb (fun kv => (kv.1 =? index)%Z) m.

(** [m.set(index, {})] for a key the map does not have. *)
Definition map_add (m : ToolCallMap) (index : Z) : ToolCallMap :=
  m ++ [(index, empty_record)].

(** Updating in place the record that [m.get(index)] returns. *)
Fixpoint map_update (m : ToolCallMap) (index : Z)
    (f : AccumulatedToolCall -> AccumulatedToolCall) : ToolCallMap :=
  match m with
  | [] => []
  | (k, v) :: rest =>
      if (k =? index)%Z then (k, f v) :: rest
      else (k, v) :: map_update rest index f
  end.


(** [Array.from(m.values())]. *)
Definition map_values (m : ToolCallMap) : list AccumulatedToolCall :=
  List.map snd m.

(** [(old || '') + fragment]. *)
Definition append_fragment (old : option jsstring) (fragment : jsstring)
  : option jsstring :=
  Some ((if truthy_opt old then default [] old else []) ++ fragment).

Definition mergeFunction (accumulated : option AccumulatedFunction)
    (fd : FunctionDelta) : option AccumulatedFunction :=
  let f0 := default {| af_name := None; af_arguments := None |} accumulated in
  let name1 :=
    match fd_name fd with
    | Some n => if truthy_str n then append_fragment (af_name f0) n else af_name f0
    | None => af_name f0
    end in
  let arguments1 :=
    match fd_arguments fd with
    | Some a =>
        if truthy_str a then append_fragment (af_arguments f0) a
        else af_arguments f0
    | None => af_arguments f0
    end in
  Some {| af_name := name1; af_arguments := arguments1 |}.

(** The assignments made to the accumulated record for one delta. *)
Definition mergeDelta (toolCallDelta : ToolCallDelta)
    (accumulated : AccumulatedToolCall) : AccumulatedToolCall :=
  {| acc_id := if truthy_opt (d_id toolCallDelta) then d_id toolCallDelta
               else acc_id accumulated;
     acc_type := if truthy_opt (d_type toolCallDelta) then d_type toolCallDelta
                 else acc_type accumulated;
     acc_function :=
       match d_function toolCallDelta with
       | Some fd => mergeFunction (acc_function accumulated) fd
       | None => acc_function accumulated
       end |}.

(** The body of the loop over [choice.delta.tool_calls]. *)
Definition applyDelta (m : ToolCallMap) (toolCallDelta : ToolCallDelta)
  : ToolCallMap :=
  let index := default 0%Z (d_index toolCallDelta) in
  let m1 := if map_has m index then m else map_add m index in
  map_update m1 index (mergeDelta toolCallDelta).

Record StreamState : Type := {
  buffer : jsstring;
  accumulatedToolCalls : ToolCallMap;
  accumulatedContent : jsstring
}.

Definition initial_state : StreamState :=
  {| buffer := []; accumulatedToolCalls := []; accumulatedContent := [] |}.

(** The state with another buffer. *)
Definition with_buffer (b : jsstring) (st : StreamState) : StreamState :=
  {| buffer := b;
     accumulatedToolCalls := accumulatedToolCalls st;
     accumulatedContent := accumulatedContent st |}.

(** How the handling of one line ends: the loop goes on, the generator
    returns, or an exception reaches the [catch] of the line. *)
Inductive Outcome : Type :=
  | Continue
  | Return
  | Thrown (e : Error).

Definition response_of (ps : list Part) (finish : option jsstring)
    (calls : option (list FunctionCall)) : GenerateContentResponse :=
  {| candidates := [candidate ps finish];
     functionCalls := calls;
     usageMetadata := None |}.

(** [toolCall.id && toolCall.function?.name]. *)
Definition is_complete (toolCall : AccumulatedToolCall) : bool :=
  truthy_opt (acc_id toolCall)
  && match acc_function toolCall with
     | Some f => truthy_opt (af_name f)
     | None => false
     end.

Definition record_arguments (toolCall : AccumulatedToolCall) : option jsstring :=
  match acc_function toolCall with
  | Some f => af_arguments f
  | None => None
  end.

Definition record_name (toolCall : AccumulatedToolCall) : option jsstring :=
  match acc_function toolCall with
  | Some f => af_name f
  | None => None
  end.

Definition functionCall_of_record (toolCall : AccumulatedToolCall)
  : Result FunctionCall :=
  bind (parse_arguments (record_arguments toolCall))
    (fun args =>
       Ok {| fc_id := acc_id toolCall;
             fc_name := record_name toolCall;
             fc_args := Some args |}).

(** The state after the content delta and the tool-call deltas of a choice
    are taken in. *)
Definition accumulate (st : StreamState) (choice : StreamChoice) : StreamState :=
  {| buffer := buffer st;
     accumulatedToolCalls :=
       match delta_tool_calls (delta choice) with
       | Some deltas => foldl applyDelta (accumulatedToolCalls st) deltas
       | None => accumulatedToolCalls st
       end;
     accumulatedContent :=
       if truthy_opt (delta_content (delta choice))
       then accumulatedContent st ++ default [] (delta_content (delta choice))
       else accumulatedContent st |}.

(** The response yielded for a content delta, if the choice has one. *)
Definition content_responses (choice : StreamChoice) : list GenerateContentResponse :=
  if truthy_opt (delta_content (delta choice))
  then [response_of [text_part (default [] (delta_content (delta choice)))]
          (finish_reason choice) None]
  else [].

(** The statements inside [try] for a parsed chunk: the responses yielded,
    the state left, and how the block ends. *)
Definition handleChunk (st : StreamState) (chunk : OpenAILikeStreamChunk)
  : list GenerateContentResponse * StreamState * Outcome :=
  match chunk_choices chunk with
  | Some (choice :: _) =>
      let yielded := content_responses choice in
      let st1 := accumulate st choice in
      if truthy_opt (finish_reason choice) then
        if (0 <? length (accumulatedToolCalls st1))%nat then
          let parts0 :=
            if truthy_str (accumulatedContent st1)
            then [text_part (accumulatedContent st1)] else [] in
          let complete :=
            List.filter is_complete (map_values (accumulatedToolCalls st1)) in
          match mapM functionCall_of_record complete with
          | Throw e => (yielded, st1, Thrown e)
          | Ok functionCalls1 =>
              match mapM functionCall_of_record complete with
              | Throw e => (yielded, st1, Thrown e)
              | Ok functionCallsArray =>
                  (yielded
                     ++ [response_of
                           (parts0 ++ List.map functionCall_part functionCalls1)
                           (finish_reason choice) (Some functionCallsArray)],
                   st1, Return)
              end
          end
        else
          (yielded ++ [response_of [] (finish_reason choice) None], st1, Return)
      else (yielded, st1, Continue)
  | _ => ([], st, Continue)
  end.

(** [try { ... } catch (parseError) { console.warn(...) }]: an exception
    ends the handling of the line and the loop goes on. *)
Definition processChunk (st : StreamState) (chunk : OpenAILikeStreamChunk)
  : list GenerateContentResponse * StreamState * bool :=
  let '(yielded, st1, outcome) := handleChunk st chunk in
  (yielded, st1, match outcome with Return => true | _ => false end).

(** The generator on a sequence of parsed chunks: what it yields. *)
Fixpoint runChunks (st : StreamState) (chunks : list OpenAILikeStreamChunk)
  : list GenerateContentResponse :=
  match chunks with
  | [] => []
  | chunk :: rest =>
      let '(yielded, st1, returned) := processChunk st chunk in
      if returned then yielded else yielded ++ runChunks st1 rest
  end.

(** *** The deltas a stream delivers

    These functions read a sequence of chunks as a stream of tool-call
    deltas in order of arrival, with the fragments they carry. *)

Definition first_choice (chunk : OpenAILikeStreamChunk) : option StreamChoice :=
  match chunk_choices chunk with
  | Some (choice :: _) => Some choice
  | _ => None
  end.

(** The chunk's choice carries a finish reason that ends the stream. *)
Definition finishes (chunk : OpenAILikeStreamChunk) : bool :=
  match first_choice chunk with
  | Some choice => truthy_opt (finish_reason choice)
  | None => false
  end.

Definition chunk_deltas (chunk : OpenAILikeStreamChunk) : list ToolCallDelta :=
  match first_choice chunk with
  | Some choice => default [] (delta_tool_calls (delta choice))
  | None => []
  end.

Definition chunk_content (chunk : OpenAILikeStreamChunk) : jsstring :=
  match first_choice chunk with
  | Some choice => default [] (delta_content (delta choice))
  | None => []
  end.

Definition chunk_content_responses (chunk : OpenAILikeStreamChunk)
  : list GenerateContentResponse :=
  match first_choice chunk with
  | Some choice => content_responses choice
  | None => []
  end.

Definition argument_fragment (d : ToolCallDelta) : jsstring :=
  match d_function d with
  | Some fd => default [] (fd_arguments fd)
  | None => []
  end.

Definition name_fragment (d : ToolCallDelta) : jsstring :=
  match d_function d with
  | Some fd => default [] (fd_name fd)
  | None => []
  end.

(** The id of the last delta that carries a non-empty one. *)
Fixpoint last_id (deltas : list ToolCallDelta) : option jsstring :=
  match deltas with
  | [] => None
  | d :: rest =>
      match last_id rest with
      | Some i => Some i
      | None => if truthy_opt (d_id d) then d_id d else None
      end
  end.

(** [o || '']. *)
Definition text_of (o : option jsstring) : jsstring :=
  if truthy_opt o then default [] o else [].

(** The index under which a delta is accumulated: [index ?? 0]. *)
Definition delta_index (d : ToolCallDelta) : Z := default 0%Z (d_index d).


(** The finish reason on the chunk's choice. *)
Definition chunk_finish_reason (chunk : OpenAILikeStreamChunk) : option jsstring :=
  match first_choice chunk with
  | Some choice => finish_reason choice
  | None => None
  end.

(** [mergeDelta] with the record first, to fold over deltas. *)
Definition merge (r : AccumulatedToolCall) (d : ToolCallDelta) : AccumulatedToolCall :=
  mergeDelta d r.

(** The state after a chunk that does not end the stream. *)
Definition absorb (st : StreamState) (chunk : OpenAILikeStreamChunk) : StreamState :=
  match first_choice chunk with
  | Some choice => accumulate st choice
  | None => st
  end.

(** Sample chunks. *)
Definition tool_delta (id name arguments : option jsstring) : OpenAILikeStreamChunk :=
  {| chunk_choices :=
       Some [{| delta :=
                  {| delta_content := None;
                     delta_tool_calls :=
                       Some [{| d_index := Some 0%Z;
                                d_id := id;
                                d_type := Some (str "function");
                                d_function :=
                                  Some {| fd_name := name;
                                          fd_arguments := arguments |} |}] |};
                finish_reason := None |}] |}.

Definition content_delta (content : jsstring) : OpenAILikeStreamChunk :=
  {| chunk_choices :=
       Some [{| delta := {| delta_content := Some content;
                            delta_tool_calls := None |};
                finish_reason := None |}] |}.

Definition finish_choice (reason : jsstring) : StreamChoice :=
  {| delta := {| delta_content := None; delta_tool_calls := None |};
     finish_reason := Some reason |}.

Definition finish_chunk (reason : jsstring) : OpenAILikeStreamChunk :=
  {| chunk_choices := Some [finish_choice reason] |}.

(** A tool call whose argument string arrives in three deltas. *)
Definition three_fragments : list OpenAILikeStreamChunk :=
  [ tool_delta (Some (str "call_1")) (Some (str "read_file")) (Some (dq "{'pa"));
    tool_delta None None (Some (dq "th': 'a"));
    tool_delta None None (Some (dq ".txt'}")) ].

(** [buffer.split('\n')]: never empty. *)
Fixpoint split_lines (s : jsstring) : list jsstring :=
  match s with
  | [] => [[]]
  | c :: r =>
      if c =? LF then [] :: split_lines r
      else
        match split_lines r with
        | segment :: segments => (c :: segment) :: segments
        | [] => [[c]]
        end
  end.

Section Generator.

(** [JSON.parse(jsonStr)] read at the type [OpenAILikeStreamChunk]; [None]
    when it throws. *)
Variable parseChunk : jsstring -> option OpenAILikeStreamChunk.

(** The chunk a line carries, if it is a data line that parses. *)
Definition frame_of (line : jsstring) : option OpenAILikeStreamChunk :=
  let trimmed := trim line in
  if str_eqb trimmed [] || str_eqb trimmed (str "data: [DONE]") then None
  else if startsWith trimmed (str "data: ") then parseChunk (slice_from 6 trimmed)
  else None.

Definition processLine (st : StreamState) (line : jsstring)
  : list GenerateContentResponse * StreamState * bool :=
  match frame_of line with
  | Some chunk => processChunk st chunk
  | None => ([], st, false)
  end.

Fixpoint processLines (st : StreamState) (lines : list jsstring)
  : list GenerateContentResponse * StreamState * bool :=
  match lines with
  | [] => ([], st, false)
  | line :: rest =>
      let '(yielded, st1, returned) := processLine st line in
      if returned then (yielded, st1, true)
      else
        let '(yielded', st2, returned') := processLines st1 rest in
        (yielded ++ yielded', st2, returned')
  end.

(** The [while] loop over [reader.read()]: [reads] are the decoded values
    the reader delivers before it reports [done]. *)
Fixpoint readLoop (st : StreamState) (reads : list jsstring)
  : list GenerateContentResponse :=
  match reads with
  | [] => []
  | value :: rest =>
      let segments := split_lines (buffer st ++ value) in
      let lines := removelast segments in
      let st0 := with_buffer (List.last segments []) st in
      let '(yielded, st1, returned) := processLines st0 lines in
      if returned then yielded else yielded ++ readLoop st1 rest
  end.

(** What the generator returned by [generateContentStream] yields. *)
Definition generateContentStream (reads : list jsstring)
  : list GenerateContentResponse :=
  readLoop initial_state reads.

(** A text without a newline: what the buffer holds between two reads. *)
Definition no_newline (s : jsstring) : Prop :=
  forallb (fun c => negb (c =? LF)) s = true.

(** The chunks of a stream: those carried by the lines that end in a
    newline, in order. *)
Definition complete_lines (received : jsstring) : list jsstring :=
  removelast (split_lines received).

Definition frames (reads : list jsstring) : list OpenAILikeStreamChunk :=
  omap frame_of (complete_lines (concat reads)).

End Generator.

(** The generator on a sequence of parsed chunks, with the state it is left
    in and whether it has returned. *)
Fixpoint stepChunks (st : StreamState) (chunks : list OpenAILikeStreamChunk)
  : list GenerateContentResponse * StreamState * bool :=
  match chunks with
  | [] => ([], st, false)
  | chunk :: rest =>
      let '(yielded, st1, returned) := processChunk st chunk in
      if returned then (yielded, st1, true)
      else
        let '(yielded', st2, returned') := stepChunks st1 rest in
        (yielded ++ yielded', st2, returned')
  end.

(** *** Reading a parsed value at the type [OpenAILikeStreamChunk]

    The theorems take [parseChunk] as a parameter.  The sample streams use
    the function below, for payloads that have the declared types: a
    property is read when the value has the declared type and is taken as
    absent otherwise; of two members with one key the later one counts, as
    in [JSON.parse]; an [index] is read when its literal denotes an integer
    that JavaScript numbers hold exactly. *)

Definition get_member (key : string) (j : option json) : option json :=
  match j with
  | Some (JObj members) =>
      snd <$> List.find (fun kv => str_eqb kv.1 (str key)) (rev members)
  | _ => None
  end.

Definition as_string (j : option json) : option jsstring :=
  match j with Some (JStr s) => Some s | _ => None end.

Definition as_array (j : option json) : option (list json) :=
  match j with Some (JArr l) => Some l | _ => None end.

Definition as_object (j : option json) : option json :=
  match j with Some (JObj ms) => Some (JObj ms) | _ => None end.

Fixpoint digits_value (acc : Z) (s : jsstring) : option Z :=
  match s with
  | [] => Some acc
  | c :: r =>
      if is_digit c then digits_value (acc * 10 + Z.of_N (c - 48))%Z r
      else None
  end.

(** The integer a number literal denotes, with its fraction and its
    exponent taken in: [1], [1.0] and [10e-1] denote the same integer.
    [None] for a literal that denotes no integer, or one beyond [2^53]. *)
Definition literal_integer (lit : jsstring) : option Z :=
  let '(negative, s1) :=
    match lit with
    | c :: r => if c =? 45 then (true, r) else (false, lit)
    | [] => (false, lit)
    end in
  let '(ip, s2) := span_digits s1 in
  let '(fp, s3) :=
    match s2 with
    | c :: r => if c =? 46 then span_digits r else ([], s2)
    | [] => ([], s2)
    end in
  let exponent : option Z :=
    match s3 with
    | [] => Some 0%Z
    | c :: r =>
        if (c =? 101) || (c =? 69) then
          match r with
          | d :: r' =>
              if d =? 45 then Z.opp <$> digits_value 0%Z r'
              else if d =? 43 then digits_value 0%Z r'
              else digits_value 0%Z r
          | [] => None
          end
        else None
    end in
  match ip, digits_value 0%Z (ip ++ fp), exponent with
  | _ :: _, Some m, Some e =>
      let scale := (e - Z.of_nat (length fp))%Z in
      let magnitude :=
        if (m =? 0)%Z then Some 0%Z
        else if (0 <=? scale)%Z then Some (m * 10 ^ scale)%Z
        else if (m mod 10 ^ (- scale) =? 0)%Z then Some (m / 10 ^ (- scale))%Z
        else None in
      match magnitude with
      | Some v =>
          if (v <=? 2 ^ 53)%Z then Some (if negative then (- v)%Z else v)
          else None
      | None => None
      end
  | _, _, _ => None
  end.

Definition as_integer (j : option json) : option Z :=
  match j with
  | Some (JNum lit) => literal_integer lit
  | _ => None
  end.

Definition decodeToolCallDelta (j : json) : ToolCallDelta :=
  {| d_index := as_integer (get_member "index" (Some j));
     d_id := as_string (get_member "id" (Some j));
     d_type := as_string (get_member "type" (Some j));
     d_function :=
       (fun f => {| fd_name := as_string (get_member "name" (Some f));
                    fd_arguments := as_string (get_member "arguments" (Some f)) |})
         <$> as_object (get_member "function" (Some j)) |}.

(** A choice that has a [delta].  The generator reads [choices[0]] only,
    and [parseChunk_json] below gives no chunk when that choice has no
    [delta]. *)
Definition decodeChoice (j : json) : StreamChoice :=
  let d := get_member "delta" (Some j) in
  {| delta :=
       {| delta_content := as_string (get_member "content" d);
          delta_tool_calls :=
            (fun l => List.map decodeToolCallDelta l)
              <$> as_array (get_member "tool_calls" d) |};
     finish_reason := as_string (get_member "finish_reason" (Some j)) |}.

Definition decodeChunk (j : json) : OpenAILikeStreamChunk :=
  {| chunk_choices :=
       (fun l => List.map decodeChoice l)
         <$> as_array (get_member "choices" (Some j)) |}.

(** [JSON.parse(jsonStr)] read as a chunk.  [None] stands for an exception
    thrown in the [try] of the line before anything is yielded or
    accumulated: the [SyntaxError] of [JSON.parse], or the [TypeError] of
    [choice.delta.content] when the first choice is truthy and its [delta]
    is missing or [null].  A first choice that is falsy is no choice. *)
Definition parseChunk_json (payload : jsstring) : option OpenAILikeStreamChunk :=
  match JSON_parse payload with
  | Some j =>
      match as_array (get_member "choices" (Some j)) with
      | Some (choice :: _) =>
          if truthy choice then
            match get_member "delta" (Some choice) with
            | None | Some JNull => None
            | Some _ => Some (decodeChunk j)
            end
          else Some {| chunk_choices := None |}
      | _ => Some (decodeChunk j)
      end
  | None => None
  end.

(** A line with the payload of a data frame. *)
Definition data_line (payload : jsstring) : jsstring :=
  str "data: " ++ payload ++ [LF].

(** A stream in which the argument string of one tool call arrives in three
    deltas, followed by the finish frame, the end marker and one more
    frame.  It is cut into two reads in the middle of a line. *)
Definition three_fragment_text : jsstring :=
  data_line (dq "{'choices':[{'delta':{'tool_calls':[{'index':0,'id':'call_1','type':'function','function':{'name':'read_file','arguments':'{\'pa'}}]},'finish_reason':null}]}")
  ++ data_line (dq "{'choices':[{'delta':{'tool_calls':[{'index':0,'function':{'arguments':'th\': \'a'}}]},'finish_reason':null}]}")
  ++ data_line (dq "{'choices':[{'delta':{'tool_calls':[{'index':0,'function':{'arguments':'.txt\'}'}}]},'finish_reason':null}]}")
  ++ data_line (dq "{'choices':[{'delta':{},'finish_reason':'tool_calls'}]}")
  ++ data_line (str "[DONE]")
  ++ data_line (dq "{'choices':[{'delta':{'content':'late'},'finish_reason':null}]}").

Definition three_fragment_reads : list jsstring :=
  [take 200 three_fragment_text; drop 200 three_fragment_text].



(** A finish frame whose finish reason is the empty string, and a frame
    after it. *)
Definition empty_finish_reads : list jsstring :=
  [ data_line (dq "{'choices':[{'delta':{},'finish_reason':''}]}")
    ++ data_line (dq "{'choices':[{'delta':{'content':'late'},'finish_reason':null}]}") ].

(** A tool call whose argument string is cut short, the finish frame, and a
    frame after it. *)
Definition cut_arguments_reads : list jsstring :=
  [ data_line (dq "{'choices':[{'delta':{'tool_calls':[{'index':0,'id':'call_1','function':{'name':'read_file','arguments':'{'}}]},'finish_reason':null}]}")
    ++ data_line (dq "{'choices':[{'delta':{},'finish_reason':'tool_calls'}]}")
    ++ data_line (dq "{'choices':[{'delta':{'content':'late'},'finish_reason':null}]}") ].

(** A stream without tool calls that ends with the finish reason [stop]. *)
Definition text_stream_reads : list jsstring :=
  [ data_line (dq "{'choices':[{'delta':{'content':'Hel'},'finish_reason':null}]}")
    ++ data_line (dq "{'choices':[{'delta':{'content':'lo'},'finish_reason':null}]}");
    data_line (dq "{'choices':[{'delta':{},'finish_reason':'stop'}]}")
    ++ data_line (dq "{'choices':[{'delta':{'content':'late'},'finish_reason':null}]}") ].

End AzureStream.

(** ** [azureOpenaiContentGenerator.ts]: tool declarations

    [convertSchemaTypeToLowerCase] writes into the object it is given, so
    objects live in a heap here: a value is a primitive or a reference to a
    cell, and a cell is an object (its properties, one per key) or an
    array. *)

Module AzureTools.

Local Open Scope nat_scope.

Inductive val : Type :=
  | VNull
  | VBool (b : bool)
  | VNum (literal : jsstring)
  | VStr (s : jsstring)
  | VRef (l : nat).

Inductive cell : Type :=
  | CObj (fields : list (jsstring * val))
  | CArr (elems : list val).

Abbreviation heap := (list cell).

Inductive key : Type :=
  | KName (name : jsstring)
  | KIndex (i : nat).

Fixpoint get_field (fields : list (jsstring * val)) (name : jsstring) : option val :=
  match fields with
  | [] => None
  | (k, v) :: rest => if str_eqb k name then Some v else get_field rest name
  end.

Fixpoint set_field (fields : list (jsstring * val)) (name : jsstring) (v : val)
  : list (jsstring * val) :=
  match fields with
  | [] => [(name, v)]
  | (k, x) :: rest =>
      if str_eqb k name then (k, v) :: rest else (k, x) :: set_field rest name v
  end.

(** [x[k]] for the keys the adapter uses: a property of an object, an
    element of an array; [None] is [undefined]. *)
Definition read (h : heap) (x : val) (k : key) : option val :=
  match x with
  | VRef l =>
      match h !! l, k with
      | Some (CObj fields), KName name => get_field fields name
      | Some (CArr elems), KIndex i => elems !! i
      | _, _ => None
      end
  | _ => None
  end.

(** [x.name = v] on an object. *)
Definition write (h : heap) (l : nat) (name : jsstring) (v : val) : heap :=
  match h !! l with
  | Some (CObj fields) => <[l := CObj (set_field fields name v)]> h
  | _ => h
  end.

Definition truthy_val (v : val) : bool :=
  match v with
  | VNull => false
  | VBool b => b
  | VNum lit => negb (mantissa_zero lit)
  | VStr s => truthy_str s
  | VRef _ => true
  end.

(** The keys a [for ... in] loop or [forEach] goes through. *)
Definition own_keys (c : cell) : list key :=
  match c with
  | CObj fields => List.map (fun f => KName f.1) fields
  | CArr elems => List.map KIndex (seq 0 (length elems))
  end.

(** The keys of [for (const key in x)].  On a string the loop goes through
    the indices of its characters, and the body finds a one-character string
    at each, on which the recursive call does nothing: the string is given
    no keys here. *)
Definition keys_of (h : heap) (x : val) : list key :=
  match x with
  | VRef l => match h !! l with Some c => own_keys c | None => [] end
  | _ => []
  end.

Definition is_array (h : heap) (x : val) : bool :=
  match x with
  | VRef l => match h !! l with Some (CArr _) => true | _ => false end
  | _ => false
  end.

(** A loop whose body calls [rec] on [container[key]]; [container] is
    evaluated in each round, and reading a property of [undefined] throws. *)
Fixpoint visit (rec : heap -> val -> option heap)
    (container : heap -> option val) (h : heap) (keys : list key)
  : option heap :=
  match keys with
  | [] => Some h
  | k :: rest =>
      match container h with
      | None => None
      | Some c =>
          match (match read h c k with
                 | Some child => rec h child
                 | None => Some h
                 end) with
          | Some h' => visit rec container h' rest
          | None => None
          end
      end
  end.

Section WithToLowerCase.

Context {lower : ToLowerCase}.

Definition TYPE : jsstring := str "type".
Definition PROPERTIES : jsstring := str "properties".
Definition ITEMS : jsstring := str "items".
Definition ANY_OF : jsstring := str "anyOf".
Definition ALL_OF : jsstring := str "allOf".
Definition ONE_OF : jsstring := str "oneOf".

(** [if (Array.isArray(schema.name)) schema.name.forEach(rec)]. *)
Definition forEach_schema (rec : heap -> val -> option heap) (h : heap)
    (schema : val) (name : jsstring) : option heap :=
  match read h schema (KName name) with
  | Some a =>
      if is_array h a then visit rec (fun _ => Some a) h (keys_of h a)
      else Some h
  | None => Some h
  end.

(** [convertSchemaTypeToLowerCase]: the heap it leaves.  [None] stands for a
    run that does not end within [fuel] nested calls, as on a cyclic
    schema. *)
Fixpoint convertSchemaTypeToLowerCase (fuel : nat) (h : heap) (schema : val)
  : option heap :=
  match fuel with
  | O => None
  | S fuel' =>
      match schema with
      | VRef l =>
          let rec := convertSchemaTypeToLowerCase fuel' in
          let h1 :=
            match read h schema (KName TYPE) with
            | Some (VStr s) => write h l TYPE (VStr (toLowerCase s))
            | _ => h
            end in
          match
            match read h1 schema (KName PROPERTIES) with
            | Some p =>
                if truthy_val p
                then visit rec (fun h' => read h' schema (KName PROPERTIES))
                       h1 (keys_of h1 p)
                else Some h1
            | None => Some h1
            end
          with
          | None => None
          | Some h2 =>
              match
                match read h2 schema (KName ITEMS) with
                | Some i => if truthy_val i then rec h2 i else Some h2
                | None => Some h2
                end
              with
              | None => None
              | Some h3 =>
                  match forEach_schema rec h3 schema ANY_OF with
                  | None => None
                  | Some h4 =>
                      match forEach_schema rec h4 schema ALL_OF with
                      | None => None
                      | Some h5 => forEach_schema rec h5 schema ONE_OF
                      end
                  end
              end
          end
      | _ => Some h
      end
  end.

(** [xs.map(f)] for an [f] that can fail. *)
Fixpoint mapO {A B : Type} (f : A -> option B) (xs : list A) : option (list B) :=
  match xs with
  | [] => Some []
  | x :: rest =>
      match f x, mapO f rest with
      | Some y, Some ys => Some (y :: ys)
      | _, _ => None
      end
  end.

(** The JSON tree [JSON.stringify] prints for a value; [None] when the
    traversal does not end within [fuel] nested calls (a cyclic value, on
    which [JSON.stringify] throws) or meets a dangling reference. *)
Fixpoint reify (fuel : nat) (h : heap) (v : val) : option json :=
  match fuel with
  | O => None
  | S fuel' =>
      match v with
      | VNull => Some JNull
      | VBool b => Some (JBool b)
      | VNum lit => Some (JNum lit)
      | VStr s => Some (JStr s)
      | VRef l =>
          match h !! l with
          | Some (CObj fields) =>
              JObj <$> mapO (fun f => pair f.1 <$> reify fuel' h f.2) fields
          | Some (CArr elems) => JArr <$> mapO (reify fuel' h) elems
          | None => None
          end
      end
  end.

(** The objects [JSON.parse] builds for a tree, put at the end of the heap:
    the new heap and the value of the root.  The elements of an array and
    the members of an object are built first, from left to right. *)
Definition alloc_elems (alloc : json -> heap -> heap * val)
  : list json -> heap -> heap * list val :=
  fix go (js : list json) (h : heap) : heap * list val :=
    match js with
    | [] => (h, [])
    | x :: rest =>
        let r1 := alloc x h in
        let r2 := go rest r1.1 in
        (r2.1, r1.2 :: r2.2)
    end.

Definition alloc_members (alloc : json -> heap -> heap * val)
  : list (jsstring * json) -> heap -> heap * list (jsstring * val) :=
  fix go (ms : list (jsstring * json)) (h : heap) : heap * list (jsstring * val) :=
    match ms with
    | [] => (h, [])
    | m :: rest =>
        let r1 := alloc m.2 h in
        let r2 := go rest r1.1 in
        (r2.1, (m.1, r1.2) :: r2.2)
    end.

Fixpoint alloc (j : json) (h : heap) {struct j} : heap * val :=
  match j with
  | JNull => (h, VNull)
  | JBool b => (h, VBool b)
  | JNum lit => (h, VNum lit)
  | JStr s => (h, VStr s)
  | JArr elems =>
      let r := alloc_elems alloc elems h in
      (r.1 ++ [CArr r.2], VRef (length r.1))
  | JObj members =>
      let r := alloc_members alloc members h in
      (r.1 ++ [CObj r.2], VRef (length r.1))
  end.

(** [JSON.parse(JSON.stringify(v))]: the value is read as a tree and the
    tree is built from new objects. *)
Definition deepCopy (fuel : nat) (h : heap) (v : val) : option (heap * val) :=
  match reify fuel h v with
  | Some j => Some (alloc j h)
  | None => None
  end.

(** An [OpenAILikeTool]; its [type] is always ['function']. *)
Record OpenAILikeTool : Type := {
  tool_name : val;
  tool_description : val;
  tool_parameters : val
}.

(** [x || fallback]. *)
Definition or_else (x : option val) (fallback : val) : val :=
  match x with
  | Some v => if truthy_val v then v else fallback
  | None => fallback
  end.

(** The callback of [functionDeclarations.map] on one declaration, an
    object of the heap. *)
Definition convertDeclaration (fuel : nat) (h : heap) (declaration : val)
  : option (heap * OpenAILikeTool) :=
  match declaration with
  | VNull => None
  | _ =>
      let copied :=
        match read h declaration (KName (str "parameters")) with
        | Some p =>
            if truthy_val p then deepCopy fuel h p else Some (alloc (JObj []) h)
        | None => Some (alloc (JObj []) h)
        end in
      match copied with
      | None => None
      | Some (h1, parameters) =>
          match convertSchemaTypeToLowerCase fuel h1 parameters with
          | None => None
          | Some h2 =>
              Some (h2,
                    {| tool_name :=
                         or_else (read h2 declaration (KName (str "name")))
                           (VStr (str "unknown_function"));
                       tool_description :=
                         or_else (read h2 declaration (KName (str "description")))
                           (VStr []);
                       tool_parameters := parameters |})
          end
      end
  end.

Fixpoint convertDeclarations (fuel : nat) (h : heap) (declarations : list val)
  : option (heap * list OpenAILikeTool) :=
  match declarations with
  | [] => Some (h, [])
  | declaration :: rest =>
      match convertDeclaration fuel h declaration with
      | None => None
      | Some (h1, tool) =>
          match convertDeclarations fuel h1 rest with
          | None => None
          | Some (h2, tools) => Some (h2, tool :: tools)
          end
      end
  end.

Definition convertToOpenAITools (fuel : nat) (h : heap)
    (functionDeclarations : option (list val))
  : option (heap * list OpenAILikeTool) :=
  match functionDeclarations with
  | None => Some (h, [])
  | Some declarations => convertDeclarations fuel h declarations
  end.

(** *** The tool of a declaration *)

(** The definitions of this part follow the specification, not the code:
    they say what the tool of a declaration is. *)

(** One of the keys [anyOf], [allOf], [oneOf]. *)
Definition is_combinator (name : jsstring) : bool :=
  str_eqb name ANY_OF || str_eqb name ALL_OF || str_eqb name ONE_OF.

(** A [type] that is a string, lowered. *)
Definition lowered_type (v : json) : json :=
  match v with JStr s => JStr (toLowerCase s) | _ => v end.

(** The values of [properties], lowered. *)
Definition lowered_values (lowered : json -> json) (v : json) : json :=
  match v with
  | JObj ps => JObj (List.map (fun p => (p.1, lowered p.2)) ps)
  | JArr es => JArr (List.map lowered es)
  | _ => v
  end.

(** The elements of a combinator that is an array, lowered. *)
Definition lowered_elements (lowered : json -> json) (v : json) : json :=
  match v with
  | JArr es => JArr (List.map lowered es)
  | _ => v
  end.

Definition lowered_member (lowered : json -> json) (name : jsstring) (v : json)
  : json :=
  if str_eqb name TYPE then lowered_type v
  else if str_eqb name PROPERTIES then lowered_values lowered v
  else if str_eqb name ITEMS then lowered v
  else if is_combinator name then lowered_elements lowered v
  else v.

(** The schema with every [type] string lowered: at the top level, in
    each value of [properties], in [items] and in each element of [anyOf],
    [allOf] and [oneOf], recursively. *)
Fixpoint lowered_schema (j : json) : json :=
  match j with
  | JObj members =>
      JObj (List.map (fun m => (m.1, lowered_member lowered_schema m.1 m.2))
              members)
  | _ => j
  end.

(** Every object of the heap has each of its keys once. *)
Definition well_keyed (h : heap) : Prop :=
  forall l fields, h !! l = Some (CObj fields) -> NoDup (List.map fst fields).

(** The tree of [declaration.parameters || {}]. *)
Definition parameters_tree (h : heap) (declaration : val) (j : json) : Prop :=
  match read h declaration (KName (str "parameters")) with
  | Some p =>
      if truthy_val p then exists fuel, reify fuel h p = Some j else j = JObj []
  | None => j = JObj []
  end.

(** What a tool is for its declaration: the name and the description with
    their defaults, and parameters that print as the lowered tree of the
    declaration's parameters. *)
Definition tool_of (h h' : heap) (declaration : val) (t : OpenAILikeTool) : Prop :=
  tool_name t
  = or_else (read h declaration (KName (str "name"))) (VStr (str "unknown_function")) /\
  tool_description t
  = or_else (read h declaration (KName (str "description"))) (VStr []) /\
  exists j, parameters_tree h declaration j /\
    exists n, forall fuel, n <= fuel ->
      reify fuel h' (tool_parameters t) = Some (lowered_schema j).

(** *** Nested schemas, lowercase types, untouched cells *)

(** [c] is a schema directly under the schema [x]: a value of
    [x.properties], [x.items], or an element of one of the combinator
    arrays. *)
Definition child (h : heap) (x c : val) : Prop :=
  (exists p k, read h x (KName PROPERTIES) = Some p /\ read h p k = Some c)
  \/ read h x (KName ITEMS) = Some c
  \/ (exists name a k,
         (name = ANY_OF \/ name = ALL_OF \/ name = ONE_OF) /\
         read h x (KName name) = Some a /\ is_array h a = true /\
         read h a k = Some c).

(** The schemas nested in [x], [x] included. *)
Inductive schema_position (h : heap) : val -> val -> Prop :=
  | position_here (x : val) : schema_position h x x
  | position_child (x c w : val) :
      child h x c -> schema_position h c w -> schema_position h x w.

Definition type_is_lowercase (h : heap) (w : val) : Prop :=
  forall s, read h w (KName TYPE) = Some (VStr s) -> is_lowercase s.

(** The heap keeps every cell of an earlier heap as it was. *)
Definition unchanged (h h' : heap) : Prop :=
  forall l c, h !! l = Some c -> h' !! l = Some c.

(** A declaration that is an object of the heap and whose parameters
    [JSON.stringify] can print. *)
Definition serializable (h : heap) (declaration : val) : Prop :=
  (exists l fields, declaration = VRef l /\ h !! l = Some (CObj fields)) /\
  forall p, read h declaration (KName (str "parameters")) = Some p ->
            truthy_val p = true -> exists fuel j, reify fuel h p = Some j.

(** *** The relations of the proofs *)

(** The values a cell holds. *)
Definition cell_values (c : cell) : list val :=
  match c with
  | CObj fields => List.map snd fields
  | CArr elems => elems
  end.

(** A property keeps its key, and its value unless it is a string under
    the key [type] that is replaced by a lowercase string. *)
Definition field_lowered (f f' : jsstring * val) : Prop :=
  f'.1 = f.1 /\
  (f'.2 = f.2 \/
   (f.1 = TYPE /\ exists s s', f.2 = VStr s /\ f'.2 = VStr s' /\ is_lowercase s')).

Definition cell_lowered (c c' : cell) : Prop :=
  match c, c' with
  | CObj fields, CObj fields' => Forall2 field_lowered fields fields'
  | CArr elems, CArr elems' => elems' = elems
  | _, _ => False
  end.

(** [h'] is [h] with some [type] strings lowered, none of them in a cell
    below [base]. *)
Definition lowers (base : nat) (h h' : heap) : Prop :=
  length h' = length h /\
  forall l c, h !! l = Some c ->
    exists c', h' !! l = Some c' /\ cell_lowered c c' /\ (l < base -> c' = c).

(** A value that is not a reference below [base]. *)
Definition above (base : nat) (v : val) : Prop :=
  match v with VRef l => base <= l | _ => True end.

(** A value that is not a reference outside [[base, bound)]. *)
Definition within (base bound : nat) (v : val) : Prop :=
  match v with VRef l => base <= l < bound | _ => True end.

(** The cells from [base] on hold no reference below [base]. *)
Definition closed (base : nat) (h : heap) : Prop :=
  forall l c, h !! l = Some c -> base <= l ->
    List.Forall (above base) (cell_values c).

(** The cells from [base] on refer only to cells from [base] on that come
    before them: what [alloc] builds. *)
Definition ordered (base : nat) (h : heap) : Prop :=
  forall l c, h !! l = Some c -> base <= l ->
    List.Forall (within base l) (cell_values c).

(** Every schema nested in [v] has a lowercase [type]. *)
Definition covered (h : heap) (v : val) : Prop :=
  forall w, schema_position h v w -> type_is_lowercase h w.

(** How a value read under a key changes: not at all, or from a string to a
    lowercase string under the key [type]. *)
Definition val_lowered (k : key) (v v' : val) : Prop :=
  v' = v \/
  (k = KName TYPE /\ exists s s', v = VStr s /\ v' = VStr s' /\ is_lowercase s').

(** [rec] lowers every closed heap it is run on, from a value above
    [base]. *)
Definition lowering (base : nat) (rec : heap -> val -> option heap) : Prop :=
  forall h x h', closed base h -> above base x -> rec h x = Some h' ->
                 lowers base h h'.

(** What [alloc] leaves: the heap with new cells after it, each referring
    only to earlier new cells. *)
Definition allocated (base : nat) (h : heap) (r : heap) : Prop :=
  (exists new, r = h ++ new) /\ ordered base r.

(** *** The cells of a tree *)

(** The number of cells [alloc] builds for a tree. *)
Fixpoint size (j : json) : nat :=
  match j with
  | JArr elems => S (list_sum (List.map size elems))
  | JObj members => S (list_sum (List.map (fun m => size m.2) members))
  | _ => 0
  end.

Definition sizes (js : list json) : nat := list_sum (List.map size js).

(** The value [alloc] returns for a tree on a heap of [n] cells. *)
Definition root (j : json) (n : nat) : val :=
  match j with
  | JNull => VNull
  | JBool b => VBool b
  | JNum lit => VNum lit
  | JStr s => VStr s
  | JArr _ | JObj _ => VRef (n + pred (size j))
  end.

Fixpoint roots (js : list json) (n : nat) : list val :=
  match js with
  | [] => []
  | x :: rest => root x n :: roots rest (n + size x)
  end.

Fixpoint fields_at (members : list (jsstring * json)) (n : nat)
  : list (jsstring * val) :=
  match members with
  | [] => []
  | m :: rest => (m.1, root m.2 n) :: fields_at rest (n + size m.2)
  end.

(** The cells [alloc] adds for a tree to a heap of [n] cells. *)
Fixpoint cells (j : json) (n : nat) {struct j} : list cell :=
  match j with
  | JArr elems =>
      (fix go (js : list json) (n : nat) : list cell :=
         match js with
         | [] => []
         | x :: rest => cells x n ++ go rest (n + size x)
         end) elems n
      ++ [CArr (roots elems n)]
  | JObj members =>
      (fix go (ms : list (jsstring * json)) (n : nat) : list cell :=
         match ms with
         | [] => []
         | m :: rest => cells m.2 n ++ go rest (n + size m.2)
         end) members n
      ++ [CObj (fields_at members n)]
  | _ => []
  end.

Fixpoint cells_list (js : list json) (n : nat) : list cell :=
  match js with
  | [] => []
  | x :: rest => cells x n ++ cells_list rest (n + size x)
  end.

(** Every object of the tree has each of its keys once. *)
Fixpoint unique_keys (j : json) : Prop :=
  match j with
  | JArr elems =>
      (fix go (js : list json) : Prop :=
         match js with [] => True | x :: rest => unique_keys x /\ go rest end)
        elems
  | JObj members =>
      NoDup (List.map fst members) /\
      (fix go (ms : list (jsstring * json)) : Prop :=
         match ms with [] => True | m :: rest => unique_keys m.2 /\ go rest end)
        members
  | _ => True
  end.

(** The trees directly under a tree. *)
Definition children (j : json) : list json :=
  match j with
  | JArr elems => elems
  | JObj members => List.map snd members
  | _ => []
  end.

(** The members with the value under one key replaced. *)
Definition update_member (name : jsstring) (f : json -> json)
    (members : list (jsstring * json)) : list (jsstring * json) :=
  List.map (fun m => (m.1, if str_eqb m.1 name then f m.2 else m.2)) members.

(** The cells before those of a member of an object, and the cells after
    them. *)
Definition cells_before (A : heap) (pre : list (jsstring * json)) : heap :=
  A ++ cells_list (List.map snd pre) (length A).

Definition cells_after (A C : heap) (pre : list (jsstring * json))
    (name : jsstring) (jv : json) (post : list (jsstring * json)) : heap :=
  cells_list (List.map snd post) (length A + sizes (List.map snd pre) + size jv)
  ++ CObj (fields_at (pre ++ (name, jv) :: post) (length A)) :: C.

End WithToLowerCase.

(** A sample declaration: an object schema with a nested property, an array
    property and a combinator. *)
Definition sample_heap : heap :=
  [ CObj [(TYPE, VStr (str "STRING"))];
    CObj [(TYPE, VStr (str "INTEGER"))];
    CObj [(TYPE, VStr (str "ARRAY")); (ITEMS, VRef 1)];
    CObj [(TYPE, VStr (str "Boolean"))];
    CObj [(TYPE, VStr (str "NULL"))];
    CArr [VRef 3; VRef 4];
    CObj [(ANY_OF, VRef 5)];
    CObj [(str "path", VRef 0); (str "lines", VRef 2); (str "flag", VRef 6)];
    CObj [(TYPE, VStr (str "OBJECT")); (PROPERTIES, VRef 7)];
    CObj [(str "name", VStr (str "read_file"));
          (str "description", VStr (str "Reads a file"));
          (str "parameters", VRef 8)] ].

Definition sample_declarations : list val := [VRef 9].

(** The tree of the sample parameters, and the tree with its types
    lowered. *)
Definition sample_parameters : json :=
  JObj [(TYPE, JStr (str "OBJECT"));
        (PROPERTIES,
         JObj [(str "path", JObj [(TYPE, JStr (str "STRING"))]);
               (str "lines", JObj [(TYPE, JStr (str "ARRAY"));
                                   (ITEMS, JObj [(TYPE, JStr (str "INTEGER"))])]);
               (str "flag",
                JObj [(ANY_OF, JArr [JObj [(TYPE, JStr (str "Boolean"))];
                                     JObj [(TYPE, JStr (str "NULL"))]])])])].

Definition sample_parameters_lowered : json :=
  JObj [(TYPE, JStr (str "object"));
        (PROPERTIES,
         JObj [(str "path", JObj [(TYPE, JStr (str "string"))]);
               (str "lines", JObj [(TYPE, JStr (str "array"));
                                   (ITEMS, JObj [(TYPE, JStr (str "integer"))])]);
               (str "flag",
                JObj [(ANY_OF, JArr [JObj [(TYPE, JStr (str "boolean"))];
                                     JObj [(TYPE, JStr (str "null"))]])])])].

End AzureTools.

(** ** Values that [JSON.stringify] prints and [JSON.parse] reads back *)

Module JsonText.

Import JS Json.

(** A text that is one JSON number, as a whole. *)
Definition number_literal (lit : jsstring) : bool :=
  match parse_number lit with
  | Some (l, []) => str_eqb l lit
  | _ => false
  end.

(** A value whose numbers are JSON numbers: what [JSON.stringify] prints
    for a JavaScript value without [NaN] and infinities. *)
Fixpoint well_formed (j : json) : bool :=
  match j with
  | JNum lit => number_literal lit
  | JArr l => forallb well_formed l
  | JObj ms => forallb (fun m => well_formed (snd m)) ms
  | _ => true
  end.

(** The digits of a positive integer of at most fifteen digits. *)
Definition integer_digits (s : jsstring) : bool :=
  match s with
  | c :: r =>
      is_digit c && negb (c =? 48) && forallb is_digit r
      && (length r <? 15)%nat
  | [] => false
  end.

(** The text [JSON.stringify] prints for an integer of at most fifteen
    digits: its digits, after a minus sign when it is negative. *)
Definition canonical_integer (lit : jsstring) : bool :=
  str_eqb lit (str "0") || integer_digits lit
  || match lit with
     | c :: r => (c =? 45) && integer_digits r
     | [] => false
     end.

Definition digits_only (s : jsstring) : bool :=
  match s with
  | [] => false
  | _ => forallb is_digit s
  end.

(** A value that [JSON.stringify] prints as it is written here: its numbers
    are integers in the text that [JSON.stringify] prints for them, and its
    objects have each key once and no key made of digits, so that they
    enumerate their members in the order written. *)
Fixpoint printed_as_written (j : json) : bool :=
  match j with
  | JNum lit => canonical_integer lit
  | JArr l => forallb printed_as_written l
  | JObj ms =>
      bool_decide (NoDup (List.map fst ms))
      && forallb (fun m => negb (digits_only (fst m)) && printed_as_written (snd m)) ms
  | _ => true
  end.

(** What can follow a number literal without being read as part of it. *)
Definition ends_number (rest : jsstring) : bool :=
  match rest with
  | [] => true
  | c :: _ => negb (is_digit c || (c =? 46) || (c =? 101) || (c =? 69))
  end.

(** The first character of a printed value: it is not white space and it
    closes no array and no object. *)
Definition opens_value (c : N) : bool :=
  (c =? LBRACE) || (c =? LBRACKET) || (c =? DQUOTE) || (c =? 116) || (c =? 102)
  || (c =? 110) || (c =? 45) || is_digit c.

(** The text printed for [j] is read back as [j], before any text that
    cannot continue a number. *)
Definition parses_back (j : json) : Prop :=
  well_formed j = true ->
  forall fuel rest,
    ends_number rest = true ->
    (2 * length (JSON_stringify j) <= fuel)%nat ->
    parse_value fuel (JSON_stringify j ++ rest) = Some (j, rest).

(** A member of an object, as printed. *)
Definition member_text (kv : jsstring * json) : jsstring :=
  quote (fst kv) ++ 58 :: JSON_stringify (snd kv).

(** A function call whose arguments hold a string with a quote and a line
    break, integers, one of them negative, and a boolean. *)
Definition call_with_arguments : Azure.FunctionCall :=
  {| Azure.fc_id := None;
     Azure.fc_name := Some (str "read_file");
     Azure.fc_args :=
       Some (JObj [(str "path", JStr (dq "a'b" ++ [LF] ++ str "c.txt"));
                   (str "lines", JArr [JNum (str "1"); JNum (str "-25")]);
                   (str "all", JBool false)]) |}.

End JsonText.

(** ** [jsonUtils.ts]: kinds of text *)

Module JsonUtilsText.

Import JS Json JsonUtils.

(** A character that opens no candidate and is part of no fence. *)
Definition plain_char (c : N) : bool :=
  negb (c =? LBRACE) && negb (c =? LBRACKET) && negb (c =? BACKTICK).

(** What [(?:json|JSON)?] matches. *)
Definition language_tag (tag : jsstring) : Prop :=
  tag = [] \/ tag = str "json" \/ tag = str "JSON".

(** Sample texts. *)
Definition text_with_object : jsstring := dq "see {'a': [1]} there".

Definition plain_text : jsstring := str "  This is just plain text with no JSON.  ".

Definition fenced_text : jsstring :=
  fence ++ str "json" ++ LF :: dq "{'key': 'value'}" ++ LF :: fence.

End JsonUtilsText.

(** ** [config/auth.ts]: environments *)

Module AuthEnvironment.

Import JS Auth.

(** The variables the Vertex AI branch looks at, in the order of its tests. *)
Definition vertex_variables : list string :=
  ["GOOGLE_CLOUD_PROJECT"; "GOOGLE_CLOUD_LOCATION"; "GOOGLE_API_KEY"]%string.

(** Loading the environment adds variables and unsets none. *)
Definition keeps_set_variables (loadEnvironment : Env -> Env) : Prop :=
  forall env name, is_set env name = true -> is_set (loadEnvironment env) name = true.

(** An environment with the key of Gemini. *)
Definition gemini_env : Env := <[ "GEMINI_API_KEY"%string := str "secret" ]> ∅.

End AuthEnvironment.

(** ** [contentGenerator.ts], and the constructor of the Azure generator *)

Module ContentGenerator.

Import JS.
Export AuthTypes.

(** [config/models.ts]. *)
Definition DEFAULT_GEMINI_MODEL : jsstring := str "gemini-2.5-pro".
Definition DEFAULT_DEEPSEEK_MODEL : jsstring := str "deepseek-chat".
Definition DEFAULT_OPENAI_LIKE_MODEL : jsstring := str "gpt-3.5-turbo".

Record OpenAILikeConfig : Type := {
  olc_apiKey : jsstring;
  olc_baseUrl : jsstring;
  olc_modelName : jsstring
}.

Record ContentGeneratorConfig : Type := {
  cfg_model : jsstring;
  cfg_apiKey : option jsstring;
  cfg_vertexai : option bool;
  cfg_authType : option AuthType;
  cfg_openaiLikeConfig : option OpenAILikeConfig
}.

(** [x || fallback] on strings. *)
Definition or_string (x : option jsstring) (fallback : jsstring) : jsstring :=
  match x with
  | Some s => if truthy_str s then s else fallback
  | None => fallback
  end.

(** [authType === t]. *)
Definition is_authType (authType : option AuthType) (t : AuthType) : bool :=
  match authType, t with
  | Some LOGIN_WITH_GOOGLE_PERSONAL, LOGIN_WITH_GOOGLE_PERSONAL
  | Some USE_GEMINI, USE_GEMINI
  | Some USE_VERTEX_AI, USE_VERTEX_AI
  | Some USE_DEEPSEEK, USE_DEEPSEEK
  | Some USE_OPENAI_LIKE, USE_OPENAI_LIKE
  | Some USE_AZURE_OPENAI, USE_AZURE_OPENAI => true
  | _, _ => false
  end.

Section CreateContentGeneratorConfig.

(** [getEffectiveModel] of [modelCheck.ts], which asks the service; [None]
    when its promise is rejected. *)
Variable getEffectiveModel : jsstring -> jsstring -> option jsstring.

(** [createContentGeneratorConfig]; [runtimeModel] is the value of
    [config?.getModel?.()]. [None] is a rejected promise. *)
Definition createContentGeneratorConfig (env : Auth.Env)
    (model : option jsstring) (authType : option AuthType)
    (runtimeModel : option jsstring) : option ContentGeneratorConfig :=
  let geminiApiKey := env !! "GEMINI_API_KEY"%string in
  let deepseekApiKey := env !! "DEEPSEEK_API_KEY"%string in
  let openaiLikeApiKey := env !! "OPENAI_LIKE_API_KEY"%string in
  let openaiLikeBaseUrl := env !! "OPENAI_LIKE_BASE_URL"%string in
  let openaiLikeModel := env !! "OPENAI_LIKE_MODEL"%string in
  let googleApiKey := env !! "GOOGLE_API_KEY"%string in
  let googleCloudProject := env !! "GOOGLE_CLOUD_PROJECT"%string in
  let googleCloudLocation := env !! "GOOGLE_CLOUD_LOCATION"%string in
  let effectiveModel := or_string runtimeModel (or_string model DEFAULT_GEMINI_MODEL) in
  let contentGeneratorConfig :=
    {| cfg_model := effectiveModel;
       cfg_apiKey := None;
       cfg_vertexai := None;
       cfg_authType := authType;
       cfg_openaiLikeConfig := None |} in
  if is_authType authType LOGIN_WITH_GOOGLE_PERSONAL then Some contentGeneratorConfig
  else if is_authType authType USE_GEMINI && truthy_opt geminiApiKey then
    (fun m =>
       {| cfg_model := m;
          cfg_apiKey := geminiApiKey;
          cfg_vertexai := None;
          cfg_authType := authType;
          cfg_openaiLikeConfig := None |})
      <$> getEffectiveModel (default [] geminiApiKey) effectiveModel
  else if is_authType authType USE_DEEPSEEK && truthy_opt deepseekApiKey then
    Some {| cfg_model :=
              if negb (truthy_str effectiveModel)
                 || str_eqb effectiveModel DEFAULT_GEMINI_MODEL
              then DEFAULT_DEEPSEEK_MODEL else effectiveModel;
            cfg_apiKey := deepseekApiKey;
            cfg_vertexai := None;
            cfg_authType := authType;
            cfg_openaiLikeConfig := None |}
  else if is_authType authType USE_OPENAI_LIKE && truthy_opt openaiLikeApiKey
          && truthy_opt openaiLikeBaseUrl then
    Some {| cfg_model := or_string openaiLikeModel DEFAULT_OPENAI_LIKE_MODEL;
            cfg_apiKey := None;
            cfg_vertexai := None;
            cfg_authType := authType;
            cfg_openaiLikeConfig :=
              Some {| olc_apiKey := default [] openaiLikeApiKey;
                      olc_baseUrl := default [] openaiLikeBaseUrl;
                      olc_modelName :=
                        or_string openaiLikeModel DEFAULT_OPENAI_LIKE_MODEL |} |}
  else if is_authType authType USE_AZURE_OPENAI
          && truthy_opt (env !! "AZURE_OPENAI_API_KEY"%string)
          && truthy_opt (env !! "AZURE_OPENAI_BASE_URL"%string) then
    Some {| cfg_model := or_string (Some effectiveModel) DEFAULT_OPENAI_LIKE_MODEL;
            cfg_apiKey := None;
            cfg_vertexai := None;
            cfg_authType := authType;
            cfg_openaiLikeConfig :=
              Some {| olc_apiKey := default [] (env !! "AZURE_OPENAI_API_KEY"%string);
                      olc_baseUrl := default [] (env !! "AZURE_OPENAI_BASE_URL"%string);
                      olc_modelName :=
                        or_string openaiLikeModel DEFAULT_OPENAI_LIKE_MODEL |} |}
  else if is_authType authType USE_VERTEX_AI && truthy_opt googleApiKey
          && truthy_opt googleCloudProject && truthy_opt googleCloudLocation then
    (fun m =>
       {| cfg_model := m;
          cfg_apiKey := googleApiKey;
          cfg_vertexai := Some true;
          cfg_authType := authType;
          cfg_openaiLikeConfig := None |})
      <$> getEffectiveModel (default [] googleApiKey) effectiveModel
  else Some contentGeneratorConfig.

End CreateContentGeneratorConfig.

(** The object [new AzureOpenAIContentGenerator(config)] builds. *)
Record AzureOpenAIContentGenerator : Type := {
  gen_apiKey : option jsstring;
  gen_endpoint : jsstring;
  gen_model : option jsstring
}.

(** The properties the constructor reads from its argument; [None] is
    [undefined]. *)
Record ConstructorArgument : Type := {
  arg_apiKey : option jsstring;
  arg_endpoint : option jsstring;
  arg_model : option jsstring
}.

Inductive Thrown : Type :=
  | Error (message : jsstring)
  | TypeError.

(** [endpoint.replace(/\/$/, '')]: one slash at the end is removed. *)
Definition remove_trailing_slash (endpoint : jsstring) : jsstring :=
  match rev endpoint with
  | c :: r => if c =? 47 then rev r else endpoint
  | [] => endpoint
  end.

(** The constructor; calling [replace] on [undefined] throws a
    [TypeError]. *)
Definition new_AzureOpenAIContentGenerator (config : ConstructorArgument)
  : AzureOpenAIContentGenerator + Thrown :=
  match arg_endpoint config with
  | None => inr TypeError
  | Some endpoint =>
      inl {| gen_apiKey := arg_apiKey config;
             gen_endpoint := remove_trailing_slash endpoint;
             gen_model := arg_model config |}
  end.

(** An [OpenAILikeConfig] as an argument of the constructor: it has the
    properties [apiKey], [baseUrl] and [modelName]. *)
Definition as_argument (c : OpenAILikeConfig) : ConstructorArgument :=
  {| arg_apiKey := Some (olc_apiKey c); arg_endpoint := None; arg_model := None |}.

(** What [createContentGenerator] returns: the generators of the other
    modules are named by their constructor and its arguments. *)
Inductive ContentGenerator : Type :=
  | CodeAssist (userAgent : jsstring) (authType : AuthType)
  | GoogleGenAIModels (apiKey : option jsstring) (vertexai : option bool)
      (userAgent : jsstring)
  | DeepSeek (apiKey : jsstring)
  | OpenAILike (config : OpenAILikeConfig)
  | AzureOpenAI (generator : AzureOpenAIContentGenerator).

(** [process.version], [process.platform] and [process.arch]. *)
Record Process : Type := {
  version : jsstring;
  platform : jsstring;
  arch : jsstring
}.

Definition userAgent (env : Auth.Env) (process : Process) : jsstring :=
  str "GeminiCLI/" ++ or_string (env !! "CLI_VERSION"%string) (version process)
    ++ str " (" ++ platform process ++ str "; " ++ arch process ++ str ")".

Definition unsupported (authType : option AuthType) : jsstring :=
  str "Error creating contentGenerator: Unsupported authType: "
    ++ match authType with
       | Some t => authType_value t
       | None => str "undefined"
       end.

Definition createContentGenerator (env : Auth.Env) (process : Process)
    (config : ContentGeneratorConfig) : ContentGenerator + Thrown :=
  let authType := cfg_authType config in
  if is_authType authType LOGIN_WITH_GOOGLE_PERSONAL then
    inl (CodeAssist (userAgent env process) LOGIN_WITH_GOOGLE_PERSONAL)
  else if is_authType authType USE_GEMINI || is_authType authType USE_VERTEX_AI then
    inl (GoogleGenAIModels
           (match cfg_apiKey config with
            | Some k => if str_eqb k [] then None else Some k
            | None => None
            end)
           (cfg_vertexai config) (userAgent env process))
  else if is_authType authType USE_DEEPSEEK then
    if negb (truthy_opt (cfg_apiKey config))
    then inr (Error (str "DeepSeek API key is required"))
    else inl (DeepSeek (default [] (cfg_apiKey config)))
  else if is_authType authType USE_OPENAI_LIKE then
    match cfg_openaiLikeConfig config with
    | None => inr (Error (str "OpenAI-like API configuration is required"))
    | Some c => inl (OpenAILike c)
    end
  else if is_authType authType USE_AZURE_OPENAI then
    match cfg_openaiLikeConfig config with
    | None => inr (Error (str "Azure OpenAI configuration is required"))
    | Some c =>
        match new_AzureOpenAIContentGenerator (as_argument c) with
        | inl generator => inl (AzureOpenAI generator)
        | inr e => inr e
        end
    end
  else inr (Error (unsupported authType)).

(** A sample environment, with the key of DeepSeek; and a service that
    accepts the model it is asked about. *)
Definition deepseek_env : Auth.Env :=
  <[ "DEEPSEEK_API_KEY"%string := str "sk-1" ]> ∅.

Definition accept_model (apiKey model : jsstring) : option jsstring := Some model.

Definition azure_argument : ConstructorArgument :=
  {| arg_apiKey := Some (str "secret");
     arg_endpoint := Some (str "https://example.openai.azure.com/");
     arg_model := Some (str "gpt-4o") |}.

End ContentGenerator.

(** ** [azureOpenaiContentGenerator.ts]: further turns *)

Module Turns.

Import JS Json Azure.

(** The message built for one function result. *)
Definition tool_message (fr : FunctionResponse) : OpenAILikeMessage :=
  {| m_role := Some (str "tool");
     m_content := stringify_response (fr_response fr);
     m_tool_calls := None;
     m_tool_call_id := fr_id fr |}.

(** A decimal digit. *)
Definition is_digit_char (c : char) : bool := (48 <=? c) && (c <=? 57).

(** Sample turns: function results beside a text, a turn with a part of
    another kind, and two calls without id. *)
Definition result_turn : Content :=
  {| role := Some (str "user");
     parts := Some [text_part (str "Done"); functionResponse_part sample_result] |}.

Definition other_turn : Content :=
  {| role := Some (str "user"); parts := Some [empty_part] |}.

Definition two_calls_turn : Content :=
  {| role := Some (str "model");
     parts := Some [functionCall_part sample_call; functionCall_part sample_call] |}.

(** A clock that does not advance. *)
Definition frozen_clock : Clock := fun _ => 1700000000000.

End Turns.

(** ** [azureOpenaiContentGenerator.ts]: a text response *)

Module Responses.

Import JS Json Azure AzureResponse.

(** A wire response with a text, or without content. *)
Definition text_response (content : option jsstring) : OpenAILikeResponse :=
  {| choices :=
       [{| ch_message := {| wm_role := str "assistant";
                            wm_content := content;
                            wm_tool_calls := None |};
           ch_finish_reason := str "stop" |}];
     usage := {| prompt_tokens := 3; completion_tokens := 5; total_tokens := 8 |} |}.

End Responses.

(** ** [azureOpenaiContentGenerator.ts]: the lines of a stream *)

Module Lines.

Import JS Json Azure AzureResponse AzureStream.

(** The indexes in order of first occurrence, those in [seen] left out. *)
Fixpoint first_occurrences (seen : list Z) (indexes : list Z) : list Z :=
  match indexes with
  | [] => []
  | k :: rest =>
      if existsb (fun k' => (k' =? k)%Z) seen then first_occurrences seen rest
      else k :: first_occurrences (seen ++ [k]) rest
  end.

(** A text after which a new line starts. *)
Definition ends_a_line (s : jsstring) : Prop :=
  s = [] \/ exists b, s = b ++ [LF].

(** A line on which the loop does nothing. *)
Definition ignored_line (parseChunk : jsstring -> option OpenAILikeStreamChunk)
    (line : jsstring) : Prop :=
  trim line = [] \/
  trim line = str "data: [DONE]" \/
  startsWith (trim line) (str "data: ") = false \/
  parseChunk (slice_from 6 (trim line)) = None \/
  exists chunk, parseChunk (slice_from 6 (trim line)) = Some chunk /\
                first_choice chunk = None.

(** A stream with a tool-call delta and a content delta, and no finish
    reason. *)
Definition unfinished_reads : list jsstring :=
  [ data_line (dq "{'choices':[{'delta':{'tool_calls':[{'index':0,'id':'call_1','function':{'name':'read_file','arguments':'{}'}}]},'finish_reason':null}]}")
    ++ data_line (dq "{'choices':[{'delta':{'content':'Hi'},'finish_reason':null}]}") ].

(** A last line that never ends, and a line that is no data frame. *)
Definition unterminated_line : jsstring :=
  str "data: " ++ dq "{'choices':[{'delta':{'content':'!'},'finish_reason':'stop'}]}".

Definition comment_line : jsstring := str ": keep-alive".

Definition content_line : jsstring :=
  data_line (dq "{'choices':[{'delta':{'content':'Hi'},'finish_reason':null}]}").

End Lines.

(** ** Heaps of the same shape *)

Module Shapes.

Import JS Json AzureTools.

Local Open Scope nat_scope.

(** Two properties with the same key, and the same value unless both are
    strings under the key [type]. *)
Definition field_similar (f f' : jsstring * val) : Prop :=
  f'.1 = f.1 /\
  (f'.2 = f.2 \/ (f.1 = TYPE /\ exists s s', f.2 = VStr s /\ f'.2 = VStr s')).

(** Cells of the same kind, whose properties are similar one by one. *)
Definition cell_similar (c c' : cell) : Prop :=
  match c, c' with
  | CObj fields, CObj fields' => Forall2 field_similar fields fields'
  | CArr elems, CArr elems' => elems' = elems
  | _, _ => False
  end.

(** Two heaps that differ only in [type] strings. *)
Definition similar (h g : heap) : Prop :=
  forall l,
    match h !! l, g !! l with
    | Some c, Some c' => cell_similar c c'
    | None, None => True
    | _, _ => False
    end.

(** How the values read under a key differ in two such heaps. *)
Definition val_similar (k : key) (v v' : val) : Prop :=
  v' = v \/ (k = KName TYPE /\ exists s s', v = VStr s /\ v' = VStr s').

End Shapes.

(* ================================================================== *)
(** * Properties *)
(* ================================================================== *)

(** ** Strings *)

Module JSFacts.

Lemma trimStart_suffix (s : jsstring) : exists pre, s = pre ++ trimStart s.
Proof.
  induction s as [|c r [pre IH]]; simpl.
  - exists []; reflexivity.
  - destruct (is_js_space c).
    + exists (c :: pre). simpl. now rewrite <- IH.
    + exists []. reflexivity.
Qed.

Lemma trimEnd_prefix (s : jsstring) : exists post, s = trimEnd s ++ post.
Proof.
  unfold trimEnd.
  destruct (trimStart_suffix (rev s)) as [pre H].
  exists (rev pre).
  rewrite <- rev_app_distr, <- H. now rewrite rev_involutive.
Qed.

Lemma trim_infix (s : jsstring) : exists pre post, s = pre ++ trim s ++ post.
Proof.
  unfold trim.
  destruct (trimStart_suffix s) as [pre Hpre].
  destruct (trimEnd_prefix (trimStart s)) as [post Hpost].
  exists pre, post. now rewrite <- Hpost.
Qed.

Lemma startsWith_app (s p : jsstring) :
  startsWith s p = true -> s = p ++ drop (length p) s.
Proof.
  revert s; induction p as [|a p IH]; intros s H; simpl in *.
  - reflexivity.
  - destruct s as [|b s]; [discriminate|].
    apply andb_true_iff in H as [Hab Hp].
    apply N.eqb_eq in Hab; subst. simpl. f_equal. now apply IH.
Qed.

Lemma str_eqb_eq (a b : jsstring) : str_eqb a b = true <-> a = b.
Proof. unfold str_eqb. apply bool_decide_eq_true. Qed.

Lemma startsWith_refl_app (p r : jsstring) : startsWith (p ++ r) p = true.
Proof.
  induction p as [|a p IH]; simpl; [reflexivity|].
  now rewrite N.eqb_refl, IH.
Qed.

Lemma lower_char_not_upper (c : char) : is_upper (lower_char c) = false.
Proof.
  unfold lower_char, is_upper.
  destruct (N.leb_spec 65 c), (N.leb_spec c 90), (N.leb_spec 192 c),
    (N.leb_spec c 222), (N.eqb_spec c 215); simpl;
    repeat match goal with
           | |- context [?a <=? ?b] => destruct (N.leb_spec a b)
           | |- context [?a =? ?b] => destruct (N.eqb_spec a b)
           end; simpl; try reflexivity; exfalso; lia.
Qed.

Lemma toLowerCase_is_lowercase `{ToLowerCase} (s : jsstring) :
  is_lowercase (toLowerCase s).
Proof. now exists s. Qed.

Lemma toLowerCase_latin1_idempotent (s : jsstring) :
  toLowerCase_latin1 (toLowerCase_latin1 s) = toLowerCase_latin1 s.
Proof.
  unfold toLowerCase_latin1. rewrite List.map_map. apply List.map_ext.
  intros c. unfold lower_char at 1. now rewrite lower_char_not_upper.
Qed.

End JSFacts.

(** ** JSON texts *)

Module JsonFacts.

Import JS Json.
Local Open Scope nat_scope.

Lemma skip_ws_length (s : jsstring) : length (skip_ws s) <= length s.
Proof.
  induction s as [|c r IH]; simpl; [lia|]. destruct (is_json_ws c); simpl; lia.
Qed.

Lemma parse_string_body_length (s body rest : jsstring) :
  parse_string_body s = Some (body, rest) -> length rest < length s.
Proof.
  remember (length s) as n eqn:Hn. revert s body rest Hn.
  induction n as [n IH] using lt_wf_ind. intros s body rest Hn.
  destruct s as [|c r]; [intros; discriminate|]. simpl in Hn.
  cbn [parse_string_body].
  destruct (N.eqb c DQUOTE). { intros H; injection H as <- <-. lia. }
  destruct (N.eqb c BACKSLASH).
  - destruct r as [|e r1]; [intros; discriminate|]. simpl in Hn.
    assert (Hsimple : forall d,
              match parse_string_body r1 with
              | Some (body, rest) => Some (d :: body, rest)
              | None => None
              end = Some (body, rest) -> length rest < n).
    { intros d H. destruct (parse_string_body r1) as [[b0 r0]|] eqn:E; [|intros; discriminate].
      simpl in H. injection H as <- <-.
      assert (Hlt : length r1 < n) by lia.
      pose proof (IH (length r1) Hlt r1 b0 r0 eq_refl E).
      lia. }
    repeat match goal with
           | |- (if ?b then _ else _) = _ -> _ => destruct b; [apply Hsimple|]
           end.
    destruct (N.eqb e 117); [|intros; discriminate].
    destruct r1 as [|h1 [|h2 [|h3 [|h4 r2]]]]; try (intros; discriminate).
    destruct (hex4 h1 h2 h3 h4); [|intros; discriminate].
    destruct (parse_string_body r2) as [[b0 r0]|] eqn:E; [|intros; discriminate].
    intros H. injection H as <- <-. simpl in Hn.
    assert (Hlt : length r2 < n) by lia.
      pose proof (IH (length r2) Hlt r2 b0 r0 eq_refl E). lia.
  - destruct (N.ltb c 32); [intros; discriminate|].
    destruct (parse_string_body r) as [[b0 r0]|] eqn:E; [|intros; discriminate].
    intros H. injection H as <- <-.
    assert (Hlt : length r < n) by lia.
      pose proof (IH (length r) Hlt r b0 r0 eq_refl E). lia.
Qed.

Lemma span_digits_length (s ds rest : jsstring) :
  span_digits s = (ds, rest) -> length rest <= length s.
Proof.
  revert ds rest. induction s as [|c r IH]; intros ds rest; simpl.
  - intros H. injection H as <- <-. simpl in *; lia.
  - destruct (is_digit c).
    + destruct (span_digits r) as [ds0 r0]. intros H. injection H as <- <-.
      specialize (IH ds0 r0 eq_refl). simpl in *; lia.
    + intros H. injection H as <- <-. simpl in *; lia.
Qed.

Lemma parse_number_length (s lit rest : jsstring) :
  parse_number s = Some (lit, rest) -> length rest <= length s.
Proof.
  unfold parse_number. intros H.
  match type of H with
  | (let '(_, _) := ?x in _) = _ => destruct x as [sign s1] eqn:Es
  end.
  assert (H1 : length s1 <= length s).
  { destruct s as [|c r]; [injection Es as <- <-; lia|].
    destruct (N.eqb c 45); injection Es as <- <-; simpl; lia. }
  match type of H with
  | match ?x with _ => _ end = _ => destruct x as [[ip s2]|] eqn:Ei; [|discriminate]
  end.
  assert (H2 : length s2 <= length s1).
  { destruct s1 as [|c r]; [discriminate|].
    destruct (N.eqb c 48); [injection Ei as <- <-; simpl; lia|].
    destruct (is_digit c); [|discriminate].
    destruct (span_digits r) as [ds rest0] eqn:Ed. injection Ei as <- <-.
    apply span_digits_length in Ed. simpl. lia. }
  match type of H with
  | match ?x with _ => _ end = _ => destruct x as [[fp s3]|] eqn:Ef; [|discriminate]
  end.
  assert (H3 : length s3 <= length s2).
  { destruct s2 as [|c r]; [injection Ef as <- <-; lia|].
    destruct (N.eqb c 46); [|injection Ef as <- <-; lia].
    destruct (span_digits r) as [ds rest0] eqn:Ed. apply span_digits_length in Ed.
    destruct ds; [discriminate|]. injection Ef as <- <-. simpl. lia. }
  match type of H with
  | match ?x with _ => _ end = _ => destruct x as [[ep s4]|] eqn:Ee; [|discriminate]
  end.
  assert (H4 : length s4 <= length s3).
  { destruct s3 as [|c r]; [injection Ee as <- <-; lia|].
    destruct (N.eqb c 101 || N.eqb c 69); [|injection Ee as <- <-; lia].
    match type of Ee with
    | (let '(_, _) := ?x in _) = _ => destruct x as [sg r1] eqn:Eg
    end.
    assert (Hr1 : length r1 <= length r).
    { destruct r as [|d r']; [injection Eg as <- <-; lia|].
      destruct (N.eqb d 43 || N.eqb d 45); injection Eg as <- <-; simpl; lia. }
    destruct (span_digits r1) as [ds rest0] eqn:Ed. apply span_digits_length in Ed.
    destruct ds; [discriminate|]. injection Ee as <- <-. simpl. lia. }
  injection H as <- <-. lia.
Qed.

Lemma strip_prefix_length (p s rest : jsstring) :
  strip_prefix p s = Some rest -> length rest <= length s.
Proof.
  unfold strip_prefix. destruct (startsWith s p); [|discriminate].
  intros H. injection H as <-. rewrite length_drop. lia.
Qed.

Lemma skip_ws_cons_length (s r : jsstring) (c : N) :
  skip_ws s = c :: r -> length r < length s.
Proof. intros H. pose proof (skip_ws_length s) as Hl. rewrite H in Hl. simpl in Hl. lia. Qed.

(** What a parser leaves is never longer than what it was given. *)
Lemma parse_length (fuel : nat) :
  (forall s v rest, parse_value fuel s = Some (v, rest) ->
                    length rest <= length s) /\
  (forall s acc v rest, parse_elements fuel s acc = Some (v, rest) ->
                        length rest <= length s) /\
  (forall s acc v rest, parse_members fuel s acc = Some (v, rest) ->
                        length rest <= length s).
Proof.
  induction fuel as [|f [IHv [IHe IHm]]];
    [repeat split; intros; discriminate|].
  split; [|split].
  - intros s v rest. cbn [parse_value].
    destruct (skip_ws s) as [|c r] eqn:Es; [discriminate|].
    apply skip_ws_cons_length in Es.
    destruct (N.eqb c LBRACE).
    { destruct (skip_ws r) as [|c' r'] eqn:Er; [discriminate|].
      apply skip_ws_cons_length in Er.
      destruct (N.eqb c' RBRACE).
      - intros H. injection H as <- <-. lia.
      - intros H. apply IHm in H. simpl in H. lia. }
    destruct (N.eqb c LBRACKET).
    { destruct (skip_ws r) as [|c' r'] eqn:Er; [discriminate|].
      apply skip_ws_cons_length in Er.
      destruct (N.eqb c' RBRACKET).
      - intros H. injection H as <- <-. lia.
      - intros H. apply IHe in H. simpl in H. lia. }
    destruct (N.eqb c DQUOTE).
    { destruct (parse_string_body r) as [[body rest0]|] eqn:Eb; [|discriminate].
      apply parse_string_body_length in Eb. intros H. injection H as <- <-. lia. }
    assert (Hlit : forall (p : jsstring) (j : json),
               match strip_prefix p (c :: r) with
               | Some rest0 => Some (j, rest0)
               | None => None
               end = Some (v, rest) -> length rest <= length s).
    { intros p j H. destruct (strip_prefix p (c :: r)) as [rest0|] eqn:Ep;
        [|discriminate].
      apply strip_prefix_length in Ep. injection H as <- <-. simpl in Ep. lia. }
    destruct (N.eqb c 116); [apply Hlit|].
    destruct (N.eqb c 102); [apply Hlit|].
    destruct (N.eqb c 110); [apply Hlit|].
    destruct (parse_number (c :: r)) as [[lit rest0]|] eqn:En; [|discriminate].
    apply parse_number_length in En. intros H. injection H as <- <-.
    simpl in En. lia.
  - intros s acc v rest. cbn [parse_elements].
    destruct (parse_value f s) as [[v0 rest0]|] eqn:Ev; [|discriminate].
    apply IHv in Ev.
    destruct (skip_ws rest0) as [|c r] eqn:Er; [discriminate|].
    apply skip_ws_cons_length in Er.
    destruct (N.eqb c 44).
    + intros H. apply IHe in H. lia.
    + destruct (N.eqb c RBRACKET); [|discriminate].
      intros H. injection H as <- <-. lia.
  - intros s acc v rest. cbn [parse_members].
    destruct (skip_ws s) as [|c r] eqn:Es; [discriminate|].
    apply skip_ws_cons_length in Es.
    destruct (N.eqb c DQUOTE); [|discriminate].
    destruct (parse_string_body r) as [[key rest0]|] eqn:Eb; [|discriminate].
    apply parse_string_body_length in Eb.
    destruct (skip_ws rest0) as [|c1 r1] eqn:E1; [discriminate|].
    apply skip_ws_cons_length in E1.
    destruct (N.eqb c1 58); [|discriminate].
    destruct (parse_value f r1) as [[v0 rest2]|] eqn:Ev; [|discriminate].
    apply IHv in Ev.
    destruct (skip_ws rest2) as [|c2 r2] eqn:E2; [discriminate|].
    apply skip_ws_cons_length in E2.
    destruct (N.eqb c2 44).
    + intros H. apply IHm in H. lia.
    + destruct (N.eqb c2 RBRACE); [|discriminate].
      intros H. injection H as <- <-. lia.
Qed.

(** One more nested call changes nothing once the fuel exceeds twice the
    length of the text. *)
Lemma parse_stable (fuel : nat) :
  (forall s, 2 * length s + 1 <= fuel ->
             parse_value (S fuel) s = parse_value fuel s) /\
  (forall s acc, 2 * length s + 2 <= fuel ->
                 parse_elements (S fuel) s acc = parse_elements fuel s acc) /\
  (forall s acc, 2 * length s + 2 <= fuel ->
                 parse_members (S fuel) s acc = parse_members fuel s acc).
Proof.
  induction fuel as [|f [IHv [IHe IHm]]]; [repeat split; intros; lia|].
  split; [|split].
  - intros s Hs. remember (S f) as g eqn:Hg.
    rewrite Hg at 2. cbn [parse_value].
    destruct (skip_ws s) as [|c r] eqn:Es; [reflexivity|].
    apply skip_ws_cons_length in Es.
    destruct (skip_ws r) as [|c' r'] eqn:Er.
    + reflexivity.
    + apply skip_ws_cons_length in Er.
      assert (Hx : 2 * length (c' :: r') + 2 <= f) by (simpl; lia).
      subst g. now rewrite (IHm _ [] Hx), (IHe _ [] Hx).
  - intros s acc Hs. remember (S f) as g eqn:Hg.
    rewrite Hg at 2. cbn [parse_elements]. subst g.
    rewrite (IHv s) by lia.
    destruct (parse_value f s) as [[v0 rest0]|] eqn:Ev; [|reflexivity].
    apply (proj1 (parse_length f)) in Ev.
    destruct (skip_ws rest0) as [|c r] eqn:Er; [reflexivity|].
    apply skip_ws_cons_length in Er.
    now rewrite (IHe r (v0 :: acc)) by lia.
  - intros s acc Hs. remember (S f) as g eqn:Hg.
    rewrite Hg at 2. cbn [parse_members]. subst g.
    destruct (skip_ws s) as [|c r] eqn:Es; [reflexivity|].
    apply skip_ws_cons_length in Es.
    destruct (N.eqb c DQUOTE); [|reflexivity].
    destruct (parse_string_body r) as [[key rest0]|] eqn:Eb; [|reflexivity].
    apply parse_string_body_length in Eb.
    destruct (skip_ws rest0) as [|c1 r1] eqn:E1; [reflexivity|].
    apply skip_ws_cons_length in E1.
    destruct (N.eqb c1 58); [|reflexivity].
    rewrite (IHv r1) by lia.
    destruct (parse_value f r1) as [[v0 rest2]|] eqn:Ev; [|reflexivity].
    apply (proj1 (parse_length f)) in Ev.
    destruct (skip_ws rest2) as [|c2 r2] eqn:E2; [reflexivity|].
    apply skip_ws_cons_length in E2.
    now rewrite (IHm r2 ((key, v0) :: acc)) by lia.
Qed.

Lemma parse_value_enough (fuel : nat) (s : jsstring) :
  2 * length s + 2 <= fuel ->
  parse_value fuel s = parse_value (2 * length s + 2) s.
Proof.
  intros Hle. induction Hle as [|m Hm IH]; [reflexivity|].
  rewrite <- IH. apply (proj1 (parse_stable m)). lia.
Qed.

(** [JSON_parse] rejects a text only if the parser rejects it with any
    larger bound on nested calls. *)
Lemma JSON_parse_enough (fuel : nat) (s : jsstring) :
  2 * length s + 2 <= fuel ->
  JSON_parse s
  = match parse_value fuel s with
    | Some (v, rest) =>
        match skip_ws rest with
        | [] => Some v
        | _ :: _ => None
        end
    | None => None
    end.
Proof. intros Hle. unfold JSON_parse. now rewrite (parse_value_enough fuel s Hle). Qed.

End JsonFacts.

(** ** [extractJsonFromText] *)

Module JsonUtilsFacts.

Import JSFacts JsonUtils BracketMatching.

Lemma suffix_skip_lang (s : jsstring) : exists pre, s = pre ++ skip_lang s.
Proof.
  unfold skip_lang.
  destruct (startsWith s (str "json")) eqn:E1.
  { exists (take 4 s). now rewrite take_drop. }
  destruct (startsWith s (str "JSON")) eqn:E2.
  { exists (take 4 s). now rewrite take_drop. }
  exists []. reflexivity.
Qed.

Lemma suffix_after_opening_fence (s : jsstring) :
  exists pre, s = pre ++ after_opening_fence s.
Proof.
  unfold after_opening_fence.
  destruct (suffix_skip_lang s) as [p1 H1].
  destruct (trimStart_suffix (skip_lang s)) as [p2 H2].
  assert (H3 : exists p3, trimStart (skip_lang s)
                          = p3 ++ skip_optional_newline (trimStart (skip_lang s))).
  { destruct (trimStart (skip_lang s)) as [|c r]; simpl.
    - exists []. reflexivity.
    - destruct (c =? LF); [exists [c] | exists []]; reflexivity. }
  destruct H3 as [p3 H3].
  exists (p1 ++ p2 ++ p3).
  rewrite <- !app_assoc, <- H3, <- H2. exact H1.
Qed.

Lemma capture_until_fence_contains (s cap : jsstring) :
  capture_until_fence s = Some cap -> exists p q, s = p ++ fence ++ q.
Proof.
  revert cap; induction s as [|c r IH]; intros cap H.
  - simpl in H. discriminate.
  - cbn [capture_until_fence] in H.
    destruct (startsWith (c :: r) (LF :: fence)) eqn:E1.
    { apply startsWith_app in E1. exists [LF], (drop 4 (c :: r)).
      exact E1. }
    destruct (startsWith (c :: r) fence) eqn:E2.
    { apply startsWith_app in E2. exists [], (drop 3 (c :: r)). exact E2. }
    cbn [orb] in H.
    destruct (capture_until_fence r) as [cap'|] eqn:E; [|discriminate].
    destruct (IH _ eq_refl) as [p [q ->]].
    exists (c :: p), q. reflexivity.
Qed.

Lemma capture_final_implies_capture (s cap : jsstring) :
  capture_until_final_fence s = Some cap -> capture_until_fence s <> None.
Proof.
  revert cap; induction s as [|c r IH]; intros cap H.
  - simpl in H. discriminate.
  - cbn [capture_until_final_fence] in H. cbn [capture_until_fence].
    destruct (str_eqb (c :: r) (LF :: fence)) eqn:E1.
    { apply str_eqb_eq in E1. rewrite E1. discriminate. }
    destruct (str_eqb (c :: r) fence) eqn:E2.
    { apply str_eqb_eq in E2. rewrite E2. discriminate. }
    cbn [orb] in H.
    destruct (capture_until_final_fence r) as [cap'|] eqn:E; [|discriminate].
    specialize (IH _ eq_refl).
    destruct (startsWith (c :: r) (LF :: fence) || startsWith (c :: r) fence);
      [discriminate|].
    destruct (capture_until_fence r); [discriminate | congruence].
Qed.

(** The anchored pattern matches only where the unanchored one does. *)
Lemma codeBlockPattern_implies_withText (s cap : jsstring) :
  match_codeBlockPattern s = Some cap ->
  match_codeBlockWithTextPattern s <> None.
Proof.
  unfold match_codeBlockPattern.
  destruct (startsWith s fence) eqn:E; [|discriminate].
  intros H. apply capture_final_implies_capture in H.
  destruct s as [|c r]; [discriminate|].
  cbn [match_codeBlockWithTextPattern]. rewrite E.
  destruct (capture_until_fence (after_opening_fence (drop 3 (c :: r))));
    [discriminate | congruence].
Qed.

Lemma withText_fenced_block (s cap : jsstring) :
  match_codeBlockWithTextPattern s = Some cap -> fenced_block s.
Proof.
  induction s as [|c r IH]; intros H; [discriminate|].
  cbn [match_codeBlockWithTextPattern] in H.
  destruct (startsWith (c :: r) fence) eqn:E.
  - destruct (capture_until_fence (after_opening_fence (drop 3 (c :: r))))
      as [cap'|] eqn:E2.
    + apply capture_until_fence_contains in E2 as [p [q Hpq]].
      destruct (suffix_after_opening_fence (drop 3 (c :: r))) as [pre Hpre].
      apply startsWith_app in E.
      exists [], (pre ++ p), q.
      rewrite E at 1. rewrite Hpre at 1. rewrite Hpq.
      now rewrite <- !app_assoc.
    + destruct (IH H) as [a [b [d ->]]]. exists (c :: a), b, d. reflexivity.
  - destruct (IH H) as [a [b [d ->]]]. exists (c :: a), b, d. reflexivity.
Qed.

Lemma fenced_block_trim (text : jsstring) :
  fenced_block (trim text) -> fenced_block text.
Proof.
  intros [a [b [c H]]].
  destruct (trim_infix text) as [pre [post Ht]].
  exists (pre ++ a), b, (c ++ post).
  rewrite Ht at 1. rewrite H. now rewrite <- !app_assoc.
Qed.

Lemma fenced_block_backtick (s : jsstring) : fenced_block s -> In BACKTICK s.
Proof.
  intros [a [b [c ->]]]. apply in_or_app. right. left. reflexivity.
Qed.

(** Without a fenced block neither code-block pattern matches. *)
Lemma no_fence_no_match (text : jsstring) :
  ~ fenced_block text ->
  match_codeBlockPattern (trim text) = None /\
  match_codeBlockWithTextPattern (trim text) = None.
Proof.
  intros Hno.
  assert (H2 : match_codeBlockWithTextPattern (trim text) = None).
  { destruct (match_codeBlockWithTextPattern (trim text)) eqn:E; [|reflexivity].
    exfalso. apply Hno, fenced_block_trim. eapply withText_fenced_block, E. }
  split; [|exact H2].
  destruct (match_codeBlockPattern (trim text)) eqn:E; [|reflexivity].
  exfalso. eapply codeBlockPattern_implies_withText; eauto.
Qed.

Lemma insert_by_length_In (x y : jsstring) (l : list jsstring) :
  In y (insert_by_length x l) <-> y = x \/ In y l.
Proof.
  induction l as [|z l IH]; simpl.
  - intuition.
  - destruct (length z <=? length x)%nat; simpl; intuition.
Qed.

Lemma sort_longest_first_In (y : jsstring) (l : list jsstring) :
  In y (sort_longest_first l) <-> In y l.
Proof.
  induction l as [|x l IH]; simpl; [tauto|].
  rewrite insert_by_length_In, IH. intuition.
Qed.

Lemma insert_by_length_sorted (x : jsstring) (l : list jsstring) :
  StronglySorted longest_first l ->
  StronglySorted longest_first (insert_by_length x l).
Proof.
  induction 1 as [|z l Hs IH Hall]; simpl.
  - constructor; constructor.
  - destruct (Nat.leb_spec (length z) (length x)) as [Hle|Hgt].
    + constructor; [constructor; assumption|].
      constructor; [exact Hle|].
      rewrite List.Forall_forall in Hall |- *. intros w Hw.
      specialize (Hall w Hw). unfold longest_first in *. lia.
    + constructor; [exact IH|].
      rewrite List.Forall_forall in Hall |- *. intros w Hw.
      apply insert_by_length_In in Hw as [->|Hw].
      * unfold longest_first. lia.
      * now apply Hall.
Qed.

Lemma sort_longest_first_sorted (l : list jsstring) :
  StronglySorted longest_first (sort_longest_first l).
Proof.
  induction l as [|x l IH]; simpl; [constructor|].
  now apply insert_by_length_sorted.
Qed.

(** In a list sorted longest first, the first element that satisfies a test
    is at least as long as every other one that does. *)
Lemma find_sorted_longest (P : jsstring -> bool) (l : list jsstring) (r : jsstring) :
  StronglySorted longest_first l ->
  List.find P l = Some r ->
  forall x, In x l -> P x = true -> (length x <= length r)%nat.
Proof.
  induction 1 as [|z l Hs IH Hall]; intros Hfind x Hx HP; [discriminate|].
  simpl in Hfind. destruct (P z) eqn:Pz.
  - injection Hfind as <-. destruct Hx as [<-|Hx]; [lia|].
    rewrite List.Forall_forall in Hall. exact (Hall x Hx).
  - destruct Hx as [<-|Hx]; [congruence|]. now apply IH.
Qed.

Lemma find_exists (P : jsstring -> bool) (l : list jsstring) (c : jsstring) :
  In c l -> P c = true -> exists r, List.find P l = Some r.
Proof.
  intros Hc HP. destruct (List.find P l) eqn:E; [eauto|].
  exfalso. pose proof (find_none _ _ E c Hc). congruence.
Qed.

(** *** The candidates are the bracket-matched substrings *)

Lemma scan_from_app (o c : char) (st : Scan) (a b : jsstring) :
  scan_from o c st (a ++ b) = scan_from o c (scan_from o c st a) b.
Proof. apply fold_left_app. Qed.

(** The loop of the source and the scan, from a depth of at least one. *)
Lemma match_close_scan (o c : char) (s : jsstring) :
  forall st,
    (1 <= depth st)%Z ->
    match match_close o c s (depth st) (inside_string st) (after_backslash st) with
    | Some n =>
        (1 <= n <= length s)%nat /\
        depth (scan_from o c st (take n s)) = 0%Z /\
        forall m, (m < n)%nat -> (1 <= depth (scan_from o c st (take m s)))%Z
    | None =>
        forall m, (1 <= depth (scan_from o c st (take m s)))%Z
    end.
Proof.
  induction s as [|x r IH]; intros st Hd.
  - simpl. intros m. now rewrite take_nil.
  - cbn [match_close].
    assert (Hstep : forall st',
               scan_char o c st x = st' -> (1 <= depth st')%Z ->
               match S <$> match_close o c r (depth st') (inside_string st')
                             (after_backslash st') with
               | Some n =>
                   (1 <= n <= length (x :: r))%nat /\
                   depth (scan_from o c st (take n (x :: r))) = 0%Z /\
                   forall m, (m < n)%nat ->
                             (1 <= depth (scan_from o c st (take m (x :: r))))%Z
               | None =>
                   forall m, (1 <= depth (scan_from o c st (take m (x :: r))))%Z
               end).
    { intros st' Hst Hd'. specialize (IH st' Hd').
      destruct (match_close o c r (depth st') (inside_string st')
                  (after_backslash st')) as [n|]; cbn [fmap option_fmap option_map].
      - destruct IH as (Hn & H0 & Hlt). split; [simpl; lia|]. split.
        + cbn [take]. unfold scan_from in *. cbn [fold_left]. now rewrite Hst.
        + intros [|m] Hm; [simpl; lia|]. cbn [take]. unfold scan_from in *.
          cbn [fold_left]. rewrite Hst. apply Hlt. lia.
      - intros [|m]; [simpl; lia|]. cbn [take]. unfold scan_from in *.
        cbn [fold_left]. rewrite Hst. apply IH. }
    pose proof (eq_refl (scan_char o c st x)) as Hsc.
    unfold scan_char at 2 in Hsc. unfold scan_char in Hstep.
    destruct (after_backslash st) eqn:Eesc.
    { apply (Hstep _ eq_refl). exact Hd. }
    destruct (x =? BACKSLASH).
    { apply (Hstep _ eq_refl). exact Hd. }
    destruct (x =? DQUOTE).
    { apply (Hstep _ eq_refl). exact Hd. }
    destruct (inside_string st) eqn:Ein; cbn [negb].
    { specialize (Hstep st eq_refl Hd). now rewrite Eesc, Ein in Hstep. }
    destruct (x =? o).
    { apply (Hstep _ eq_refl). simpl. lia. }
    destruct (x =? c) eqn:Ec.
    + destruct (Z.eqb_spec (depth st - 1) 0) as [E0|Hne].
      * split; [simpl; lia|]. split.
        -- cbn [take]. rewrite take_0. unfold scan_from. cbn [fold_left].
           rewrite Hsc. exact E0.
        -- intros m Hm. assert (m = 0%nat) as -> by lia. simpl. exact Hd.
      * apply (Hstep _ eq_refl). simpl. lia.
    + specialize (Hstep st eq_refl Hd). now rewrite Eesc, Ein in Hstep.
Qed.

Lemma scan_first (o c : char) (r : jsstring) :
  o <> BACKSLASH -> o <> DQUOTE ->
  scan_from o c scan_start (o :: r)
  = scan_from o c {| depth := 1; inside_string := false; after_backslash := false |} r.
Proof.
  intros Hb Hq. unfold scan_from. cbn [fold_left]. f_equal.
  unfold scan_char, scan_start. cbn [after_backslash inside_string depth].
  apply N.eqb_neq in Hb, Hq. now rewrite Hb, Hq, N.eqb_refl.
Qed.

Lemma match_close_first (o c : char) (r : jsstring) :
  o <> BACKSLASH -> o <> DQUOTE ->
  match_close o c (o :: r) 0 false false = S <$> match_close o c r 1 false false.
Proof.
  intros Hb Hq. cbn [match_close negb].
  apply N.eqb_neq in Hb, Hq. now rewrite Hb, Hq, N.eqb_refl.
Qed.

Lemma kind_plain (o c : char) :
  (o = LBRACE /\ c = RBRACE) \/ (o = LBRACKET /\ c = RBRACKET) ->
  o <> BACKSLASH /\ o <> DQUOTE.
Proof. intros [[-> _]|[-> _]]; split; discriminate. Qed.

(** The loop from the opening bracket: the length of the shortest prefix
    after which the depth is zero. *)
Lemma match_close_balanced (o c : char) (r : jsstring) (n : nat) :
  o <> BACKSLASH -> o <> DQUOTE ->
  match_close o c (o :: r) 0 false false = Some n <->
  (n <= length (o :: r))%nat /\
  balanced o c (take n (o :: r)) /\
  forall m, (m < n)%nat -> ~ balanced o c (take m (o :: r)).
Proof.
  intros Hb Hq. rewrite (match_close_first o c r Hb Hq).
  pose proof (match_close_scan o c r
                {| depth := 1; inside_string := false; after_backslash := false |}
                ltac:(simpl; lia)) as H.
  cbn [depth inside_string after_backslash] in H.
  assert (Hpre : forall m,
             depth (scan_from o c scan_start (take (S m) (o :: r)))
             = depth (scan_from o c
                        {| depth := 1; inside_string := false;
                           after_backslash := false |} (take m r))).
  { intros m. cbn [take]. now rewrite (scan_first o c _ Hb Hq). }
  destruct (match_close o c r 1 false false) as [k|];
    cbn [fmap option_fmap option_map].
  - destruct H as (Hk & H0 & Hlt). split.
    + intros [= <-]. split; [simpl; lia|]. split.
      * split; [discriminate|]. now rewrite Hpre.
      * intros [|m] Hm [Hne Hz]; [now apply Hne|].
        rewrite Hpre in Hz. specialize (Hlt m ltac:(lia)). lia.
    + intros (Hn & [Hne Hz] & Hmin).
      destruct n as [|n]; [now destruct Hne|]. f_equal.
      rewrite Hpre in Hz.
      destruct (Nat.lt_trichotomy n k) as [Hlt'|[->|Hgt]]; [|reflexivity|].
      * specialize (Hlt n Hlt'). lia.
      * exfalso. apply (Hmin (S k) ltac:(lia)). split; [discriminate|].
        now rewrite Hpre.
  - split; [discriminate|]. intros (Hn & [Hne Hz] & _).
    destruct n as [|n]; [now destruct Hne|]. rewrite Hpre in Hz.
    specialize (H n). lia.
Qed.

Lemma extractJsonFromPosition_bracket_matched (text : jsstring) (i : nat)
    (candidate : jsstring) :
  extractJsonFromPosition text i = Some candidate <-> bracket_matched text i candidate.
Proof.
  unfold extractJsonFromPosition, bracket_matched. split.
  - destruct (drop i text) as [|x r] eqn:Ed; [discriminate|].
    destruct (negb (x =? LBRACE) && negb (x =? LBRACKET)) eqn:Ek; [discriminate|].
    cbv zeta.
    set (o := if x =? LBRACE then LBRACE else LBRACKET).
    set (c := if x =? LBRACE then RBRACE else RBRACKET).
    assert (Hkind : (o = LBRACE /\ c = RBRACE) \/ (o = LBRACKET /\ c = RBRACKET)).
    { subst o c. destruct (x =? LBRACE); [left | right]; split; reflexivity. }
    assert (Hx : x = o).
    { subst o. destruct (N.eqb_spec x LBRACE) as [->|Hn]; [reflexivity|].
      destruct (N.eqb_spec x LBRACKET) as [->|Hn']; [reflexivity|].
      simpl in Ek. discriminate. }
    destruct (kind_plain o c Hkind) as [Hb Hq]. rewrite Hx.
    destruct (match_close o c (o :: r) 0 false false) as [n|] eqn:Em; [|discriminate].
    intros [= <-].
    apply (match_close_balanced o c r n Hb Hq) in Em as (Hn & Hbal & Hmin).
    unfold substring. replace (i + n - i)%nat with n by lia. rewrite Ed, Hx.
    exists o, c, (take i text), (drop n (o :: r)).
    assert (Hi : (i <= length text)%nat).
    { destruct (Nat.le_gt_cases i (length text)) as [H|H]; [exact H|].
      rewrite drop_ge in Ed by lia. discriminate. }
    split.
    { rewrite take_drop. rewrite <- Hx, <- Ed. now rewrite take_drop. }
    split; [rewrite length_take; lia|]. split; [exact Hkind|]. split.
    { destruct n as [|n]; [now destruct (proj1 Hbal)|]. reflexivity. }
    split; [exact Hbal|].
    intros m Hm. rewrite length_take in Hm. rewrite take_take.
    replace (m `min` n)%nat with m by lia. apply Hmin. lia.
  - intros (o & c & before & after & Htext & Hlen & Hkind & Hhead & Hbal & Hmin).
    destruct (kind_plain o c Hkind) as [Hb Hq].
    destruct candidate as [|x cr]; [discriminate|]. injection Hhead as ->.
    assert (Ed : drop i text = (o :: cr) ++ after).
    { rewrite Htext, <- Hlen. now rewrite drop_app_length. }
    rewrite Ed. cbn [app].
    assert (Ek : negb (o =? LBRACE) && negb (o =? LBRACKET) = false).
    { destruct Hkind as [[-> _]|[-> _]]; reflexivity. }
    rewrite Ek. cbv zeta.
    assert (Eo : (if o =? LBRACE then LBRACE else LBRACKET) = o).
    { destruct Hkind as [[-> _]|[-> _]]; reflexivity. }
    assert (Ec : (if o =? LBRACE then RBRACE else RBRACKET) = c).
    { destruct Hkind as [[-> ->]|[-> ->]]; reflexivity. }
    rewrite Eo, Ec.
    assert (Em : match_close o c (o :: cr ++ after) 0 false false
                 = Some (length (o :: cr))).
    { apply (match_close_balanced o c (cr ++ after) _ Hb Hq).
      split; [simpl; rewrite length_app; lia|].
      change (o :: cr ++ after) with ((o :: cr) ++ after).
      split.
      - now rewrite take_app_length.
      - intros m Hm. rewrite take_app_le by lia. now apply Hmin. }
    rewrite Em. f_equal. unfold substring.
    replace (i + length (o :: cr) - i)%nat with (length (o :: cr)) by lia.
    rewrite Ed. now rewrite take_app_length.
Qed.


Lemma candidate_at_bracket_matched (trimmed : jsstring) (i : nat) (c : jsstring) :
  candidate_at trimmed i = Some c <-> bracket_matched trimmed i c.
Proof.
  rewrite <- extractJsonFromPosition_bracket_matched. unfold candidate_at. split.
  - destruct (drop i trimmed) as [|x r]; [discriminate|].
    destruct ((x =? LBRACE) || (x =? LBRACKET)); [|discriminate].
    destruct (extractJsonFromPosition trimmed i) as [c'|]; [|discriminate].
    destruct (truthy_str c'); [|discriminate]. now intros [= ->].
  - intros H. pose proof H as H'.
    apply extractJsonFromPosition_bracket_matched in H'
      as (o & cl & before & after & Htext & Hlen & Hkind & Hhead & _).
    destruct c as [|x cr]; [discriminate|]. injection Hhead as ->.
    assert (Ed : drop i trimmed = (o :: cr) ++ after).
    { rewrite Htext, <- Hlen. now rewrite drop_app_length. }
    rewrite Ed. cbn [app].
    assert (Ek : (o =? LBRACE) || (o =? LBRACKET) = true).
    { destruct Hkind as [[-> _]|[-> _]]; reflexivity. }
    now rewrite Ek, H.
Qed.

Lemma bracket_matched_lt (text : jsstring) (i : nat) (c : jsstring) :
  bracket_matched text i c -> (i < length text)%nat.
Proof.
  intros (o & cl & before & after & Htext & Hlen & _ & Hhead & _).
  destruct c as [|x cr]; [discriminate|]. rewrite Htext, !length_app. simpl. lia.
Qed.

Lemma jsonCandidates_candidate_at (trimmed : jsstring) :
  jsonCandidates trimmed = omap (candidate_at trimmed) (seq 0 (length trimmed)).
Proof. reflexivity. Qed.

(** Where an element of [omap f (seq a n)] comes from. *)
Lemma omap_seq_split {A : Type} (f : nat -> option A) (n : nat) :
  forall a l1 r l2,
    omap f (seq a n) = l1 ++ r :: l2 ->
    exists i, (a <= i < a + n)%nat /\ f i = Some r /\
              l1 = omap f (seq a (i - a)) /\
              l2 = omap f (seq (S i) (a + n - S i)).
Proof.
  induction n as [|n IH]; intros a l1 r l2 H.
  - destruct l1; discriminate.
  - cbn [seq omap list_omap] in H.
    destruct (f a) as [y|] eqn:Ea.
    + destruct l1 as [|z l1].
      * injection H as -> <-. exists a. split; [lia|]. split; [exact Ea|].
        rewrite Nat.sub_diag. split; [reflexivity|]. f_equal. f_equal. lia.
      * injection H as -> H. destruct (IH (S a) l1 r l2 H) as (i & Hi & Hf & -> & ->).
        exists i. split; [lia|]. split; [exact Hf|]. split.
        -- replace (i - a)%nat with (S (i - S a)) by lia.
           cbn [seq omap list_omap]. now rewrite Ea.
        -- f_equal. f_equal. lia.
    + destruct (IH (S a) l1 r l2 H) as (i & Hi & Hf & -> & ->).
      exists i. split; [lia|]. split; [exact Hf|]. split.
      * replace (i - a)%nat with (S (i - S a)) by lia.
        cbn [seq omap list_omap]. now rewrite Ea.
      * f_equal. f_equal. lia.
Qed.

Lemma In_omap_seq {A : Type} (f : nat -> option A) (a n : nat) (x : A) :
  In x (omap f (seq a n)) <-> exists i, (a <= i < a + n)%nat /\ f i = Some x.
Proof.
  rewrite <- list_elem_of_In, list_elem_of_omap. split.
  - intros (i & Hi & Hf). apply list_elem_of_In, in_seq in Hi. eauto.
  - intros (i & Hi & Hf). exists i. split; [|exact Hf].
    apply list_elem_of_In, in_seq. exact Hi.
Qed.

(** The first valid element of a list with one more element inserted. *)
Lemma find_insert_by_length (P : jsstring -> bool) (x : jsstring)
    (l : list jsstring) :
  StronglySorted longest_first l ->
  List.find P (insert_by_length x l)
  = match List.find P l with
    | Some r =>
        if (length r <=? length x)%nat && P x then Some x else Some r
    | None => if P x then Some x else None
    end.
Proof.
  induction 1 as [|z l Hs IH Hall]; cbn [insert_by_length List.find].
  - reflexivity.
  - destruct (Nat.leb_spec (length z) (length x)) as [Hle|Hgt].
    + cbn [List.find]. destruct (P x) eqn:Px.
      * destruct (P z) eqn:Pz.
        -- destruct (Nat.leb_spec (length z) (length x)); [reflexivity | lia].
        -- destruct (List.find P l) as [r|] eqn:Er; [|reflexivity].
           pose proof (find_some _ _ Er) as [Hin _].
           rewrite List.Forall_forall in Hall. specialize (Hall r Hin).
           unfold longest_first in Hall.
           destruct (Nat.leb_spec (length r) (length x)); [reflexivity | lia].
      * destruct (P z); [now rewrite andb_false_r|].
        destruct (List.find P l); [now rewrite andb_false_r | reflexivity].
    + cbn [List.find]. destruct (P z) eqn:Pz.
      * destruct (Nat.leb_spec (length z) (length x)); [lia | reflexivity].
      * exact IH.
Qed.

(** The stable sort, longest first, followed by [find]: the first of the
    longest valid elements of the list. *)
Lemma find_sort_longest_first (P : jsstring -> bool) (l : list jsstring) :
  match List.find P (sort_longest_first l) with
  | Some r =>
      P r = true /\
      exists l1 l2,
        l = l1 ++ r :: l2 /\
        (forall c, In c l1 -> P c = true -> (length c < length r)%nat) /\
        (forall c, In c l2 -> P c = true -> (length c <= length r)%nat)
  | None => forall c, In c l -> P c = false
  end.
Proof.
  induction l as [|x l IH]; [intros c []|].
  cbn [sort_longest_first foldr].
  change (foldr insert_by_length [] l) with (sort_longest_first l).
  rewrite (find_insert_by_length P x _ (sort_longest_first_sorted l)).
  destruct (List.find P (sort_longest_first l)) as [r|].
  - destruct IH as (Pr & l1 & l2 & -> & H1 & H2).
    destruct (Nat.leb_spec (length r) (length x)) as [Hle|Hgt]; cbn [andb].
    + destruct (P x) eqn:Px.
      * split; [exact Px|]. exists [], (l1 ++ r :: l2).
        split; [reflexivity|]. split; [intros c []|].
        intros c Hc Pc. apply in_app_iff in Hc as [Hc|[<-|Hc]].
        -- specialize (H1 c Hc Pc). lia.
        -- exact Hle.
        -- specialize (H2 c Hc Pc). lia.
      * split; [exact Pr|]. exists (x :: l1), l2. split; [reflexivity|].
        split; [|exact H2]. intros c [<-|Hc] Pc; [congruence | now apply H1].
    + split; [exact Pr|]. exists (x :: l1), l2. split; [reflexivity|].
      split; [|exact H2]. intros c [<-|Hc] Pc; [lia | now apply H1].
  - destruct (P x) eqn:Px.
    + split; [exact Px|]. exists [], l. split; [reflexivity|].
      split; [intros c []|]. intros c Hc Pc. rewrite (IH c Hc) in Pc. discriminate.
    + intros c [<-|Hc]; [exact Px | now apply IH].
Qed.

(** The result of pattern 3 in terms of bracket matching. *)
Lemma longest_valid_bracket_matched (trimmed : jsstring) :
  match List.find JSON_valid (sort_longest_first (jsonCandidates trimmed)) with
  | Some r =>
      JSON_valid r = true /\
      exists i,
        bracket_matched trimmed i r /\
        forall j c, bracket_matched trimmed j c -> JSON_valid c = true ->
                    (length c <= length r)%nat /\
                    (length c = length r -> (i <= j)%nat)
  | None =>
      forall j c, bracket_matched trimmed j c -> JSON_valid c = false
  end.
Proof.
  pose proof (find_sort_longest_first JSON_valid (jsonCandidates trimmed)) as H.
  destruct (List.find JSON_valid (sort_longest_first (jsonCandidates trimmed)))
    as [r|].
  - destruct H as (Pr & l1 & l2 & Hl & H1 & H2). split; [exact Pr|].
    rewrite jsonCandidates_candidate_at in Hl.
    apply omap_seq_split in Hl as (i & Hi & Hf & -> & ->).
    exists i. split; [now apply candidate_at_bracket_matched|].
    intros j c Hc Pc. pose proof (bracket_matched_lt _ _ _ Hc) as Hj.
    apply candidate_at_bracket_matched in Hc.
    destruct (Nat.lt_trichotomy j i) as [Hlt|[->|Hgt]].
    + assert (Hin : In c (omap (candidate_at trimmed) (seq 0 (i - 0)))).
      { apply In_omap_seq. exists j. split; [lia | exact Hc]. }
      specialize (H1 c Hin Pc). lia.
    + rewrite Hf in Hc. injection Hc as ->. lia.
    + assert (Hin : In c (omap (candidate_at trimmed)
                            (seq (S i) (0 + length trimmed - S i)))).
      { apply In_omap_seq. exists j. split; [lia | exact Hc]. }
      specialize (H2 c Hin Pc). lia.
  - intros j c Hc. pose proof (bracket_matched_lt _ _ _ Hc) as Hj.
    apply candidate_at_bracket_matched in Hc. apply H.
    rewrite jsonCandidates_candidate_at. apply In_omap_seq.
    exists j. split; [lia | exact Hc].
Qed.

(** C7. On a text without a fenced code block: when some string-aware,
    bracket-matched substring is valid JSON, [extractJsonFromText] returns
    the longest of the valid ones, and of several longest ones the one that
    starts first; when no bracket-matched substring and neither fallback
    validates, it returns the trimmed text.  The function is total (it never
    throws).  The two examples of the specification evaluate as stated. *)
Theorem extractJsonFromText_longest_valid_candidate :
  (forall text : jsstring,
      ~ fenced_block text ->
      let trimmed := trim text in
      let result := extractJsonFromText text in
      ((exists i c, bracket_matched trimmed i c /\ JSON_valid c = true) ->
       JSON_valid result = true /\
       exists i,
         bracket_matched trimmed i result /\
         forall j c, bracket_matched trimmed j c -> JSON_valid c = true ->
                     (length c <= length result)%nat /\
                     (length c = length result -> (i <= j)%nat))
      /\
      ((forall i c, bracket_matched trimmed i c -> JSON_valid c = false) ->
       valid_candidate (pattern4_candidate trimmed) = None ->
       valid_candidate (pattern5_candidate trimmed) = None ->
       result = trimmed))
  /\ extractJsonFromText (dq "Invalid {not json} but valid {'key': 'value'}")
     = dq "{'key': 'value'}"
  /\ extractJsonFromText (str "plain text") = str "plain text".
Proof.
  split; [|split; vm_compute; reflexivity].
  intros text Hno trimmed result.
  destruct (no_fence_no_match text Hno) as [H1 H2].
  fold trimmed in H1, H2.
  assert (Hres : result =
            match List.find JSON_valid (sort_longest_first (jsonCandidates trimmed)) with
            | Some candidate => candidate
            | None =>
                match valid_candidate (pattern4_candidate trimmed) with
                | Some candidate => candidate
                | None =>
                    match valid_candidate (pattern5_candidate trimmed) with
                    | Some candidate => candidate
                    | None => trimmed
                    end
                end
            end).
  { subst result. unfold extractJsonFromText. fold trimmed.
    now rewrite H1, H2. }
  pose proof (longest_valid_bracket_matched trimmed) as Hfind.
  destruct (List.find JSON_valid (sort_longest_first (jsonCandidates trimmed)))
    as [r|].
  - subst result. rewrite Hres. split.
    + intros _. exact Hfind.
    + intros Hnone. destruct Hfind as [Hv [i [Hm _]]].
      rewrite (Hnone i r Hm) in Hv. discriminate.
  - split.
    + intros (i & c & Hc & Hv). rewrite (Hfind i c Hc) in Hv. discriminate.
    + intros _ H4 H5. now rewrite H4, H5 in Hres.
Qed.

(** The first example of the specification is an input of the theorem: it
    has no fence, the substring matched at its second brace is valid and is
    returned. *)
Lemma extractJsonFromText_longest_valid_candidate_witness :
  ~ fenced_block (dq "Invalid {not json} but valid {'key': 'value'}") /\
  bracket_matched (trim (dq "Invalid {not json} but valid {'key': 'value'}")) 29
    (dq "{'key': 'value'}") /\
  JSON_valid (extractJsonFromText (dq "Invalid {not json} but valid {'key': 'value'}"))
  = true /\
  exists i,
    bracket_matched (trim (dq "Invalid {not json} but valid {'key': 'value'}")) i
      (extractJsonFromText (dq "Invalid {not json} but valid {'key': 'value'}")).
Proof.
  set (text := dq "Invalid {not json} but valid {'key': 'value'}").
  assert (Hno : ~ fenced_block text).
  { intros H. apply fenced_block_backtick in H. vm_compute in H.
    repeat (destruct H as [H|H]; [discriminate|]). exact H. }
  assert (Hm : bracket_matched (trim text) 29 (dq "{'key': 'value'}")).
  { apply extractJsonFromPosition_bracket_matched. vm_compute. reflexivity. }
  split; [exact Hno|]. split; [exact Hm|].
  destruct (proj1 extractJsonFromText_longest_valid_candidate text Hno)
    as [Hsome _].
  destruct (Hsome (ex_intro _ 29%nat (ex_intro _ _ (conj Hm eq_refl))))
    as [Hvalid [i [Hi _]]].
  split; [exact Hvalid|]. exists i. exact Hi.
Defined.

End JsonUtilsFacts.

(** ** [validateAuthMethod] *)

Module AuthFacts.

Import Auth.

Section Azure.

Variable loadEnvironment : Env -> Env.

Lemma push_if_unset_filter (env : Env) (name : string) (acc : list string) :
  push_if_unset env name acc
  = acc ++ List.filter (fun k => negb (is_set env k)) [name].
Proof.
  unfold push_if_unset. simpl.
  destruct (negb (is_set env name)); [reflexivity|]. now rewrite app_nil_r.
Qed.

(** The two member expressions that name no member of the enum. *)
Lemma no_member_CLOUD_SHELL : AuthType_member "CLOUD_SHELL" = None.
Proof. reflexivity. Qed.

Lemma no_member_LOGIN_WITH_GOOGLE : AuthType_member "LOGIN_WITH_GOOGLE" = None.
Proof. reflexivity. Qed.

Lemma no_member_AZURE_OPENAI : AuthType_member "AZURE_OPENAI" = None.
Proof. reflexivity. Qed.

(** The two blocks that an argument can reach. *)
Lemma validateAuthMethod_USE_GEMINI (process_env : Env) :
  validateAuthMethod loadEnvironment process_env (OfType USE_GEMINI)
  = if negb (is_set (loadEnvironment process_env) "GEMINI_API_KEY") then
      Some {| message :=
                str "GEMINI_API_KEY environment variable not found. Add that to your environment and try again (no reload needed if using .env)!";
              missing := ["GEMINI_API_KEY"%string] |}
    else None.
Proof. reflexivity. Qed.

Lemma validateAuthMethod_USE_VERTEX_AI (process_env : Env) :
  validateAuthMethod loadEnvironment process_env (OfType USE_VERTEX_AI)
  = let env := loadEnvironment process_env in
    if negb (is_set env "GOOGLE_CLOUD_PROJECT" && is_set env "GOOGLE_CLOUD_LOCATION")
       && negb (is_set env "GOOGLE_API_KEY")
    then
      Some {| message := vertex_message;
              missing :=
                List.filter (fun k => negb (is_set env k))
                  ["GOOGLE_CLOUD_PROJECT"; "GOOGLE_CLOUD_LOCATION";
                   "GOOGLE_API_KEY"]%string |}
    else None.
Proof.
  cbv zeta. rewrite <- (app_nil_l (List.filter _ _)).
  change (List.filter (fun k => negb (is_set (loadEnvironment process_env) k))
            ["GOOGLE_CLOUD_PROJECT"; "GOOGLE_CLOUD_LOCATION"; "GOOGLE_API_KEY"]%string)
    with (List.filter (fun k => negb (is_set (loadEnvironment process_env) k))
            (["GOOGLE_CLOUD_PROJECT"%string] ++ ["GOOGLE_CLOUD_LOCATION"%string]
               ++ ["GOOGLE_API_KEY"%string])).
  rewrite !List.filter_app, !app_assoc, <- !push_if_unset_filter. reflexivity.
Qed.

(** The result for a string, by the two tests that can succeed on it. *)
Lemma validateAuthMethod_string (process_env : Env) (s : jsstring) :
  validateAuthMethod loadEnvironment process_env (Some s)
  = let env := loadEnvironment process_env in
    if str_eqb s (authType_value USE_GEMINI) then
      validateAuthMethod loadEnvironment process_env (OfType USE_GEMINI)
    else if str_eqb s (authType_value USE_VERTEX_AI) then
      validateAuthMethod loadEnvironment process_env (OfType USE_VERTEX_AI)
    else Some invalid_method.
Proof.
  unfold validateAuthMethod, OfType.
  rewrite no_member_CLOUD_SHELL, no_member_LOGIN_WITH_GOOGLE, no_member_AZURE_OPENAI.
  change (AuthType_member "USE_GEMINI") with (Some (authType_value USE_GEMINI)).
  change (AuthType_member "USE_VERTEX_AI") with (Some (authType_value USE_VERTEX_AI)).
  cbn [same]. cbv zeta.
  destruct (str_eqb s (authType_value USE_GEMINI)) eqn:Eg.
  { change (str_eqb (authType_value USE_GEMINI) (authType_value USE_GEMINI))
      with true. reflexivity. }
  destruct (str_eqb s (authType_value USE_VERTEX_AI)) eqn:Ev; [|reflexivity].
  change (str_eqb (authType_value USE_VERTEX_AI) (authType_value USE_GEMINI))
    with false.
  change (str_eqb (authType_value USE_VERTEX_AI) (authType_value USE_VERTEX_AI))
    with true.
  reflexivity.
Qed.

(** C8.  No argument reaches the Azure blocks.  The enum has no member
    [AZURE_OPENAI] (its member for Azure is [USE_AZURE_OPENAI]) and none
    named [CLOUD_SHELL]: both expressions are [undefined], and the first
    test returns [null] for an [undefined] argument.  So, in every
    environment: for the string of the enum's Azure member the result is
    [Invalid auth method selected.] with an empty [missing] list; for
    [AuthType.AZURE_OPENAI] the result is [null]; and no result carries the
    message of an Azure block. *)
Theorem validateAuthMethod_azure_unreachable (process_env : Env) :
  validateAuthMethod loadEnvironment process_env (OfType USE_AZURE_OPENAI)
  = Some invalid_method
  /\ validateAuthMethod loadEnvironment process_env (AuthType_member "AZURE_OPENAI")
     = None
  /\ forall authMethod r,
       validateAuthMethod loadEnvironment process_env authMethod = Some r ->
       message r <> azure_message /\ message r <> azure_model_message.
Proof.
  split; [|split].
  - unfold OfType. rewrite validateAuthMethod_string. reflexivity.
  - reflexivity.
  - intros [s|] r; [|discriminate].
    rewrite validateAuthMethod_string. cbv zeta.
    destruct (str_eqb s (authType_value USE_GEMINI)).
    + rewrite validateAuthMethod_USE_GEMINI.
      destruct (negb (is_set (loadEnvironment process_env) "GEMINI_API_KEY"));
        [|discriminate].
      intros [= <-]. split; intros E; vm_compute in E; discriminate E.
    + destruct (str_eqb s (authType_value USE_VERTEX_AI)).
      * rewrite validateAuthMethod_USE_VERTEX_AI. cbv zeta.
        destruct (negb _ && negb _); [|discriminate].
        intros [= <-]. split; intros E; vm_compute in E; discriminate E.
      * intros [= <-]. split; intros E; vm_compute in E; discriminate E.
Qed.

End Azure.

End AuthFacts.

(** ** [convertToOpenAIMessages] and [countTokens] *)

Module MessageFacts.

Import Azure.

Section Filters.

Context {A B : Type} (f : A -> option B).

Lemma omap_length_filter (l : list A) :
  length (omap f l) = length (List.filter (defined f) l).
Proof using Type.
  induction l as [|a l IH]; simpl; [reflexivity|].
  unfold defined at 1. destruct (f a); simpl; [f_equal|]; exact IH.
Qed.

Lemma omap_nil_forallb (l : list A) :
  forallb (fun a => negb (defined f a)) l = true -> omap f l = [].
Proof using Type.
  induction l as [|a l IH]; simpl; [reflexivity|].
  unfold defined at 1. destruct (f a); simpl; [discriminate|]. exact IH.
Qed.

Lemma omap_length_existsb (l : list A) :
  existsb (defined f) l = true -> (0 < length (omap f l))%nat.
Proof using Type.
  induction l as [|a l IH]; simpl; [discriminate|].
  unfold defined at 1. destruct (f a); simpl; [lia|]. exact IH.
Qed.

End Filters.

Lemma forallb_weaken {A : Type} (P Q : A -> bool) (l : list A) :
  (forall a, P a = true -> Q a = true) ->
  forallb P l = true -> forallb Q l = true.
Proof.
  intros HPQ. induction l as [|a l IH]; simpl; [reflexivity|].
  intros H. apply andb_true_iff in H as [Ha Hl].
  now rewrite (HPQ a Ha), IH.
Qed.

Lemma map_lookup {A B : Type} (f : A -> B) (l : list A) (i : nat) (a : A) :
  l !! i = Some a -> List.map f l !! i = Some (f a).
Proof.
  revert i; induction l as [|x l IH]; intros [|i] H; try discriminate.
  - injection H as ->. reflexivity.
  - exact (IH i H).
Qed.

Lemma mapRole_model : mapRole (Some (str "model")) = Some (str "assistant").
Proof. reflexivity. Qed.

Lemma mapRole_other (r : option jsstring) :
  r <> Some (str "model") -> mapRole r = r.
Proof.
  intros H. destruct r as [s|]; simpl; [|reflexivity].
  destruct (str_eqb s (str "model")) eqn:E; [|reflexivity].
  apply JSFacts.str_eqb_eq in E. congruence.
Qed.

(** What [toolCalls_from] builds: one tool call per function call, at the
    same position. *)
Lemma toolCalls_from_lookup (clock : Clock) (fcs : list FunctionCall) :
  forall ticks index,
    length (toolCalls_from clock ticks index fcs).1 = length fcs /\
    forall i fc, fcs !! i = Some fc ->
      (toolCalls_from clock ticks index fcs).1 !! i
      = Some (toolCall_of clock (ticks + readings_before i fcs) fc (index + i)).1.
Proof.
  induction fcs as [|fc0 rest IH]; intros ticks index.
  - split; [reflexivity|]. intros i fc H. discriminate.
  - cbn [toolCalls_from].
    destruct (toolCall_of clock ticks fc0 index) as [tc ticks1] eqn:E0.
    destruct (toolCalls_from clock ticks1 (S index) rest) as [tcs ticks2] eqn:E1.
    destruct (IH ticks1 (S index)) as [IHlen IHget]. rewrite E1 in IHlen, IHget.
    simpl in IHlen, IHget. simpl. split; [now rewrite IHlen|].
    intros [|i] fc H; simpl in H.
    + injection H as <-. unfold readings_before. simpl.
      rewrite Nat.add_0_r, Nat.add_0_r, E0. reflexivity.
    + change (tcs !! i
              = Some (toolCall_of clock
                        (ticks + readings_before (S i) (fc0 :: rest)) fc
                        (index + S i)).1).
      rewrite (IHget i fc H).
      replace (index + S i)%nat with (S (index + i)) by lia.
      replace (ticks + readings_before (S i) (fc0 :: rest))%nat
        with (ticks1 + readings_before i rest)%nat; [reflexivity|].
      unfold toolCall_of in E0. unfold readings_before. simpl.
      destruct (fc_id fc0) as [i0|]; simpl.
      * destruct (truthy_str i0); simpl; injection E0 as _ <-; simpl; lia.
      * injection E0 as _ <-. simpl. lia.
Qed.

(** The message of a turn that has a function call. *)
Lemma convertContent_functionCalls (clock : Clock) (ticks : nat) (content : Content) :
  let ps := default [] (parts content) in
  existsb has_functionCall ps = true ->
  exists m ticks',
    convertContent clock ticks content = ([m], ticks') /\
    m_role m = mapRole (role content) /\
    m_tool_calls m
    = Some (toolCalls_from clock ticks 0 (omap functionCall ps)).1 /\
    m_content m
    = (let combined := join [LF] (omap text ps) in
       if truthy_str combined then ContentString combined else ContentNull) /\
    m_tool_call_id m = None.
Proof.
  intros ps H. unfold convertContent. fold ps.
  pose proof (omap_length_existsb functionCall ps H) as Hlen.
  apply Nat.ltb_lt in Hlen. rewrite Hlen.
  destruct (toolCalls_from clock ticks 0 (omap functionCall ps)) as [tcs t'].
  eexists; eexists. split; [reflexivity|]. simpl. repeat split.
Qed.

(** The message of a turn with a function call, field by field. *)
Lemma convertContent_functionCall_message
    (clock : Clock) (ticks : nat) (content : Content) :
  let ps := default [] (parts content) in
  let fcs := omap functionCall ps in
  existsb has_functionCall ps = true ->
  exists m tcs ticks',
    convertContent clock ticks content = ([m], ticks') /\
    m_role m = mapRole (role content) /\
    (role content = Some (str "model") -> m_role m = Some (str "assistant")) /\
    m_tool_calls m = Some tcs /\
    length tcs = length (List.filter has_functionCall ps) /\
    (forall i fc, fcs !! i = Some fc ->
       exists tc, tcs !! i = Some tc /\
         tc_name tc = fc_name fc /\
         tc_type tc = str "function" /\
         tc_arguments tc = JSON_stringify (args_or_empty (fc_args fc)) /\
         (truthy_opt (fc_id fc) = true -> Some (tc_id tc) = fc_id fc) /\
         (truthy_opt (fc_id fc) = false ->
            tc_id tc
            = synthesized_id (clock (ticks + readings_before i fcs)%nat) i)) /\
    m_content m
    = (let combined := join [LF] (omap text ps) in
       if truthy_str combined then ContentString combined else ContentNull).
Proof.
  intros ps fcs H.
  destruct (convertContent_functionCalls clock ticks content H)
    as [m [ticks' [Hc [Hrole [Htcs [Hcontent _]]]]]].
  exists m, (toolCalls_from clock ticks 0 fcs).1, ticks'.
  destruct (toolCalls_from_lookup clock fcs ticks 0) as [Hlen Hget].
  split; [exact Hc|]. split; [exact Hrole|].
  split; [intros Hm; rewrite Hrole, Hm; reflexivity|].
  split; [exact Htcs|].
  split; [rewrite Hlen; apply omap_length_filter|].
  split; [|exact Hcontent].
  intros i fc Hi. rewrite (Hget i fc Hi). eexists. split; [reflexivity|].
  unfold toolCall_of, truthy_opt. simpl.
  destruct (fc_id fc) as [i0|]; [destruct (truthy_str i0) eqn:Et|]; simpl;
    repeat split; intros; try discriminate; try reflexivity.
Qed.


Lemma convertContents_from_app (clock : Clock) (a b : list Content) :
  forall ticks,
    convertContents_from clock ticks (a ++ b)
    = (let r1 := convertContents_from clock ticks a in
       let r2 := convertContents_from clock r1.2 b in
       (r1.1 ++ r2.1, r2.2)).
Proof.
  induction a as [|c a IH]; intros ticks; simpl.
  - now destruct (convertContents_from clock ticks b).
  - destruct (convertContent clock ticks c) as [ms t1].
    rewrite IH. simpl.
    destruct (convertContents_from clock t1 a) as [ma t2]. simpl.
    destruct (convertContents_from clock t2 b) as [mb t3]. simpl.
    now rewrite app_assoc.
Qed.

(** The messages of a conversation are those of its turns, in order. *)
Lemma convertToOpenAIMessages_turn (clock : Clock) (pre post : list Content)
    (content : Content) :
  let ticks := (convertContents_from clock 0 pre).2 in
  let step := convertContent clock ticks content in
  convertToOpenAIMessages clock (pre ++ content :: post)
  = convertToOpenAIMessages clock pre ++ step.1
      ++ (convertContents_from clock step.2 post).1.
Proof.
  intros ticks step. unfold convertToOpenAIMessages.
  rewrite convertContents_from_app. simpl. fold ticks. fold step.
  destruct step as [ms t1]. simpl.
  now destruct (convertContents_from clock t1 post).
Qed.

(** C4, as amended.  A turn with at least one function-call part
    contributes exactly one wire message, at the turn's place in the output.
    Its role is the turn's role, with [model] mapped to [assistant]; its
    [tool_calls] has one entry per function-call part, in order: the entry
    keeps the part's id when it has a non-empty one and otherwise takes the
    id [call_<clock reading>_<index>], keeps the name, and carries
    [JSON.stringify(args || {})]; its content is the text of the turn's text
    parts joined by newlines, or [null] when that text is empty. *)
Theorem convertToOpenAIMessages_functionCall_turn
    (clock : Clock) (pre post : list Content) (content : Content) :
  let ps := default [] (parts content) in
  let fcs := omap functionCall ps in
  let ticks := (convertContents_from clock 0 pre).2 in
  existsb has_functionCall ps = true ->
  exists m tcs ticks',
    convertToOpenAIMessages clock (pre ++ content :: post)
    = convertToOpenAIMessages clock pre ++ [m]
        ++ (convertContents_from clock ticks' post).1 /\
    m_role m = mapRole (role content) /\
    (role content = Some (str "model") -> m_role m = Some (str "assistant")) /\
    m_tool_calls m = Some tcs /\
    length tcs = length (List.filter has_functionCall ps) /\
    (forall i fc, fcs !! i = Some fc ->
       exists tc, tcs !! i = Some tc /\
         tc_name tc = fc_name fc /\
         tc_type tc = str "function" /\
         tc_arguments tc = JSON_stringify (args_or_empty (fc_args fc)) /\
         (truthy_opt (fc_id fc) = true -> Some (tc_id tc) = fc_id fc) /\
         (truthy_opt (fc_id fc) = false ->
            tc_id tc
            = synthesized_id (clock (ticks + readings_before i fcs)%nat) i)) /\
    m_content m
    = (let combined := join [LF] (omap text ps) in
       if truthy_str combined then ContentString combined else ContentNull).
Proof.
  intros ps fcs ticks H.
  destruct (convertContent_functionCall_message clock ticks content H)
    as [m [tcs [ticks' [Hc Hrest]]]].
  exists m, tcs, ticks'. split; [|exact Hrest].
  rewrite convertToOpenAIMessages_turn. fold ticks. now rewrite Hc.
Qed.

Lemma convertToOpenAIMessages_functionCall_turn_witness :
  exists m tcs,
    convertToOpenAIMessages sample_clock [model_turn_with_call] = [m] /\
    m_role m = Some (str "assistant") /\
    m_tool_calls m = Some tcs /\ length tcs = 1%nat /\
    m_content m = ContentString (str "Reading" ++ [LF] ++ str "the file").
Proof.
  assert (H : existsb has_functionCall (default [] (parts model_turn_with_call)) = true)
    by reflexivity.
  destruct (convertToOpenAIMessages_functionCall_turn sample_clock [] []
              model_turn_with_call H)
    as [m [tcs [t' [Hc [_ [Hrole [Htcs [Hlen [_ Hcontent]]]]]]]]].
  exists m, tcs. split; [exact Hc|].
  split; [apply Hrole; reflexivity|].
  split; [exact Htcs|]. split; [exact Hlen|]. exact Hcontent.
Defined.

(** C4 as stated fails: a turn whose role is [user] and which has a
    function-call part gives a message whose role is [user], not
    [assistant]. *)
Lemma convertToOpenAIMessages_functionCall_user_role :
  existsb has_functionCall (default [] (parts user_turn_with_call)) = true /\
  List.map m_role (convertToOpenAIMessages sample_clock [user_turn_with_call])
  = [Some (str "user")] /\
  Some (str "user") <> Some (str "assistant").
Proof.
  split; [reflexivity|]. split; [vm_compute; reflexivity | discriminate].
Qed.

(** C10 as stated fails, for the role: with a function call and a function
    result in one turn, a [user] turn gives a [user] message, and a [tool]
    turn gives a message whose role is [tool]. *)
Lemma convertToOpenAIMessages_call_and_result_roles :
  (existsb has_functionCall (default [] (parts user_turn_with_call_and_result))
   && existsb has_functionResponse (default [] (parts user_turn_with_call_and_result))
   = true) /\
  List.map m_role
    (convertToOpenAIMessages sample_clock [user_turn_with_call_and_result])
  = [Some (str "user")] /\
  (existsb has_functionCall (default [] (parts tool_turn_with_call_and_result))
   && existsb has_functionResponse (default [] (parts tool_turn_with_call_and_result))
   = true) /\
  List.map m_role
    (convertToOpenAIMessages sample_clock [tool_turn_with_call_and_result])
  = [Some (str "tool")].
Proof. repeat split; vm_compute; reflexivity. Qed.

(** C10, as amended.  A turn with both function-call parts and
    function-result parts contributes exactly one wire message: the
    tool-calls message of the first branch, whose role is the turn's role
    with [model] mapped to [assistant].  Nothing is built from the
    function-result parts: the message has no [tool_call_id] and its content
    comes from the text parts alone. *)
Theorem convertToOpenAIMessages_call_and_result_turn
    (clock : Clock) (pre post : list Content) (content : Content) :
  let ps := default [] (parts content) in
  existsb has_functionCall ps = true ->
  existsb has_functionResponse ps = true ->
  exists m tcs ticks',
    convertToOpenAIMessages clock (pre ++ content :: post)
    = convertToOpenAIMessages clock pre ++ [m]
        ++ (convertContents_from clock ticks' post).1 /\
    m_role m = mapRole (role content) /\
    (role content = Some (str "model") -> m_role m = Some (str "assistant")) /\
    m_tool_calls m = Some tcs /\
    length tcs = length (List.filter has_functionCall ps) /\
    m_tool_call_id m = None /\
    m_content m
    = (let combined := join [LF] (omap text ps) in
       if truthy_str combined then ContentString combined else ContentNull).
Proof.
  intros ps H _.
  pose (ticks := (convertContents_from clock 0 pre).2).
  destruct (convertContent_functionCalls clock ticks content H)
    as [m [ticks' [Hc [Hrole [Htcs [Hcontent Hid]]]]]].
  exists m, (toolCalls_from clock ticks 0 (omap functionCall ps)).1, ticks'.
  split.
  { rewrite convertToOpenAIMessages_turn. fold ticks. now rewrite Hc. }
  split; [exact Hrole|].
  split; [intros Hm; rewrite Hrole, Hm; reflexivity|].
  split; [exact Htcs|].
  split.
  { rewrite (proj1 (toolCalls_from_lookup clock _ ticks 0)).
    apply omap_length_filter. }
  split; [exact Hid | exact Hcontent].
Qed.

Lemma convertToOpenAIMessages_call_and_result_turn_witness :
  exists m tcs,
    convertToOpenAIMessages sample_clock [tool_turn_with_call_and_result] = [m] /\
    m_tool_calls m = Some tcs /\ length tcs = 1%nat /\
    m_tool_call_id m = None /\ m_content m = ContentNull.
Proof.
  destruct (convertToOpenAIMessages_call_and_result_turn sample_clock [] []
              tool_turn_with_call_and_result eq_refl eq_refl)
    as [m [tcs [t' [Hc [_ [_ [Htcs [Hlen [Hid Hcontent]]]]]]]]].
  exists m, tcs. split; [exact Hc|].
  split; [exact Htcs|]. split; [exact Hlen|]. split; [exact Hid|].
  exact Hcontent.
Defined.

(** The message of a text turn. *)
Lemma convertContent_text_only (clock : Clock) (ticks : nat) (content : Content) :
  text_only_turn content = true ->
  convertContent clock ticks content
  = ([{| m_role := mapRole (role content);
         m_content := ContentString
                        (combinedText (omap text (default [] (parts content))));
         m_tool_calls := None;
         m_tool_call_id := None |}], ticks).
Proof.
  unfold text_only_turn, convertContent.
  set (ps := default [] (parts content)).
  intros H. apply andb_true_iff in H as [Htext Hnone].
  assert (Hfc : omap functionCall ps = []).
  { apply omap_nil_forallb. eapply forallb_weaken; [|exact Hnone].
    intros p Hp. apply andb_true_iff in Hp as [Hp _]. exact Hp. }
  assert (Hfr : omap functionResponse ps = []).
  { apply omap_nil_forallb. eapply forallb_weaken; [|exact Hnone].
    intros p Hp. apply andb_true_iff in Hp as [_ Hp]. exact Hp. }
  rewrite Hfc, Hfr. simpl.
  pose proof (omap_length_existsb text ps Htext) as Hlen.
  apply Nat.ltb_lt in Hlen. now rewrite Hlen.
Qed.

Lemma convertContents_text_only (clock : Clock) (contents : list Content) :
  forall ticks,
    List.Forall (fun c => text_only_turn c = true) contents ->
    (convertContents_from clock ticks contents).1
    = List.map
        (fun c =>
           {| m_role := mapRole (role c);
              m_content := ContentString
                             (combinedText (omap text (default [] (parts c))));
              m_tool_calls := None;
              m_tool_call_id := None |})
        contents.
Proof.
  induction contents as [|c cs IH]; intros ticks H; [reflexivity|].
  inversion H as [|? ? Hc Hcs]; subst. simpl.
  rewrite (convertContent_text_only clock ticks c Hc).
  specialize (IH ticks Hcs).
  destruct (convertContents_from clock ticks cs) as [ms t2]. simpl in *.
  now rewrite IH.
Qed.

(** C6.  On a conversation of text turns the output has one message per
    turn; the message at a turn's position has the role [assistant] when the
    turn's role is [model], and the turn's own role otherwise. *)
Theorem convertToOpenAIMessages_text_turns
    (clock : Clock) (contents : list Content) :
  List.Forall (fun c => text_only_turn c = true) contents ->
  let messages := convertToOpenAIMessages clock contents in
  length messages = length contents /\
  forall i c, contents !! i = Some c ->
    exists m, messages !! i = Some m /\
      (role c = Some (str "model") -> m_role m = Some (str "assistant")) /\
      (role c <> Some (str "model") -> m_role m = role c).
Proof.
  intros H messages. subst messages. unfold convertToOpenAIMessages.
  rewrite (convertContents_text_only clock contents 0%nat H).
  split; [apply length_map|].
  intros i c Hi. eexists. split.
  - exact (map_lookup _ contents i c Hi).
  - simpl. split.
    + intros ->. reflexivity.
    + apply mapRole_other.
Qed.

Lemma convertToOpenAIMessages_text_turns_witness :
  length (convertToOpenAIMessages sample_clock text_conversation) = 3%nat /\
  exists m, convertToOpenAIMessages sample_clock text_conversation !! 1%nat = Some m /\
            m_role m = Some (str "assistant").
Proof.
  assert (H : List.Forall (fun c => text_only_turn c = true) text_conversation)
    by (repeat constructor).
  destruct (convertToOpenAIMessages_text_turns sample_clock text_conversation H)
    as [Hlen Hroles].
  split; [exact Hlen|].
  destruct (Hroles 1%nat _ eq_refl) as [m [Hm [Hmodel _]]].
  exists m. split; [exact Hm | exact (Hmodel eq_refl)].
Defined.

(** C9.  [countTokens] returns the ceiling of [L / 4], where [L] is the
    length of the message contents joined by single spaces: the least
    number whose fourfold is not below [L].  A text of length 400 gives
    exactly 100. *)
Theorem countTokens_ceiling (clock : Clock) (contents : ContentListUnion) :
  let L := length (totalText clock contents) in
  let tokens := countTokens clock contents in
  totalText clock contents
  = join [SPACE]
      (List.map (fun m => content_or_empty (m_content m))
         (convertToOpenAIMessages clock (toContents contents))) /\
  (L <= 4 * tokens)%nat /\
  (forall n, L <= 4 * n -> tokens <= n)%nat /\
  (L = 400%nat -> tokens = 100%nat).
Proof.
  intros L tokens. subst tokens. unfold countTokens, ceil_div4. fold L.
  split; [reflexivity|].
  pose proof (Nat.div_mod_eq (L + 3) 4) as Hdm.
  pose proof (Nat.mod_upper_bound (L + 3) 4 ltac:(lia)) as Hub.
  repeat split; intros; lia.
Qed.

Lemma countTokens_ceiling_witness :
  length (totalText sample_clock four_hundred_characters) = 400%nat /\
  countTokens sample_clock four_hundred_characters = 100%nat.
Proof.
  assert (HL : length (totalText sample_clock four_hundred_characters) = 400%nat)
    by (vm_compute; reflexivity).
  split; [exact HL|].
  exact (proj2 (proj2 (proj2
           (countTokens_ceiling sample_clock four_hundred_characters))) HL).
Defined.

End MessageFacts.

(** ** [convertToGeminiResponse] *)

Module ResponseFacts.

Import Azure AzureResponse.

Lemma JSON_parse_empty : JSON_parse [] = None.
Proof. reflexivity. Qed.

Lemma arguments_text_nonempty (a : jsstring) :
  a <> [] -> arguments_text (Some a) = a.
Proof. destruct a; [congruence | reflexivity]. Qed.

Lemma mapM_length {A B : Type} (f : A -> Result B) (xs : list A) (ys : list B) :
  mapM f xs = Ok ys -> length ys = length xs.
Proof.
  revert ys; induction xs as [|x xs IH]; intros ys H; simpl in H.
  - injection H as <-. reflexivity.
  - destruct (f x) as [y|e]; simpl in H; [|discriminate].
    destruct (mapM f xs) as [ys'|e]; simpl in H; [|discriminate].
    injection H as <-. simpl. now rewrite (IH ys' eq_refl).
Qed.

Lemma mapM_lookup {A B : Type} (f : A -> Result B) (xs : list A) (ys : list B) :
  mapM f xs = Ok ys ->
  forall i x, xs !! i = Some x -> exists y, ys !! i = Some y /\ f x = Ok y.
Proof.
  revert ys; induction xs as [|x0 xs IH]; intros ys H i x Hi; [discriminate|].
  simpl in H.
  destruct (f x0) as [y0|e] eqn:E0; simpl in H; [|discriminate].
  destruct (mapM f xs) as [ys'|e]; simpl in H; [|discriminate].
  injection H as <-.
  destruct i as [|i]; simpl in Hi.
  - injection Hi as <-. exists y0. split; [reflexivity | exact E0].
  - exact (IH ys' eq_refl i x Hi).
Qed.

(** [mapM] succeeds when the function succeeds on every element. *)
Lemma mapM_total {A B : Type} (f : A -> Result B) (xs : list A) :
  (forall x, In x xs -> exists y, f x = Ok y) -> exists ys, mapM f xs = Ok ys.
Proof.
  induction xs as [|x xs IH]; intros H; simpl.
  - eexists; reflexivity.
  - destruct (H x (or_introl eq_refl)) as [y ->]. simpl.
    destruct IH as [ys ->]; [intros x' Hx'; apply H; now right|].
    simpl. eexists; reflexivity.
Qed.

(** [mapM] throws when the function throws on some element. *)
Lemma mapM_throws {A B : Type} (f : A -> Result B) (xs : list A) (x : A) (e : Error) :
  In x xs -> f x = Throw e -> exists e', mapM f xs = Throw e'.
Proof.
  induction xs as [|x0 xs IH]; intros Hin Hf; [contradiction|].
  simpl. destruct (f x0) as [y0|e0] eqn:E0; simpl; [|eauto].
  destruct Hin as [->|Hin]; [congruence|].
  destruct (IH Hin Hf) as [e' ->]. simpl. eauto.
Qed.

(** C5 as stated fails on the empty argument string: it is not valid JSON,
    yet the conversion succeeds and gives the call the empty object. *)
Lemma convertToGeminiResponse_empty_arguments :
  JSON_parse [] = None /\
  exists r, convertToGeminiResponse (response_with []) = Ok r /\
            functionCalls r
            = Some [{| fc_id := Some (str "call_1");
                       fc_name := Some (str "read_file");
                       fc_args := Some (JObj []) |}].
Proof.
  split; [reflexivity|]. eexists. split; vm_compute; reflexivity.
Qed.

(** C5, as amended.  When the first choice carries tool calls, the response
    has one function-call part per tool call, in order, after the text part
    of a non-empty content; the call's [args] is the JSON decoding of the
    argument string, or the empty object when the argument string is empty.
    If some tool call has a non-empty argument string that is not valid
    JSON, the conversion throws the parse error. *)
Theorem convertToGeminiResponse_tool_calls
    (response : OpenAILikeResponse) (choice : Choice) (rest : list Choice)
    (tool_calls : list WireToolCall) :
  choices response = choice :: rest ->
  wm_tool_calls (ch_message choice) = Some tool_calls ->
  tool_calls <> [] ->
  ((forall tc, In tc tool_calls ->
               wtc_arguments tc = [] \/ JSON_valid (wtc_arguments tc) = true) ->
   exists r fcs,
     convertToGeminiResponse response = Ok r /\
     candidates r
     = [candidate
          ((if truthy_opt (wm_content (ch_message choice))
            then [text_part (default [] (wm_content (ch_message choice)))]
            else [])
             ++ List.map functionCall_part fcs)
          (Some (ch_finish_reason choice))] /\
     functionCalls r = Some fcs /\
     length fcs = length tool_calls /\
     forall i tc, tool_calls !! i = Some tc ->
       exists v,
         fcs !! i = Some {| fc_id := Some (wtc_id tc);
                            fc_name := Some (wtc_name tc);
                            fc_args := Some v |} /\
         (wtc_arguments tc <> [] -> JSON_parse (wtc_arguments tc) = Some v) /\
         (wtc_arguments tc = [] -> v = JObj []))
  /\
  (forall tc, In tc tool_calls ->
              wtc_arguments tc <> [] -> JSON_valid (wtc_arguments tc) = false ->
   exists text, convertToGeminiResponse response = Throw (JSONSyntaxError text)).
Proof.
  intros Hchoices Htcs Hne.
  assert (Hlen : (0 <? length tool_calls)%nat = true).
  { destruct tool_calls; [congruence | reflexivity]. }
  unfold convertToGeminiResponse. rewrite Hchoices, Htcs, Hlen.
  split.
  - intros Hall.
    destruct (mapM_total functionCall_of_toolCall tool_calls) as [fcs Hfcs].
    { intros tc Hin. unfold functionCall_of_toolCall, parse_arguments.
      destruct (Hall tc Hin) as [Hempty|Hvalid].
      - rewrite Hempty. simpl. eexists; reflexivity.
      - assert (Hn : wtc_arguments tc <> []).
        { intros E. rewrite E in Hvalid. discriminate. }
        rewrite (arguments_text_nonempty _ Hn).
        unfold JSON_valid in Hvalid.
        destruct (JSON_parse (wtc_arguments tc)); [|discriminate].
        simpl. eexists; reflexivity. }
    rewrite Hfcs. simpl. eexists; exists fcs.
    split; [reflexivity|]. simpl. split; [reflexivity|].
    split; [reflexivity|].
    split; [exact (mapM_length _ _ _ Hfcs)|].
    intros i tc Hi.
    destruct (mapM_lookup _ _ _ Hfcs i tc Hi) as [fc [Hfc Hconv]].
    unfold functionCall_of_toolCall, parse_arguments in Hconv.
    destruct (JSON_parse (arguments_text (Some (wtc_arguments tc))))
      as [v|] eqn:Ev; simpl in Hconv; [|discriminate].
    injection Hconv as <-. exists v. split; [exact Hfc|]. split.
    + intros Hn. now rewrite (arguments_text_nonempty _ Hn) in Ev.
    + intros Hempty. rewrite Hempty in Ev. simpl in Ev.
      vm_compute in Ev. congruence.
  - intros tc Hin Hn Hinvalid.
    assert (Hthrow : functionCall_of_toolCall tc
                     = Throw (JSONSyntaxError (wtc_arguments tc))).
    { unfold functionCall_of_toolCall, parse_arguments.
      rewrite (arguments_text_nonempty _ Hn).
      unfold JSON_valid in Hinvalid.
      destruct (JSON_parse (wtc_arguments tc)); [discriminate | reflexivity]. }
    destruct (mapM_throws _ _ _ _ Hin Hthrow) as [e' He']. rewrite He'. simpl.
    destruct e' as [|text]; [|eauto].
    (* the only error of the map is a parse error *)
    exfalso. clear - He'.
    induction tool_calls as [|t ts IH]; simpl in He'; [discriminate|].
    unfold functionCall_of_toolCall at 1, parse_arguments in He'.
    destruct (JSON_parse (arguments_text (Some (wtc_arguments t))));
      simpl in He'; [|discriminate].
    destruct (mapM functionCall_of_toolCall ts) as [ys|e]; simpl in He';
      [discriminate|].
    injection He' as ->. now apply IH.
Qed.

Lemma convertToGeminiResponse_tool_calls_witness :
  (exists r fcs v,
      convertToGeminiResponse (response_with (dq "{'path': 'a.txt'}")) = Ok r /\
      functionCalls r = Some fcs /\ length fcs = 1%nat /\
      fcs !! 0%nat = Some {| fc_id := Some (str "call_1");
                             fc_name := Some (str "read_file");
                             fc_args := Some v |} /\
      JSON_parse (dq "{'path': 'a.txt'}") = Some v)
  /\ exists text,
       convertToGeminiResponse (response_with (dq "{'path': "))
       = Throw (JSONSyntaxError text).
Proof.
  split.
  - pose (resp := response_with (dq "{'path': 'a.txt'}")).
    destruct (proj1 (convertToGeminiResponse_tool_calls resp _ _ _
                       eq_refl eq_refl ltac:(discriminate)))
      as [r [fcs [Hr [_ [Hcalls [Hlen Hget]]]]]].
    { intros tc [<-|[]]. right. vm_compute. reflexivity. }
    destruct (Hget 0%nat _ eq_refl) as [v [Hv [Hparse _]]].
    exists r, fcs, v. split; [exact Hr|]. split; [exact Hcalls|].
    split; [exact Hlen|]. split; [exact Hv|]. apply Hparse. discriminate.
  - pose (resp := response_with (dq "{'path': ")).
    eapply (proj2 (convertToGeminiResponse_tool_calls resp _ _ _
                     eq_refl eq_refl ltac:(discriminate))).
    + left. reflexivity.
    + discriminate.
    + vm_compute. reflexivity.
Defined.

End ResponseFacts.

(** ** The streaming generator *)

Module StreamFacts.

Import Azure AzureResponse AzureStream ResponseFacts.

Lemma truthy_text_of (o : option jsstring) :
  truthy_opt o = true <-> text_of o <> [].
Proof.
  unfold text_of. destruct o as [[|c s]|]; simpl; split; congruence.
Qed.

Lemma text_of_Some (o : option jsstring) :
  text_of o <> [] -> o = Some (text_of o).
Proof. unfold text_of. destruct o as [[|c s]|]; simpl; congruence. Qed.

Lemma text_of_append (old : option jsstring) (fragment : jsstring) :
  truthy_str fragment = true ->
  text_of (append_fragment old fragment) = text_of old ++ fragment.
Proof.
  intros H. unfold append_fragment, text_of. simpl.
  set (x := if truthy_opt old then default [] old else []).
  destruct (x ++ fragment) eqn:E.
  - apply app_eq_nil in E as [_ ->]. discriminate.
  - simpl. rewrite <- E. reflexivity.
Qed.

Lemma mergeDelta_name (d : ToolCallDelta) (r : AccumulatedToolCall) :
  text_of (record_name (mergeDelta d r))
  = text_of (record_name r) ++ name_fragment d.
Proof.
  unfold mergeDelta, record_name, name_fragment. simpl.
  destruct (d_function d) as [fd|]; [|now rewrite app_nil_r].
  unfold mergeFunction. simpl.
  destruct (fd_name fd) as [n|]; simpl.
  - destruct (truthy_str n) eqn:En.
    + rewrite (text_of_append _ _ En). now destruct (acc_function r).
    + destruct n; [|discriminate]. rewrite app_nil_r.
      now destruct (acc_function r).
  - rewrite app_nil_r. now destruct (acc_function r).
Qed.

Lemma mergeDelta_arguments (d : ToolCallDelta) (r : AccumulatedToolCall) :
  text_of (record_arguments (mergeDelta d r))
  = text_of (record_arguments r) ++ argument_fragment d.
Proof.
  unfold mergeDelta, record_arguments, argument_fragment. simpl.
  destruct (d_function d) as [fd|]; [|now rewrite app_nil_r].
  unfold mergeFunction. simpl.
  destruct (fd_arguments fd) as [n|]; simpl.
  - destruct (truthy_str n) eqn:En.
    + rewrite (text_of_append _ _ En). now destruct (acc_function r).
    + destruct n; [|discriminate]. rewrite app_nil_r.
      now destruct (acc_function r).
  - rewrite app_nil_r. now destruct (acc_function r).
Qed.

(** The record after a run of deltas: its id is the last non-empty id, its
    name and its argument string are the old ones followed by the
    fragments in order. *)
Lemma merged_record (ds : list ToolCallDelta) :
  forall r,
    let r' := foldl merge r ds in
    acc_id r' = match last_id ds with Some i => Some i | None => acc_id r end /\
    text_of (record_name r') = text_of (record_name r) ++ concat (List.map name_fragment ds) /\
    text_of (record_arguments r')
    = text_of (record_arguments r) ++ concat (List.map argument_fragment ds).
Proof.
  induction ds as [|d ds IH]; intros r; simpl.
  - now rewrite !app_nil_r.
  - destruct (IH (merge r d)) as [Hid [Hname Hargs]].
    split; [|split].
    + rewrite Hid. unfold merge, mergeDelta. simpl.
      destruct (last_id ds); [reflexivity|].
      destruct (truthy_opt (d_id d)) eqn:E; [|reflexivity].
      destruct (d_id d); [reflexivity | discriminate].
    + rewrite Hname. unfold merge. rewrite mergeDelta_name.
      now rewrite <- app_assoc.
    + rewrite Hargs. unfold merge. rewrite mergeDelta_arguments.
      now rewrite <- app_assoc.
Qed.

Lemma applyDelta_same_index (k : Z) (r : AccumulatedToolCall) (d : ToolCallDelta) :
  default 0%Z (d_index d) = k ->
  applyDelta [(k, r)] d = [(k, merge r d)].
Proof.
  intros Hk. unfold applyDelta. rewrite Hk. simpl.
  rewrite Z.eqb_refl. simpl. now rewrite Z.eqb_refl.
Qed.

Lemma foldl_applyDelta_same_index (k : Z) (ds : list ToolCallDelta) :
  (forall d, In d ds -> default 0%Z (d_index d) = k) ->
  forall r, foldl applyDelta [(k, r)] ds = [(k, foldl merge r ds)].
Proof.
  induction ds as [|d ds IH]; intros Hk r; [reflexivity|].
  simpl. rewrite (applyDelta_same_index k r d); [|apply Hk; now left].
  apply IH. intros d' Hd'. apply Hk. now right.
Qed.

(** A stream whose deltas all carry one index accumulates one record. *)
Lemma foldl_applyDelta_one_call (k : Z) (ds : list ToolCallDelta) :
  ds <> [] ->
  (forall d, In d ds -> default 0%Z (d_index d) = k) ->
  foldl applyDelta [] ds = [(k, foldl merge empty_record ds)].
Proof.
  destruct ds as [|d ds]; [congruence|]. intros _ Hk.
  simpl.
  assert (H0 : applyDelta [] d = [(k, merge empty_record d)]).
  { unfold applyDelta. rewrite (Hk d (or_introl eq_refl)). simpl.
    now rewrite Z.eqb_refl. }
  rewrite H0. apply foldl_applyDelta_same_index.
  intros d' Hd'. apply Hk. now right.
Qed.

Lemma processChunk_no_finish (st : StreamState) (chunk : OpenAILikeStreamChunk) :
  finishes chunk = false ->
  processChunk st chunk = (chunk_content_responses chunk, absorb st chunk, false).
Proof.
  unfold finishes, processChunk, handleChunk, chunk_content_responses, absorb,
    first_choice.
  destruct (chunk_choices chunk) as [[|choice others]|]; try reflexivity.
  intros ->. reflexivity.
Qed.

Lemma runChunks_no_finish (chunks rest : list OpenAILikeStreamChunk) :
  forall st,
    List.Forall (fun c => finishes c = false) chunks ->
    runChunks st (chunks ++ rest)
    = flat_map chunk_content_responses chunks
        ++ runChunks (foldl absorb st chunks) rest.
Proof.
  induction chunks as [|c cs IH]; intros st H; [reflexivity|].
  inversion H as [|? ? Hc Hcs]; subst.
  cbn [app runChunks]. rewrite (processChunk_no_finish st c Hc).
  cbn [flat_map foldl]. rewrite (IH _ Hcs). now rewrite app_assoc.
Qed.

Lemma absorb_calls (st : StreamState) (chunk : OpenAILikeStreamChunk) :
  accumulatedToolCalls (absorb st chunk)
  = foldl applyDelta (accumulatedToolCalls st) (chunk_deltas chunk).
Proof.
  unfold absorb, chunk_deltas.
  destruct (first_choice chunk) as [choice|]; [|reflexivity].
  unfold accumulate. simpl.
  now destruct (delta_tool_calls (delta choice)).
Qed.

Lemma absorbed_calls (chunks : list OpenAILikeStreamChunk) :
  forall st,
    accumulatedToolCalls (foldl absorb st chunks)
    = foldl applyDelta (accumulatedToolCalls st) (flat_map chunk_deltas chunks).
Proof.
  induction chunks as [|c cs IH]; intros st; [reflexivity|].
  cbn [foldl flat_map]. rewrite IH, absorb_calls. now rewrite foldl_app.
Qed.

Lemma absorb_content (st : StreamState) (chunk : OpenAILikeStreamChunk) :
  accumulatedContent (absorb st chunk)
  = accumulatedContent st ++ chunk_content chunk.
Proof.
  unfold absorb, chunk_content.
  destruct (first_choice chunk) as [choice|]; [|now rewrite app_nil_r].
  unfold accumulate. simpl.
  destruct (delta_content (delta choice)) as [[|c s]|]; simpl;
    now rewrite ?app_nil_r.
Qed.

Lemma absorbed_content (chunks : list OpenAILikeStreamChunk) :
  forall st,
    accumulatedContent (foldl absorb st chunks)
    = accumulatedContent st ++ concat (List.map chunk_content chunks).
Proof.
  induction chunks as [|c cs IH]; intros st; simpl; [now rewrite app_nil_r|].
  rewrite IH, absorb_content. now rewrite <- app_assoc.
Qed.

Lemma arguments_text_text_of (o : option jsstring) :
  arguments_text o = if truthy_opt o then text_of o else str "{}".
Proof. unfold arguments_text, text_of. now destruct o as [[|c t]|]. Qed.

Lemma functionCall_of_record_ok (tc : AccumulatedToolCall) :
  text_of (record_arguments tc) = [] \/
  JSON_valid (text_of (record_arguments tc)) = true ->
  exists v,
    JSON_parse (arguments_text (record_arguments tc)) = Some v /\
    functionCall_of_record tc
    = Ok {| fc_id := acc_id tc; fc_name := record_name tc; fc_args := Some v |}.
Proof.
  intros H. unfold functionCall_of_record, parse_arguments.
  rewrite arguments_text_text_of.
  destruct (truthy_opt (record_arguments tc)) eqn:Et.
  - destruct H as [H|H]; [apply truthy_text_of in Et; contradiction|].
    unfold JSON_valid in H.
    destruct (JSON_parse (text_of (record_arguments tc))) as [v|];
      [|discriminate].
    exists v. split; reflexivity.
  - exists (JObj []). split; reflexivity.
Qed.

(** *** From the reads to the chunks *)

Lemma split_lines_nonempty (s : jsstring) : split_lines s <> [].
Proof.
  destruct s as [|c r]; simpl; [discriminate|].
  destruct (c =? LF); [discriminate|].
  destruct (split_lines r); discriminate.
Qed.

Lemma split_lines_cons (c : char) (r : jsstring) :
  (c =? LF) = false ->
  split_lines (c :: r)
  = (c :: List.hd [] (split_lines r)) :: List.tl (split_lines r).
Proof.
  intros E. simpl. rewrite E.
  pose proof (split_lines_nonempty r).
  destruct (split_lines r); [congruence | reflexivity].
Qed.

(** Splitting a text that continues: the last segment of the first part is
    the start of what follows. *)
Lemma split_lines_app (a b : jsstring) :
  split_lines (a ++ b)
  = removelast (split_lines a) ++ split_lines (List.last (split_lines a) [] ++ b).
Proof.
  induction a as [|c a IH]; [reflexivity|].
  destruct (c =? LF) eqn:E.
  - cbn [app split_lines]. rewrite E.
    pose proof (split_lines_nonempty a) as Hne.
    destruct (split_lines a) as [|seg segs] eqn:Ea; [congruence|].
    rewrite IH. cbn [removelast List.last]. reflexivity.
  - cbn [app]. rewrite (split_lines_cons c (a ++ b) E), (split_lines_cons c a E).
    rewrite IH.
    pose proof (split_lines_nonempty a) as Hne.
    destruct (split_lines a) as [|seg [|seg' segs]] eqn:Ea; [congruence| |].
    + cbn [removelast List.last app List.hd List.tl].
      now rewrite (split_lines_cons c (seg ++ b) E).
    + cbn [removelast List.last app List.hd List.tl]. reflexivity.
Qed.

Lemma removelast_app_nonempty {A : Type} (l l' : list A) :
  l' <> [] -> removelast (l ++ l') = l ++ removelast l'.
Proof. intros H. now apply removelast_app. Qed.

Lemma processChunk_with_buffer (b : jsstring) (st : StreamState)
    (chunk : OpenAILikeStreamChunk) :
  processChunk (with_buffer b st) chunk
  = (let r := processChunk st chunk in (r.1.1, with_buffer b r.1.2, r.2)).
Proof.
  unfold processChunk, handleChunk.
  destruct (chunk_choices chunk) as [[|choice others]|]; try reflexivity.
  unfold accumulate, with_buffer. simpl.
  destruct (truthy_opt (finish_reason choice)); [|reflexivity].
  match goal with |- context [(0 <? ?n)%nat] => destruct (0 <? n)%nat end;
    [|reflexivity].
  match goal with |- context [mapM ?f ?l] => destruct (mapM f l) end;
    reflexivity.
Qed.

Lemma runChunks_with_buffer (b : jsstring) (chunks : list OpenAILikeStreamChunk) :
  forall st, runChunks (with_buffer b st) chunks = runChunks st chunks.
Proof.
  induction chunks as [|c cs IH]; intros st; [reflexivity|].
  cbn [runChunks]. rewrite processChunk_with_buffer.
  destruct (processChunk st c) as [[ys st1] ret]. simpl.
  destruct ret; [reflexivity|]. now rewrite IH.
Qed.

Section Bridge.

Variable parseChunk : jsstring -> option OpenAILikeStreamChunk.

Lemma processLines_runChunks (lines : list jsstring)
    (later : list OpenAILikeStreamChunk) :
  forall st,
    runChunks st (omap (frame_of parseChunk) lines ++ later)
    = (let r := processLines parseChunk st lines in
       if r.2 then r.1.1 else r.1.1 ++ runChunks r.1.2 later).
Proof using Type.
  induction lines as [|line rest IH]; intros st; [reflexivity|].
  cbn [processLines]. unfold processLine.
  change (omap (frame_of parseChunk) (line :: rest))
    with (match frame_of parseChunk line with
          | Some chunk => chunk :: omap (frame_of parseChunk) rest
          | None => omap (frame_of parseChunk) rest
          end).
  destruct (frame_of parseChunk line) as [chunk|].
  - cbn [app runChunks].
    destruct (processChunk st chunk) as [[ys st1] ret]. destruct ret;
      [reflexivity|].
    rewrite IH. destruct (processLines parseChunk st1 rest) as [[ys' st2] ret'].
    simpl. destruct ret'; [reflexivity|]. now rewrite app_assoc.
  - rewrite IH. destruct (processLines parseChunk st rest) as [[ys' st2] ret'].
    reflexivity.
Qed.

Lemma processLines_buffer (lines : list jsstring) :
  forall st, buffer (processLines parseChunk st lines).1.2 = buffer st.
Proof using Type.
  induction lines as [|line rest IH]; intros st; [reflexivity|].
  cbn [processLines]. unfold processLine.
  destruct (frame_of parseChunk line) as [chunk|].
  - pose proof (processChunk_with_buffer (buffer st) st chunk) as Hb.
    assert (Hst : with_buffer (buffer st) st = st) by (now destruct st).
    rewrite Hst in Hb.
    destruct (processChunk st chunk) as [[ys st1] ret] eqn:E. simpl in Hb.
    injection Hb as Hb. destruct ret; simpl.
    + rewrite Hb. reflexivity.
    + specialize (IH st1).
      destruct (processLines parseChunk st1 rest) as [[ys' st2] ret'].
      simpl in *. rewrite IH, Hb. reflexivity.
  - specialize (IH st).
    destruct (processLines parseChunk st rest) as [[ys' st2] ret'].
    exact IH.
Qed.

Lemma split_lines_no_newline (s : jsstring) :
  no_newline s -> split_lines s = [s].
Proof using Type.
  unfold no_newline. induction s as [|c r IH]; [reflexivity|].
  simpl. intros H. apply andb_true_iff in H as [Hc Hr].
  apply negb_true_iff in Hc. rewrite Hc, (IH Hr). reflexivity.
Qed.

Lemma last_split_lines_no_newline (s : jsstring) :
  no_newline (List.last (split_lines s) []).
Proof using Type.
  unfold no_newline. induction s as [|c r IH]; [reflexivity|].
  destruct (c =? LF) eqn:E.
  - cbn [split_lines]. rewrite E.
    pose proof (split_lines_nonempty r).
    destruct (split_lines r) as [|seg segs] eqn:Er; [congruence|]. exact IH.
  - rewrite (split_lines_cons c r E).
    pose proof (split_lines_nonempty r).
    destruct (split_lines r) as [|seg [|seg' segs]] eqn:Er; [congruence| |].
    + cbn [List.hd List.tl List.last] in *. simpl. now rewrite E, IH.
    + cbn [List.hd List.tl List.last] in *. exact IH.
Qed.

(** The read loop yields what the generator yields on the chunks of the
    complete lines of the text received, whatever the way the text is cut
    into reads. *)
Lemma readLoop_runChunks (reads : list jsstring) :
  forall st,
    no_newline (buffer st) ->
    readLoop parseChunk st reads
    = runChunks st
        (omap (frame_of parseChunk)
           (complete_lines (buffer st ++ concat reads))).
Proof using Type.
  induction reads as [|value rest IH]; intros st Hbuf.
  - cbn [readLoop concat]. rewrite app_nil_r. unfold complete_lines.
    now rewrite (split_lines_no_newline _ Hbuf).
  - cbn [readLoop concat]. rewrite app_assoc.
    unfold complete_lines.
    rewrite (split_lines_app (buffer st ++ value) (concat rest)).
    rewrite (removelast_app_nonempty _ _ (split_lines_nonempty _)).
    rewrite omap_app.
    set (segments := split_lines (buffer st ++ value)).
    set (st0 := with_buffer (List.last segments []) st).
    rewrite <- (runChunks_with_buffer (List.last segments []) _ st).
    fold st0. rewrite processLines_runChunks.
    pose proof (processLines_buffer (removelast segments) st0) as Hb.
    destruct (processLines parseChunk st0 (removelast segments))
      as [[ys st1] ret]. simpl in Hb |- *.
    destruct ret; [reflexivity|]. f_equal.
    rewrite IH; [now rewrite Hb|].
    rewrite Hb. apply last_split_lines_no_newline.
Qed.

(** What [generateContentStream] yields is what the generator yields on the
    chunks of the stream. *)
Lemma generateContentStream_frames (reads : list jsstring) :
  generateContentStream parseChunk reads
  = runChunks initial_state (frames parseChunk reads).
Proof using Type.
  unfold generateContentStream, frames.
  now rewrite readLoop_runChunks.
Qed.

End Bridge.

Lemma runChunks_stepChunks (before rest : list OpenAILikeStreamChunk) :
  forall st,
    runChunks st (before ++ rest)
    = (let r := stepChunks st before in
       if r.2 then r.1.1 else r.1.1 ++ runChunks r.1.2 rest).
Proof.
  induction before as [|c cs IH]; intros st; [reflexivity|].
  cbn [app runChunks stepChunks].
  destruct (processChunk st c) as [[ys st1] ret]. destruct ret; [reflexivity|].
  rewrite IH. destruct (stepChunks st1 cs) as [[ys' st2] ret']. simpl.
  destruct ret'; [reflexivity|]. now rewrite app_assoc.
Qed.

(** C2 as stated fails in two ways.  A finish reason that is the empty
    string is not [null], yet nothing is yielded for it and the generator
    goes on to the next frame.  And when an accumulated record has an id and
    a name but an argument string that is not valid JSON, the parse error is
    caught by the [catch] of the line: no final response is yielded and the
    generator goes on as well. *)
Lemma finish_reason_without_final_response :
  (exists chunk choice,
      frames parseChunk_json empty_finish_reads
      = [chunk; content_delta (str "late")] /\
      first_choice chunk = Some choice /\
      finish_reason choice = Some [] /\
      generateContentStream parseChunk_json empty_finish_reads
      = chunk_content_responses (content_delta (str "late")))
  /\
  (exists first chunk choice,
      frames parseChunk_json cut_arguments_reads
      = [first; chunk; content_delta (str "late")] /\
      first_choice chunk = Some choice /\
      finish_reason choice = Some (str "tool_calls") /\
      accumulatedToolCalls (accumulate (absorb initial_state first) choice) <> [] /\
      (handleChunk (absorb initial_state first) chunk).2
      = Thrown (JSONSyntaxError (str "{")) /\
      generateContentStream parseChunk_json cut_arguments_reads
      = chunk_content_responses (content_delta (str "late"))).
Proof.
  split.
  - eexists; eexists. split; [vm_compute; reflexivity|].
    split; [reflexivity|]. split; vm_compute; reflexivity.
  - eexists; eexists; eexists. split; [vm_compute; reflexivity|].
    split; [reflexivity|]. split; [reflexivity|].
    split; [vm_compute; discriminate|]. split; vm_compute; reflexivity.
Qed.

(** C2, as amended.  Take a frame whose choice carries a non-empty finish
    reason, reached without the generator having returned, and the state
    once the frame's deltas are taken in.  If the map of tool calls is not
    empty and the argument string of every record with an id and a name is
    empty or valid JSON, the generator yields (after the response for the
    frame's own content delta, if any) one final response whose parts are
    the accumulated text, when not empty, followed by one function-call part
    for each record that has both an id and a name, in the order of the map,
    and no part for the other records.  If the map is empty, it yields one
    final response with no parts and the finish reason.  In both cases the
    generator returns: the frames that follow yield nothing. *)
Theorem finish_reason_ends_stream
    (parseChunk : jsstring -> option OpenAILikeStreamChunk)
    (reads : list jsstring)
    (before more : list OpenAILikeStreamChunk) (chunk : OpenAILikeStreamChunk)
    (yielded : list GenerateContentResponse) (st : StreamState)
    (choice : StreamChoice) (others : list StreamChoice) (reason : jsstring) :
  frames parseChunk reads = before ++ chunk :: more ->
  stepChunks initial_state before = (yielded, st, false) ->
  chunk_choices chunk = Some (choice :: others) ->
  finish_reason choice = Some reason ->
  reason <> [] ->
  let st1 := accumulate st choice in
  let calls := accumulatedToolCalls st1 in
  let complete := List.filter is_complete (map_values calls) in
  let text_parts :=
    if truthy_str (accumulatedContent st1)
    then [text_part (accumulatedContent st1)] else [] in
  (calls <> [] ->
   (forall tc, In tc complete ->
      text_of (record_arguments tc) = [] \/
      JSON_valid (text_of (record_arguments tc)) = true) ->
   exists fcs,
     length fcs = length complete /\
     (forall i tc, complete !! i = Some tc ->
        exists v,
          fcs !! i = Some {| fc_id := acc_id tc;
                             fc_name := record_name tc;
                             fc_args := Some v |} /\
          JSON_parse (arguments_text (record_arguments tc)) = Some v) /\
     generateContentStream parseChunk reads
     = yielded ++ content_responses choice
         ++ [response_of (text_parts ++ List.map functionCall_part fcs)
               (Some reason) (Some fcs)])
  /\
  (calls = [] ->
   generateContentStream parseChunk reads
   = yielded ++ content_responses choice
       ++ [response_of [] (Some reason) None]).
Proof.
  intros Hframes Hbefore Hchoices Hreason Hne st1 calls complete text_parts.
  assert (Htruthy : truthy_opt (finish_reason choice) = true).
  { rewrite Hreason. destruct reason; [congruence | reflexivity]. }
  assert (Hrun : generateContentStream parseChunk reads
                 = yielded ++ runChunks st (chunk :: more)).
  { rewrite generateContentStream_frames, Hframes, runChunks_stepChunks.
    now rewrite Hbefore. }
  rewrite Hrun. cbn [runChunks].
  split.
  - intros Hcalls Hvalid.
    assert (Hlen : (0 <? length calls)%nat = true).
    { destruct calls; [congruence | reflexivity]. }
    destruct (mapM_total functionCall_of_record complete) as [fcs Hfcs].
    { intros tc Hin. destruct (functionCall_of_record_ok tc (Hvalid tc Hin))
        as [v [_ Hv]]. eauto. }
    assert (Hstep : processChunk st chunk
                    = (content_responses choice
                         ++ [response_of (text_parts ++ List.map functionCall_part fcs)
                               (Some reason) (Some fcs)],
                       st1, true)).
    { unfold processChunk, handleChunk. rewrite Hchoices, Htruthy.
      fold st1. fold calls. rewrite Hlen. fold complete. rewrite Hfcs.
      fold text_parts. now rewrite Hreason. }
    exists fcs. split; [exact (mapM_length _ _ _ Hfcs)|].
    split.
    { intros i tc Hi.
      destruct (mapM_lookup _ _ _ Hfcs i tc Hi) as [fc [Hfc Hconv]].
      assert (Hin : In tc complete).
      { apply list_elem_of_In. eapply list_elem_of_lookup_2. exact Hi. }
      destruct (functionCall_of_record_ok tc (Hvalid tc Hin)) as [v [Hv Hok]].
      exists v. split; [|exact Hv]. rewrite Hok in Hconv.
      injection Hconv as <-. exact Hfc. }
    now rewrite Hstep.
  - intros Hcalls.
    assert (Hstep : processChunk st chunk
                    = (content_responses choice
                         ++ [response_of [] (Some reason) None], st1, true)).
    { unfold processChunk, handleChunk. rewrite Hchoices, Htruthy.
      fold st1. fold calls. rewrite Hcalls. simpl. now rewrite Hreason. }
    now rewrite Hstep.
Qed.

Lemma finish_reason_ends_stream_witness :
  (exists hello,
      generateContentStream parseChunk_json text_stream_reads
      = hello ++ [response_of [] (Some (str "stop")) None])
  /\
  (exists fcs,
      length fcs = 1%nat /\
      generateContentStream parseChunk_json three_fragment_reads
      = [response_of (List.map functionCall_part fcs)
           (Some (str "tool_calls")) (Some fcs)]).
Proof.
  split.
  - pose (fs := frames parseChunk_json text_stream_reads).
    pose (r := stepChunks initial_state (take 2 fs)).
    destruct (finish_reason_ends_stream parseChunk_json text_stream_reads
                (take 2 fs) (drop 3 fs) (finish_chunk (str "stop"))
                r.1.1 r.1.2 (finish_choice (str "stop")) [] (str "stop"))
      as [_ Hempty];
      [vm_compute; reflexivity | vm_compute; reflexivity | reflexivity
      | reflexivity | discriminate |].
    exists r.1.1. rewrite Hempty; [|vm_compute; reflexivity].
    reflexivity.
  - pose (fs := frames parseChunk_json three_fragment_reads).
    pose (r := stepChunks initial_state (take 3 fs)).
    destruct (finish_reason_ends_stream parseChunk_json three_fragment_reads
                (take 3 fs) (drop 4 fs) (finish_chunk (str "tool_calls"))
                r.1.1 r.1.2 (finish_choice (str "tool_calls")) []
                (str "tool_calls"))
      as [Hcalls _];
      [vm_compute; reflexivity | vm_compute; reflexivity | reflexivity
      | reflexivity | discriminate |].
    destruct Hcalls as [fcs [Hlen [_ Hrun]]].
    + vm_compute. discriminate.
    + intros tc Htc. right. vm_compute in Htc. destruct Htc as [<-|[]].
      vm_compute. reflexivity.
    + exists fcs. split; [exact Hlen|]. rewrite Hrun. reflexivity.
Defined.

(** The step of the generator at a chunk that carries a finish reason. *)
Lemma processChunk_finish (st : StreamState) (chunk : OpenAILikeStreamChunk)
    (choice : StreamChoice) (others : list StreamChoice) :
  chunk_choices chunk = Some (choice :: others) ->
  truthy_opt (finish_reason choice) = true ->
  processChunk st chunk
  = (let st1 := accumulate st choice in
     if (0 <? length (accumulatedToolCalls st1))%nat then
       match mapM functionCall_of_record
               (List.filter is_complete (map_values (accumulatedToolCalls st1)))
       with
       | Ok fcs =>
           (content_responses choice
              ++ [response_of
                    ((if truthy_str (accumulatedContent st1)
                      then [text_part (accumulatedContent st1)] else [])
                       ++ List.map functionCall_part fcs)
                    (finish_reason choice) (Some fcs)],
            st1, true)
       | Throw _ => (content_responses choice, st1, false)
       end
     else
       (content_responses choice ++ [response_of [] (finish_reason choice) None],
        st1, true)).
Proof.
  intros Hchoices Htruthy. unfold processChunk, handleChunk.
  rewrite Hchoices, Htruthy. cbn zeta.
  destruct (0 <? length (accumulatedToolCalls (accumulate st choice)))%nat;
    [|reflexivity].
  now destruct (mapM functionCall_of_record _).
Qed.

Lemma last_id_truthy (ds : list ToolCallDelta) (i : jsstring) :
  last_id ds = Some i -> truthy_str i = true.
Proof.
  induction ds as [|d ds IH]; simpl; [discriminate|].
  destruct (last_id ds) as [j|].
  - intros H. injection H as <-. now apply IH.
  - destruct (truthy_opt (d_id d)) eqn:E; [|discriminate].
    intros H. rewrite H in E. exact E.
Qed.

(** A stream with one tool call: the final response carries exactly that
    call, with the value parsed from the concatenated fragments. *)
Lemma one_call_stream
    (chunks : list OpenAILikeStreamChunk) (finish : OpenAILikeStreamChunk)
    (more : list OpenAILikeStreamChunk)
    (k : Z) (id name : jsstring) (v : json) :
  let stream := chunks ++ [finish] in
  let deltas := flat_map chunk_deltas stream in
  let arguments := concat (List.map argument_fragment deltas) in
  let content := concat (List.map chunk_content stream) in
  let call := {| fc_id := Some id; fc_name := Some name; fc_args := Some v |} in
  List.Forall (fun c => finishes c = false) chunks ->
  finishes finish = true ->
  (forall d, In d deltas -> default 0%Z (d_index d) = k) ->
  last_id deltas = Some id ->
  concat (List.map name_fragment deltas) = name ->
  name <> [] ->
  JSON_parse arguments = Some v ->
  runChunks initial_state (stream ++ more)
  = flat_map chunk_content_responses stream
      ++ [response_of
            ((if truthy_str content then [text_part content] else [])
               ++ [functionCall_part call])
            (chunk_finish_reason finish) (Some [call])].
Proof.
  intros stream deltas arguments content call Hno Hfin Hk Hid Hname Hne Hparse.
  subst stream. rewrite <- app_assoc. cbn [app].
  rewrite (runChunks_no_finish chunks (finish :: more) initial_state Hno).
  set (st := foldl absorb initial_state chunks).
  (* the finish chunk has a choice with a truthy finish reason *)
  unfold finishes in Hfin.
  destruct (first_choice finish) as [choice|] eqn:Hfirst; [|discriminate].
  assert (Hchoices : exists others, chunk_choices finish = Some (choice :: others)).
  { unfold first_choice in Hfirst.
    destruct (chunk_choices finish) as [[|c others]|]; try discriminate.
    injection Hfirst as ->. eauto. }
  destruct Hchoices as [others Hchoices].
  (* the deltas of the whole stream *)
  assert (Hdeltas : deltas = flat_map chunk_deltas chunks ++ chunk_deltas finish).
  { subst deltas. rewrite flat_map_app. simpl. now rewrite app_nil_r. }
  assert (Hcalls : accumulatedToolCalls (accumulate st choice)
                   = foldl applyDelta [] deltas).
  { rewrite Hdeltas, foldl_app.
    pose proof (absorb_calls st finish) as Ha. unfold absorb in Ha.
    rewrite Hfirst in Ha. rewrite Ha. subst st. now rewrite absorbed_calls. }
  assert (Hcontent : accumulatedContent (accumulate st choice) = content).
  { pose proof (absorb_content st finish) as Ha. unfold absorb in Ha.
    rewrite Hfirst in Ha. rewrite Ha. subst st. rewrite absorbed_content.
    subst content. rewrite map_app, concat_app. simpl.
    now rewrite app_nil_r. }
  assert (Hds : deltas <> []).
  { intros E. rewrite E in Hid. discriminate. }
  rewrite (foldl_applyDelta_one_call k deltas Hds Hk) in Hcalls.
  set (r := foldl merge empty_record deltas) in Hcalls.
  destruct (merged_record deltas empty_record) as [Hrid [Hrname Hrargs]].
  fold r in Hrid, Hrname, Hrargs. rewrite Hid in Hrid.
  simpl in Hrname, Hrargs. rewrite Hname in Hrname. fold arguments in Hrargs.
  assert (Hargs_ne : arguments <> []).
  { intros E. rewrite E in Hparse. discriminate. }
  assert (Hn : record_name r = Some name).
  { rewrite <- Hrname. apply text_of_Some. now rewrite Hrname. }
  assert (Ha : record_arguments r = Some arguments).
  { rewrite <- Hrargs. apply text_of_Some. now rewrite Hrargs. }
  assert (Hcomplete : is_complete r = true).
  { unfold is_complete. rewrite Hrid. simpl.
    rewrite (last_id_truthy _ _ Hid). simpl.
    unfold record_name in Hn. destruct (acc_function r); [|discriminate].
    rewrite Hn. destruct name; [congruence | reflexivity]. }
  assert (Hconv : functionCall_of_record r = Ok call).
  { unfold functionCall_of_record, parse_arguments. rewrite Ha.
    rewrite (arguments_text_nonempty _ Hargs_ne), Hparse. simpl.
    now rewrite Hrid, Hn. }
  cbn [runChunks].
  rewrite (processChunk_finish st finish choice others Hchoices Hfin).
  cbn zeta. rewrite Hcalls, Hcontent. simpl. rewrite Hcomplete. simpl.
  rewrite Hconv. simpl.
  assert (Hresp : chunk_content_responses finish = content_responses choice).
  { unfold chunk_content_responses. now rewrite Hfirst. }
  rewrite flat_map_app. simpl. rewrite Hresp.
  unfold chunk_finish_reason. rewrite Hfirst.
  now rewrite app_nil_r, <- app_assoc.
Qed.













End StreamFacts.

(** ** [convertToOpenAITools] *)

Module ToolsFacts.

Import JSFacts AzureTools.

Local Open Scope nat_scope.

Section WithToLowerCase.

Context {lower : ToLowerCase}.

(** *** Lowered heaps *)

Lemma field_lowered_refl (f : jsstring * val) : field_lowered f f.
Proof. split; [reflexivity | now left]. Qed.

Lemma field_lowered_trans (f g k : jsstring * val) :
  field_lowered f g -> field_lowered g k -> field_lowered f k.
Proof.
  intros [Hk1 H1] [Hk2 H2]. split; [congruence|].
  destruct H2 as [H2|[Hg [s [s' [Hs [Hs' Hlow]]]]]].
  - rewrite H2. exact H1.
  - right. split; [congruence|].
    destruct H1 as [H1|[_ [t [t' [Ht [Ht' _]]]]]].
    + exists s, s'. split; [congruence|]. split; assumption.
    + exists t, s'. split; [assumption|]. split; assumption.
Qed.

Lemma cell_lowered_refl (c : cell) : cell_lowered c c.
Proof.
  destruct c as [fields|elems]; simpl; [|reflexivity].
  induction fields; constructor; [apply field_lowered_refl | assumption].
Qed.

Lemma Forall2_field_lowered_trans (a b c : list (jsstring * val)) :
  Forall2 field_lowered a b -> Forall2 field_lowered b c ->
  Forall2 field_lowered a c.
Proof.
  intros Hab; revert c. induction Hab as [|x y xs ys Hxy _ IH]; intros c Hbc.
  - inversion Hbc. constructor.
  - inversion Hbc as [|? z ? zs Hyz Hrest]; subst. constructor.
    + eapply field_lowered_trans; eassumption.
    + now apply IH.
Qed.

Lemma cell_lowered_trans (a b c : cell) :
  cell_lowered a b -> cell_lowered b c -> cell_lowered a c.
Proof.
  destruct a, b, c; simpl; try contradiction; try congruence.
  apply Forall2_field_lowered_trans.
Qed.

Lemma lowers_refl (base : nat) (h : heap) : lowers base h h.
Proof.
  split; [reflexivity|]. intros l c Hc. exists c.
  split; [exact Hc|]. split; [apply cell_lowered_refl | reflexivity].
Qed.

Lemma lowers_trans (base : nat) (h1 h2 h3 : heap) :
  lowers base h1 h2 -> lowers base h2 h3 -> lowers base h1 h3.
Proof.
  intros [Hlen1 H1] [Hlen2 H2]. split; [congruence|].
  intros l c Hc. destruct (H1 l c Hc) as [c' [Hc' [Hlow Heq]]].
  destruct (H2 l c' Hc') as [c'' [Hc'' [Hlow' Heq']]].
  exists c''. split; [exact Hc''|]. split.
  - eapply cell_lowered_trans; eassumption.
  - intros Hl. rewrite (Heq' Hl). exact (Heq Hl).
Qed.

(** A heap lowered above [base] is lowered above anything below it. *)
Lemma lowers_weaken (base : nat) (h h' : heap) : lowers base h h' -> lowers 0 h h'.
Proof.
  intros [Hlen H]. split; [exact Hlen|]. intros l c Hc.
  destruct (H l c Hc) as [c' [Hc' [Hlow _]]]. exists c'.
  split; [exact Hc'|]. split; [exact Hlow | lia].
Qed.

Lemma lowers_unchanged (base : nat) (h h' : heap) :
  lowers base h h' -> forall l c, l < base -> h !! l = Some c -> h' !! l = Some c.
Proof.
  intros [_ H] l c Hl Hc. destruct (H l c Hc) as [c' [Hc' [_ Heq]]].
  now rewrite <- (Heq Hl).
Qed.

Lemma lowers_lookup_None (base : nat) (h h' : heap) (l : nat) :
  lowers base h h' -> h !! l = None -> h' !! l = None.
Proof.
  intros [Hlen _] Hn. apply lookup_ge_None in Hn. apply lookup_ge_None. lia.
Qed.

Lemma get_field_lowered (fields fields' : list (jsstring * val)) (name : jsstring) :
  Forall2 field_lowered fields fields' ->
  match get_field fields name, get_field fields' name with
  | Some v, Some v' => val_lowered (KName name) v v'
  | None, None => True
  | _, _ => False
  end.
Proof.
  induction 1 as [|[k v] [k' v'] fs fs' [Hk Hv] _ IH]; simpl; [exact I|].
  simpl in Hk, Hv. subst k'.
  destruct (str_eqb k name) eqn:E; [|exact IH].
  apply str_eqb_eq in E. subst name.
  destruct Hv as [->|[Ht Hs]]; [now left|]. right. split; [now rewrite Ht|].
  exact Hs.
Qed.

Lemma read_lowered (base : nat) (h h' : heap) (x : val) (k : key) :
  lowers base h h' ->
  match read h x k, read h' x k with
  | Some v, Some v' => val_lowered k v v'
  | None, None => True
  | _, _ => False
  end.
Proof.
  intros Hlow. destruct x as [| | | |l]; simpl; try exact I.
  destruct (h !! l) as [c|] eqn:Hc.
  - destruct (proj2 Hlow l c Hc) as [c' [Hc' [Hcell _]]]. rewrite Hc'.
    destruct c as [fields|elems], c' as [fields'|elems']; simpl in Hcell;
      try contradiction.
    + destruct k as [name|i]; [|exact I].
      now apply get_field_lowered.
    + subst elems'. destruct k as [name|i]; [exact I|].
      destruct (elems !! i); [now left | exact I].
  - now rewrite (lowers_lookup_None _ _ _ _ Hlow Hc).
Qed.

(** Reading under a key other than [type] gives the same in both heaps. *)
Lemma read_lowered_eq (base : nat) (h h' : heap) (x : val) (k : key) :
  lowers base h h' -> k <> KName TYPE -> read h' x k = read h x k.
Proof.
  intros Hlow Hk. pose proof (read_lowered base h h' x k Hlow) as H.
  destruct (read h x k), (read h' x k); try contradiction; [|reflexivity].
  destruct H as [->|[Hk' _]]; [reflexivity | contradiction].
Qed.

(** What is read in the lowered heap was there before, unless it is a
    string. *)
Lemma read_lowered_back (base : nat) (h h' : heap) (x c : val) (k : key) :
  lowers base h h' -> read h' x k = Some c ->
  read h x k = Some c \/ exists s, c = VStr s.
Proof.
  intros Hlow Hc. pose proof (read_lowered base h h' x k Hlow) as H.
  rewrite Hc in H. destruct (read h x k) as [v|]; [|contradiction].
  destruct H as [->|[_ [s [s' [_ [-> _]]]]]]; [now left | right; eauto].
Qed.

Lemma keys_of_lowered (base : nat) (h h' : heap) (x : val) :
  lowers base h h' -> keys_of h' x = keys_of h x.
Proof.
  intros Hlow. destruct x as [| | | |l]; simpl; try reflexivity.
  destruct (h !! l) as [c|] eqn:Hc.
  - destruct (proj2 Hlow l c Hc) as [c' [Hc' [Hcell _]]]. rewrite Hc'.
    destruct c as [fields|elems], c' as [fields'|elems']; simpl in Hcell;
      try contradiction; simpl.
    + clear Hc Hc'.
      induction Hcell as [|f f' fs fs' [Hk _] _ IH]; simpl; [reflexivity|].
      now rewrite Hk, IH.
    + now subst.
  - now rewrite (lowers_lookup_None _ _ _ _ Hlow Hc).
Qed.

Lemma is_array_lowered (base : nat) (h h' : heap) (x : val) :
  lowers base h h' -> is_array h' x = is_array h x.
Proof.
  intros Hlow. destruct x as [| | | |l]; simpl; try reflexivity.
  destruct (h !! l) as [c|] eqn:Hc.
  - destruct (proj2 Hlow l c Hc) as [c' [Hc' [Hcell _]]]. rewrite Hc'.
    destruct c, c'; simpl in Hcell; try contradiction; reflexivity.
  - now rewrite (lowers_lookup_None _ _ _ _ Hlow Hc).
Qed.

Lemma lowers_back (base : nat) (h h' : heap) (l : nat) (c' : cell) :
  lowers base h h' -> h' !! l = Some c' ->
  exists c, h !! l = Some c /\ cell_lowered c c' /\ (l < base -> c' = c).
Proof.
  intros Hlow Hc'. pose proof (lookup_lt_Some _ _ _ Hc') as Hl.
  rewrite (proj1 Hlow) in Hl.
  destruct (lookup_lt_is_Some_2 h l Hl) as [c Hc].
  destruct (proj2 Hlow l c Hc) as [c2 [Hc2 [Hcell Heq]]].
  rewrite Hc' in Hc2. injection Hc2 as <-. eauto.
Qed.

(** A property of values that every string has goes from a cell to the
    lowered cell. *)
Lemma cell_lowered_values (P : val -> Prop) (c c' : cell) :
  (forall s, P (VStr s)) -> cell_lowered c c' ->
  List.Forall P (cell_values c) -> List.Forall P (cell_values c').
Proof.
  intros Hstr. destruct c as [fs|es], c' as [fs'|es']; simpl;
    try contradiction; [|now intros ->].
  induction 1 as [|f f' fs fs' [_ Hv] _ IH]; simpl; [constructor|].
  intros Hall. inversion Hall as [|? ? Hf Hrest]; subst.
  constructor; [|now apply IH].
  destruct Hv as [->|[_ [s [s' [_ [-> _]]]]]]; [exact Hf | apply Hstr].
Qed.

Lemma closed_lowers (base base' : nat) (h h' : heap) :
  closed base h -> lowers base' h h' -> closed base h'.
Proof.
  intros Hclosed Hlow l c' Hc' Hl.
  destruct (lowers_back _ _ _ _ _ Hlow Hc') as [c [Hc [Hcell _]]].
  eapply cell_lowered_values; [|exact Hcell | exact (Hclosed l c Hc Hl)].
  intros s. exact I.
Qed.

Lemma ordered_lowers (base base' : nat) (h h' : heap) :
  ordered base h -> lowers base' h h' -> ordered base h'.
Proof.
  intros Hord Hlow l c' Hc' Hl.
  destruct (lowers_back _ _ _ _ _ Hlow Hc') as [c [Hc [Hcell _]]].
  eapply cell_lowered_values; [|exact Hcell | exact (Hord l c Hc Hl)].
  intros s. exact I.
Qed.

Lemma ordered_closed (base : nat) (h : heap) : ordered base h -> closed base h.
Proof.
  intros Hord l c Hc Hl. specialize (Hord l c Hc Hl).
  eapply Forall_impl; [exact Hord|].
  intros [| | | |l'] Hv; simpl in *; try exact I. lia.
Qed.

Lemma get_field_In (fields : list (jsstring * val)) (name : jsstring) (v : val) :
  get_field fields name = Some v -> In v (List.map snd fields).
Proof.
  induction fields as [|[k x] rest IH]; simpl; [discriminate|].
  destruct (str_eqb k name).
  - intros H. injection H as ->. now left.
  - intros H. right. now apply IH.
Qed.

Lemma read_in_values (h : heap) (l : nat) (k : key) (v : val) :
  read h (VRef l) k = Some v ->
  exists c, h !! l = Some c /\ In v (cell_values c).
Proof.
  simpl. destruct (h !! l) as [[fields|elems]|]; [| |discriminate].
  - destruct k as [name|i]; [|discriminate]. intros H.
    exists (CObj fields). split; [reflexivity|]. eapply get_field_In, H.
  - destruct k as [name|i]; [discriminate|]. intros H.
    exists (CArr elems). split; [reflexivity|]. simpl.
    apply list_elem_of_In. eapply list_elem_of_lookup_2, H.
Qed.

Lemma closed_read (base : nat) (h : heap) (x v : val) (k : key) :
  closed base h -> above base x -> read h x k = Some v -> above base v.
Proof.
  intros Hclosed Hx Hr. destruct x as [| | | |l]; try discriminate.
  destruct (read_in_values _ _ _ _ Hr) as [c [Hc Hin]].
  pose proof (Hclosed l c Hc Hx) as Hall.
  rewrite List.Forall_forall in Hall. now apply Hall.
Qed.

Lemma set_field_lowered (fields : list (jsstring * val)) (s0 s : jsstring) :
  get_field fields TYPE = Some (VStr s0) -> is_lowercase s ->
  Forall2 field_lowered fields (set_field fields TYPE (VStr s)).
Proof.
  intros Hget Hs. induction fields as [|[k v] rest IH]; [discriminate|].
  simpl in *. destruct (str_eqb k TYPE) eqn:E.
  - injection Hget as ->. apply str_eqb_eq in E. subst k.
    constructor.
    + split; [reflexivity|]. right. split; [reflexivity|]. exists s0, s. auto.
    + pose proof (cell_lowered_refl (CObj rest)) as Hr. exact Hr.
  - constructor; [apply field_lowered_refl | now apply IH].
Qed.

Lemma get_set_field (fields : list (jsstring * val)) (name : jsstring) (v : val) :
  get_field (set_field fields name v) name = Some v.
Proof.
  induction fields as [|[k x] rest IH]; simpl.
  - assert (E : str_eqb name name = true) by now apply str_eqb_eq.
    now rewrite E.
  - destruct (str_eqb k name) eqn:E; simpl; rewrite E; [reflexivity | exact IH].
Qed.

Lemma write_type_lowers (base : nat) (h : heap) (l : nat) (s0 : jsstring) :
  base <= l ->
  read h (VRef l) (KName TYPE) = Some (VStr s0) ->
  lowers base h (write h l TYPE (VStr (toLowerCase s0))) /\
  read (write h l TYPE (VStr (toLowerCase s0))) (VRef l) (KName TYPE)
  = Some (VStr (toLowerCase s0)).
Proof.
  intros Hl Hr. simpl in Hr. unfold write.
  destruct (h !! l) as [[fields|elems]|] eqn:Hc; try discriminate.
  pose proof (lookup_lt_Some _ _ _ Hc) as Hlt.
  split.
  - split; [apply length_insert|].
    intros l' c Hc'. destruct (decide (l' = l)) as [->|Hne].
    + rewrite Hc in Hc'. injection Hc' as <-.
      eexists. split; [now apply list_lookup_insert_eq|].
      split; [|lia]. simpl.
      apply (set_field_lowered fields s0 _ Hr), toLowerCase_is_lowercase.
    + exists c. split; [now rewrite list_lookup_insert_ne|].
      split; [apply cell_lowered_refl | reflexivity].
  - simpl. rewrite list_lookup_insert_eq by exact Hlt. apply get_set_field.
Qed.

(** *** The conversion lowers the heap, and only above [base] *)

Section Lowering.

Variable base : nat.

Lemma visit_lowers (rec : heap -> val -> option heap)
    (container : heap -> option val) (keys : list key) :
  lowering base rec ->
  (forall h c, closed base h -> container h = Some c -> above base c) ->
  forall h h', closed base h -> visit rec container h keys = Some h' ->
               lowers base h h'.
Proof using Type.
  intros Hrec Hcont. induction keys as [|k rest IH]; intros h h' Hclosed Hv.
  - injection Hv as <-. apply lowers_refl.
  - simpl in Hv. destruct (container h) as [c|] eqn:Hc; [|discriminate].
    assert (Hstep : exists h1,
               match read h c k with
               | Some child => rec h child
               | None => Some h
               end = Some h1 /\ lowers base h h1).
    { destruct (read h c k) as [child|] eqn:Hr.
      - destruct (rec h child) as [h1|] eqn:Hrc; [|discriminate].
        exists h1. split; [reflexivity|].
        apply (Hrec h child h1 Hclosed); [|exact Hrc].
        eapply closed_read; [exact Hclosed | | exact Hr].
        eapply Hcont; eassumption.
      - exists h. split; [reflexivity | apply lowers_refl]. }
    destruct Hstep as [h1 [Hs Hlow]]. rewrite Hs in Hv.
    eapply lowers_trans; [exact Hlow|].
    apply IH; [|exact Hv]. eapply closed_lowers; eassumption.
Qed.

Lemma forEach_schema_lowers (rec : heap -> val -> option heap)
    (schema : val) (name : jsstring) :
  lowering base rec ->
  forall h h', closed base h -> above base schema ->
               forEach_schema rec h schema name = Some h' -> lowers base h h'.
Proof using Type.
  intros Hrec h h' Hclosed Hs. unfold forEach_schema.
  destruct (read h schema (KName name)) as [a|] eqn:Ha.
  - destruct (is_array h a).
    + apply visit_lowers; [exact Hrec | | exact Hclosed].
      intros h0 c _ Hc. injection Hc as <-.
      eapply closed_read; eassumption.
    + intros H. injection H as <-. apply lowers_refl.
  - intros H. injection H as <-. apply lowers_refl.
Qed.

Lemma convertSchemaTypeToLowerCase_lowers (fuel : nat) :
  lowering base (convertSchemaTypeToLowerCase fuel).
Proof using Type.
  induction fuel as [|fuel IH]; intros h x h' Hclosed Hx Hconv;
    [discriminate|].
  cbn [convertSchemaTypeToLowerCase] in Hconv.
  destruct x as [| | | |l]; try (injection Hconv as <-; apply lowers_refl).
  simpl in Hx.
  (* the assignment to [schema.type] *)
  set (h1 := match read h (VRef l) (KName TYPE) with
             | Some (VStr s) => write h l TYPE (VStr (toLowerCase s))
             | _ => h
             end) in Hconv.
  assert (H1 : lowers base h h1).
  { subst h1. destruct (read h (VRef l) (KName TYPE)) as [[| | |s|]|] eqn:Ht;
      try apply lowers_refl.
    exact (proj1 (write_type_lowers base h l s Hx Ht)). }
  assert (C1 : closed base h1) by (eapply closed_lowers; eassumption).
  (* [schema.properties] *)
  match type of Hconv with
  | match ?e with _ => _ end = _ => destruct e as [h2|] eqn:E2; [|discriminate]
  end.
  assert (H2 : lowers base h1 h2).
  { destruct (read h1 (VRef l) (KName PROPERTIES)) as [p|] eqn:Hp.
    - destruct (truthy_val p).
      + eapply visit_lowers; [exact IH | | exact C1 | exact E2].
        intros h0 c Hc0 Hc. eapply closed_read; [exact Hc0 | | exact Hc].
        exact Hx.
      + injection E2 as <-. apply lowers_refl.
    - injection E2 as <-. apply lowers_refl. }
  assert (C2 : closed base h2) by (eapply closed_lowers; eassumption).
  (* [schema.items] *)
  match type of Hconv with
  | match ?e with _ => _ end = _ => destruct e as [h3|] eqn:E3; [|discriminate]
  end.
  assert (H3 : lowers base h2 h3).
  { destruct (read h2 (VRef l) (KName ITEMS)) as [i|] eqn:Hi.
    - destruct (truthy_val i).
      + apply (IH h2 i h3 C2); [|exact E3].
        eapply closed_read; [exact C2 | | exact Hi]. exact Hx.
      + injection E3 as <-. apply lowers_refl.
    - injection E3 as <-. apply lowers_refl. }
  assert (C3 : closed base h3) by (eapply closed_lowers; eassumption).
  (* the combinators *)
  destruct (forEach_schema _ h3 (VRef l) ANY_OF) as [h4|] eqn:E4; [|discriminate].
  assert (H4 : lowers base h3 h4)
    by exact (forEach_schema_lowers _ (VRef l) ANY_OF IH h3 h4 C3 Hx E4).
  assert (C4 : closed base h4) by (eapply closed_lowers; eassumption).
  destruct (forEach_schema _ h4 (VRef l) ALL_OF) as [h5|] eqn:E5; [|discriminate].
  assert (H5 : lowers base h4 h5)
    by exact (forEach_schema_lowers _ (VRef l) ALL_OF IH h4 h5 C4 Hx E5).
  assert (C5 : closed base h5) by (eapply closed_lowers; eassumption).
  assert (H6 : lowers base h5 h')
    by exact (forEach_schema_lowers _ (VRef l) ONE_OF IH h5 h' C5 Hx Hconv).
  repeat (eapply lowers_trans; [eassumption|]). apply lowers_refl.
Qed.

End Lowering.

(** *** After the conversion every nested schema has a lowercase type *)

Lemma closed_zero (h : heap) : closed 0 h.
Proof.
  intros l c _ _. apply List.Forall_forall. intros x _. destruct x; simpl; try exact I.
  lia.
Qed.

Lemma above_zero (v : val) : above 0 v.
Proof. destruct v; simpl; try exact I. lia. Qed.

Lemma convertSchemaTypeToLowerCase_lowers_heap (fuel : nat) (h : heap) (x : val)
    (h' : heap) :
  convertSchemaTypeToLowerCase fuel h x = Some h' -> lowers 0 h h'.
Proof.
  apply (convertSchemaTypeToLowerCase_lowers 0 fuel h x h');
    [apply closed_zero | apply above_zero].
Qed.

Lemma key_not_type (name : jsstring) :
  name <> TYPE -> KName name <> KName TYPE.
Proof. intros H E. injection E as E. contradiction. Qed.

Lemma PROPERTIES_not_TYPE : PROPERTIES <> TYPE.
Proof. vm_compute. discriminate. Qed.

Lemma ITEMS_not_TYPE : ITEMS <> TYPE.
Proof. vm_compute. discriminate. Qed.

Lemma combinator_not_TYPE (name : jsstring) :
  name = ANY_OF \/ name = ALL_OF \/ name = ONE_OF -> name <> TYPE.
Proof. intros [-> | [-> | ->]]; vm_compute; discriminate. Qed.

Lemma read_not_ref (h : heap) (x : val) (k : key) :
  (forall l, x <> VRef l) -> read h x k = None.
Proof. destruct x; intros H; try reflexivity. now destruct (H l). Qed.

Lemma no_child_of_primitive (h : heap) (x c : val) :
  (forall l, x <> VRef l) -> ~ child h x c.
Proof.
  intros Hx [[p [k [Hp _]]]|[Hi|[name [a [k [_ [Ha _]]]]]]];
    rewrite (read_not_ref h x _ Hx) in *; discriminate.
Qed.

Lemma position_of_primitive (h : heap) (x w : val) :
  (forall l, x <> VRef l) -> schema_position h x w -> w = x.
Proof.
  intros Hx Hpos. destruct Hpos as [x|x c w Hchild _]; [reflexivity|].
  now destruct (no_child_of_primitive h x c Hx).
Qed.

Lemma type_is_lowercase_primitive (h : heap) (w : val) :
  (forall l, w <> VRef l) -> type_is_lowercase h w.
Proof. intros Hw s Hs. rewrite (read_not_ref h w _ Hw) in Hs. discriminate. Qed.

Lemma covered_primitive (h : heap) (v : val) :
  (forall l, v <> VRef l) -> covered h v.
Proof.
  intros Hv w Hpos. rewrite (position_of_primitive h v w Hv Hpos).
  now apply type_is_lowercase_primitive.
Qed.

Lemma covered_string (h : heap) (s : jsstring) : covered h (VStr s).
Proof. apply covered_primitive. discriminate. Qed.

Lemma child_back (base : nat) (ha hb : heap) (x c : val) :
  lowers base ha hb -> child hb x c -> child ha x c \/ exists s, c = VStr s.
Proof.
  intros Hlow [[p [k [Hp Hc]]]|[Hi|[name [a [k [Hname [Ha [Harr Hc]]]]]]]].
  - rewrite (read_lowered_eq _ _ _ _ _ Hlow (key_not_type _ PROPERTIES_not_TYPE)) in Hp.
    destruct (read_lowered_back _ _ _ _ _ _ Hlow Hc) as [Hc'|Hs]; [|now right].
    left. left. eauto.
  - rewrite (read_lowered_eq _ _ _ _ _ Hlow (key_not_type _ ITEMS_not_TYPE)) in Hi.
    left. right. now left.
  - rewrite (read_lowered_eq _ _ _ _ _ Hlow
               (key_not_type _ (combinator_not_TYPE _ Hname))) in Ha.
    rewrite (is_array_lowered _ _ _ _ Hlow) in Harr.
    destruct (read_lowered_back _ _ _ _ _ _ Hlow Hc) as [Hc'|Hs]; [|now right].
    left. right. right. exists name, a, k. auto.
Qed.

Lemma position_back (base : nat) (ha hb : heap) (v w : val) :
  lowers base ha hb -> schema_position hb v w ->
  schema_position ha v w \/ exists s, w = VStr s.
Proof.
  intros Hlow Hpos. induction Hpos as [x|x c w Hchild Hpos IH].
  - left. constructor.
  - destruct (child_back _ _ _ _ _ Hlow Hchild) as [Hc|[s ->]].
    + destruct IH as [IH|IH]; [|now right]. left. econstructor; eassumption.
    + right. exists s. eapply position_of_primitive; [|exact Hpos]. discriminate.
Qed.

Lemma type_is_lowercase_forward (base : nat) (ha hb : heap) (w : val) :
  lowers base ha hb -> type_is_lowercase ha w -> type_is_lowercase hb w.
Proof.
  intros Hlow Ha s Hs.
  pose proof (read_lowered base ha hb w (KName TYPE) Hlow) as H.
  rewrite Hs in H. destruct (read ha w (KName TYPE)) as [v|] eqn:Hv;
    [|contradiction].
  destruct H as [H|[_ [t [t' [_ [Ht' Hlow']]]]]].
  - apply Ha. now subst v.
  - injection Ht' as ->. exact Hlow'.
Qed.

Lemma covered_forward (base : nat) (ha hb : heap) (v : val) :
  lowers base ha hb -> covered ha v -> covered hb v.
Proof.
  intros Hlow Hcov w Hpos.
  destruct (position_back _ _ _ _ _ Hlow Hpos) as [Hpos'|[s ->]].
  - eapply type_is_lowercase_forward; [exact Hlow | now apply Hcov].
  - apply type_is_lowercase_primitive. discriminate.
Qed.

Lemma read_Some_key (h : heap) (x c : val) (k : key) :
  read h x k = Some c -> In k (keys_of h x).
Proof.
  destruct x as [|b|n|s|l]; try discriminate. simpl.
  destruct (h !! l) as [[fields|elems]|]; [| |discriminate].
  - destruct k as [name|i]; [|discriminate]. simpl.
    induction fields as [|[k v] rest IH]; simpl; [discriminate|].
    destruct (str_eqb k name) eqn:E.
    + apply str_eqb_eq in E. subst. intros _. now left.
    + intros H. right. now apply IH.
  - destruct k as [name|i]; [discriminate|]. intros H. simpl.
    apply in_map, in_seq. apply lookup_lt_Some in H. lia.
Qed.

(** Every key of a loop is handled in some round, between two lowered
    heaps. *)
Lemma visit_round (rec : heap -> val -> option heap)
    (container : heap -> option val) (keys : list key) :
  (forall h x h', rec h x = Some h' -> lowers 0 h h') ->
  forall h h', visit rec container h keys = Some h' ->
    lowers 0 h h' /\
    forall k, In k keys ->
      exists ha hb c,
        lowers 0 h ha /\ container ha = Some c /\
        match read ha c k with
        | Some child => rec ha child = Some hb
        | None => hb = ha
        end /\ lowers 0 hb h'.
Proof.
  intros Hrec. induction keys as [|k0 rest IH]; intros h h' Hv.
  - injection Hv as <-. split; [apply lowers_refl | intros k []].
  - simpl in Hv. destruct (container h) as [c|] eqn:Hc; [|discriminate].
    assert (Hstep : exists h1,
               match read h c k0 with
               | Some child => rec h child
               | None => Some h
               end = Some h1 /\ lowers 0 h h1 /\
               match read h c k0 with
               | Some child => rec h child = Some h1
               | None => h1 = h
               end).
    { destruct (read h c k0) as [child|].
      - destruct (rec h child) as [h1|] eqn:Hrc; [|discriminate].
        exists h1. split; [reflexivity|]. split; [now apply Hrec in Hrc | reflexivity].
      - exists h. split; [reflexivity|]. split; [apply lowers_refl | reflexivity]. }
    destruct Hstep as [h1 [Hs [Hlow Hround]]]. rewrite Hs in Hv.
    destruct (IH h1 h' Hv) as [Hlow' Hrest]. split.
    + eapply lowers_trans; eassumption.
    + intros k [<-|Hin].
      * exists h, h1, c. split; [apply lowers_refl|]. split; [exact Hc|].
        split; [exact Hround | exact Hlow'].
      * destruct (Hrest k Hin) as [ha [hb [c' [Ha [Hc' [Hr Hb]]]]]].
        exists ha, hb, c'. split; [eapply lowers_trans; eassumption|].
        split; [exact Hc'|]. split; [exact Hr | exact Hb].
Qed.

(** What a loop reads under one of its keys is covered afterwards. *)
Lemma visit_covers (rec : heap -> val -> option heap)
    (container : heap -> option val) (keys : list key)
    (h h' hz : heap) (cont c : val) (k : key) :
  (forall h x h', rec h x = Some h' -> lowers 0 h h') ->
  (forall h x h', rec h x = Some h' -> covered h' x) ->
  visit rec container h keys = Some h' ->
  lowers 0 h' hz ->
  (forall ha, lowers 0 h ha -> container ha = Some cont) ->
  In k keys ->
  read hz cont k = Some c ->
  covered hz c.
Proof.
  intros Hrec Hcov Hv Hz Hcont Hin Hread.
  destruct (visit_round rec container keys Hrec h h' Hv) as [_ Hround].
  destruct (Hround k Hin) as [ha [hb [c0 [Ha [Hc0 [Hr Hb]]]]]].
  rewrite (Hcont ha Ha) in Hc0. injection Hc0 as <-.
  assert (Hbz : lowers 0 hb hz) by (eapply lowers_trans; eassumption).
  assert (Haz : lowers 0 ha hz).
  { destruct (read ha cont k) as [child|].
    - eapply lowers_trans; [eapply Hrec; exact Hr | exact Hbz].
    - now subst hb. }
  destruct (read_lowered_back _ _ _ _ _ _ Haz Hread) as [Hread'|[s ->]];
    [|apply covered_string].
  rewrite Hread' in Hr.
  eapply covered_forward; [exact Hbz | eapply Hcov; exact Hr].
Qed.

Lemma forEach_schema_covers (rec : heap -> val -> option heap)
    (h h' hz : heap) (schema a c : val) (name : jsstring) (k : key) :
  (forall h x h', rec h x = Some h' -> lowers 0 h h') ->
  (forall h x h', rec h x = Some h' -> covered h' x) ->
  name <> TYPE ->
  forEach_schema rec h schema name = Some h' ->
  lowers 0 h' hz ->
  read hz schema (KName name) = Some a ->
  is_array hz a = true ->
  read hz a k = Some c ->
  covered hz c.
Proof.
  intros Hrec Hcov Hname Hf Hz Ha Harr Hc. unfold forEach_schema in Hf.
  assert (Hhz : lowers 0 h hz).
  { eapply lowers_trans; [|exact Hz].
    destruct (read h schema (KName name)) as [a0|].
    - destruct (is_array h a0).
      + exact (proj1 (visit_round rec _ _ Hrec h h' Hf)).
      + injection Hf as <-. apply lowers_refl.
    - injection Hf as <-. apply lowers_refl. }
  rewrite (read_lowered_eq _ _ _ _ _ Hhz (key_not_type _ Hname)) in Ha.
  rewrite (is_array_lowered _ _ _ _ Hhz) in Harr.
  rewrite Ha, Harr in Hf.
  eapply (visit_covers rec _ _ h h' hz a c k Hrec Hcov Hf Hz).
  - intros ha _. reflexivity.
  - rewrite <- (keys_of_lowered _ _ _ a Hhz). eapply read_Some_key, Hc.
  - exact Hc.
Qed.

Lemma forEach_schema_lowers_heap (rec : heap -> val -> option heap)
    (h h' : heap) (schema : val) (name : jsstring) :
  (forall h x h', rec h x = Some h' -> lowers 0 h h') ->
  forEach_schema rec h schema name = Some h' -> lowers 0 h h'.
Proof.
  intros Hrec. apply (forEach_schema_lowers 0 rec schema name);
    [|apply closed_zero | apply above_zero].
  intros h0 x h0' _ _. apply Hrec.
Qed.

Lemma falsy_is_primitive (v : val) :
  truthy_val v = false -> forall l, v <> VRef l.
Proof. intros H l ->. discriminate. Qed.

Lemma convertSchemaTypeToLowerCase_covers (fuel : nat) (h : heap) (v : val)
    (h' : heap) :
  convertSchemaTypeToLowerCase fuel h v = Some h' -> covered h' v.
Proof.
  revert h v h'. induction fuel as [|fuel IH]; intros h x h' Hconv;
    [discriminate|].
  pose proof (convertSchemaTypeToLowerCase_lowers_heap fuel) as Hrec.
  cbn [convertSchemaTypeToLowerCase] in Hconv.
  destruct x as [|b|n|s|l]; try (apply covered_primitive; discriminate).
  set (h1 := match read h (VRef l) (KName TYPE) with
             | Some (VStr s) => write h l TYPE (VStr (toLowerCase s))
             | _ => h
             end) in Hconv.
  assert (T1 : type_is_lowercase h1 (VRef l)).
  { subst h1. intros s' Hs'.
    destruct (read h (VRef l) (KName TYPE)) as [[|b|n|s|r]|] eqn:Ht;
      try (rewrite Ht in Hs'; discriminate).
    destruct (write_type_lowers 0 h l s (Nat.le_0_l l) Ht) as [_ Hw].
    rewrite Hw in Hs'. injection Hs' as <-. apply toLowerCase_is_lowercase. }
  match type of Hconv with
  | match ?e with _ => _ end = _ => destruct e as [h2|] eqn:E2; [|discriminate]
  end.
  assert (H2 : lowers 0 h1 h2).
  { destruct (read h1 (VRef l) (KName PROPERTIES)) as [p|].
    - destruct (truthy_val p).
      + exact (proj1 (visit_round _ _ _ Hrec h1 h2 E2)).
      + injection E2 as <-. apply lowers_refl.
    - injection E2 as <-. apply lowers_refl. }
  match type of Hconv with
  | match ?e with _ => _ end = _ => destruct e as [h3|] eqn:E3; [|discriminate]
  end.
  assert (H3 : lowers 0 h2 h3).
  { destruct (read h2 (VRef l) (KName ITEMS)) as [i|].
    - destruct (truthy_val i).
      + exact (Hrec h2 i h3 E3).
      + injection E3 as <-. apply lowers_refl.
    - injection E3 as <-. apply lowers_refl. }
  destruct (forEach_schema _ h3 (VRef l) ANY_OF) as [h4|] eqn:E4; [|discriminate].
  destruct (forEach_schema _ h4 (VRef l) ALL_OF) as [h5|] eqn:E5; [|discriminate].
  pose proof (forEach_schema_lowers_heap _ h3 h4 (VRef l) ANY_OF Hrec E4) as H4.
  pose proof (forEach_schema_lowers_heap _ h4 h5 (VRef l) ALL_OF Hrec E5) as H5.
  pose proof (forEach_schema_lowers_heap _ h5 h' (VRef l) ONE_OF Hrec Hconv) as H6.
  assert (L5 : lowers 0 h5 h') by exact H6.
  assert (L4 : lowers 0 h4 h') by (eapply lowers_trans; eassumption).
  assert (L3 : lowers 0 h3 h') by (eapply lowers_trans; eassumption).
  assert (L2 : lowers 0 h2 h') by (eapply lowers_trans; eassumption).
  assert (L1 : lowers 0 h1 h') by (eapply lowers_trans; eassumption).
  assert (Hchildren : forall c, child h' (VRef l) c -> covered h' c).
  { intros c [[p [k [Hp Hc]]]|[Hi|[name [a [k [Hname [Ha [Harr Hc]]]]]]]].
    - (* a value of [properties] *)
      rewrite (read_lowered_eq _ _ _ _ _ L1 (key_not_type _ PROPERTIES_not_TYPE))
        in Hp.
      rewrite Hp in E2. destruct (truthy_val p) eqn:Htruthy.
      + eapply (visit_covers _ _ _ h1 h2 h' p c k Hrec IH E2 L2).
        * intros ha Ha. rewrite <- Hp.
          exact (read_lowered_eq _ _ _ _ _ Ha (key_not_type _ PROPERTIES_not_TYPE)).
        * rewrite <- (keys_of_lowered _ _ _ p L1). eapply read_Some_key, Hc.
        * exact Hc.
      + rewrite (read_not_ref h' p k (falsy_is_primitive p Htruthy)) in Hc.
        discriminate.
    - (* [items] *)
      rewrite (read_lowered_eq _ _ _ _ _ L2 (key_not_type _ ITEMS_not_TYPE)) in Hi.
      rewrite Hi in E3. destruct (truthy_val c) eqn:Htruthy.
      + eapply covered_forward; [exact L3 | exact (IH h2 c h3 E3)].
      + apply covered_primitive, falsy_is_primitive, Htruthy.
    - (* an element of a combinator *)
      pose proof (combinator_not_TYPE _ Hname) as Hne.
      destruct Hname as [-> | [-> | ->]].
      + exact (forEach_schema_covers _ h3 h4 h' (VRef l) a c ANY_OF k
                 Hrec IH Hne E4 L4 Ha Harr Hc).
      + exact (forEach_schema_covers _ h4 h5 h' (VRef l) a c ALL_OF k
                 Hrec IH Hne E5 L5 Ha Harr Hc).
      + exact (forEach_schema_covers _ h5 h' h' (VRef l) a c ONE_OF k
                 Hrec IH Hne Hconv (lowers_refl 0 h') Ha Harr Hc). }
  intros w Hpos. inversion Hpos as [x|x c w' Hchild Hrest]; subst.
  - eapply type_is_lowercase_forward; [exact L1 | exact T1].
  - exact (Hchildren c Hchild w Hrest).
Qed.

(** *** More fuel gives the same heap *)

Lemma visit_mono (rec rec' : heap -> val -> option heap)
    (container : heap -> option val) (keys : list key) :
  (forall h x h', rec h x = Some h' -> rec' h x = Some h') ->
  forall h h', visit rec container h keys = Some h' ->
               visit rec' container h keys = Some h'.
Proof.
  intros Hrec. induction keys as [|k rest IH]; intros h h' Hv; [exact Hv|].
  simpl in *. destruct (container h) as [c|]; [|discriminate].
  destruct (read h c k) as [x|].
  - destruct (rec h x) as [h1|] eqn:E; [|discriminate].
    rewrite (Hrec _ _ _ E). now apply IH.
  - now apply IH.
Qed.

Lemma forEach_schema_mono (rec rec' : heap -> val -> option heap)
    (h h' : heap) (schema : val) (name : jsstring) :
  (forall h x h', rec h x = Some h' -> rec' h x = Some h') ->
  forEach_schema rec h schema name = Some h' ->
  forEach_schema rec' h schema name = Some h'.
Proof.
  intros Hrec. unfold forEach_schema.
  destruct (read h schema (KName name)) as [a|]; [|trivial].
  destruct (is_array h a); [|trivial]. now apply visit_mono.
Qed.

Lemma convertSchemaTypeToLowerCase_step (fuel : nat) (h : heap) (v : val)
    (h' : heap) :
  convertSchemaTypeToLowerCase fuel h v = Some h' ->
  convertSchemaTypeToLowerCase (S fuel) h v = Some h'.
Proof.
  revert h v h'. induction fuel as [|fuel IH]; intros h x h' H; [discriminate|].
  remember (S fuel) as f1 eqn:Hf1 in |- *.
  assert (Hrec : forall h x h',
             convertSchemaTypeToLowerCase fuel h x = Some h' ->
             convertSchemaTypeToLowerCase f1 h x = Some h')
    by (subst f1; exact IH).
  clear IH Hf1. cbn [convertSchemaTypeToLowerCase] in H |- *.
  destruct x as [|b|n|s|l]; try exact H.
  set (h1 := match read h (VRef l) (KName TYPE) with
             | Some (VStr s) => write h l TYPE (VStr (toLowerCase s))
             | _ => h
             end) in *.
  match type of H with
  | match ?e with _ => _ end = _ => destruct e as [h2|] eqn:E2; [|discriminate]
  end.
  match type of H with
  | match ?e with _ => _ end = _ => destruct e as [h3|] eqn:E3; [|discriminate]
  end.
  destruct (forEach_schema _ h3 (VRef l) ANY_OF) as [h4|] eqn:E4; [|discriminate].
  destruct (forEach_schema _ h4 (VRef l) ALL_OF) as [h5|] eqn:E5; [|discriminate].
  match goal with
  | |- match ?e with _ => _ end = _ => assert (S2 : e = Some h2)
  end.
  { destruct (read h1 (VRef l) (KName PROPERTIES)) as [p|]; [|exact E2].
    destruct (truthy_val p); [|exact E2].
    eapply visit_mono; [exact Hrec | exact E2]. }
  rewrite S2.
  match goal with
  | |- match ?e with _ => _ end = _ => assert (S3 : e = Some h3)
  end.
  { destruct (read h2 (VRef l) (KName ITEMS)) as [i|]; [|exact E3].
    destruct (truthy_val i); [|exact E3]. now apply Hrec. }
  rewrite S3.
  rewrite (forEach_schema_mono _ _ h3 h4 (VRef l) ANY_OF Hrec E4).
  rewrite (forEach_schema_mono _ _ h4 h5 (VRef l) ALL_OF Hrec E5).
  exact (forEach_schema_mono _ _ h5 h' (VRef l) ONE_OF Hrec H).
Qed.

Lemma convertSchemaTypeToLowerCase_mono (fuel fuel' : nat) (h : heap) (v : val)
    (h' : heap) :
  fuel <= fuel' ->
  convertSchemaTypeToLowerCase fuel h v = Some h' ->
  convertSchemaTypeToLowerCase fuel' h v = Some h'.
Proof.
  intros Hle H. induction Hle as [|m _ IH]; [exact H|].
  now apply convertSchemaTypeToLowerCase_step.
Qed.

(** *** The conversion of a copy ends *)

Lemma within_weaken (base n m : nat) (v : val) :
  within base n v -> n <= m -> within base m v.
Proof. destruct v; simpl; try trivial. lia. Qed.

Lemma ordered_read (base : nat) (h : heap) (l : nat) (k : key) (v : val) :
  ordered base h -> base <= l -> read h (VRef l) k = Some v -> within base l v.
Proof.
  intros Hord Hl Hr. destruct (read_in_values _ _ _ _ Hr) as [c [Hc Hin]].
  pose proof (Hord l c Hc Hl) as Hall.
  rewrite List.Forall_forall in Hall. now apply Hall.
Qed.

Lemma ordered_read_twice (base : nat) (h : heap) (l : nat) (k k' : key)
    (p c : val) :
  ordered base h -> base <= l ->
  read h (VRef l) k = Some p -> read h p k' = Some c -> within base l c.
Proof.
  intros Hord Hl Hp Hc. pose proof (ordered_read _ _ _ _ _ Hord Hl Hp) as Hw.
  destruct p as [|b|n|s|lp]; try discriminate. simpl in Hw.
  eapply within_weaken; [eapply ordered_read; [exact Hord | | exact Hc]|]; lia.
Qed.

Lemma visit_terminates (rec : heap -> val -> option heap)
    (container : heap -> option val) (keys : list key) :
  (forall h x h', rec h x = Some h' -> lowers 0 h h') ->
  forall h,
    (forall ha, lowers 0 h ha ->
       exists c, container ha = Some c /\
         forall k x, read ha c k = Some x -> exists hb, rec ha x = Some hb) ->
    exists h', visit rec container h keys = Some h'.
Proof.
  intros Hrec. induction keys as [|k rest IH]; intros h Hok; simpl.
  - now exists h.
  - destruct (Hok h (lowers_refl 0 h)) as [c [Hc Hkids]]. rewrite Hc.
    destruct (read h c k) as [x|] eqn:Hx.
    + destruct (Hkids k x Hx) as [hb Hb]. rewrite Hb. apply IH.
      intros ha Ha. apply Hok. eapply lowers_trans; [eapply Hrec, Hb | exact Ha].
    + apply IH, Hok.
Qed.

Lemma forEach_schema_terminates (rec : heap -> val -> option heap)
    (h : heap) (schema : val) (name : jsstring) :
  (forall h x h', rec h x = Some h' -> lowers 0 h h') ->
  (forall ha a k x, lowers 0 h ha -> read h schema (KName name) = Some a ->
     read ha a k = Some x -> exists hb, rec ha x = Some hb) ->
  exists h', forEach_schema rec h schema name = Some h'.
Proof.
  intros Hrec Hkids. unfold forEach_schema.
  destruct (read h schema (KName name)) as [a|] eqn:Ha; [|now exists h].
  destruct (is_array h a); [|now exists h].
  apply visit_terminates; [exact Hrec|]. intros ha Hha. exists a.
  split; [reflexivity|]. intros k x Hx. exact (Hkids ha a k x Hha eq_refl Hx).
Qed.

(** In a region where every object refers only to objects built before it,
    the conversion of the object at [l] ends within [l + 2] nested calls. *)
Lemma convertSchemaTypeToLowerCase_terminates (base fuel : nat) (h : heap)
    (v : val) :
  ordered base h -> within base fuel v ->
  exists h', convertSchemaTypeToLowerCase (S fuel) h v = Some h'.
Proof.
  revert h v. induction fuel as [|fuel IH]; intros h x Hord Hx.
  - destruct x as [|b|n|s|l]; try (now exists h). simpl in Hx. lia.
  - destruct x as [|b|n|s|l]; try (now exists h). simpl in Hx.
    remember (S fuel) as f1 eqn:Hf1.
    pose proof (convertSchemaTypeToLowerCase_lowers_heap f1) as Hrec.
    cbn [convertSchemaTypeToLowerCase].
    set (h1 := match read h (VRef l) (KName TYPE) with
               | Some (VStr s) => write h l TYPE (VStr (toLowerCase s))
               | _ => h
               end).
    assert (H1 : lowers 0 h h1).
    { subst h1. destruct (read h (VRef l) (KName TYPE)) as [[|b|n|s|r]|] eqn:Ht;
        try apply lowers_refl.
      exact (proj1 (write_type_lowers 0 h l s (Nat.le_0_l l) Ht)). }
    assert (O1 : ordered base h1) by (eapply ordered_lowers; eassumption).
    assert (Hl : base <= l) by lia.
    assert (Hkid : forall ha x, lowers 0 h1 ha -> within base l x ->
               exists hb, convertSchemaTypeToLowerCase f1 ha x = Some hb).
    { intros ha x Hha Hw. subst f1. apply IH.
      - eapply ordered_lowers; eassumption.
      - eapply within_weaken; [exact Hw | lia]. }
    assert (Hgrand : forall hs ha name a k x,
               lowers 0 h1 hs -> lowers 0 hs ha -> name <> TYPE ->
               read hs (VRef l) (KName name) = Some a ->
               read ha a k = Some x ->
               exists hb, convertSchemaTypeToLowerCase f1 ha x = Some hb).
    { intros hs ha name a k x Hhs Hha Hname Ha Hk.
      assert (Hh1a : lowers 0 h1 ha) by (eapply lowers_trans; eassumption).
      apply Hkid; [exact Hh1a|].
      apply (ordered_read_twice base ha l (KName name) k a x);
        [eapply ordered_lowers; eassumption | exact Hl | | exact Hk].
      rewrite <- Ha. exact (read_lowered_eq _ _ _ _ _ Hha (key_not_type _ Hname)). }
    (* [schema.properties] *)
    match goal with
    | |- exists _, match ?e with _ => _ end = _ =>
        assert (S2 : exists h2, e = Some h2 /\ lowers 0 h1 h2)
    end.
    { destruct (read h1 (VRef l) (KName PROPERTIES)) as [p|] eqn:Hp;
        [|exists h1; split; [reflexivity | apply lowers_refl]].
      destruct (truthy_val p);
        [|exists h1; split; [reflexivity | apply lowers_refl]].
      destruct (visit_terminates _ (fun h' => read h' (VRef l) (KName PROPERTIES))
                  (keys_of h1 p) Hrec h1) as [h2 E2].
      - intros ha Hha. exists p. split.
        + rewrite <- Hp.
          exact (read_lowered_eq _ _ _ _ _ Hha (key_not_type _ PROPERTIES_not_TYPE)).
        + intros k x Hk.
          exact (Hgrand h1 ha PROPERTIES p k x (lowers_refl 0 h1) Hha
                   PROPERTIES_not_TYPE Hp Hk).
      - exists h2. split; [exact E2|].
        exact (proj1 (visit_round _ _ _ Hrec h1 h2 E2)). }
    destruct S2 as [h2 [E2 L2]]. rewrite E2.
    (* [schema.items] *)
    match goal with
    | |- exists _, match ?e with _ => _ end = _ =>
        assert (S3 : exists h3, e = Some h3 /\ lowers 0 h2 h3)
    end.
    { destruct (read h2 (VRef l) (KName ITEMS)) as [i|] eqn:Hi;
        [|exists h2; split; [reflexivity | apply lowers_refl]].
      destruct (truthy_val i);
        [|exists h2; split; [reflexivity | apply lowers_refl]].
      destruct (Hkid h2 i L2) as [h3 E3].
      - eapply ordered_read; [|exact Hl | exact Hi].
        eapply ordered_lowers; eassumption.
      - exists h3. split; [exact E3 | exact (Hrec _ _ _ E3)]. }
    destruct S3 as [h3 [E3 L3]]. rewrite E3.
    assert (L13 : lowers 0 h1 h3) by (eapply lowers_trans; eassumption).
    (* the combinators *)
    destruct (forEach_schema_terminates (convertSchemaTypeToLowerCase f1)
                h3 (VRef l) ANY_OF Hrec) as [h4 E4].
    { intros ha a k x Hha Ha Hk.
      exact (Hgrand h3 ha ANY_OF a k x L13 Hha
               (combinator_not_TYPE _ (or_introl eq_refl)) Ha Hk). }
    rewrite E4.
    pose proof (forEach_schema_lowers_heap _ h3 h4 (VRef l) ANY_OF Hrec E4) as L4.
    assert (L14 : lowers 0 h1 h4) by (eapply lowers_trans; eassumption).
    destruct (forEach_schema_terminates (convertSchemaTypeToLowerCase f1)
                h4 (VRef l) ALL_OF Hrec) as [h5 E5].
    { intros ha a k x Hha Ha Hk.
      exact (Hgrand h4 ha ALL_OF a k x L14 Hha
               (combinator_not_TYPE _ (or_intror (or_introl eq_refl))) Ha Hk). }
    rewrite E5.
    pose proof (forEach_schema_lowers_heap _ h4 h5 (VRef l) ALL_OF Hrec E5) as L5.
    assert (L15 : lowers 0 h1 h5) by (eapply lowers_trans; eassumption).
    apply (forEach_schema_terminates (convertSchemaTypeToLowerCase f1)
             h5 (VRef l) ONE_OF Hrec).
    intros ha a k x Hha Ha Hk.
    exact (Hgrand h5 ha ONE_OF a k x L15 Hha
             (combinator_not_TYPE _ (or_intror (or_intror eq_refl))) Ha Hk).
Qed.

(** *** The copy is a fresh region at the end of the heap *)

Lemma json_nested_ind (P : json -> Prop) :
  P JNull -> (forall b, P (JBool b)) -> (forall lit, P (JNum lit)) ->
  (forall s, P (JStr s)) ->
  (forall elems, List.Forall P elems -> P (JArr elems)) ->
  (forall members, List.Forall (fun m => P m.2) members -> P (JObj members)) ->
  forall j, P j.
Proof.
  intros Hnull Hbool Hnum Hstr Harr Hobj. fix IH 1.
  intros [|b|lit|s|elems|members].
  - exact Hnull.
  - apply Hbool.
  - apply Hnum.
  - apply Hstr.
  - apply Harr. induction elems as [|x rest IHrest]; constructor;
      [apply IH | exact IHrest].
  - apply Hobj. induction members as [|m rest IHrest]; constructor;
      [apply IH | exact IHrest].
Qed.

Lemma alloc_JArr (elems : list json) (h : heap) :
  alloc (JArr elems) h
  = ((alloc_elems alloc elems h).1 ++ [CArr (alloc_elems alloc elems h).2],
     VRef (length (alloc_elems alloc elems h).1)).
Proof. reflexivity. Qed.

Lemma alloc_JObj (members : list (jsstring * json)) (h : heap) :
  alloc (JObj members) h
  = ((alloc_members alloc members h).1 ++ [CObj (alloc_members alloc members h).2],
     VRef (length (alloc_members alloc members h).1)).
Proof. reflexivity. Qed.

Lemma ordered_snoc (base : nat) (h : heap) (c : cell) :
  ordered base h ->
  List.Forall (within base (length h)) (cell_values c) ->
  ordered base (h ++ [c]).
Proof.
  intros Hord Hc l c' Hl Hbase. apply lookup_app_Some in Hl.
  destruct Hl as [Hl|[Hge Hl]].
  - exact (Hord l c' Hl Hbase).
  - destruct (l - length h) as [|d] eqn:Hd; [|discriminate].
    injection Hl as <-. assert (l = length h) as -> by lia. exact Hc.
Qed.

Lemma ordered_empty_region (h : heap) : ordered (length h) h.
Proof. intros l c Hc Hl. apply lookup_lt_Some in Hc. lia. Qed.

Lemma alloc_elems_allocated (elems : list json) :
  List.Forall (fun j => forall base h, base <= length h -> ordered base h ->
                 allocated base h (alloc j h).1 /\
                 within base (length (alloc j h).1) (alloc j h).2) elems ->
  forall base h, base <= length h -> ordered base h ->
    allocated base h (alloc_elems alloc elems h).1 /\
    List.Forall (within base (length (alloc_elems alloc elems h).1))
      (alloc_elems alloc elems h).2.
Proof.
  induction 1 as [|x rest Hx _ IH]; intros base h Hbase Hord.
  - simpl. split; [split; [exists []; now rewrite app_nil_r | exact Hord]|].
    constructor.
  - change (alloc_elems alloc (x :: rest) h)
      with ((alloc_elems alloc rest (alloc x h).1).1,
            (alloc x h).2 :: (alloc_elems alloc rest (alloc x h).1).2).
    destruct (Hx base h Hbase Hord) as [[[new1 E1] O1] W1].
    assert (Hbase1 : base <= length (alloc x h).1)
      by (rewrite E1, length_app; lia).
    destruct (IH base (alloc x h).1 Hbase1 O1) as [[[new2 E2] O2] W2].
    simpl. split; [split; [|exact O2]|].
    + exists (new1 ++ new2). rewrite E2. rewrite E1 at 1. now rewrite app_assoc.
    + constructor; [|exact W2]. eapply within_weaken; [exact W1|].
      rewrite E2, length_app. lia.
Qed.

Lemma alloc_members_allocated (members : list (jsstring * json)) :
  List.Forall (fun m => forall base h, base <= length h -> ordered base h ->
                 allocated base h (alloc m.2 h).1 /\
                 within base (length (alloc m.2 h).1) (alloc m.2 h).2) members ->
  forall base h, base <= length h -> ordered base h ->
    allocated base h (alloc_members alloc members h).1 /\
    List.Forall (within base (length (alloc_members alloc members h).1))
      (List.map snd (alloc_members alloc members h).2).
Proof.
  induction 1 as [|m rest Hm _ IH]; intros base h Hbase Hord.
  - simpl. split; [split; [exists []; now rewrite app_nil_r | exact Hord]|].
    constructor.
  - change (alloc_members alloc (m :: rest) h)
      with ((alloc_members alloc rest (alloc m.2 h).1).1,
            (m.1, (alloc m.2 h).2) :: (alloc_members alloc rest (alloc m.2 h).1).2).
    destruct (Hm base h Hbase Hord) as [[[new1 E1] O1] W1].
    assert (Hbase1 : base <= length (alloc m.2 h).1)
      by (rewrite E1, length_app; lia).
    destruct (IH base (alloc m.2 h).1 Hbase1 O1) as [[[new2 E2] O2] W2].
    simpl. split; [split; [|exact O2]|].
    + exists (new1 ++ new2). rewrite E2. rewrite E1 at 1. now rewrite app_assoc.
    + constructor; [|exact W2]. eapply within_weaken; [exact W1|].
      rewrite E2, length_app. lia.
Qed.

Lemma alloc_allocated (j : json) (base : nat) (h : heap) :
  base <= length h -> ordered base h ->
  allocated base h (alloc j h).1 /\
  within base (length (alloc j h).1) (alloc j h).2.
Proof.
  revert base h. induction j as [|b|lit|s|elems IH|members IH] using json_nested_ind;
    intros base h Hbase Hord;
    try (simpl; split; [split; [exists []; now rewrite app_nil_r | exact Hord]
                       | exact I]).
  - rewrite alloc_JArr.
    destruct (alloc_elems_allocated elems IH base h Hbase Hord)
      as [[[new E] O] W].
    cbn [fst snd]. split; [split|].
    + exists (new ++ [CArr (alloc_elems alloc elems h).2]).
      rewrite E at 1. now rewrite app_assoc.
    + apply ordered_snoc; [exact O | exact W].
    + simpl. rewrite length_app, E, length_app. simpl. lia.
  - rewrite alloc_JObj.
    destruct (alloc_members_allocated members IH base h Hbase Hord)
      as [[[new E] O] W].
    cbn [fst snd]. split; [split|].
    + exists (new ++ [CObj (alloc_members alloc members h).2]).
      rewrite E at 1. now rewrite app_assoc.
    + apply ordered_snoc; [exact O | exact W].
    + simpl. rewrite length_app, E, length_app. simpl. lia.
Qed.

(** *** Serialization does not depend on fuel or on later cells *)

Lemma mapO_impl {A B : Type} (f g : A -> option B) (xs : list A) (ys : list B) :
  (forall x y, f x = Some y -> g x = Some y) ->
  mapO f xs = Some ys -> mapO g xs = Some ys.
Proof.
  intros Hfg. revert ys. induction xs as [|x rest IH]; intros ys H; [exact H|].
  simpl in *. destruct (f x) as [y|] eqn:Ex; [|discriminate].
  destruct (mapO f rest) as [ys'|]; [|discriminate].
  now rewrite (Hfg x y Ex), (IH ys' eq_refl).
Qed.

Lemma reify_impl (rec rec' : val -> option json) (h h' : heap) (l : nat)
    (j : json) :
  (forall v j, rec v = Some j -> rec' v = Some j) ->
  (forall c, h !! l = Some c -> h' !! l = Some c) ->
  match h !! l with
  | Some (CObj fields) => JObj <$> mapO (fun f => pair f.1 <$> rec f.2) fields
  | Some (CArr elems) => JArr <$> mapO rec elems
  | None => None
  end = Some j ->
  match h' !! l with
  | Some (CObj fields) => JObj <$> mapO (fun f => pair f.1 <$> rec' f.2) fields
  | Some (CArr elems) => JArr <$> mapO rec' elems
  | None => None
  end = Some j.
Proof.
  intros Hrec Hcell H. destruct (h !! l) as [c|] eqn:Hc; [|discriminate].
  rewrite (Hcell c eq_refl). destruct c as [fields|elems].
  - destruct (mapO _ fields) as [ms|] eqn:E; [|discriminate].
    assert (Hmember : forall (x : jsstring * val) y,
               pair x.1 <$> rec x.2 = Some y -> pair x.1 <$> rec' x.2 = Some y).
    { intros x y Hx. destruct (rec x.2) as [j0|] eqn:Ej; [|discriminate].
      now rewrite (Hrec _ _ Ej). }
    rewrite (mapO_impl _ (fun f => pair f.1 <$> rec' f.2) _ _ Hmember E).
    exact H.
  - destruct (mapO rec elems) as [js|] eqn:E; [|discriminate].
    rewrite (mapO_impl _ rec' _ _ Hrec E). exact H.
Qed.

Lemma reify_step (fuel : nat) (h : heap) (v : val) (j : json) :
  reify fuel h v = Some j -> reify (S fuel) h v = Some j.
Proof.
  revert v j. induction fuel as [|fuel IH]; intros v j H; [discriminate|].
  remember (S fuel) as f1 eqn:Hf1 in |- *.
  assert (Hrec : forall v j, reify fuel h v = Some j -> reify f1 h v = Some j)
    by (subst f1; exact IH).
  cbn [reify] in H |- *. destruct v as [|b|n|s|l]; try exact H.
  now apply (reify_impl (reify fuel h) (reify f1 h) h h l j Hrec).
Qed.

Lemma reify_mono (fuel fuel' : nat) (h : heap) (v : val) (j : json) :
  fuel <= fuel' -> reify fuel h v = Some j -> reify fuel' h v = Some j.
Proof.
  intros Hle H. induction Hle as [|m _ IH]; [exact H|]. now apply reify_step.
Qed.

Lemma reify_unchanged (fuel : nat) (h h' : heap) (v : val) (j : json) :
  unchanged h h' -> reify fuel h v = Some j -> reify fuel h' v = Some j.
Proof.
  intros Hun. revert v j. induction fuel as [|fuel IH]; intros v j H;
    [discriminate|].
  cbn [reify] in H |- *. destruct v as [|b|n|s|l]; try exact H.
  apply (reify_impl (reify fuel h) (reify fuel h') h h' l j IH); [|exact H].
  intros c. apply Hun.
Qed.

(** *** Cells that stay *)

Lemma unchanged_refl (h : heap) : unchanged h h.
Proof. intros l c H. exact H. Qed.

Lemma unchanged_trans (h1 h2 h3 : heap) :
  unchanged h1 h2 -> unchanged h2 h3 -> unchanged h1 h3.
Proof. intros H12 H23 l c H. apply H23, H12, H. Qed.

Lemma unchanged_app (h new : heap) : unchanged h (h ++ new).
Proof. intros l c H. now apply lookup_app_l_Some. Qed.

Lemma read_unchanged (h h' : heap) (l : nat) (k : key) :
  unchanged h h' -> l < length h -> read h' (VRef l) k = read h (VRef l) k.
Proof.
  intros Hun Hl. destruct (lookup_lt_is_Some_2 h l Hl) as [c Hc].
  simpl. now rewrite Hc, (Hun l c Hc).
Qed.

Lemma within_above (base n : nat) (v : val) : within base n v -> above base v.
Proof. destruct v; simpl; try trivial. lia. Qed.

Lemma child_stays (base : nat) (h h' : heap) (x c : val) :
  ordered base h -> unchanged h h' -> within base (length h) x ->
  child h' x c -> child h x c /\ within base (length h) c.
Proof.
  intros Hord Hun Hx Hchild. destruct x as [|b|n|s|l];
    try (exfalso; eapply no_child_of_primitive; [|exact Hchild]; discriminate).
  simpl in Hx. destruct Hx as [Hbase Hl].
  assert (Hgrand : forall k k' p, read h (VRef l) k = Some p ->
             read h' p k' = Some c ->
             read h p k' = Some c /\ within base (length h) c).
  { intros k k' p Hp Hc. pose proof (ordered_read _ _ _ _ _ Hord Hbase Hp) as Hw.
    destruct p as [|b|n|s|lp]; try discriminate. simpl in Hw.
    rewrite (read_unchanged h h' lp k' Hun) in Hc by lia. split; [exact Hc|].
    eapply within_weaken; [eapply ordered_read; [exact Hord | | exact Hc]|]; lia. }
  destruct Hchild as [[p [k [Hp Hc]]]|[Hi|[name [a [k [Hname [Ha [Harr Hc]]]]]]]].
  - rewrite (read_unchanged h h' l _ Hun Hl) in Hp.
    destruct (Hgrand _ _ _ Hp Hc) as [Hc' Hw]. split; [|exact Hw].
    left. eauto.
  - rewrite (read_unchanged h h' l _ Hun Hl) in Hi. split.
    + right. now left.
    + eapply within_weaken; [eapply ordered_read; eassumption | lia].
  - rewrite (read_unchanged h h' l _ Hun Hl) in Ha.
    destruct (Hgrand _ _ _ Ha Hc) as [Hc' Hw]. split; [|exact Hw].
    right. right. exists name, a, k. repeat split; try assumption.
    pose proof (ordered_read _ _ _ _ _ Hord Hbase Ha) as Hwa.
    destruct a as [|b|n|s|la]; try discriminate. simpl in Hwa.
    simpl in Harr |- *.
    destruct (lookup_lt_is_Some_2 h la ltac:(lia)) as [ca Hca].
    rewrite (Hun la ca Hca) in Harr. now rewrite Hca.
Qed.

Lemma position_stays (base : nat) (h h' : heap) (v w : val) :
  ordered base h -> unchanged h h' -> within base (length h) v ->
  schema_position h' v w ->
  schema_position h v w /\ within base (length h) w.
Proof.
  intros Hord Hun Hv Hpos. induction Hpos as [x|x c w Hchild Hpos IH].
  - split; [constructor | exact Hv].
  - destruct (child_stays base h h' x c Hord Hun Hv Hchild) as [Hc Hw].
    destruct (IH Hw) as [Hp Hww]. split; [|exact Hww].
    econstructor; eassumption.
Qed.

Lemma covered_unchanged (base : nat) (h h' : heap) (v : val) :
  ordered base h -> unchanged h h' -> within base (length h) v ->
  covered h v -> covered h' v.
Proof.
  intros Hord Hun Hv Hcov w Hpos.
  destruct (position_stays base h h' v w Hord Hun Hv Hpos) as [Hp Hw].
  intros s Hs. destruct w as [|b|n|s0|l]; try discriminate. simpl in Hw.
  rewrite (read_unchanged h h' l _ Hun) in Hs by lia.
  exact (Hcov (VRef l) Hp s Hs).
Qed.

(** *** One declaration *)

Lemma converted_copy (fuel : nat) (h : heap) (j : json) (h2 : heap) :
  convertSchemaTypeToLowerCase fuel (alloc j h).1 (alloc j h).2 = Some h2 ->
  unchanged h h2 /\ ordered (length h) h2 /\
  within (length h) (length h2) (alloc j h).2 /\ covered h2 (alloc j h).2.
Proof.
  intros Hconv.
  destruct (alloc_allocated j (length h) h (le_n _) (ordered_empty_region h))
    as [[[new E] O] W].
  assert (Hlow : lowers (length h) (alloc j h).1 h2).
  { apply (convertSchemaTypeToLowerCase_lowers (length h) fuel _ (alloc j h).2);
      [now apply ordered_closed | eapply within_above, W | exact Hconv]. }
  split; [|split; [|split]].
  - intros l c Hc. apply (lowers_unchanged _ _ _ Hlow).
    + now apply lookup_lt_Some in Hc.
    + rewrite E. now apply lookup_app_l_Some.
  - eapply ordered_lowers; eassumption.
  - now rewrite (proj1 Hlow).
  - eapply convertSchemaTypeToLowerCase_covers, Hconv.
Qed.

Lemma convertDeclaration_copies (fuel : nat) (h : heap) (declaration : val)
    (h2 : heap) (tool : OpenAILikeTool) :
  convertDeclaration fuel h declaration = Some (h2, tool) ->
  exists j, tool_parameters tool = (alloc j h).2 /\
            convertSchemaTypeToLowerCase fuel (alloc j h).1 (alloc j h).2 = Some h2.
Proof.
  unfold convertDeclaration. intros H.
  assert (Hcopied : forall copied : option (heap * val),
             copied = match read h declaration (KName (str "parameters")) with
                      | Some p => if truthy_val p then deepCopy fuel h p
                                  else Some (alloc (JObj []) h)
                      | None => Some (alloc (JObj []) h)
                      end ->
             forall r, copied = Some r -> exists j, r = alloc j h).
  { intros copied -> r Hr. unfold deepCopy in Hr.
    destruct (read h declaration _) as [p|]; [destruct (truthy_val p)|].
    - destruct (reify fuel h p) as [j|]; [|discriminate].
      injection Hr as <-. now exists j.
    - injection Hr as <-. now exists (JObj []).
    - injection Hr as <-. now exists (JObj []). }
  assert (Hbody : forall copied : option (heap * val),
             (forall r, copied = Some r -> exists j, r = alloc j h) ->
             match copied with
             | None => None
             | Some (h1, parameters) =>
                 match convertSchemaTypeToLowerCase fuel h1 parameters with
                 | None => None
                 | Some h2 =>
                     Some (h2,
                           {| tool_name :=
                                or_else (read h2 declaration (KName (str "name")))
                                  (VStr (str "unknown_function"));
                              tool_description :=
                                or_else
                                  (read h2 declaration (KName (str "description")))
                                  (VStr []);
                              tool_parameters := parameters |})
                 end
             end = Some (h2, tool) ->
             exists j, tool_parameters tool = (alloc j h).2 /\
               convertSchemaTypeToLowerCase fuel (alloc j h).1 (alloc j h).2
               = Some h2).
  { intros copied Hc Hb. destruct copied as [[h1 parameters]|]; [|discriminate].
    destruct (Hc _ eq_refl) as [j Hj].
    destruct (convertSchemaTypeToLowerCase fuel h1 parameters) as [h2'|] eqn:E;
      [|discriminate].
    injection Hb as <- <-. exists j. simpl. rewrite <- Hj. now split. }
  destruct declaration; try discriminate;
    (eapply Hbody; [eapply Hcopied; reflexivity | exact H]).
Qed.

Lemma convertDeclaration_sound (fuel : nat) (h : heap) (declaration : val)
    (h2 : heap) (tool : OpenAILikeTool) :
  convertDeclaration fuel h declaration = Some (h2, tool) ->
  unchanged h h2 /\ ordered (length h) h2 /\
  within (length h) (length h2) (tool_parameters tool) /\
  covered h2 (tool_parameters tool).
Proof.
  intros H. destruct (convertDeclaration_copies _ _ _ _ _ H) as [j [-> Hconv]].
  exact (converted_copy fuel h j h2 Hconv).
Qed.

Lemma convertDeclarations_sound (fuel : nat) (declarations : list val) :
  forall h h' tools,
    convertDeclarations fuel h declarations = Some (h', tools) ->
    unchanged h h' /\ length tools = length declarations /\
    List.Forall (fun t => covered h' (tool_parameters t)) tools.
Proof.
  induction declarations as [|d rest IH]; intros h h' tools H; simpl in H.
  - injection H as <- <-. split; [apply unchanged_refl|]. split; [reflexivity|].
    constructor.
  - destruct (convertDeclaration fuel h d) as [[h1 tool]|] eqn:Ed; [|discriminate].
    destruct (convertDeclarations fuel h1 rest) as [[h2 tools']|] eqn:Er;
      [|discriminate].
    injection H as <- <-.
    destruct (convertDeclaration_sound _ _ _ _ _ Ed) as [U1 [O1 [W1 C1]]].
    destruct (IH h1 h2 tools' Er) as [U2 [Hlen Hall]].
    split; [eapply unchanged_trans; eassumption|]. split; [simpl; now rewrite Hlen|].
    constructor; [|exact Hall].
    exact (covered_unchanged (length h) h1 h2 _ O1 U2 W1 C1).
Qed.

(** *** The run ends on declarations that [JSON.stringify] can print *)

Lemma serializable_unchanged (h h' : heap) (declaration : val) :
  unchanged h h' -> serializable h declaration -> serializable h' declaration.
Proof.
  intros Hun [[l [fields [-> Hl]]] Hp]. split.
  - exists l, fields. split; [reflexivity | apply Hun, Hl].
  - intros p Hr Ht.
    rewrite (read_unchanged h h' l _ Hun (lookup_lt_Some _ _ _ Hl)) in Hr.
    destruct (Hp p Hr Ht) as [fuel [j Hj]]. exists fuel, j.
    eapply reify_unchanged; eassumption.
Qed.

Lemma convertDeclaration_terminates (h : heap) (declaration : val) :
  serializable h declaration ->
  exists n h2 tool, forall fuel, n <= fuel ->
    convertDeclaration fuel h declaration = Some (h2, tool).
Proof.
  intros [[l [fields [-> Hl]]] Hp].
  assert (Hcopied : exists n1 j, forall fuel, n1 <= fuel ->
             match read h (VRef l) (KName (str "parameters")) with
             | Some p => if truthy_val p then deepCopy fuel h p
                         else Some (alloc (JObj []) h)
             | None => Some (alloc (JObj []) h)
             end = Some (alloc j h)).
  { destruct (read h (VRef l) (KName (str "parameters"))) as [p|];
      [|now exists 0, (JObj [])].
    destruct (truthy_val p) eqn:Ht; [|now exists 0, (JObj [])].
    destruct (Hp p eq_refl Ht) as [n1 [j Hj]]. exists n1, j. intros fuel Hf.
    unfold deepCopy. now rewrite (reify_mono n1 fuel h p j Hf Hj). }
  destruct Hcopied as [n1 [j Hcopied]].
  destruct (alloc_allocated j (length h) h (le_n _) (ordered_empty_region h))
    as [[_ O] W].
  destruct (convertSchemaTypeToLowerCase_terminates (length h)
              (length (alloc j h).1) (alloc j h).1 (alloc j h).2 O W) as [h2 E].
  destruct (alloc j h) as [h1 parameters]. cbn [fst snd] in E.
  exists (Nat.max n1 (S (length h1))), h2. eexists. intros fuel Hf.
  unfold convertDeclaration. cbv zeta.
  rewrite (Hcopied fuel ltac:(lia)).
  assert (Hle : S (length h1) <= fuel) by lia.
  rewrite (convertSchemaTypeToLowerCase_mono _ fuel h1 parameters h2 Hle E).
  reflexivity.
Qed.

Lemma convertDeclarations_terminates (declarations : list val) :
  forall h, List.Forall (serializable h) declarations ->
    exists n h' tools, forall fuel, n <= fuel ->
      convertDeclarations fuel h declarations = Some (h', tools).
Proof.
  induction declarations as [|d rest IH]; intros h Hall.
  - now exists 0, h, [].
  - inversion Hall as [|? ? Hd Hrest]; subst.
    destruct (convertDeclaration_terminates h d Hd) as [n1 [h1 [tool E1]]].
    destruct (convertDeclaration_sound _ _ _ _ _ (E1 n1 (le_n _))) as [U1 _].
    assert (Hrest1 : List.Forall (serializable h1) rest).
    { eapply List.Forall_impl; [|exact Hrest].
      intros x. now apply serializable_unchanged. }
    destruct (IH h1 Hrest1) as [n2 [h2 [tools E2]]].
    exists (Nat.max n1 n2), h2, (tool :: tools). intros fuel Hf. simpl.
    rewrite (E1 fuel ltac:(lia)), (E2 fuel ltac:(lia)). reflexivity.
Qed.

(** *** The cells of a tree and of its lowered tree *)

Lemma json_deep_ind (P : json -> Prop) :
  (forall j, List.Forall (fun c => P c /\ List.Forall P (children c)) (children j) ->
             P j) ->
  forall j, P j.
Proof.
  intros H j.
  enough (Hj : P j /\ List.Forall P (children j)) by apply Hj.
  induction j as [|b|lit|s|elems IH|members IH] using json_nested_ind;
    try (split; [apply H|]; constructor).
  - split; [apply H; exact IH|]. simpl. eapply List.Forall_impl; [|exact IH].
    now intros c [Hc _].
  - assert (IH' : List.Forall (fun c => P c /\ List.Forall P (children c))
                    (List.map snd members)).
    { apply List.Forall_map. exact IH. }
    split; [apply H; exact IH'|]. simpl. eapply List.Forall_impl; [|exact IH'].
    now intros c [Hc _].
Qed.

Lemma sizes_cons (x : json) (js : list json) : sizes (x :: js) = size x + sizes js.
Proof. reflexivity. Qed.

Lemma sizes_app (a b : list json) : sizes (a ++ b) = sizes a + sizes b.
Proof. unfold sizes. now rewrite List.map_app, list_sum_app. Qed.

Lemma size_JArr (elems : list json) : size (JArr elems) = S (sizes elems).
Proof. reflexivity. Qed.

Lemma size_JObj (members : list (jsstring * json)) :
  size (JObj members) = S (sizes (List.map snd members)).
Proof. unfold sizes. now rewrite List.map_map. Qed.

Lemma cells_JArr (elems : list json) (n : nat) :
  cells (JArr elems) n = cells_list elems n ++ [CArr (roots elems n)].
Proof.
  reflexivity.
Qed.

Lemma cells_JObj (members : list (jsstring * json)) (n : nat) :
  cells (JObj members) n
  = cells_list (List.map snd members) n ++ [CObj (fields_at members n)].
Proof.
  simpl. f_equal. revert n. induction members as [|m rest IH]; intros n;
    [reflexivity|]. simpl. f_equal. apply IH.
Qed.

Lemma root_JArr (elems : list json) (n : nat) :
  root (JArr elems) n = VRef (n + sizes elems).
Proof. reflexivity. Qed.

Lemma root_JObj (members : list (jsstring * json)) (n : nat) :
  root (JObj members) n = VRef (n + sizes (List.map snd members)).
Proof. unfold root. now rewrite size_JObj. Qed.

Lemma unique_keys_JArr (elems : list json) :
  unique_keys (JArr elems) <-> List.Forall unique_keys elems.
Proof.
  simpl. induction elems as [|x rest IH]; [split; [constructor|trivial]|].
  rewrite List.Forall_cons_iff, <- IH. reflexivity.
Qed.

Lemma unique_keys_JObj (members : list (jsstring * json)) :
  unique_keys (JObj members)
  <-> NoDup (List.map fst members) /\
      List.Forall unique_keys (List.map snd members).
Proof.
  simpl. apply and_iff_compat_l.
  induction members as [|m rest IH]; [split; [constructor|trivial]|].
  simpl. rewrite List.Forall_cons_iff, <- IH. reflexivity.
Qed.

Lemma cells_list_app (a b : list json) (n : nat) :
  cells_list (a ++ b) n = cells_list a n ++ cells_list b (n + sizes a).
Proof.
  revert n. induction a as [|x a IH]; intros n; simpl.
  - now rewrite Nat.add_0_r.
  - rewrite IH, sizes_cons, <- List.app_assoc. do 3 f_equal. lia.
Qed.

Lemma roots_app (a b : list json) (n : nat) :
  roots (a ++ b) n = roots a n ++ roots b (n + sizes a).
Proof.
  revert n. induction a as [|x a IH]; intros n; simpl.
  - now rewrite Nat.add_0_r.
  - rewrite IH, sizes_cons. do 3 f_equal. lia.
Qed.

Lemma fields_at_app (a b : list (jsstring * json)) (n : nat) :
  fields_at (a ++ b) n = fields_at a n ++ fields_at b (n + sizes (List.map snd a)).
Proof.
  revert n. induction a as [|x a IH]; intros n; simpl.
  - now rewrite Nat.add_0_r.
  - rewrite IH, sizes_cons. do 3 f_equal. lia.
Qed.

Lemma fields_at_keys (members : list (jsstring * json)) (n : nat) :
  List.map fst (fields_at members n) = List.map fst members.
Proof.
  revert n. induction members as [|m rest IH]; intros n; [reflexivity|].
  simpl. now rewrite IH.
Qed.

Lemma fields_at_values (members : list (jsstring * json)) (n : nat) :
  List.map snd (fields_at members n) = roots (List.map snd members) n.
Proof.
  revert n. induction members as [|m rest IH]; intros n; [reflexivity|].
  simpl. now rewrite IH.
Qed.

Lemma length_cells (j : json) : forall n, length (cells j n) = size j.
Proof.
  induction j as [|b|lit|s|elems IH|members IH] using json_nested_ind;
    intros n; try reflexivity.
  - rewrite cells_JArr, size_JArr, length_app, Nat.add_comm. simpl. f_equal.
    revert n. induction IH as [|x rest Hx _ IHrest]; intros n; [reflexivity|].
    simpl. now rewrite length_app, Hx, IHrest.
  - rewrite cells_JObj, size_JObj, length_app, Nat.add_comm. simpl. f_equal.
    revert n. induction IH as [|x rest Hx _ IHrest]; intros n; [reflexivity|].
    simpl. now rewrite length_app, Hx, IHrest.
Qed.

Lemma length_cells_list (js : list json) (n : nat) :
  length (cells_list js n) = sizes js.
Proof.
  revert n. induction js as [|x rest IH]; intros n; [reflexivity|].
  simpl. now rewrite length_app, length_cells, IH.
Qed.

(** [alloc] in closed form. *)
Lemma alloc_cells (j : json) :
  forall h, alloc j h = (h ++ cells j (length h), root j (length h)).
Proof.
  induction j as [|b|lit|s|elems IH|members IH] using json_nested_ind;
    intros h; try (simpl; now rewrite List.app_nil_r).
  - assert (E : forall h, alloc_elems alloc elems h
                          = (h ++ cells_list elems (length h), roots elems (length h))).
    { induction IH as [|x rest Hx _ IHrest]; intros h0.
      - simpl. now rewrite List.app_nil_r.
      - simpl. rewrite Hx. simpl. rewrite IHrest. simpl.
        rewrite length_app, length_cells, <- List.app_assoc. reflexivity. }
    rewrite alloc_JArr, E. simpl fst. simpl snd.
    rewrite cells_JArr, root_JArr, length_app, length_cells_list,
      <- List.app_assoc. reflexivity.
  - assert (E : forall h, alloc_members alloc members h
                          = (h ++ cells_list (List.map snd members) (length h),
                             fields_at members (length h))).
    { induction IH as [|x rest Hx _ IHrest]; intros h0.
      - simpl. now rewrite List.app_nil_r.
      - simpl. rewrite Hx. simpl. rewrite IHrest. simpl.
        rewrite length_app, length_cells, <- List.app_assoc. reflexivity. }
    rewrite alloc_JObj, E. simpl fst. simpl snd.
    rewrite cells_JObj, root_JObj, length_app, length_cells_list,
      <- List.app_assoc. reflexivity.
Qed.

(** *** The lowered tree has the shape of the tree *)

Lemma lowered_schema_JObj (members : list (jsstring * json)) :
  lowered_schema (JObj members)
  = JObj (List.map (fun m => (m.1, lowered_member lowered_schema m.1 m.2)) members).
Proof. reflexivity. Qed.

Lemma sizes_map (f : json -> json) (js : list json) :
  List.Forall (fun c => size (f c) = size c) js ->
  sizes (List.map f js) = sizes js.
Proof.
  induction 1 as [|x rest Hx _ IH]; [reflexivity|].
  simpl. rewrite !sizes_cons. now rewrite Hx, IH.
Qed.

Lemma size_lowered_values (v : json) :
  List.Forall (fun c => size (lowered_schema c) = size c) (children v) ->
  size (lowered_values lowered_schema v) = size v.
Proof.
  intros H. destruct v as [| | | |es|ps]; try reflexivity.
  - simpl lowered_values. rewrite !size_JArr. f_equal. now apply sizes_map.
  - simpl lowered_values. rewrite !size_JObj. f_equal.
    rewrite List.map_map. simpl. rewrite <- (List.map_map snd lowered_schema).
    now apply sizes_map.
Qed.

Lemma size_lowered_member (name : jsstring) (v : json) :
  size (lowered_schema v) = size v ->
  List.Forall (fun c => size (lowered_schema c) = size c) (children v) ->
  size (lowered_member lowered_schema name v) = size v.
Proof.
  intros Hv Hc. unfold lowered_member.
  destruct (str_eqb name TYPE); [now destruct v|].
  destruct (str_eqb name PROPERTIES); [now apply size_lowered_values|].
  destruct (str_eqb name ITEMS); [exact Hv|].
  destruct (is_combinator name); [|reflexivity].
  destruct v as [| | | |es|ps]; try reflexivity.
  simpl lowered_elements. rewrite !size_JArr. f_equal. now apply sizes_map.
Qed.

Lemma size_lowered (j : json) : size (lowered_schema j) = size j.
Proof.
  induction j as [j IH] using json_deep_ind.
  destruct j as [| | | |es|ms]; try reflexivity.
  rewrite lowered_schema_JObj, !size_JObj. f_equal.
  rewrite List.map_map. simpl. simpl in IH.
  induction ms as [|m rest IHrest]; [reflexivity|].
  simpl. rewrite !sizes_cons. apply Forall_cons in IH as [[Hm Hc] Hrest].
  rewrite size_lowered_member by assumption. f_equal. now apply IHrest.
Qed.

Lemma root_lowered (j : json) (n : nat) : root (lowered_schema j) n = root j n.
Proof.
  destruct j as [| | | |es|ms]; try reflexivity.
  unfold root. now rewrite size_lowered.
Qed.

Lemma roots_lowered (js : list json) (n : nat) :
  roots (List.map lowered_schema js) n = roots js n.
Proof.
  revert n. induction js as [|x rest IH]; intros n; [reflexivity|].
  simpl. now rewrite root_lowered, size_lowered, IH.
Qed.

Lemma sizes_lowered (js : list json) :
  sizes (List.map lowered_schema js) = sizes js.
Proof. apply sizes_map, List.Forall_forall. intros c _. apply size_lowered. Qed.

Lemma fields_at_lowered (ps : list (jsstring * json)) (n : nat) :
  fields_at (List.map (fun p => (p.1, lowered_schema p.2)) ps) n = fields_at ps n.
Proof.
  revert n. induction ps as [|x rest IH]; intros n; [reflexivity|].
  simpl. now rewrite root_lowered, size_lowered, IH.
Qed.

Lemma Forall_unique_keys_map (f : json -> json) (js : list json) :
  List.Forall (fun c => unique_keys c -> unique_keys (f c)) js ->
  List.Forall unique_keys js -> List.Forall unique_keys (List.map f js).
Proof.
  induction 1 as [|x rest Hx _ IH]; intros H; [constructor|].
  apply Forall_cons in H as [H1 H2]. constructor; auto.
Qed.

Lemma unique_keys_lowered_values (v : json) :
  List.Forall (fun c => unique_keys c -> unique_keys (lowered_schema c))
    (children v) ->
  unique_keys v -> unique_keys (lowered_values lowered_schema v).
Proof.
  intros H Hv. destruct v as [| | | |es|ps]; try exact Hv.
  - simpl lowered_values. apply unique_keys_JArr. apply unique_keys_JArr in Hv.
    now apply Forall_unique_keys_map.
  - simpl lowered_values. apply unique_keys_JObj. apply unique_keys_JObj in Hv.
    destruct Hv as [Hk Hv]. rewrite !List.map_map. simpl. split; [exact Hk|].
    rewrite <- (List.map_map snd lowered_schema).
    now apply Forall_unique_keys_map.
Qed.

Lemma unique_keys_lowered_member (name : jsstring) (v : json) :
  (unique_keys v -> unique_keys (lowered_schema v)) ->
  List.Forall (fun c => unique_keys c -> unique_keys (lowered_schema c))
    (children v) ->
  unique_keys v -> unique_keys (lowered_member lowered_schema name v).
Proof.
  intros Hv Hc Hu. unfold lowered_member.
  destruct (str_eqb name TYPE); [now destruct v|].
  destruct (str_eqb name PROPERTIES); [now apply unique_keys_lowered_values|].
  destruct (str_eqb name ITEMS); [now apply Hv|].
  destruct (is_combinator name); [|exact Hu].
  destruct v as [| | | |es|ps]; try exact Hu.
  simpl lowered_elements. apply unique_keys_JArr. apply unique_keys_JArr in Hu.
  now apply Forall_unique_keys_map.
Qed.

Lemma unique_keys_lowered (j : json) :
  unique_keys j -> unique_keys (lowered_schema j).
Proof.
  induction j as [j IH] using json_deep_ind. intros Hu.
  destruct j as [| | | |es|ms]; try exact Hu.
  rewrite lowered_schema_JObj. apply unique_keys_JObj.
  apply unique_keys_JObj in Hu. destruct Hu as [Hk Hu].
  rewrite !List.map_map. simpl. split; [exact Hk|]. simpl in IH.
  clear Hk. induction ms as [|m rest IHrest]; [constructor|].
  simpl in *. apply Forall_cons in IH as [[Hm Hc] Hrest].
  apply Forall_cons in Hu as [Hu1 Hu2]. constructor.
  - now apply unique_keys_lowered_member.
  - now apply IHrest.
Qed.

(** *** Reading the cells of a tree *)

Lemma lookup_skip (P Q : heap) (i : nat) : (P ++ Q) !! (length P + i) = Q !! i.
Proof. rewrite lookup_app_r by lia. f_equal. lia. Qed.

Lemma lookup_array (A C : heap) (elems : list json) :
  (A ++ cells (JArr elems) (length A) ++ C) !! (length A + sizes elems)
  = Some (CArr (roots elems (length A))).
Proof.
  rewrite cells_JArr, <- List.app_assoc, lookup_skip.
  rewrite <- (length_cells_list elems (length A)), <- (Nat.add_0_r (length _)).
  now rewrite lookup_skip.
Qed.

Lemma lookup_object (A C : heap) (members : list (jsstring * json)) :
  (A ++ cells (JObj members) (length A) ++ C)
  !! (length A + sizes (List.map snd members))
  = Some (CObj (fields_at members (length A))).
Proof.
  rewrite cells_JObj, <- List.app_assoc, lookup_skip.
  rewrite <- (length_cells_list _ (length A)), <- (Nat.add_0_r (length _)).
  now rewrite lookup_skip.
Qed.

Lemma read_object (A C : heap) (members : list (jsstring * json)) (name : jsstring) :
  read (A ++ cells (JObj members) (length A) ++ C)
    (root (JObj members) (length A)) (KName name)
  = get_field (fields_at members (length A)) name.
Proof. rewrite root_JObj. unfold read. now rewrite lookup_object. Qed.

Lemma read_array_name (A C : heap) (elems : list json) (name : jsstring) :
  read (A ++ cells (JArr elems) (length A) ++ C)
    (root (JArr elems) (length A)) (KName name) = None.
Proof. rewrite root_JArr. unfold read. now rewrite lookup_array. Qed.

Lemma roots_lookup (js : list json) (n i : nat) (c : json) :
  js !! i = Some c -> roots js n !! i = Some (root c (n + sizes (take i js))).
Proof.
  revert n i. induction js as [|x rest IH]; intros n i H; [discriminate|].
  destruct i as [|i].
  - injection H as ->. simpl. unfold sizes. simpl. now rewrite Nat.add_0_r.
  - simpl in H. simpl. rewrite (IH _ _ H), sizes_cons. do 2 f_equal. lia.
Qed.

Lemma length_roots (js : list json) (n : nat) : length (roots js n) = length js.
Proof. revert n. induction js as [|x rest IH]; intros n; simpl; [|rewrite IH]; reflexivity. Qed.

Lemma get_field_absent (fields : list (jsstring * val)) (name : jsstring) :
  get_field fields name = None <-> ~ In name (List.map fst fields).
Proof.
  induction fields as [|[k v] rest IH]; simpl; [tauto|].
  destruct (str_eqb k name) eqn:E.
  - apply str_eqb_eq in E. split; [discriminate|]. intros H. destruct H. now left.
  - rewrite IH. split; [|tauto]. intros H [->|Hin]; [|tauto].
    assert (str_eqb name name = true) by now apply str_eqb_eq. congruence.
Qed.

Lemma get_field_fields_at (members : list (jsstring * json)) (n : nat)
    (name : jsstring) (v : val) :
  get_field (fields_at members n) name = Some v ->
  exists pre jv post,
    members = pre ++ (name, jv) :: post /\
    ~ In name (List.map fst pre) /\
    v = root jv (n + sizes (List.map snd pre)).
Proof.
  revert n. induction members as [|[k x] rest IH]; intros n; [discriminate|].
  simpl. destruct (str_eqb k name) eqn:E.
  - apply str_eqb_eq in E. subst k. intros [= <-]. exists [], x, rest.
    repeat split; [tauto|]. unfold sizes. simpl. now rewrite Nat.add_0_r.
  - intros H. destruct (IH _ H) as (pre & jv & post & -> & Hpre & ->).
    exists ((k, x) :: pre), jv, post. repeat split.
    + simpl. intros [->|Hin]; [|tauto].
      assert (str_eqb name name = true) by now apply str_eqb_eq. congruence.
    + simpl. rewrite sizes_cons. f_equal. lia.
Qed.

Lemma get_field_fields_at_lookup (members : list (jsstring * json)) (n i : nat)
    (name : jsstring) (c : json) :
  NoDup (List.map fst members) -> members !! i = Some (name, c) ->
  get_field (fields_at members n) name
  = Some (root c (n + sizes (take i (List.map snd members)))).
Proof.
  revert n i. induction members as [|[k x] rest IH]; intros n i Hnd H; [discriminate|].
  simpl in Hnd. apply NoDup_cons in Hnd as [Hk Hnd]. destruct i as [|i].
  - injection H as -> ->. simpl.
    assert (E : str_eqb name name = true) by now apply str_eqb_eq.
    rewrite E. unfold sizes. simpl. now rewrite Nat.add_0_r.
  - simpl in H. simpl. destruct (str_eqb k name) eqn:E.
    + apply str_eqb_eq in E. subst k. destruct Hk.
      apply list_elem_of_In, List.in_map_iff. exists (name, c). split; [reflexivity|].
      apply list_elem_of_In. eapply list_elem_of_lookup_2, H.
    + rewrite (IH _ _ Hnd H), sizes_cons. do 2 f_equal. lia.
Qed.

Lemma update_member_keys (name : jsstring) (f : json -> json)
    (members : list (jsstring * json)) :
  List.map fst (update_member name f members) = List.map fst members.
Proof. unfold update_member. rewrite List.map_map. reflexivity. Qed.

Lemma update_member_absent (name : jsstring) (f : json -> json)
    (members : list (jsstring * json)) :
  ~ In name (List.map fst members) -> update_member name f members = members.
Proof.
  unfold update_member. induction members as [|[k x] rest IH]; intros H;
    [reflexivity|]. simpl in *. rewrite IH by tauto.
  destruct (str_eqb k name) eqn:E; [|reflexivity].
  apply str_eqb_eq in E. tauto.
Qed.

Lemma update_member_split (name : jsstring) (f : json -> json)
    (pre post : list (jsstring * json)) (jv : json) :
  NoDup (List.map fst (pre ++ (name, jv) :: post)) ->
  update_member name f (pre ++ (name, jv) :: post) = pre ++ (name, f jv) :: post.
Proof.
  intros Hnd. rewrite List.map_app in Hnd. simpl in Hnd.
  apply NoDup_app in Hnd as (_ & Hpre & Hpost).
  apply NoDup_cons in Hpost as [Hpost _].
  assert (E : str_eqb name name = true) by now apply str_eqb_eq.
  unfold update_member. rewrite List.map_app. simpl. rewrite E.
  fold (update_member name f pre). fold (update_member name f post).
  rewrite !update_member_absent; [reflexivity| |].
  - intros H. apply Hpost. now apply list_elem_of_In.
  - intros H. apply list_elem_of_In in H. apply (Hpre _ H). now left.
Qed.

(** A member in its place among the cells of its object. *)
Lemma member_cells (A C : heap) (pre post : list (jsstring * json))
    (name : jsstring) (jv jv' : json) :
  size jv' = size jv ->
  (A ++ cells_list (List.map snd pre) (length A))
  ++ cells jv' (length A + sizes (List.map snd pre))
  ++ (cells_list (List.map snd post) (length A + sizes (List.map snd pre) + size jv)
      ++ CObj (fields_at (pre ++ (name, jv') :: post) (length A)) :: C)
  = A ++ cells (JObj (pre ++ (name, jv') :: post)) (length A) ++ C.
Proof.
  intros Hs. rewrite cells_JObj, List.map_app. simpl List.map.
  rewrite cells_list_app. simpl cells_list. rewrite Hs.
  rewrite <- !List.app_assoc. reflexivity.
Qed.

Lemma fields_at_member (pre post : list (jsstring * json)) (name : jsstring)
    (jv jv' : json) (n : nat) :
  size jv' = size jv -> root jv' (n + sizes (List.map snd pre)) = root jv (n + sizes (List.map snd pre)) ->
  fields_at (pre ++ (name, jv') :: post) n = fields_at (pre ++ (name, jv) :: post) n.
Proof. intros Hs Hr. rewrite !fields_at_app. simpl. now rewrite Hs, Hr. Qed.

Lemma length_prefix (A : heap) (js : list json) :
  length (A ++ cells_list js (length A)) = length A + sizes js.
Proof. now rewrite length_app, length_cells_list. Qed.

(** *** A loop over the children of a tree *)

Section Visit.

Variable rec : heap -> val -> option heap.

Hypothesis rec_cells : forall j A C h2,
  unique_keys j ->
  rec (A ++ cells j (length A) ++ C) (root j (length A)) = Some h2 ->
  h2 = A ++ cells (lowered_schema j) (length A) ++ C.

Lemma visit_children (container : heap -> option val) (a : val) (X W : heap) :
  forall (todo : list json) (ks : list key) (done : list json) (h' : heap),
    List.Forall unique_keys todo ->
    length ks = length todo ->
    (forall Z, length Z = sizes (done ++ todo) ->
       container (X ++ Z ++ W) = Some a /\
       forall i k c, ks !! i = Some k -> todo !! i = Some c ->
         read (X ++ Z ++ W) a k
         = Some (root c (length X + sizes done + sizes (take i todo)))) ->
    visit rec container (X ++ cells_list (done ++ todo) (length X) ++ W) ks
    = Some h' ->
    h' = X ++ cells_list (done ++ List.map lowered_schema todo) (length X) ++ W.
Proof.
  induction todo as [|c rest IH]; intros ks done h' Hu Hlen Hframe Hvisit.
  - destruct ks; [|discriminate]. simpl in Hvisit. now injection Hvisit as <-.
  - destruct ks as [|k ks]; [discriminate|]. injection Hlen as Hlen.
    apply Forall_cons in Hu as [Hc Hu].
    destruct (Hframe (cells_list (done ++ c :: rest) (length X))
                (length_cells_list _ _)) as [Hcont Hread].
    simpl in Hvisit. rewrite Hcont in Hvisit.
    rewrite (Hread 0 k c eq_refl eq_refl) in Hvisit.
    change (sizes (take 0 (c :: rest))) with 0 in Hvisit.
    rewrite Nat.add_0_r in Hvisit.
    destruct (rec _ _) as [h1|] eqn:E1 in Hvisit; [|discriminate].
    assert (L : X ++ cells_list (done ++ c :: rest) (length X) ++ W
                = (X ++ cells_list done (length X))
                  ++ cells c (length (X ++ cells_list done (length X)))
                  ++ (cells_list rest (length X + sizes done + size c) ++ W)).
    { rewrite length_prefix, cells_list_app. simpl cells_list.
      rewrite <- !List.app_assoc. reflexivity. }
    rewrite L in E1. rewrite <- (length_prefix X done) in E1.
    apply rec_cells in E1; [|exact Hc]. rewrite length_prefix in E1.
    assert (L1 : h1 = X ++ cells_list ((done ++ [lowered_schema c]) ++ rest)
                         (length X) ++ W).
    { rewrite E1, !cells_list_app. simpl cells_list.
      rewrite sizes_app, sizes_cons. change (sizes []) with 0.
      rewrite size_lowered, Nat.add_0_r, List.app_nil_r, Nat.add_assoc,
        <- !List.app_assoc. reflexivity. }
    rewrite L1 in Hvisit.
    apply (IH ks (done ++ [lowered_schema c])) in Hvisit; [ | exact Hu | exact Hlen | ].
    + rewrite Hvisit, <- List.app_assoc. reflexivity.
    + intros Z HZ. destruct (Hframe Z) as [Hcont' Hread'].
      { rewrite HZ, !sizes_app, !sizes_cons. change (sizes []) with 0.
        rewrite size_lowered. lia. }
      split; [exact Hcont'|]. intros i k' c' Hk' Hc'.
      rewrite (Hread' (S i) k' c' Hk' Hc'). do 2 f_equal.
      rewrite sizes_app. simpl take. rewrite !sizes_cons. change (sizes []) with 0.
      rewrite size_lowered. lia.
Qed.

End Visit.

Lemma length_cells_before (A : heap) (pre : list (jsstring * json)) :
  length (cells_before A pre) = length A + sizes (List.map snd pre).
Proof. apply length_prefix. Qed.

Lemma member_in_place (A C : heap) (pre post : list (jsstring * json))
    (name : jsstring) (jv : json) :
  A ++ cells (JObj (pre ++ (name, jv) :: post)) (length A) ++ C
  = cells_before A pre ++ cells jv (length (cells_before A pre))
    ++ cells_after A C pre name jv post.
Proof.
  rewrite length_cells_before. unfold cells_before, cells_after.
  now rewrite (member_cells A C pre post name jv jv eq_refl).
Qed.

Lemma member_replaced (A C : heap) (pre post : list (jsstring * json))
    (name : jsstring) (jv jv' : json) :
  size jv' = size jv ->
  root jv' (length A + sizes (List.map snd pre))
  = root jv (length A + sizes (List.map snd pre)) ->
  cells_before A pre ++ cells jv' (length (cells_before A pre))
  ++ cells_after A C pre name jv post
  = A ++ cells (JObj (pre ++ (name, jv') :: post)) (length A) ++ C.
Proof.
  intros Hs Hr. rewrite length_cells_before. unfold cells_before, cells_after.
  rewrite <- (fields_at_member pre post name jv jv' _ Hs Hr).
  now apply member_cells.
Qed.

Lemma lookup_owner (A C : heap) (pre post : list (jsstring * json))
    (name : jsstring) (jv : json) (Z : heap) :
  length Z = size jv ->
  (cells_before A pre ++ Z ++ cells_after A C pre name jv post)
  !! (length A + sizes (List.map snd (pre ++ (name, jv) :: post)))
  = Some (CObj (fields_at (pre ++ (name, jv) :: post) (length A))).
Proof.
  intros HZ. unfold cells_after.
  replace (length A + sizes (List.map snd (pre ++ (name, jv) :: post)))
    with (length (cells_before A pre)
          + (length Z
             + (length (cells_list (List.map snd post)
                          (length A + sizes (List.map snd pre) + size jv)) + 0))).
  - now rewrite !lookup_skip.
  - rewrite length_cells_before, HZ, length_cells_list, List.map_app, sizes_app.
    simpl. rewrite sizes_cons. lia.
Qed.

Lemma read_cell (h : heap) (l : nat) (c : cell) (k : key) :
  h !! l = Some c -> read h (VRef l) k = read [c] (VRef 0) k.
Proof. intros H. unfold read. now rewrite H. Qed.

Lemma keys_of_cell (h : heap) (l : nat) (c : cell) :
  h !! l = Some c -> keys_of h (VRef l) = own_keys c.
Proof. intros H. unfold keys_of. now rewrite H. Qed.

Lemma is_array_cell (h : heap) (l : nat) (c : cell) :
  h !! l = Some c ->
  is_array h (VRef l) = match c with CArr _ => true | CObj _ => false end.
Proof. intros H. unfold is_array. rewrite H. now destruct c. Qed.

Lemma lookup_member_array (X R : heap) (elems : list json) (Z : heap) :
  length Z = sizes elems ->
  (X ++ Z ++ CArr (roots elems (length X)) :: R) !! (length X + sizes elems)
  = Some (CArr (roots elems (length X))).
Proof.
  intros HZ. rewrite <- HZ, <- (Nat.add_0_r (length Z)). now rewrite !lookup_skip.
Qed.

Lemma lookup_member_object (X R : heap) (ps : list (jsstring * json)) (Z : heap) :
  length Z = sizes (List.map snd ps) ->
  (X ++ Z ++ CObj (fields_at ps (length X)) :: R)
  !! (length X + sizes (List.map snd ps))
  = Some (CObj (fields_at ps (length X))).
Proof.
  intros HZ. rewrite <- HZ, <- (Nat.add_0_r (length Z)). now rewrite !lookup_skip.
Qed.

Lemma lookup_map {X Y : Type} (f : X -> Y) (l : list X) (i : nat) :
  List.map f l !! i = f <$> l !! i.
Proof.
  revert i. induction l as [|x l IH]; intros [|i]; simpl; try reflexivity.
  apply IH.
Qed.

Lemma lookup_seq_keys (n i : nat) (k : key) :
  List.map KIndex (seq 0 n) !! i = Some k -> k = KIndex i.
Proof.
  rewrite lookup_map. intros H.
  destruct (seq 0 n !! i) as [x|] eqn:E; [|discriminate].
  apply lookup_seq in E as [-> _]. simpl in H. now injection H as <-.
Qed.

Section Object.

Variable rec : heap -> val -> option heap.

Hypothesis rec_cells : forall j A C h2,
  unique_keys j ->
  rec (A ++ cells j (length A) ++ C) (root j (length A)) = Some h2 ->
  h2 = A ++ cells (lowered_schema j) (length A) ++ C.

Variables A C : heap.

(** The loop over the elements of a member that is an array. *)
Lemma visit_member_array (container : heap -> option val)
    (pre post : list (jsstring * json)) (name : jsstring) (elems : list json)
    (h' : heap) :
  List.Forall unique_keys elems ->
  (forall Z, length Z = size (JArr elems) ->
     container (cells_before A pre ++ Z
                ++ cells_after A C pre name (JArr elems) post)
     = Some (root (JArr elems) (length A + sizes (List.map snd pre)))) ->
  visit rec container
    (A ++ cells (JObj (pre ++ (name, JArr elems) :: post)) (length A) ++ C)
    (List.map KIndex (seq 0 (length elems))) = Some h' ->
  h' = A ++ cells (JObj (pre ++ (name, JArr (List.map lowered_schema elems)) :: post))
              (length A) ++ C.
Proof.
  intros Hu Hcont Hvisit. rewrite member_in_place in Hvisit.
  set (X := cells_before A pre) in *.
  set (R := cells_after A C pre name (JArr elems) post) in *.
  assert (HX : length X = length A + sizes (List.map snd pre))
    by apply length_cells_before.
  rewrite cells_JArr, <- List.app_assoc in Hvisit. simpl in Hvisit.
  apply (visit_children rec rec_cells container
           (root (JArr elems) (length X)) X
           (CArr (roots elems (length X)) :: R) elems _ []) in Hvisit.
  - rewrite Hvisit, List.app_nil_l.
    rewrite <- (member_replaced A C pre post name (JArr elems)
                  (JArr (List.map lowered_schema elems))).
    + fold X. fold R. rewrite cells_JArr, roots_lowered, <- List.app_assoc.
      reflexivity.
    + rewrite !size_JArr. now rewrite sizes_lowered.
    + rewrite !root_JArr. now rewrite sizes_lowered.
  - exact Hu.
  - now rewrite length_map, length_seq.
  - intros Z HZ. rewrite List.app_nil_l in HZ. split.
    + specialize (Hcont (Z ++ [CArr (roots elems (length X))])).
      rewrite <- HX, <- List.app_assoc in Hcont. apply Hcont.
      rewrite length_app, size_JArr, HZ. simpl. lia.
    + intros i k c Hk Hc. apply lookup_seq_keys in Hk. subst k.
      rewrite root_JArr.
      rewrite (read_cell _ _ _ _ (lookup_member_array X R elems Z HZ)).
      simpl. rewrite Nat.add_0_r. now apply roots_lookup.
Qed.

(** The loop over the members of a member that is an object. *)
Lemma visit_member_object (container : heap -> option val)
    (pre post : list (jsstring * json)) (name : jsstring)
    (ps : list (jsstring * json)) (h' : heap) :
  unique_keys (JObj ps) ->
  (forall Z, length Z = size (JObj ps) ->
     container (cells_before A pre ++ Z
                ++ cells_after A C pre name (JObj ps) post)
     = Some (root (JObj ps) (length A + sizes (List.map snd pre)))) ->
  visit rec container
    (A ++ cells (JObj (pre ++ (name, JObj ps) :: post)) (length A) ++ C)
    (List.map (fun f => KName f.1) (fields_at ps (length A + sizes (List.map snd pre))))
  = Some h' ->
  h' = A ++ cells (JObj (pre ++ (name, JObj (List.map (fun p => (p.1, lowered_schema p.2)) ps)) :: post))
              (length A) ++ C.
Proof.
  intros Hu Hcont Hvisit. apply unique_keys_JObj in Hu as [Hnd Hu].
  rewrite member_in_place in Hvisit.
  set (X := cells_before A pre) in *.
  set (R := cells_after A C pre name (JObj ps) post) in *.
  assert (HX : length X = length A + sizes (List.map snd pre))
    by apply length_cells_before.
  rewrite <- HX in Hvisit.
  rewrite cells_JObj, <- List.app_assoc in Hvisit. simpl in Hvisit.
  apply (visit_children rec rec_cells container
           (root (JObj ps) (length X)) X
           (CObj (fields_at ps (length X)) :: R) (List.map snd ps) _ []) in Hvisit.
  - rewrite Hvisit, List.app_nil_l.
    rewrite <- (member_replaced A C pre post name (JObj ps)
                  (JObj (List.map (fun p => (p.1, lowered_schema p.2)) ps))).
    + fold X. fold R. rewrite cells_JObj, fields_at_lowered, <- List.app_assoc.
      rewrite !List.map_map. reflexivity.
    + rewrite !size_JObj. rewrite List.map_map. simpl.
      rewrite <- (List.map_map snd lowered_schema). now rewrite sizes_lowered.
    + rewrite !root_JObj. rewrite List.map_map. simpl.
      rewrite <- (List.map_map snd lowered_schema). now rewrite sizes_lowered.
  - exact Hu.
  - rewrite !length_map. clear. generalize (length X).
    induction ps as [|p ps IH]; intros n; simpl; [reflexivity|]. now rewrite IH.
  - intros Z HZ. rewrite List.app_nil_l in HZ. split.
    + specialize (Hcont (Z ++ [CObj (fields_at ps (length X))])).
      rewrite <- HX, <- List.app_assoc in Hcont. apply Hcont.
      rewrite length_app, size_JObj, HZ. simpl. lia.
    + intros i k c Hk Hc. rewrite root_JObj.
      rewrite (read_cell _ _ _ _ (lookup_member_object X R ps Z HZ)).
      rewrite lookup_map in Hk. rewrite lookup_map in Hc.
      destruct (ps !! i) as [[k0 c0]|] eqn:Ep; [|discriminate].
      simpl in Hc. injection Hc as ->.
      assert (Ek : fields_at ps (length X) !! i
                   = Some (k0, root c (length X + sizes (take i (List.map snd ps))))).
      { clear -Ep. revert i Ep. generalize (length X).
        induction ps as [|p ps IH]; intros n i Ep; [discriminate|].
        destruct i as [|i].
        - injection Ep as ->. simpl. change (sizes []) with 0.
          now rewrite Nat.add_0_r.
        - simpl in Ep. simpl. rewrite (IH _ _ Ep), sizes_cons.
          do 3 f_equal. lia. }
      rewrite Ek in Hk. simpl in Hk. injection Hk as <-.
      simpl. rewrite Nat.add_0_r. now apply get_field_fields_at_lookup.
Qed.

End Object.

Lemma sizes_update_member (name : jsstring) (f : json -> json)
    (members : list (jsstring * json)) :
  (forall v, size (f v) = size v) ->
  sizes (List.map snd (update_member name f members)) = sizes (List.map snd members).
Proof.
  intros Hf. induction members as [|[k v] rest IH]; [reflexivity|].
  simpl. rewrite !sizes_cons, IH. destruct (str_eqb k name); now rewrite ?Hf.
Qed.

Lemma unique_keys_update_member (name : jsstring) (f : json -> json)
    (members : list (jsstring * json)) :
  (forall v, unique_keys v -> unique_keys (f v)) ->
  List.Forall unique_keys (List.map snd members) ->
  List.Forall unique_keys (List.map snd (update_member name f members)).
Proof.
  intros Hf. induction members as [|[k v] rest IH]; intros H; [constructor|].
  simpl in *. apply Forall_cons in H as [H1 H2]. constructor; [|now apply IH].
  destruct (str_eqb k name); auto.
Qed.

Lemma size_lowered_type (v : json) : size (lowered_type v) = size v.
Proof. now destruct v. Qed.

Lemma size_lowered_values_all (v : json) :
  size (lowered_values lowered_schema v) = size v.
Proof.
  apply size_lowered_values, List.Forall_forall. intros c _. apply size_lowered.
Qed.

Lemma size_lowered_elements (v : json) :
  size (lowered_elements lowered_schema v) = size v.
Proof.
  destruct v as [| | | |es|ps]; try reflexivity.
  simpl lowered_elements. rewrite !size_JArr. now rewrite sizes_lowered.
Qed.

Lemma unique_keys_lowered_type (v : json) :
  unique_keys v -> unique_keys (lowered_type v).
Proof. now destruct v. Qed.

Lemma unique_keys_lowered_values_all (v : json) :
  unique_keys v -> unique_keys (lowered_values lowered_schema v).
Proof.
  apply unique_keys_lowered_values, List.Forall_forall. intros c _.
  apply unique_keys_lowered.
Qed.

Lemma unique_keys_lowered_elements (v : json) :
  unique_keys v -> unique_keys (lowered_elements lowered_schema v).
Proof.
  intros Hu. destruct v as [| | | |es|ps]; try exact Hu.
  simpl lowered_elements. apply unique_keys_JArr. apply unique_keys_JArr in Hu.
  apply Forall_unique_keys_map; [|exact Hu]. apply List.Forall_forall.
  intros c _. apply unique_keys_lowered.
Qed.

Lemma set_field_fields_at (pre post : list (jsstring * json)) (name : jsstring)
    (jv jv' : json) (n : nat) :
  ~ In name (List.map fst pre) -> size jv' = size jv ->
  set_field (fields_at (pre ++ (name, jv) :: post) n) name
    (root jv' (n + sizes (List.map snd pre)))
  = fields_at (pre ++ (name, jv') :: post) n.
Proof.
  intros Hpre Hs. revert n. induction pre as [|[k x] pre IH]; intros n.
  - simpl. assert (E : str_eqb name name = true) by now apply str_eqb_eq.
    rewrite E, Hs. change (sizes []) with 0. now rewrite Nat.add_0_r.
  - simpl in Hpre. simpl. destruct (str_eqb k name) eqn:E.
    + apply str_eqb_eq in E. tauto.
    + f_equal. rewrite sizes_cons, Nat.add_assoc. apply IH. tauto.
Qed.

Lemma primitive_root (jv : json) (n : nat) :
  (forall l, root jv n <> VRef l) -> lowered_schema jv = jv /\
  lowered_values lowered_schema jv = jv /\ lowered_elements lowered_schema jv = jv.
Proof.
  intros H. destruct jv as [| | | |es|ps]; try (repeat split; reflexivity).
  - destruct (H _ (root_JArr es n)).
  - destruct (H _ (root_JObj ps n)).
Qed.

Section Phases.

Variable rec : heap -> val -> option heap.

Hypothesis rec_cells : forall j A C h2,
  unique_keys j ->
  rec (A ++ cells j (length A) ++ C) (root j (length A)) = Some h2 ->
  h2 = A ++ cells (lowered_schema j) (length A) ++ C.

Variables A C : heap.

Variable l : nat.

Lemma read_schema (ms : list (jsstring * json)) (key : jsstring) :
  l = length A + sizes (List.map snd ms) ->
  read (A ++ cells (JObj ms) (length A) ++ C) (VRef l) (KName key)
  = get_field (fields_at ms (length A)) key.
Proof. intros ->. rewrite <- root_JObj. apply read_object. Qed.

(** The assignment to [schema.type]. *)
Lemma type_assigned (ms : list (jsstring * json)) :
  l = length A + sizes (List.map snd ms) ->
  NoDup (List.map fst ms) ->
  match read (A ++ cells (JObj ms) (length A) ++ C) (VRef l) (KName TYPE) with
  | Some (VStr s) =>
      write (A ++ cells (JObj ms) (length A) ++ C) l TYPE (VStr (toLowerCase s))
  | _ => A ++ cells (JObj ms) (length A) ++ C
  end
  = A ++ cells (JObj (update_member TYPE lowered_type ms)) (length A) ++ C.
Proof.
  intros Hl Hnd. rewrite (read_schema ms TYPE Hl). subst l.
  destruct (get_field (fields_at ms (length A)) TYPE) as [v|] eqn:Ef.
  - destruct (get_field_fields_at _ _ _ _ Ef) as (pre & jv & post & -> & Hpre & ->).
    rewrite update_member_split by exact Hnd.
    destruct jv as [| | |s|es|ps]; try reflexivity.
    simpl root. simpl lowered_type. unfold write. rewrite lookup_object.
    change (VStr (toLowerCase s))
      with (root (JStr (toLowerCase s)) (length A + sizes (List.map snd pre))).
    rewrite (set_field_fields_at pre post TYPE (JStr s) (JStr (toLowerCase s)))
      by (auto; reflexivity).
    rewrite !cells_JObj, <- !List.app_assoc.
    assert (Ec : forall s', cells_list (List.map snd (pre ++ (TYPE, JStr s') :: post))
                              (length A)
                            = cells_list (List.map snd (pre ++ post)) (length A)).
    { intros s'. rewrite !List.map_app, !cells_list_app.
      cbn [List.map snd cells_list cells size app]. now rewrite Nat.add_0_r. }
    rewrite !Ec.
    replace (length A + sizes (List.map snd (pre ++ (TYPE, JStr s) :: post)))
      with (length A + (length (cells_list (List.map snd (pre ++ post)) (length A)) + 0)).
    + now rewrite !insert_app_r.
    + rewrite length_cells_list, !List.map_app, !sizes_app. simpl.
      rewrite sizes_cons. simpl. lia.
  - rewrite update_member_absent; [reflexivity|]. apply get_field_absent in Ef.
    now rewrite fields_at_keys in Ef.
Qed.

Lemma read_owner (pre post : list (jsstring * json)) (name key : jsstring)
    (jv : json) (Z : heap) :
  l = length A + sizes (List.map snd (pre ++ (name, jv) :: post)) ->
  length Z = size jv ->
  read (cells_before A pre ++ Z ++ cells_after A C pre name jv post) (VRef l)
    (KName key)
  = get_field (fields_at (pre ++ (name, jv) :: post) (length A)) key.
Proof.
  intros -> HZ. unfold read. now rewrite lookup_owner.
Qed.

(** The loop over [schema.properties]. *)
Lemma properties_visited (ms : list (jsstring * json)) (h' : heap) :
  l = length A + sizes (List.map snd ms) ->
  NoDup (List.map fst ms) ->
  List.Forall unique_keys (List.map snd ms) ->
  match read (A ++ cells (JObj ms) (length A) ++ C) (VRef l) (KName PROPERTIES) with
  | Some p =>
      if truthy_val p
      then visit rec (fun h' => read h' (VRef l) (KName PROPERTIES))
             (A ++ cells (JObj ms) (length A) ++ C)
             (keys_of (A ++ cells (JObj ms) (length A) ++ C) p)
      else Some (A ++ cells (JObj ms) (length A) ++ C)
  | None => Some (A ++ cells (JObj ms) (length A) ++ C)
  end = Some h' ->
  h' = A ++ cells (JObj (update_member PROPERTIES (lowered_values lowered_schema) ms))
              (length A) ++ C.
Proof.
  intros Hl Hnd Hu. rewrite (read_schema ms PROPERTIES Hl).
  destruct (get_field (fields_at ms (length A)) PROPERTIES) as [p|] eqn:Ef.
  - destruct (get_field_fields_at _ _ _ _ Ef) as (pre & jv & post & -> & Hpre & ->).
    rewrite update_member_split by exact Hnd.
    assert (Hjv : unique_keys jv).
    { rewrite List.map_app in Hu. apply Forall_app in Hu as [_ Hu].
      now apply Forall_cons in Hu as [Hu _]. }
    assert (Hcont : forall Z, length Z = size jv ->
              read (cells_before A pre ++ Z
                    ++ cells_after A C pre PROPERTIES jv post)
                (VRef l) (KName PROPERTIES)
              = Some (root jv (length A + sizes (List.map snd pre)))).
    { intros Z HZ. rewrite (read_owner pre post PROPERTIES PROPERTIES jv Z Hl HZ).
      exact Ef. }
    destruct jv as [|b|lit|s|es|ps].
    1-4: (cbn [root keys_of visit lowered_values]; destruct (truthy_val _);
          now intros [= <-]).
    + rewrite root_JArr. simpl truthy_val. cbv iota.
      rewrite (keys_of_cell _ _ (CArr (roots es (length A + sizes (List.map snd pre))))).
      * simpl own_keys. rewrite length_roots. intros Hvisit.
        apply (visit_member_array rec rec_cells A C _ pre post PROPERTIES es h')
          in Hvisit; [exact Hvisit | now apply unique_keys_JArr | exact Hcont].
      * rewrite member_in_place, <- length_cells_before. apply lookup_array.
    + rewrite root_JObj. simpl truthy_val. cbv iota.
      rewrite (keys_of_cell _ _ (CObj (fields_at ps (length A + sizes (List.map snd pre))))).
      * simpl own_keys. intros Hvisit.
        apply (visit_member_object rec rec_cells A C _ pre post PROPERTIES ps h')
          in Hvisit; [exact Hvisit | exact Hjv | exact Hcont].
      * rewrite member_in_place, <- length_cells_before. apply lookup_object.
  - intros [= <-]. rewrite update_member_absent; [reflexivity|].
    apply get_field_absent in Ef. now rewrite fields_at_keys in Ef.
Qed.

(** The call on [schema.items]. *)
Lemma items_visited (ms : list (jsstring * json)) (h' : heap) :
  l = length A + sizes (List.map snd ms) ->
  NoDup (List.map fst ms) ->
  List.Forall unique_keys (List.map snd ms) ->
  match read (A ++ cells (JObj ms) (length A) ++ C) (VRef l) (KName ITEMS) with
  | Some i =>
      if truthy_val i then rec (A ++ cells (JObj ms) (length A) ++ C) i
      else Some (A ++ cells (JObj ms) (length A) ++ C)
  | None => Some (A ++ cells (JObj ms) (length A) ++ C)
  end = Some h' ->
  h' = A ++ cells (JObj (update_member ITEMS lowered_schema ms)) (length A) ++ C.
Proof.
  intros Hl Hnd Hu. rewrite (read_schema ms ITEMS Hl).
  destruct (get_field (fields_at ms (length A)) ITEMS) as [p|] eqn:Ef.
  - destruct (get_field_fields_at _ _ _ _ Ef) as (pre & jv & post & -> & Hpre & ->).
    rewrite update_member_split by exact Hnd.
    assert (Hjv : unique_keys jv).
    { rewrite List.map_app in Hu. apply Forall_app in Hu as [_ Hu].
      now apply Forall_cons in Hu as [Hu _]. }
    destruct (truthy_val (root jv _)) eqn:Et.
    + rewrite member_in_place, <- length_cells_before. intros Hrec.
      apply rec_cells in Hrec; [|exact Hjv]. rewrite Hrec.
      apply member_replaced; [apply size_lowered | apply root_lowered].
    + intros [= <-].
      destruct (primitive_root jv (length A + sizes (List.map snd pre))) as [-> _];
        [|reflexivity].
      intros l0 E. rewrite E in Et. discriminate.
  - intros [= <-]. rewrite update_member_absent; [reflexivity|].
    apply get_field_absent in Ef. now rewrite fields_at_keys in Ef.
Qed.

(** The loop over a combinator. *)
Lemma combinator_visited (name : jsstring) (ms : list (jsstring * json)) (h' : heap) :
  l = length A + sizes (List.map snd ms) ->
  NoDup (List.map fst ms) ->
  List.Forall unique_keys (List.map snd ms) ->
  forEach_schema rec (A ++ cells (JObj ms) (length A) ++ C) (VRef l) name = Some h' ->
  h' = A ++ cells (JObj (update_member name (lowered_elements lowered_schema) ms))
              (length A) ++ C.
Proof.
  intros Hl Hnd Hu. unfold forEach_schema. rewrite (read_schema ms name Hl).
  destruct (get_field (fields_at ms (length A)) name) as [p|] eqn:Ef.
  - destruct (get_field_fields_at _ _ _ _ Ef) as (pre & jv & post & -> & Hpre & ->).
    rewrite update_member_split by exact Hnd.
    assert (Hjv : unique_keys jv).
    { rewrite List.map_app in Hu. apply Forall_app in Hu as [_ Hu].
      now apply Forall_cons in Hu as [Hu _]. }
    destruct jv as [|b|lit|s|es|ps]; try (simpl; now intros [= <-]).
    + rewrite root_JArr.
      rewrite (is_array_cell _ _ (CArr (roots es (length A + sizes (List.map snd pre)))));
        [|rewrite member_in_place, <- length_cells_before; apply lookup_array].
      rewrite (keys_of_cell _ _ (CArr (roots es (length A + sizes (List.map snd pre)))));
        [|rewrite member_in_place, <- length_cells_before; apply lookup_array].
      simpl own_keys. rewrite length_roots. intros Hvisit.
      apply (visit_member_array rec rec_cells A C _ pre post name es h')
        in Hvisit; [exact Hvisit | now apply unique_keys_JArr | ].
      intros Z HZ. now rewrite root_JArr.
    + rewrite root_JObj.
      rewrite (is_array_cell _ _ (CObj (fields_at ps (length A + sizes (List.map snd pre)))));
        [|rewrite member_in_place, <- length_cells_before; apply lookup_object].
      now intros [= <-].
  - intros [= <-]. rewrite update_member_absent; [reflexivity|].
    apply get_field_absent in Ef. now rewrite fields_at_keys in Ef.
Qed.

End Phases.

Lemma distinct_keys (k a b : jsstring) :
  str_eqb k a = true -> str_eqb k b = true -> a <> b -> False.
Proof. intros Ha Hb Hab. apply str_eqb_eq in Ha, Hb. congruence. Qed.

Lemma members_lowered (ms : list (jsstring * json)) :
  update_member ONE_OF (lowered_elements lowered_schema)
    (update_member ALL_OF (lowered_elements lowered_schema)
       (update_member ANY_OF (lowered_elements lowered_schema)
          (update_member ITEMS lowered_schema
             (update_member PROPERTIES (lowered_values lowered_schema)
                (update_member TYPE lowered_type ms)))))
  = List.map (fun m => (m.1, lowered_member lowered_schema m.1 m.2)) ms.
Proof.
  unfold update_member. rewrite !List.map_map. apply List.map_ext.
  intros [k v]. cbn [fst snd]. f_equal. unfold lowered_member, is_combinator.
  destruct (str_eqb k TYPE) eqn:E1; destruct (str_eqb k PROPERTIES) eqn:E2;
    destruct (str_eqb k ITEMS) eqn:E3; destruct (str_eqb k ANY_OF) eqn:E4;
    destruct (str_eqb k ALL_OF) eqn:E5; destruct (str_eqb k ONE_OF) eqn:E6;
    try reflexivity; exfalso;
    repeat match goal with
           | Ha : str_eqb k ?a = true, Hb : str_eqb k ?b = true |- _ =>
               apply (distinct_keys k a b Ha Hb); vm_compute; discriminate
           end.
Qed.

(** The heap [convertSchemaTypeToLowerCase] leaves on the cells of a tree:
    the cells of the lowered tree. *)
Lemma convertSchemaTypeToLowerCase_cells (fuel : nat) :
  forall j A C h2,
    unique_keys j ->
    convertSchemaTypeToLowerCase fuel (A ++ cells j (length A) ++ C)
      (root j (length A)) = Some h2 ->
    h2 = A ++ cells (lowered_schema j) (length A) ++ C.
Proof.
  induction fuel as [|fuel IH]; intros j A C h2 Hu Hconv; [discriminate|].
  destruct j as [|b|lit|s|es|ms]; try (simpl in Hconv; now injection Hconv as <-).
  - rewrite root_JArr in Hconv. cbn [convertSchemaTypeToLowerCase] in Hconv.
    unfold forEach_schema in Hconv. rewrite <- !root_JArr in Hconv.
    rewrite !read_array_name in Hconv. now injection Hconv as <-.
  - apply unique_keys_JObj in Hu as [Hnd Hu].
    rewrite root_JObj in Hconv. cbn [convertSchemaTypeToLowerCase] in Hconv.
    set (l := length A + sizes (List.map snd ms)) in *.
    rewrite (type_assigned A C l ms eq_refl Hnd) in Hconv.
    set (ms1 := update_member TYPE lowered_type ms) in *.
    assert (L1 : l = length A + sizes (List.map snd ms1))
      by (unfold ms1; now rewrite sizes_update_member by apply size_lowered_type).
    assert (N1 : NoDup (List.map fst ms1))
      by (unfold ms1; now rewrite update_member_keys).
    assert (U1 : List.Forall unique_keys (List.map snd ms1))
      by (apply unique_keys_update_member;
          [apply unique_keys_lowered_type | exact Hu]).
    match type of Hconv with
    | match ?e with _ => _ end = _ => destruct e as [h2'|] eqn:E2; [|discriminate]
    end.
    apply (properties_visited _ IH A C l ms1 h2' L1 N1 U1) in E2. subst h2'.
    set (ms2 := update_member PROPERTIES (lowered_values lowered_schema) ms1) in *.
    assert (L2 : l = length A + sizes (List.map snd ms2))
      by (unfold ms2; now rewrite sizes_update_member
            by apply size_lowered_values_all).
    assert (N2 : NoDup (List.map fst ms2))
      by (unfold ms2; now rewrite update_member_keys).
    assert (U2 : List.Forall unique_keys (List.map snd ms2))
      by (apply unique_keys_update_member;
          [apply unique_keys_lowered_values_all | exact U1]).
    match type of Hconv with
    | match ?e with _ => _ end = _ => destruct e as [h3|] eqn:E3; [|discriminate]
    end.
    apply (items_visited _ IH A C l ms2 h3 L2 N2 U2) in E3. subst h3.
    set (ms3 := update_member ITEMS lowered_schema ms2) in *.
    assert (L3 : l = length A + sizes (List.map snd ms3))
      by (unfold ms3; now rewrite sizes_update_member by apply size_lowered).
    assert (N3 : NoDup (List.map fst ms3))
      by (unfold ms3; now rewrite update_member_keys).
    assert (U3 : List.Forall unique_keys (List.map snd ms3))
      by (apply unique_keys_update_member;
          [apply unique_keys_lowered | exact U2]).
    destruct (forEach_schema _ _ (VRef l) ANY_OF) as [h4|] eqn:E4; [|discriminate].
    apply (combinator_visited _ IH A C l ANY_OF ms3 h4 L3 N3 U3) in E4. subst h4.
    set (ms4 := update_member ANY_OF (lowered_elements lowered_schema) ms3) in *.
    assert (L4 : l = length A + sizes (List.map snd ms4))
      by (unfold ms4; now rewrite sizes_update_member
            by apply size_lowered_elements).
    assert (N4 : NoDup (List.map fst ms4))
      by (unfold ms4; now rewrite update_member_keys).
    assert (U4 : List.Forall unique_keys (List.map snd ms4))
      by (apply unique_keys_update_member;
          [apply unique_keys_lowered_elements | exact U3]).
    destruct (forEach_schema _ _ (VRef l) ALL_OF) as [h5|] eqn:E5; [|discriminate].
    apply (combinator_visited _ IH A C l ALL_OF ms4 h5 L4 N4 U4) in E5. subst h5.
    set (ms5 := update_member ALL_OF (lowered_elements lowered_schema) ms4) in *.
    assert (L5 : l = length A + sizes (List.map snd ms5))
      by (unfold ms5; now rewrite sizes_update_member
            by apply size_lowered_elements).
    assert (N5 : NoDup (List.map fst ms5))
      by (unfold ms5; now rewrite update_member_keys).
    assert (U5 : List.Forall unique_keys (List.map snd ms5))
      by (apply unique_keys_update_member;
          [apply unique_keys_lowered_elements | exact U4]).
    apply (combinator_visited _ IH A C l ONE_OF ms5 h2 L5 N5 U5) in Hconv.
    rewrite Hconv, lowered_schema_JObj, <- members_lowered. reflexivity.
Qed.

(** *** What [JSON.stringify] prints for the cells of a tree *)

Lemma size_le_sizes (c : json) (js : list json) : In c js -> size c <= sizes js.
Proof.
  induction js as [|x rest IH]; [contradiction|]. rewrite sizes_cons.
  intros [->|H]; [lia|]. specialize (IH H). lia.
Qed.

Lemma reify_cells (fuel : nat) :
  forall j A C, size j < fuel ->
    reify fuel (A ++ cells j (length A) ++ C) (root j (length A)) = Some j.
Proof.
  induction fuel as [|fuel IH]; intros j A C Hf; [lia|].
  destruct j as [|b|lit|s|es|ms]; try reflexivity.
  - rewrite root_JArr. cbn [reify]. rewrite lookup_array.
    rewrite size_JArr in Hf.
    assert (E : forall todo done W,
               sizes todo < fuel ->
               mapO (reify fuel (A ++ cells_list (done ++ todo) (length A) ++ W))
                 (roots todo (length A + sizes done)) = Some todo).
    { induction todo as [|c rest IHrest]; intros done W Hs; [reflexivity|].
      rewrite sizes_cons in Hs. cbn [roots mapO].
      assert (L : A ++ cells_list (done ++ c :: rest) (length A) ++ W
                  = (A ++ cells_list done (length A))
                    ++ cells c (length (A ++ cells_list done (length A)))
                    ++ (cells_list rest (length A + sizes done + size c) ++ W)).
      { rewrite length_prefix, cells_list_app. simpl cells_list.
        rewrite <- !List.app_assoc. reflexivity. }
      rewrite L at 1. rewrite <- (length_prefix A done).
      rewrite IH by lia.
      replace (done ++ c :: rest) with ((done ++ [c]) ++ rest)
        by now rewrite <- List.app_assoc.
      replace (length (A ++ cells_list done (length A)) + size c)
        with (length A + sizes (done ++ [c])).
      - rewrite IHrest by lia. reflexivity.
      - rewrite length_prefix, sizes_app, sizes_cons. change (sizes []) with 0. lia. }
    specialize (E es [] ([CArr (roots es (length A))] ++ C) ltac:(lia)).
    change (sizes []) with 0 in E. rewrite Nat.add_0_r, List.app_nil_l in E.
    rewrite cells_JArr, <- List.app_assoc. rewrite E. reflexivity.
  - rewrite root_JObj. cbn [reify]. rewrite lookup_object.
    rewrite size_JObj in Hf.
    assert (E : forall todo done W,
               sizes (List.map snd todo) < fuel ->
               mapO (fun f => pair f.1
                              <$> reify fuel
                                    (A ++ cells_list (List.map snd (done ++ todo))
                                            (length A) ++ W) f.2)
                 (fields_at todo (length A + sizes (List.map snd done)))
               = Some todo).
    { induction todo as [|[k c] rest IHrest]; intros done W Hs; [reflexivity|].
      cbn [List.map snd] in Hs. rewrite sizes_cons in Hs.
      cbn [fields_at mapO fst snd].
      assert (L : A ++ cells_list (List.map snd (done ++ (k, c) :: rest))
                         (length A) ++ W
                  = (A ++ cells_list (List.map snd done) (length A))
                    ++ cells c (length (A ++ cells_list (List.map snd done)
                                                 (length A)))
                    ++ (cells_list (List.map snd rest)
                          (length A + sizes (List.map snd done) + size c) ++ W)).
      { rewrite length_prefix, List.map_app, cells_list_app. simpl.
        rewrite <- !List.app_assoc. reflexivity. }
      rewrite L at 1. rewrite <- (length_prefix A (List.map snd done)).
      rewrite IH by lia. cbn [fmap option_fmap option_map].
      replace (done ++ (k, c) :: rest) with ((done ++ [(k, c)]) ++ rest)
        by now rewrite <- List.app_assoc.
      replace (length (A ++ cells_list (List.map snd done) (length A)) + size c)
        with (length A + sizes (List.map snd (done ++ [(k, c)]))).
      - rewrite IHrest by lia. reflexivity.
      - rewrite length_prefix, List.map_app, sizes_app. simpl.
        rewrite sizes_cons. change (sizes []) with 0. lia. }
    specialize (E ms [] ([CObj (fields_at ms (length A))] ++ C) ltac:(lia)).
    rewrite List.app_nil_l in E. change (sizes (List.map snd [])) with 0 in E.
    rewrite Nat.add_0_r in E.
    rewrite cells_JObj, <- List.app_assoc. rewrite E. reflexivity.
Qed.

Lemma mapO_Forall2 {X Y : Type} (f : X -> option Y) (xs : list X) (ys : list Y) :
  mapO f xs = Some ys -> Forall2 (fun x y => f x = Some y) xs ys.
Proof.
  revert ys. induction xs as [|x rest IH]; intros ys H.
  - injection H as <-. constructor.
  - simpl in H. destruct (f x) as [y|] eqn:Ex; [|discriminate].
    destruct (mapO f rest) as [ys'|]; [|discriminate]. injection H as <-.
    constructor; auto.
Qed.

Lemma reified_keys (rec : val -> option json) (fields : list (jsstring * val))
    (ms : list (jsstring * json)) :
  Forall2 (fun f m => pair f.1 <$> rec f.2 = Some m) fields ms ->
  List.map fst ms = List.map fst fields.
Proof.
  induction 1 as [|f m ? ? Hm _ IH]; [reflexivity|].
  destruct (rec f.2); [|discriminate]. injection Hm as <-. simpl. now rewrite IH.
Qed.

Lemma reify_unique_keys (h : heap) (fuel : nat) :
  well_keyed h -> forall v j, reify fuel h v = Some j -> unique_keys j.
Proof.
  intros Hk. induction fuel as [|fuel IH]; intros v j H; [discriminate|].
  cbn [reify] in H. destruct v as [|b|n|s|l];
    try (injection H as <-; exact I).
  destruct (h !! l) as [[fields|elems]|] eqn:Hc; [| |discriminate].
  - destruct (mapO _ fields) as [ms|] eqn:E; [|discriminate].
    injection H as <-. apply mapO_Forall2 in E. apply unique_keys_JObj.
    split; [rewrite (reified_keys _ _ _ E); exact (Hk _ _ Hc)|].
    clear Hc. induction E as [|f m ? ? Hm _ IHE]; [constructor|].
    destruct (reify fuel h f.2) as [x|] eqn:Ex; [|discriminate].
    injection Hm as <-. simpl. constructor; [now apply (IH f.2) | exact IHE].
  - destruct (mapO _ elems) as [js|] eqn:E; [|discriminate].
    injection H as <-. apply mapO_Forall2 in E. apply unique_keys_JArr.
    clear Hc. induction E as [|x y ? ? Hx _ IHE]; constructor;
      [now apply (IH x) | exact IHE].
Qed.

Lemma reify_deterministic (h : heap) (f1 f2 : nat) (v : val) (j1 j2 : json) :
  reify f1 h v = Some j1 -> reify f2 h v = Some j2 -> j1 = j2.
Proof.
  intros H1 H2.
  apply (reify_mono f1 (Nat.max f1 f2)) in H1; [|lia].
  apply (reify_mono f2 (Nat.max f1 f2)) in H2; [|lia]. congruence.
Qed.

(** *** A tool and its declaration *)

Lemma convertDeclaration_parameters (fuel : nat) (h : heap) (declaration : val)
    (h2 : heap) (tool : OpenAILikeTool) :
  convertDeclaration fuel h declaration = Some (h2, tool) ->
  exists j,
    match read h declaration (KName (str "parameters")) with
    | Some p => if truthy_val p then reify fuel h p = Some j else j = JObj []
    | None => j = JObj []
    end /\
    tool_name tool
    = or_else (read h2 declaration (KName (str "name")))
        (VStr (str "unknown_function")) /\
    tool_description tool
    = or_else (read h2 declaration (KName (str "description"))) (VStr []) /\
    tool_parameters tool = (alloc j h).2 /\
    convertSchemaTypeToLowerCase fuel (alloc j h).1 (alloc j h).2 = Some h2.
Proof.
  unfold convertDeclaration. intros H.
  assert (Hbody :
    match
      match read h declaration (KName (str "parameters")) with
      | Some p => if truthy_val p then deepCopy fuel h p
                  else Some (alloc (JObj []) h)
      | None => Some (alloc (JObj []) h)
      end
    with
    | None => None
    | Some (h1, parameters) =>
        match convertSchemaTypeToLowerCase fuel h1 parameters with
        | None => None
        | Some h2 =>
            Some (h2,
                  {| tool_name :=
                       or_else (read h2 declaration (KName (str "name")))
                         (VStr (str "unknown_function"));
                     tool_description :=
                       or_else (read h2 declaration (KName (str "description")))
                         (VStr []);
                     tool_parameters := parameters |})
        end
    end = Some (h2, tool)).
  { destruct declaration; try discriminate; exact H. }
  clear H. unfold deepCopy in Hbody.
  assert (Hj : exists j,
             match read h declaration (KName (str "parameters")) with
             | Some p => if truthy_val p then reify fuel h p = Some j
                         else j = JObj []
             | None => j = JObj []
             end /\
             match read h declaration (KName (str "parameters")) with
             | Some p => if truthy_val p
                         then match reify fuel h p with
                              | Some j => Some (alloc j h)
                              | None => None
                              end
                         else Some (alloc (JObj []) h)
             | None => Some (alloc (JObj []) h)
             end = Some (alloc j h)).
  { destruct (read h declaration _) as [p|]; [destruct (truthy_val p)|].
    - destruct (reify fuel h p) as [j|]; [|discriminate]. now exists j.
    - now exists (JObj []).
    - now exists (JObj []). }
  destruct Hj as [j [Hj E]]. rewrite E in Hbody. exists j. split; [exact Hj|].
  destruct (alloc j h) as [h1 parameters]. cbn [fst snd].
  destruct (convertSchemaTypeToLowerCase fuel h1 parameters) as [h2'|];
    [|discriminate].
  injection Hbody as <- <-. repeat split.
Qed.

Lemma convertDeclaration_tool (fuel : nat) (h0 h : heap) (declaration : val)
    (h2 : heap) (tool : OpenAILikeTool) :
  well_keyed h0 -> unchanged h0 h -> serializable h0 declaration ->
  convertDeclaration fuel h declaration = Some (h2, tool) ->
  tool_of h0 h2 declaration tool.
Proof.
  intros Hk Hun Hser Hconv.
  destruct (convertDeclaration_sound _ _ _ _ _ Hconv) as [Hun2 _].
  destruct (convertDeclaration_parameters _ _ _ _ _ Hconv)
    as (j & Hj & Hname & Hdesc & Hpar & Hrun).
  destruct Hser as [[l [fields [-> Hl]]] Hp].
  assert (Hlt : l < length h0) by (eapply lookup_lt_Some; exact Hl).
  assert (Hread : forall name, read h2 (VRef l) (KName name)
                               = read h0 (VRef l) (KName name)).
  { intros name. apply read_unchanged; [|exact Hlt].
    eapply unchanged_trans; eassumption. }
  assert (Hread1 : forall name, read h (VRef l) (KName name)
                                = read h0 (VRef l) (KName name)).
  { intros name. now apply read_unchanged. }
  assert (Htree : parameters_tree h0 (VRef l) j /\ unique_keys j).
  { unfold parameters_tree. rewrite Hread1 in Hj.
    destruct (read h0 (VRef l) (KName (str "parameters"))) as [p|] eqn:Er.
    - destruct (truthy_val p) eqn:Et.
      + destruct (Hp p eq_refl Et) as [f0 [j0 Hj0]].
        assert (j0 = j).
        { eapply reify_deterministic; [|exact Hj].
          eapply reify_unchanged; eassumption. }
        subst j0. split; [now exists f0|].
        eapply reify_unique_keys; eassumption.
      + subst j. split; [reflexivity|]. apply unique_keys_JObj. split; constructor.
    - subst j. split; [reflexivity|]. apply unique_keys_JObj. split; constructor. }
  destruct Htree as [Htree Hu].
  split; [now rewrite Hname, Hread|]. split; [now rewrite Hdesc, Hread|].
  exists j. split; [exact Htree|].
  rewrite alloc_cells in Hrun, Hpar. cbn [fst snd] in Hrun, Hpar.
  rewrite <- (List.app_nil_r (cells j (length h))) in Hrun.
  apply convertSchemaTypeToLowerCase_cells in Hrun; [|exact Hu].
  exists (S (size j)). intros fuel' Hf.
  rewrite Hpar, Hrun, <- (root_lowered j). apply reify_cells.
  rewrite size_lowered. lia.
Qed.

Lemma tool_of_unchanged (h0 h h' : heap) (declaration : val) (t : OpenAILikeTool) :
  unchanged h h' -> tool_of h0 h declaration t -> tool_of h0 h' declaration t.
Proof.
  intros Hun (Hn & Hd & j & Hj & n & Hr). repeat split; try assumption.
  exists j. split; [exact Hj|]. exists n. intros fuel Hf.
  eapply reify_unchanged; [exact Hun | now apply Hr].
Qed.

Lemma convertDeclarations_tools (fuel : nat) (h0 : heap) (declarations : list val) :
  well_keyed h0 -> List.Forall (serializable h0) declarations ->
  forall h h' tools,
    unchanged h0 h ->
    convertDeclarations fuel h declarations = Some (h', tools) ->
    Forall2 (tool_of h0 h') declarations tools.
Proof.
  intros Hk Hall. induction Hall as [|d rest Hd _ IH]; intros h h' tools Hun H.
  - injection H as <- <-. constructor.
  - simpl in H.
    destruct (convertDeclaration fuel h d) as [[h1 tool]|] eqn:E1; [|discriminate].
    destruct (convertDeclarations fuel h1 rest) as [[h2 tools']|] eqn:E2;
      [|discriminate].
    injection H as <- <-.
    destruct (convertDeclaration_sound _ _ _ _ _ E1) as [U1 _].
    destruct (convertDeclarations_sound _ _ _ _ _ E2) as [U2 _].
    constructor.
    + eapply tool_of_unchanged; [exact U2|].
      eapply convertDeclaration_tool; eassumption.
    + eapply IH; [|exact E2]. eapply unchanged_trans; eassumption.
Qed.

(** *** The tools [convertToOpenAITools] returns *)

(** C3. [convertToOpenAITools] on a list of declarations: whenever the run
    ends, every cell of the caller's heap is as it was before (the
    declarations and their schemas are not mutated), there is one tool per
    declaration, and in the heap the run leaves every schema nested in a
    tool's [parameters] (the top level, each value of [properties], [items],
    each element of [anyOf], [allOf], [oneOf], recursively) has a [type]
    string that [toLowerCase] returned.  When moreover every declaration is
    an object whose [parameters] [JSON.stringify] can print, and objects have
    each of their keys once, each tool is the tool of its declaration: its
    name and its description are the declaration's or the defaults, and its
    [parameters] print as the tree of the declaration's [parameters] (of
    [{}] when they are falsy) with the [type] strings at these places
    replaced by their lowercase.  For such declarations the run does end,
    with a result that no longer depends on the bound on nested calls. *)
Theorem convertToOpenAITools_lowercase_without_mutation
    (h : heap) (declarations : list val) :
  (forall fuel h' tools,
     convertToOpenAITools fuel h (Some declarations) = Some (h', tools) ->
     unchanged h h' /\ length tools = length declarations /\
     List.Forall
       (fun t => forall w, schema_position h' (tool_parameters t) w ->
                           type_is_lowercase h' w) tools /\
     (List.Forall (serializable h) declarations -> well_keyed h ->
      Forall2 (tool_of h h') declarations tools)) /\
  (List.Forall (serializable h) declarations ->
   exists n h' tools, forall fuel, n <= fuel ->
     convertToOpenAITools fuel h (Some declarations) = Some (h', tools)).
Proof.
  split.
  - intros fuel h' tools H.
    destruct (convertDeclarations_sound fuel _ h h' tools H) as (Hun & Hlen & Hlow).
    repeat (split; [assumption|]). intros Hall Hk.
    exact (convertDeclarations_tools fuel h declarations Hk Hall h h' tools
             (unchanged_refl h) H).
  - intros Hall. exact (convertDeclarations_terminates declarations h Hall).
Qed.

End WithToLowerCase.

#[local] Existing Instance toLowerCase_latin1.

Lemma sample_declarations_serializable :
  List.Forall (serializable sample_heap) sample_declarations.
Proof.
  constructor; [|constructor]. split.
  - eexists 9, _. split; reflexivity.
  - intros p Hr _. vm_compute in Hr. injection Hr as <-.
    exists 20. eexists. vm_compute. reflexivity.
Qed.

Lemma sample_heap_well_keyed : well_keyed sample_heap.
Proof.
  intros l fields Hl.
  do 10 (destruct l as [|l];
         [try discriminate; injection Hl as <-;
          apply (bool_decide_unpack _); vm_compute; exact I|]).
  discriminate.
Qed.

Lemma convertToOpenAITools_lowercase_without_mutation_witness :
  List.Forall (serializable sample_heap) sample_declarations /\
  well_keyed sample_heap /\
  exists n h' tools,
    (forall fuel, n <= fuel ->
       convertToOpenAITools fuel sample_heap (Some sample_declarations)
       = Some (h', tools)) /\
    unchanged sample_heap h' /\ length tools = length sample_declarations /\
    List.Forall
      (fun t => forall w, schema_position h' (tool_parameters t) w ->
                          type_is_lowercase h' w) tools /\
    Forall2 (tool_of sample_heap h') sample_declarations tools /\
    exists t m,
      tools = [t] /\ tool_name t = VStr (str "read_file") /\
      tool_description t = VStr (str "Reads a file") /\
      forall fuel, m <= fuel ->
        reify fuel h' (tool_parameters t) = Some sample_parameters_lowered.
Proof.
  split; [exact sample_declarations_serializable|].
  split; [exact sample_heap_well_keyed|].
  destruct (convertToOpenAITools_lowercase_without_mutation
              sample_heap sample_declarations) as [Hsound Hends].
  destruct (Hends sample_declarations_serializable) as [n [h' [tools Hrun]]].
  exists n, h', tools. split; [exact Hrun|].
  destruct (Hsound n h' tools (Hrun n (le_n n))) as (Hun & Hlen & Hlow & Htools).
  specialize (Htools sample_declarations_serializable sample_heap_well_keyed).
  repeat (split; [assumption|]).
  inversion Htools as [|d t ds ts Ht Hrest]; subst.
  inversion Hrest; subst.
  destruct Ht as (Hname & Hdesc & j & Hj & m & Hm).
  exists t, m. repeat split; [exact Hname | exact Hdesc |].
  intros fuel Hf. rewrite (Hm fuel Hf). f_equal.
  destruct Hj as [f0 Hj].
  assert (Ej : reify 10 sample_heap (VRef 8) = Some sample_parameters)
    by (vm_compute; reflexivity).
  rewrite (reify_deterministic _ _ _ _ _ _ Hj Ej). vm_compute. reflexivity.
Defined.

End ToolsFacts.

(** ** [JSON.parse] after [JSON.stringify] *)

Module JsonTextFacts.

Import JS Json JSFacts JsonFacts Azure AzureResponse JsonText.

Lemma hex_value_hex_digit (n : N) : n < 16 -> hex_value (hex_digit n) = Some n.
Proof.
  intros Hn. unfold hex_value, hex_digit, is_digit.
  destruct (N.ltb_spec n 10) as [Hlt|Hge].
  - destruct (N.leb_spec 48 (48 + n)); [|lia].
    destruct (N.leb_spec (48 + n) 57); [|lia]. cbn [andb]. f_equal. lia.
  - destruct (N.leb_spec (87 + n) 57); [lia|]. rewrite andb_false_r.
    destruct (N.leb_spec 97 (87 + n)); [|lia].
    destruct (N.leb_spec (87 + n) 102); [|lia]. cbn [andb]. f_equal. lia.
Qed.

Lemma hex4_unicode_escape (c : N) :
  c < 65536 ->
  hex4 (hex_digit (c / 4096)) (hex_digit ((c / 256) mod 16))
    (hex_digit ((c / 16) mod 16)) (hex_digit (c mod 16)) = Some c.
Proof.
  intros Hc. unfold hex4.
  rewrite !hex_value_hex_digit; try (apply N.mod_upper_bound; discriminate).
  - f_equal.
    pose proof (N.div_mod c 16 ltac:(discriminate)) as E1.
    pose proof (N.div_mod (c / 16) 16 ltac:(discriminate)) as E2.
    pose proof (N.div_mod (c / 256) 16 ltac:(discriminate)) as E3.
    rewrite N.Div0.div_div in E2. change (16 * 16) with 256 in E2.
    rewrite N.Div0.div_div in E3. change (256 * 16) with 4096 in E3.
    generalize dependent (c mod 16). generalize dependent ((c / 16) mod 16).
    generalize dependent ((c / 256) mod 16). generalize dependent (c / 4096).
    generalize dependent (c / 256). generalize dependent (c / 16).
    intros. lia.
  - apply N.Div0.div_lt_upper_bound. lia.
Qed.

Lemma parse_unicode_escape (c : N) (body rest s : jsstring) :
  c < 65536 ->
  parse_string_body s = Some (body, rest) ->
  parse_string_body (unicode_escape c ++ s) = Some (c :: body, rest).
Proof.
  intros Hc Hs. unfold unicode_escape. cbn [app parse_string_body].
  change (BACKSLASH =? DQUOTE) with false. change (BACKSLASH =? BACKSLASH) with true.
  cbv iota. change (117 =? 34) with false. change (117 =? 92) with false.
  change (117 =? 47) with false. change (117 =? 98) with false.
  change (117 =? 102) with false. change (117 =? 110) with false.
  change (117 =? 114) with false. change (117 =? 116) with false.
  change (117 =? 117) with true. cbv iota.
  now rewrite (hex4_unicode_escape c Hc), Hs.
Qed.

Lemma parse_plain (c : N) (s : jsstring) :
  (c =? DQUOTE) = false -> (c =? BACKSLASH) = false -> (c <? 32) = false ->
  parse_string_body (c :: s)
  = match parse_string_body s with
    | Some (body, rest) => Some (c :: body, rest)
    | None => None
    end.
Proof. intros H1 H2 H3. cbn [parse_string_body]. now rewrite H1, H2, H3. Qed.

Lemma parse_short_escape (e d : N) (s : jsstring) :
  (e, d) = (34, 34) \/ (e, d) = (92, 92) \/ (e, d) = (98, 8) \/ (e, d) = (102, 12)
  \/ (e, d) = (110, 10) \/ (e, d) = (114, 13) \/ (e, d) = (116, 9) ->
  parse_string_body (BACKSLASH :: e :: s)
  = match parse_string_body s with
    | Some (body, rest) => Some (d :: body, rest)
    | None => None
    end.
Proof.
  intros H. cbn [parse_string_body].
  change (BACKSLASH =? DQUOTE) with false. change (BACKSLASH =? BACKSLASH) with true.
  cbv iota.
  destruct H as [H|[H|[H|[H|[H|[H|H]]]]]]; injection H as -> ->; reflexivity.
Qed.

Lemma parse_quote_unit (c : N) (s body rest : jsstring) :
  parse_string_body s = Some (body, rest) ->
  parse_string_body (quote_unit c ++ s) = Some (c :: body, rest).
Proof.
  intros Hs. unfold quote_unit.
  destruct (c =? 8) eqn:E8.
  { apply N.eqb_eq in E8 as ->. cbn [app].
    rewrite (parse_short_escape 98 8); [now rewrite Hs | tauto]. }
  destruct (c =? 9) eqn:E9.
  { apply N.eqb_eq in E9 as ->. cbn [app].
    rewrite (parse_short_escape 116 9); [now rewrite Hs | tauto]. }
  destruct (c =? 10) eqn:E10.
  { apply N.eqb_eq in E10 as ->. cbn [app].
    rewrite (parse_short_escape 110 10); [now rewrite Hs | tauto]. }
  destruct (c =? 12) eqn:E12.
  { apply N.eqb_eq in E12 as ->. cbn [app].
    rewrite (parse_short_escape 102 12); [now rewrite Hs | tauto]. }
  destruct (c =? 13) eqn:E13.
  { apply N.eqb_eq in E13 as ->. cbn [app].
    rewrite (parse_short_escape 114 13); [now rewrite Hs | tauto]. }
  destruct (c =? DQUOTE) eqn:Eq.
  { apply N.eqb_eq in Eq as ->. cbn [app].
    rewrite (parse_short_escape 34 34); [now rewrite Hs | tauto]. }
  destruct (c =? BACKSLASH) eqn:Eb.
  { apply N.eqb_eq in Eb as ->. cbn [app].
    rewrite (parse_short_escape 92 92); [now rewrite Hs | tauto]. }
  destruct (c <? 32) eqn:Ec.
  { apply N.ltb_lt in Ec. apply parse_unicode_escape; [lia | exact Hs]. }
  destruct (is_high_surrogate c || is_low_surrogate c) eqn:Es.
  { apply parse_unicode_escape; [|exact Hs].
    unfold is_high_surrogate, is_low_surrogate in Es.
    apply orb_true_iff in Es as [Es|Es]; apply andb_true_iff in Es as [_ Es];
      apply N.leb_le in Es; lia. }
  cbn [app]. rewrite (parse_plain c s Eq Eb Ec). now rewrite Hs.
Qed.

Lemma surrogate_plain (c : N) :
  is_high_surrogate c || is_low_surrogate c = true ->
  (c =? DQUOTE) = false /\ (c =? BACKSLASH) = false /\ (c <? 32) = false.
Proof.
  unfold is_high_surrogate, is_low_surrogate, DQUOTE, BACKSLASH. intros H.
  assert (55296 <= c).
  { apply orb_true_iff in H as [H|H]; apply andb_true_iff in H as [H _];
      apply N.leb_le in H; lia. }
  repeat split; [apply N.eqb_neq | apply N.eqb_neq | apply N.ltb_ge]; lia.
Qed.

Lemma quote_body_pair (c d : N) (r : jsstring) :
  quote_body (c :: d :: r)
  = if is_high_surrogate c && is_low_surrogate d then c :: d :: quote_body r
    else quote_unit c ++ quote_body (d :: r).
Proof. reflexivity. Qed.

Lemma parse_quote_body_bounded (n : nat) :
  forall s rest, (length s <= n)%nat ->
    parse_string_body (quote_body s ++ DQUOTE :: rest) = Some (s, rest).
Proof.
  induction n as [|n IH]; intros s rest Hn.
  - destruct s; [reflexivity | simpl in Hn; lia].
  - destruct s as [|c [|d r]].
    + reflexivity.
    + cbn [quote_body]. apply parse_quote_unit. reflexivity.
    + rewrite quote_body_pair. simpl in Hn.
      destruct (is_high_surrogate c && is_low_surrogate d) eqn:Ep.
      * apply andb_true_iff in Ep as [Hc Hd].
        destruct (surrogate_plain c) as [C1 [C2 C3]]; [now rewrite Hc|].
        destruct (surrogate_plain d) as [D1 [D2 D3]];
          [rewrite Hd; apply orb_true_r|].
        cbn [app]. rewrite (parse_plain c _ C1 C2 C3), (parse_plain d _ D1 D2 D3).
        rewrite (IH r rest) by lia. reflexivity.
      * rewrite <- app_assoc. apply parse_quote_unit. apply IH. simpl. lia.
Qed.

Lemma parse_quote_body (s rest : jsstring) :
  parse_string_body (quote_body s ++ DQUOTE :: rest) = Some (s, rest).
Proof. exact (parse_quote_body_bounded (length s) s rest (le_n _)). Qed.

Lemma ends_number_digit (rest : jsstring) :
  ends_number rest = true ->
  match rest with [] => True | c :: _ => is_digit c = false end.
Proof.
  destruct rest as [|c r]; [trivial|]. unfold ends_number.
  destruct (is_digit c); [discriminate | reflexivity].
Qed.

Lemma span_digits_app (s rest ds r : jsstring) :
  span_digits s = (ds, r) ->
  ends_number rest = true ->
  span_digits (s ++ rest) = (ds, r ++ rest).
Proof.
  intros Hs Hrest. apply ends_number_digit in Hrest.
  revert ds r Hs. induction s as [|c s IH]; intros ds r Hs.
  - injection Hs as <- <-. destruct rest as [|c r]; [reflexivity|].
    simpl. now rewrite Hrest.
  - simpl in Hs |- *. destruct (is_digit c).
    + destruct (span_digits s) as [ds0 r0]. injection Hs as <- <-.
      now rewrite (IH ds0 r0 eq_refl).
    + injection Hs as <- <-. reflexivity.
Qed.

(** The fraction of a number literal, as [parse_number] reads it. *)
Lemma fraction_app (s rest : jsstring) (p : jsstring * jsstring) :
  match s with
  | c :: r =>
      if c =? 46 then
        match span_digits r with
        | ([], _) => None
        | (ds, rest) => Some (c :: ds, rest)
        end
      else Some ([], s)
  | [] => Some ([], s)
  end = Some p ->
  ends_number rest = true ->
  match s ++ rest with
  | c :: r =>
      if c =? 46 then
        match span_digits r with
        | ([], _) => None
        | (ds, rest) => Some (c :: ds, rest)
        end
      else Some ([], s ++ rest)
  | [] => Some ([], s ++ rest)
  end = Some (p.1, p.2 ++ rest).
Proof.
  intros H Hrest. destruct s as [|c r].
  - injection H as <-. simpl. destruct rest as [|c r]; [reflexivity|].
    unfold ends_number in Hrest. destruct (c =? 46); [|reflexivity].
    rewrite !orb_true_r in Hrest. simpl in Hrest. discriminate.
  - cbn [app]. destruct (c =? 46); [|injection H as <-; reflexivity].
    destruct (span_digits r) as [ds r0] eqn:Ed.
    rewrite (span_digits_app r rest ds r0 Ed Hrest).
    destruct ds; [discriminate|]. injection H as <-. reflexivity.
Qed.

(** The exponent of a number literal, as [parse_number] reads it. *)
Lemma exponent_app (s rest : jsstring) (p : jsstring * jsstring) :
  match s with
  | c :: r =>
      if (c =? 101) || (c =? 69) then
        let '(sg, r1) :=
          match r with
          | d :: r' => if (d =? 43) || (d =? 45) then ([d], r') else ([], r)
          | [] => ([], r)
          end in
        match span_digits r1 with
        | ([], _) => None
        | (ds, rest) => Some (c :: sg ++ ds, rest)
        end
      else Some ([], s)
  | [] => Some ([], s)
  end = Some p ->
  ends_number rest = true ->
  match s ++ rest with
  | c :: r =>
      if (c =? 101) || (c =? 69) then
        let '(sg, r1) :=
          match r with
          | d :: r' => if (d =? 43) || (d =? 45) then ([d], r') else ([], r)
          | [] => ([], r)
          end in
        match span_digits r1 with
        | ([], _) => None
        | (ds, rest) => Some (c :: sg ++ ds, rest)
        end
      else Some ([], s ++ rest)
  | [] => Some ([], s ++ rest)
  end = Some (p.1, p.2 ++ rest).
Proof.
  intros H Hrest. destruct s as [|c r].
  - injection H as <-. simpl. destruct rest as [|c r]; [reflexivity|].
    unfold ends_number in Hrest.
    destruct ((c =? 101) || (c =? 69)) eqn:E; [|reflexivity].
    apply negb_true_iff in Hrest. rewrite <- !orb_assoc in Hrest.
    apply orb_false_iff in Hrest as [_ Hrest].
    apply orb_false_iff in Hrest as [_ Hrest]. congruence.
  - cbn [app]. destruct ((c =? 101) || (c =? 69)); [|injection H as <-; reflexivity].
    destruct r as [|d r'].
    + simpl in H. discriminate.
    + cbn [app]. destruct ((d =? 43) || (d =? 45)).
      * destruct (span_digits r') as [ds r0] eqn:Ed.
        rewrite (span_digits_app r' rest ds r0 Ed Hrest).
        destruct ds; [discriminate|]. injection H as <-. reflexivity.
      * destruct (span_digits (d :: r')) as [ds r0] eqn:Ed.
        change (d :: r' ++ rest) with ((d :: r') ++ rest).
        rewrite (span_digits_app (d :: r') rest ds r0 Ed Hrest).
        destruct ds; [discriminate|]. injection H as <-. reflexivity.
Qed.

Lemma integer_app (s rest : jsstring) (p : jsstring * jsstring) :
  match s with
  | c :: r =>
      if c =? 48 then Some ([c], r)
      else if is_digit c then
        let '(ds, rest) := span_digits r in Some (c :: ds, rest)
      else None
  | [] => None
  end = Some p ->
  ends_number rest = true ->
  match s ++ rest with
  | c :: r =>
      if c =? 48 then Some ([c], r)
      else if is_digit c then
        let '(ds, rest) := span_digits r in Some (c :: ds, rest)
      else None
  | [] => None
  end = Some (p.1, p.2 ++ rest).
Proof.
  intros H Hrest. destruct s as [|c r]; [discriminate|]. cbn [app].
  destruct (c =? 48); [injection H as <-; reflexivity|].
  destruct (is_digit c); [|discriminate].
  destruct (span_digits r) as [ds r0] eqn:Ed.
  rewrite (span_digits_app r rest ds r0 Ed Hrest). injection H as <-. reflexivity.
Qed.

Lemma parse_number_app (s rest l r : jsstring) :
  parse_number s = Some (l, r) ->
  ends_number rest = true ->
  parse_number (s ++ rest) = Some (l, r ++ rest).
Proof.
  unfold parse_number. intros H Hrest.
  assert (Hsign : forall (sign s1 : jsstring),
             match
               match s1 with
               | c :: r =>
                   if c =? 48 then Some ([c], r)
                   else if is_digit c then
                     let '(ds, rest) := span_digits r in Some (c :: ds, rest)
                   else None
               | [] => None
               end
             with
             | None => None
             | Some (ip, s2) =>
                 match
                   match s2 with
                   | c :: r =>
                       if c =? 46 then
                         match span_digits r with
                         | ([], _) => None
                         | (ds, rest) => Some (c :: ds, rest)
                         end
                       else Some ([], s2)
                   | [] => Some ([], s2)
                   end
                 with
                 | None => None
                 | Some (fp, s3) =>
                     match
                       match s3 with
                       | c :: r =>
                           if (c =? 101) || (c =? 69) then
                             let '(sg, r1) :=
                               match r with
                               | d :: r' =>
                                   if (d =? 43) || (d =? 45) then ([d], r')
                                   else ([], r)
                               | [] => ([], r)
                               end in
                             match span_digits r1 with
                             | ([], _) => None
                             | (ds, rest) => Some (c :: sg ++ ds, rest)
                             end
                           else Some ([], s3)
                       | [] => Some ([], s3)
                       end
                     with
                     | None => None
                     | Some (ep, s4) => Some (sign ++ ip ++ fp ++ ep, s4)
                     end
                 end
             end = Some (l, r) ->
             match
               match s1 ++ rest with
               | c :: r =>
                   if c =? 48 then Some ([c], r)
                   else if is_digit c then
                     let '(ds, rest) := span_digits r in Some (c :: ds, rest)
                   else None
               | [] => None
               end
             with
             | None => None
             | Some (ip, s2) =>
                 match
                   match s2 with
                   | c :: r =>
                       if c =? 46 then
                         match span_digits r with
                         | ([], _) => None
                         | (ds, rest) => Some (c :: ds, rest)
                         end
                       else Some ([], s2)
                   | [] => Some ([], s2)
                   end
                 with
                 | None => None
                 | Some (fp, s3) =>
                     match
                       match s3 with
                       | c :: r =>
                           if (c =? 101) || (c =? 69) then
                             let '(sg, r1) :=
                               match r with
                               | d :: r' =>
                                   if (d =? 43) || (d =? 45) then ([d], r')
                                   else ([], r)
                               | [] => ([], r)
                               end in
                             match span_digits r1 with
                             | ([], _) => None
                             | (ds, rest) => Some (c :: sg ++ ds, rest)
                             end
                           else Some ([], s3)
                       | [] => Some ([], s3)
                       end
                     with
                     | None => None
                     | Some (ep, s4) => Some (sign ++ ip ++ fp ++ ep, s4)
                     end
                 end
             end = Some (l, r ++ rest)).
  { intros sign s1 H1.
    match type of H1 with
    | match ?x with _ => _ end = _ => destruct x as [[ip s2]|] eqn:Ei; [|discriminate]
    end.
    rewrite (integer_app s1 rest (ip, s2) Ei Hrest). cbn [fst snd].
    match type of H1 with
    | match ?x with _ => _ end = _ => destruct x as [[fp s3]|] eqn:Ef; [|discriminate]
    end.
    rewrite (fraction_app s2 rest (fp, s3) Ef Hrest). cbn [fst snd].
    match type of H1 with
    | match ?x with _ => _ end = _ => destruct x as [[ep s4]|] eqn:Ee; [|discriminate]
    end.
    rewrite (exponent_app s3 rest (ep, s4) Ee Hrest). cbn [fst snd].
    injection H1 as <- <-. reflexivity. }
  destruct s as [|c s1]; [discriminate|]. cbn [app].
  destruct (c =? 45).
  - exact (Hsign [c] s1 H).
  - exact (Hsign [] (c :: s1) H).
Qed.

Lemma skip_ws_plain (c : N) (r : jsstring) :
  is_json_ws c = false -> skip_ws (c :: r) = c :: r.
Proof. intros H. simpl. now rewrite H. Qed.

Lemma number_literal_parse (lit : jsstring) :
  number_literal lit = true -> parse_number lit = Some (lit, []).
Proof.
  unfold number_literal. destruct (parse_number lit) as [[l [|c r]]|]; try discriminate.
  intros H. apply JSFacts.str_eqb_eq in H. now subst.
Qed.

Lemma number_literal_head (lit : jsstring) :
  number_literal lit = true ->
  exists c r, lit = c :: r /\ ((c =? 45) || is_digit c = true).
Proof.
  intros H. apply number_literal_parse in H. unfold parse_number in H.
  destruct lit as [|c r]; [discriminate|]. exists c, r. split; [reflexivity|].
  destruct (c =? 45); [reflexivity|]. simpl.
  destruct (c =? 48) eqn:E0; [apply N.eqb_eq in E0 as ->; reflexivity|].
  destruct (is_digit c); [reflexivity | discriminate].
Qed.

Lemma opens_value_plain (c : N) :
  opens_value c = true ->
  is_json_ws c = false /\ (c =? RBRACKET) = false /\ (c =? RBRACE) = false.
Proof.
  unfold opens_value, is_json_ws, is_digit, LBRACE, LBRACKET, DQUOTE, RBRACKET, RBRACE.
  intros H. repeat rewrite orb_true_iff in H. rewrite andb_true_iff in H.
  repeat rewrite N.eqb_eq in H. rewrite !N.leb_le in H.
  repeat split; [repeat rewrite orb_false_iff; repeat split|..];
    apply N.eqb_neq; lia.
Qed.

Lemma stringify_head (j : json) :
  well_formed j = true ->
  exists c r, JSON_stringify j = c :: r /\ opens_value c = true.
Proof.
  destruct j as [|[|]|lit|s|l|ms]; intros H; simpl in H.
  - exists 110, (str "ull"). split; reflexivity.
  - exists 116, (str "rue"). split; reflexivity.
  - exists 102, (str "alse"). split; reflexivity.
  - destruct (number_literal_head lit H) as [c [r [-> Hc]]]. exists c, r.
    split; [reflexivity|]. unfold opens_value.
    apply orb_true_iff in Hc as [->| ->]; now rewrite ?orb_true_r.
  - eexists _, _. split; reflexivity.
  - eexists _, _. split; reflexivity.
  - eexists _, _. split; reflexivity.
Qed.

Lemma join_cons_more {A : Type} (f : A -> jsstring) (sep : jsstring)
    (a b : A) (l : list A) :
  join sep (List.map f (a :: b :: l))
  = f a ++ sep ++ join sep (List.map f (b :: l)).
Proof. reflexivity. Qed.

Lemma ends_number_comma (r : jsstring) : ends_number (44 :: r) = true.
Proof. reflexivity. Qed.
Lemma ends_number_rbracket (r : jsstring) : ends_number (RBRACKET :: r) = true.
Proof. reflexivity. Qed.
Lemma ends_number_rbrace (r : jsstring) : ends_number (RBRACE :: r) = true.
Proof. reflexivity. Qed.

Lemma stringify_nonempty (j : json) :
  well_formed j = true -> (1 <= length (JSON_stringify j))%nat.
Proof.
  intros H. destruct (stringify_head j H) as [c [r [-> _]]]. simpl. lia.
Qed.

Lemma parse_elements_back (l : list json) :
  List.Forall parses_back l ->
  forallb well_formed l = true ->
  l <> [] ->
  forall fuel acc rest,
    (2 * length (join [44%N] (List.map JSON_stringify l)) + 1 <= fuel)%nat ->
    parse_elements fuel
      (join [44] (List.map JSON_stringify l) ++ RBRACKET :: rest) acc
    = Some (JArr (rev acc ++ l), rest).
Proof.
  induction 1 as [|e l He Hl IH]; intros Hwf Hne fuel acc rest Hfuel;
    [congruence|].
  cbn [forallb] in Hwf. apply andb_true_iff in Hwf as [Hwe Hwl].
  destruct fuel as [|f]; [lia|]. cbn [parse_elements].
  destruct l as [|e' l'].
  - cbn [List.map join] in Hfuel |- *.
    rewrite (He Hwe f (RBRACKET :: rest) (ends_number_rbracket rest)) by lia.
    cbn [skip_ws]. change (is_json_ws RBRACKET) with false. cbv iota.
    change (RBRACKET =? 44) with false. change (RBRACKET =? RBRACKET) with true.
    cbv iota. cbn [rev]. reflexivity.
  - rewrite join_cons_more in Hfuel |- *.
    rewrite !length_app in Hfuel. cbn [length] in Hfuel.
    rewrite <- !app_assoc. cbn [app].
    rewrite (He Hwe f _ (ends_number_comma _)) by lia.
    cbn [skip_ws]. change (is_json_ws 44) with false. cbv iota.
    change (44 =? 44) with true. cbv iota.
    pose proof (stringify_nonempty e Hwe) as H1.
    rewrite (IH Hwl ltac:(discriminate) f (e :: acc) rest) by lia.
    cbn [rev]. now rewrite <- app_assoc.
Qed.

Lemma parse_members_back (ms : list (jsstring * json)) :
  List.Forall (fun m => parses_back m.2) ms ->
  forallb (fun m => well_formed (snd m)) ms = true ->
  ms <> [] ->
  forall fuel acc rest,
    (2 * length (join [44%N] (List.map member_text ms)) + 1 <= fuel)%nat ->
    parse_members fuel
      (join [44] (List.map member_text ms) ++ RBRACE :: rest) acc
    = Some (JObj (rev acc ++ ms), rest).
Proof.
  induction 1 as [|[k v] ms Hv Hms IH]; intros Hwf Hne fuel acc rest Hfuel;
    [congruence|].
  cbn [forallb snd] in Hwf. apply andb_true_iff in Hwf as [Hwv Hwms].
  cbn [snd] in Hv.
  destruct fuel as [|f]; [lia|]. cbn [parse_members].
  assert (Hmember : forall tail,
             member_text (k, v) ++ tail
             = DQUOTE :: quote_body k ++ DQUOTE :: 58 :: JSON_stringify v ++ tail).
  { intros tail. unfold member_text, quote. cbn [fst snd app].
    now rewrite <- !app_assoc. }
  assert (Hlen : (length (JSON_stringify v) + 3 <= length (member_text (k, v)))%nat).
  { unfold member_text, quote. cbn [fst snd].
    rewrite length_app. cbn [length]. rewrite length_app. cbn [length]. lia. }
  destruct ms as [|m' ms'].
  - cbn [List.map join] in Hfuel |- *. rewrite Hmember.
    cbn [skip_ws]. change (is_json_ws DQUOTE) with false. cbv iota.
    change (DQUOTE =? DQUOTE) with true. cbv iota.
    rewrite parse_quote_body. cbn [skip_ws].
    change (is_json_ws 58) with false. cbv iota.
    change (58 =? 58) with true. cbv iota.
    rewrite (Hv Hwv f (RBRACE :: rest) (ends_number_rbrace rest)) by lia.
    cbn [skip_ws]. change (is_json_ws RBRACE) with false. cbv iota.
    change (RBRACE =? 44) with false. change (RBRACE =? RBRACE) with true.
    cbv iota. cbn [rev]. reflexivity.
  - rewrite join_cons_more in Hfuel |- *.
    rewrite !length_app in Hfuel. cbn [length] in Hfuel.
    rewrite <- !app_assoc. rewrite Hmember.
    cbn [skip_ws]. change (is_json_ws DQUOTE) with false. cbv iota.
    change (DQUOTE =? DQUOTE) with true. cbv iota.
    rewrite parse_quote_body. cbn [skip_ws].
    change (is_json_ws 58) with false. cbv iota.
    change (58 =? 58) with true. cbv iota. cbn [app].
    rewrite (Hv Hwv f _ (ends_number_comma _)) by lia.
    cbn [skip_ws]. change (is_json_ws 44) with false. cbv iota.
    change (44 =? 44) with true. cbv iota.
    rewrite (IH Hwms ltac:(discriminate) f ((k, v) :: acc) rest) by lia.
    cbn [rev]. now rewrite <- app_assoc.
Qed.

Lemma parse_value_number (f : nat) (c : N) (r : jsstring) :
  (c =? 45) || is_digit c = true ->
  parse_value (S f) (c :: r)
  = match parse_number (c :: r) with
    | Some (lit, rest) => Some (JNum lit, rest)
    | None => None
    end.
Proof.
  intros Hc.
  assert (H : is_json_ws c = false /\ (c =? LBRACE) = false /\ (c =? LBRACKET) = false
              /\ (c =? DQUOTE) = false /\ (c =? 116) = false /\ (c =? 102) = false
              /\ (c =? 110) = false).
  { unfold is_json_ws, is_digit, LBRACE, LBRACKET, DQUOTE in *.
    rewrite orb_true_iff, andb_true_iff, N.eqb_eq, !N.leb_le in Hc.
    repeat split; [repeat rewrite orb_false_iff; repeat split|..];
      apply N.eqb_neq; lia. }
  destruct H as [H0 [H1 [H2 [H3 [H4 [H5 H6]]]]]].
  cbn [parse_value]. rewrite (skip_ws_plain c r H0).
  now rewrite H1, H2, H3, H4, H5, H6.
Qed.

Lemma parses_back_all (j : json) : parses_back j.
Proof.
  induction j as [|b|lit|s|l IH|ms IH] using ToolsFacts.json_nested_ind;
    intros Hwf fuel rest Hrest Hfuel;
    (destruct fuel as [|f];
     [pose proof (stringify_nonempty _ Hwf); lia|]).
  - reflexivity.
  - destruct b; reflexivity.
  - cbn [JSON_stringify well_formed] in *.
    destruct (number_literal_head lit Hwf) as [c [r [-> Hc]]].
    cbn [app]. rewrite (parse_value_number f c _ Hc).
    change (c :: r ++ rest) with ((c :: r) ++ rest).
    now rewrite (parse_number_app _ rest _ _ (number_literal_parse _ Hwf) Hrest).
  - cbn [JSON_stringify]. unfold quote. cbn [app parse_value skip_ws].
    change (is_json_ws DQUOTE) with false. cbv iota.
    change (DQUOTE =? LBRACE) with false. change (DQUOTE =? LBRACKET) with false.
    change (DQUOTE =? DQUOTE) with true. cbv iota.
    rewrite <- app_assoc. cbn [app]. now rewrite parse_quote_body.
  - cbn [JSON_stringify well_formed] in *.
    cbn [app parse_value skip_ws].
    change (is_json_ws LBRACKET) with false. cbv iota.
    change (LBRACKET =? LBRACE) with false. change (LBRACKET =? LBRACKET) with true.
    cbv iota. rewrite <- app_assoc. cbn [app].
    destruct l as [|e l'].
    + reflexivity.
    + assert (Hhead : exists c r,
                 join [44] (List.map JSON_stringify (e :: l')) = c :: r /\
                 opens_value c = true).
      { cbn [forallb] in Hwf. apply andb_true_iff in Hwf as [Hwe _].
        destruct (stringify_head e Hwe) as [c [r [Hs Hc]]].
        destruct l' as [|e' l''].
        - exists c, r. split; [exact Hs | exact Hc].
        - rewrite join_cons_more, Hs. eexists c, _. split; [reflexivity | exact Hc]. }
      destruct Hhead as [c [r [Hj Hc]]].
      destruct (opens_value_plain c Hc) as [C1 [C2 _]].
      cbn [length] in Hfuel. rewrite length_app in Hfuel. cbn [length] in Hfuel.
      pose proof (parse_elements_back (e :: l') IH Hwf ltac:(discriminate)
                    f [] rest ltac:(lia)) as Hp.
      rewrite Hj in Hp |- *. cbn [app] in Hp |- *.
      rewrite (skip_ws_plain c _ C1), C2. exact Hp.
  - cbn [JSON_stringify well_formed] in *.
    cbn [app parse_value skip_ws].
    change (is_json_ws LBRACE) with false. cbv iota.
    change (LBRACE =? LBRACE) with true. cbv iota.
    rewrite <- app_assoc. cbn [app].
    destruct ms as [|[k v] ms'].
    + reflexivity.
    + change (List.map (fun kv => quote kv.1 ++ 58 :: JSON_stringify kv.2))
        with (List.map member_text) in *.
      assert (Hhead : exists r,
                 join [44] (List.map member_text ((k, v) :: ms')) = DQUOTE :: r).
      { destruct ms' as [|m' ms''].
        - eexists. reflexivity.
        - rewrite join_cons_more. eexists. reflexivity. }
      destruct Hhead as [r Hj].
      cbn [length] in Hfuel. rewrite length_app in Hfuel. cbn [length] in Hfuel.
      pose proof (parse_members_back ((k, v) :: ms') IH Hwf ltac:(discriminate)
                    f [] rest ltac:(lia)) as Hp.
      rewrite Hj in Hp |- *. cbn [app] in Hp |- *.
      cbn [skip_ws]. change (is_json_ws DQUOTE) with false. cbv iota.
      change (DQUOTE =? RBRACE) with false. cbv iota. exact Hp.
Qed.

(** [JSON.parse(JSON.stringify(j))] gives [j] back. *)
Lemma JSON_parse_stringify (j : json) :
  well_formed j = true -> JSON_parse (JSON_stringify j) = Some j.
Proof.
  intros Hwf. unfold JSON_parse.
  pose proof (parses_back_all j Hwf (2 * length (JSON_stringify j) + 2)%nat []
                eq_refl ltac:(lia)) as H.
  rewrite app_nil_r in H. now rewrite H.
Qed.

Lemma well_formed_args_or_empty (args : option json) :
  (forall a, args = Some a -> well_formed a = true) ->
  well_formed (args_or_empty args) = true.
Proof.
  intros H. unfold args_or_empty. destruct args as [a|]; [|reflexivity].
  destruct (truthy a); [now apply H | reflexivity].
Qed.

Lemma span_digits_all (s : jsstring) :
  forallb is_digit s = true -> span_digits s = (s, []).
Proof.
  induction s as [|c r IH]; [reflexivity|]. simpl.
  intros H. apply andb_true_iff in H as [Hc Hr]. now rewrite Hc, (IH Hr).
Qed.

Lemma integer_digits_number (s : jsstring) :
  integer_digits s = true -> parse_number s = Some (s, []).
Proof.
  destruct s as [|c r]; [discriminate|]. unfold integer_digits.
  rewrite !andb_true_iff. intros [[[Hd Hz] Hr] _].
  apply negb_true_iff in Hz. unfold parse_number.
  assert (H45 : (c =? 45) = false).
  { unfold is_digit in Hd. apply andb_true_iff in Hd as [H1 _].
    apply N.leb_le in H1. apply N.eqb_neq. lia. }
  rewrite H45, Hz, Hd, (span_digits_all r Hr). cbn. now rewrite List.app_nil_r.
Qed.

Lemma canonical_integer_number_literal (lit : jsstring) :
  canonical_integer lit = true -> number_literal lit = true.
Proof.
  unfold canonical_integer. rewrite !orb_true_iff. intros [[H|H]|H].
  - apply str_eqb_eq in H. subst lit. vm_compute. reflexivity.
  - unfold number_literal. rewrite (integer_digits_number lit H).
    now apply str_eqb_eq.
  - destruct lit as [|c r]; [discriminate|]. apply andb_true_iff in H as [Hc Hr].
    apply N.eqb_eq in Hc. subst c. unfold number_literal.
    pose proof (integer_digits_number r Hr) as Hp.
    destruct r as [|d r']; [discriminate|].
    unfold integer_digits in Hr. rewrite !andb_true_iff in Hr.
    destruct Hr as [[[Hd Hz] Hr'] _]. apply negb_true_iff in Hz.
    unfold parse_number in Hp |- *. change (45 =? 45) with true. cbv iota.
    assert (H45 : (d =? 45) = false).
    { unfold is_digit in Hd. apply andb_true_iff in Hd as [H1 _].
      apply N.leb_le in H1. apply N.eqb_neq. lia. }
    rewrite H45 in Hp. rewrite Hz, Hd in Hp |- *.
    rewrite (span_digits_all r' Hr') in Hp |- *. cbn.
    rewrite List.app_nil_r. now apply str_eqb_eq.
Qed.

Lemma printed_as_written_well_formed (j : json) :
  printed_as_written j = true -> well_formed j = true.
Proof.
  induction j as [|b|lit|s|l IH|ms IH] using ToolsFacts.json_nested_ind;
    try reflexivity.
  - apply canonical_integer_number_literal.
  - cbn [printed_as_written well_formed]. rewrite !forallb_forall.
    rewrite List.Forall_forall in IH. intros H x Hx. apply IH; auto.
  - cbn [printed_as_written well_formed]. rewrite andb_true_iff.
    rewrite !forallb_forall. rewrite List.Forall_forall in IH.
    intros [_ H] x Hx. apply IH; [exact Hx|]. specialize (H x Hx).
    now apply andb_true_iff in H as [_ H].
Qed.

(** X1.  The [arguments] string that [convertToOpenAIMessages] writes for a
    function call is read back by [convertToGeminiResponse] as the
    arguments of the call (the empty object when the call had none), for
    arguments that are printed as written: their numbers are integers of at
    most fifteen digits in the text [JSON.stringify] prints for them, and
    their objects have each key once and no key made of digits. *)
Theorem toolCall_arguments_round_trip (clock : Clock) (ticks : nat)
    (fc : FunctionCall) (index : nat) (id name : jsstring) :
  (forall a, fc_args fc = Some a -> printed_as_written a = true) ->
  functionCall_of_toolCall
    {| wtc_id := id;
       wtc_name := name;
       wtc_arguments := tc_arguments (toolCall_of clock ticks fc index).1 |}
  = Ok {| fc_id := Some id;
          fc_name := Some name;
          fc_args := Some (args_or_empty (fc_args fc)) |}.
Proof.
  intros Hp.
  assert (Hwf : forall a, fc_args fc = Some a -> well_formed a = true)
    by (intros a Ha; apply printed_as_written_well_formed, Hp, Ha).
  unfold functionCall_of_toolCall, parse_arguments. cbn [wtc_arguments].
  assert (Ha : tc_arguments (toolCall_of clock ticks fc index).1
               = JSON_stringify (args_or_empty (fc_args fc))).
  { unfold toolCall_of. now destruct (match fc_id fc with Some _ => _ | None => _ end). }
  rewrite Ha. unfold arguments_text.
  destruct (JSON_stringify (args_or_empty (fc_args fc))) as [|c r] eqn:Es.
  { pose proof (stringify_nonempty _ (well_formed_args_or_empty _ Hwf)) as Hlen.
    rewrite Es in Hlen. simpl in Hlen. lia. }
  cbn [truthy_str]. rewrite <- Es.
  now rewrite (JSON_parse_stringify _ (well_formed_args_or_empty _ Hwf)).
Qed.

Lemma toolCall_arguments_round_trip_witness :
  functionCall_of_toolCall
    {| wtc_id := str "call_1";
       wtc_name := str "read_file";
       wtc_arguments :=
         tc_arguments (toolCall_of sample_clock 0 call_with_arguments 0).1 |}
  = Ok {| fc_id := Some (str "call_1");
          fc_name := Some (str "read_file");
          fc_args := fc_args call_with_arguments |}.
Proof.
  refine (toolCall_arguments_round_trip sample_clock 0 call_with_arguments 0
            (str "call_1") (str "read_file") _).
  intros a H. injection H as <-. vm_compute. reflexivity.
Defined.

End JsonTextFacts.

(** ** [jsonUtils.ts]: positions, plain texts and fenced blocks *)

Module JsonUtilsTextFacts.

Import JS Json JsonUtils JSFacts JsonUtilsFacts JsonUtilsText.

Lemma match_close_bounds (openChar closeChar : N) (s : jsstring) :
  forall bracketCount inString escapeNext n,
    match_close openChar closeChar s bracketCount inString escapeNext = Some n ->
    (1 <= n <= length s)%nat /\ s !! (n - 1)%nat = Some closeChar.
Proof.
  induction s as [|c r IH]; intros k inS esc n H; [discriminate|].
  cbn [match_close] in H.
  assert (Hstep : forall k' inS' esc',
             S <$> match_close openChar closeChar r k' inS' esc' = Some n ->
             (1 <= n <= length (c :: r))%nat /\ (c :: r) !! (n - 1)%nat = Some closeChar).
  { intros k' inS' esc' Hs.
    destruct (match_close openChar closeChar r k' inS' esc') as [m|] eqn:Em;
      [|discriminate].
    injection Hs as <-. destruct (IH _ _ _ _ Em) as [Hb Hc]. simpl. split; [lia|].
    destruct m as [|m]; [lia|]. simpl in Hc |- *.
    now rewrite Nat.sub_0_r in *. }
  destruct esc; [now apply Hstep in H|].
  destruct (c =? BACKSLASH); [now apply Hstep in H|].
  destruct (c =? DQUOTE); [now apply Hstep in H|].
  destruct (negb inS); [|now apply Hstep in H].
  destruct (c =? openChar); [now apply Hstep in H|].
  destruct (c =? closeChar) eqn:Ec; [|now apply Hstep in H].
  destruct (k - 1 =? 0)%Z; [|now apply Hstep in H].
  injection H as <-. apply N.eqb_eq in Ec as ->. simpl. split; [lia | reflexivity].
Qed.

(** X2.  What [extractJsonFromPosition] returns is the part of the text
    that starts at the given index; it starts with an opening brace and
    ends with a closing brace, or starts with an opening bracket and ends
    with a closing bracket. *)
Theorem extractJsonFromPosition_shape (text : jsstring) (startIndex : nat)
    (candidate : jsstring) :
  extractJsonFromPosition text startIndex = Some candidate ->
  exists before after middle openChar closeChar,
    text = before ++ candidate ++ after /\
    length before = startIndex /\
    candidate = openChar :: middle ++ [closeChar] /\
    ((openChar = LBRACE /\ closeChar = RBRACE) \/
     (openChar = LBRACKET /\ closeChar = RBRACKET)).
Proof.
  unfold extractJsonFromPosition.
  destruct (drop startIndex text) as [|c r] eqn:Ed; [discriminate|].
  destruct (negb (c =? LBRACE) && negb (c =? LBRACKET)) eqn:Eb; [discriminate|].
  set (openChar := if c =? LBRACE then LBRACE else LBRACKET).
  set (closeChar := if c =? LBRACE then RBRACE else RBRACKET).
  destruct (match_close openChar closeChar (c :: r) 0 false false) as [n|] eqn:Em;
    [|discriminate].
  intros H. injection H as <-.
  destruct (match_close_bounds _ _ _ _ _ _ _ Em) as [[Hn1 Hn2] Hlast].
  assert (Hc : c = openChar).
  { subst openChar. destruct (c =? LBRACE) eqn:E1; [now apply N.eqb_eq in E1|].
    destruct (c =? LBRACKET) eqn:E2; [now apply N.eqb_eq in E2 | discriminate]. }
  assert (Hne : openChar <> closeChar).
  { subst openChar closeChar. destruct (c =? LBRACE); discriminate. }
  assert (Hsub : substring startIndex (startIndex + n) text = take n (c :: r)).
  { unfold substring. rewrite Ed. f_equal. lia. }
  rewrite Hsub.
  assert (Hlen : (startIndex <= length text)%nat).
  { destruct (Nat.le_gt_cases startIndex (length text)) as [Hle|Hgt]; [exact Hle|].
    rewrite drop_ge in Ed by lia. discriminate. }
  destruct n as [|[|n]]; [lia| |].
  - simpl in Hlast. injection Hlast as Hl. congruence.
  - exists (take startIndex text), (drop (S (S n)) (c :: r)),
      (take n r), openChar, closeChar.
    split; [|split; [|split]].
    + rewrite app_assoc. rewrite <- (take_drop startIndex text) at 1.
      rewrite <- app_assoc. f_equal. rewrite Ed. now rewrite take_drop.
    + rewrite length_take. lia.
    + rewrite Hc. replace (S (S n) - 1)%nat with (S n) in Hlast by lia.
      change ((c :: r) !! S n) with (r !! n) in Hlast.
      change (take (S (S n)) (openChar :: r)) with (openChar :: take (S n) r).
      now rewrite (take_S_r r n closeChar Hlast).
    + subst openChar closeChar. destruct (c =? LBRACE); tauto.
Qed.

Lemma omap_none {A B : Type} (f : A -> option B) (l : list A) :
  (forall a, In a l -> f a = None) -> omap f l = [].
Proof.
  induction l as [|a l IH]; intros H; [reflexivity|]. simpl.
  rewrite (H a (or_introl eq_refl)). apply IH. intros b Hb. apply H. now right.
Qed.

Lemma plain_drop (s : jsstring) (i : nat) :
  forallb plain_char s = true -> forallb plain_char (drop i s) = true.
Proof.
  intros H. rewrite forallb_forall in H |- *. intros c Hc. apply H.
  apply list_elem_of_In. apply list_elem_of_In in Hc.
  eapply (subseteq_drop i s). exact Hc.
Qed.

Lemma jsonCandidates_plain (s : jsstring) :
  forallb plain_char s = true -> jsonCandidates s = [].
Proof.
  intros H. unfold jsonCandidates. apply omap_none. intros i _.
  pose proof (plain_drop s i H) as Hd.
  destruct (drop i s) as [|c r]; [reflexivity|]. simpl in Hd.
  apply andb_true_iff in Hd as [Hc _]. unfold plain_char in Hc.
  apply andb_true_iff in Hc as [Hc _]. apply andb_true_iff in Hc as [H1 H2].
  apply negb_true_iff in H1, H2. now rewrite H1, H2.
Qed.

Lemma first_bracket_plain (s : jsstring) :
  forallb plain_char s = true -> first_bracket s = None.
Proof.
  induction s as [|c r IH]; [reflexivity|]. simpl. intros H.
  apply andb_true_iff in H as [Hc Hr]. unfold plain_char in Hc.
  apply andb_true_iff in Hc as [Hc _]. apply andb_true_iff in Hc as [H1 H2].
  apply negb_true_iff in H1, H2. rewrite H1, H2. simpl. now rewrite (IH Hr).
Qed.

Lemma jsonWithContext_plain (s : jsstring) :
  forallb plain_char s = true -> match_jsonWithContextPattern s = None.
Proof.
  induction s as [|c r IH]; [reflexivity|]. simpl. intros H.
  apply andb_true_iff in H as [Hc Hr]. unfold plain_char in Hc.
  apply andb_true_iff in Hc as [Hc _]. apply andb_true_iff in Hc as [H1 H2].
  apply negb_true_iff in H1, H2. rewrite H1, H2.
  destruct (is_line_terminator c); [reflexivity | exact (IH Hr)].
Qed.

Lemma plain_infix (pre s post : jsstring) :
  forallb plain_char (pre ++ s ++ post) = true -> forallb plain_char s = true.
Proof.
  rewrite !forallb_app. intros H. apply andb_true_iff in H as [_ H].
  now apply andb_true_iff in H as [H _].
Qed.

Lemma plain_not_fenced (s : jsstring) :
  forallb plain_char s = true -> ~ fenced_block s.
Proof.
  intros H Hf. apply fenced_block_backtick in Hf.
  rewrite forallb_forall in H. specialize (H _ Hf). discriminate.
Qed.

(** X3.  On a text without brace, bracket and backtick,
    [extractJsonFromText] returns the trimmed text, and [parseJsonFromText]
    is [JSON.parse] of the trimmed text. *)
Theorem extractJsonFromText_plain_text (text : jsstring) :
  forallb plain_char text = true ->
  extractJsonFromText text = trim text /\
  parseJsonFromText text = JSON_parse (trim text).
Proof.
  intros H.
  assert (E : extractJsonFromText text = trim text).
  { destruct (no_fence_no_match text (plain_not_fenced text H)) as [H1 H2].
    assert (Ht : forallb plain_char (trim text) = true).
    { destruct (trim_infix text) as [pre [post Hp]]. rewrite Hp in H.
      exact (plain_infix _ _ _ H). }
    unfold extractJsonFromText. rewrite H1, H2.
    rewrite (jsonCandidates_plain _ Ht). simpl.
    unfold pattern4_candidate, pattern5_candidate.
    rewrite (first_bracket_plain _ Ht), (jsonWithContext_plain _ Ht).
    reflexivity. }
  split; [exact E|]. unfold parseJsonFromText. now rewrite E.
Qed.

Lemma valid_candidate_valid (o : option jsstring) (c : jsstring) :
  valid_candidate o = Some c -> JSON_valid c = true.
Proof.
  unfold valid_candidate. destruct o as [x|]; [|discriminate].
  destruct (JSON_valid x) eqn:E; [|discriminate]. intros H. injection H as <-.
  exact E.
Qed.

(** X4.  On a text without a fenced block, [extractJsonFromText] returns
    valid JSON or the trimmed text; and when [parseJsonFromText] throws,
    neither the trimmed text nor any bracket-matched candidate in it is
    valid JSON. *)
Theorem parseJsonFromText_unfenced (text : jsstring) :
  ~ fenced_block text ->
  (JSON_valid (extractJsonFromText text) = true \/
   extractJsonFromText text = trim text) /\
  (parseJsonFromText text = None ->
   JSON_parse (trim text) = None /\
   forall c, In c (jsonCandidates (trim text)) -> JSON_parse c = None).
Proof.
  intros Hno. destruct (no_fence_no_match text Hno) as [H1 H2].
  unfold parseJsonFromText, extractJsonFromText. rewrite H1, H2.
  destruct (List.find JSON_valid (sort_longest_first (jsonCandidates (trim text))))
    as [r|] eqn:Hr.
  { pose proof (find_some _ _ Hr) as [_ Hv]. split; [now left|].
    unfold JSON_valid in Hv. destruct (JSON_parse r); [discriminate|discriminate]. }
  assert (Hnone : forall c, In c (jsonCandidates (trim text)) -> JSON_parse c = None).
  { intros c Hc. apply (proj2 (sort_longest_first_In _ _)) in Hc.
    pose proof (find_none _ _ Hr c Hc) as Hv. unfold JSON_valid in Hv.
    now destruct (JSON_parse c). }
  destruct (valid_candidate (pattern4_candidate (trim text))) as [c4|] eqn:H4.
  { apply valid_candidate_valid in H4. split; [now left|].
    unfold JSON_valid in H4. destruct (JSON_parse c4); discriminate. }
  destruct (valid_candidate (pattern5_candidate (trim text))) as [c5|] eqn:H5.
  { apply valid_candidate_valid in H5. split; [now left|].
    unfold JSON_valid in H5. destruct (JSON_parse c5); discriminate. }
  split; [now right|]. intros Hp. split; [exact Hp | exact Hnone].
Qed.

Lemma trimStart_idempotent (s : jsstring) : trimStart (trimStart s) = trimStart s.
Proof.
  induction s as [|c r IH]; [reflexivity|]. simpl.
  destruct (is_js_space c) eqn:E; [exact IH|]. simpl. now rewrite E.
Qed.

Lemma trim_trimStart (s : jsstring) : trim (trimStart s) = trim s.
Proof. unfold trim. now rewrite trimStart_idempotent. Qed.

Lemma trimStart_head (s : jsstring) :
  match trimStart s with
  | [] => True
  | c :: _ => is_js_space c = false
  end.
Proof.
  induction s as [|c r IH]; [exact I|]. simpl.
  destruct (is_js_space c) eqn:E; [exact IH | exact E].
Qed.

Lemma trimStart_app_fence (body : jsstring) :
  trimStart (body ++ LF :: fence)
  = match trimStart body with
    | [] => fence
    | c :: r => (c :: r) ++ LF :: fence
    end.
Proof.
  induction body as [|c r IH]; [reflexivity|]. cbn [app trimStart].
  destruct (is_js_space c); [exact IH | reflexivity].
Qed.

Lemma capture_until_final_fence_body (b : jsstring) :
  ~ In BACKTICK b ->
  capture_until_final_fence (b ++ LF :: fence) = Some b.
Proof.
  induction b as [|c r IH]; intros Hb.
  - reflexivity.
  - cbn [app capture_until_final_fence].
    assert (E1 : str_eqb (c :: r ++ LF :: fence) (LF :: fence) = false).
    { unfold str_eqb. apply bool_decide_eq_false. intros E.
      apply (f_equal (@length N)) in E. simpl in E. rewrite length_app in E.
      simpl in E. lia. }
    assert (E2 : str_eqb (c :: r ++ LF :: fence) fence = false).
    { unfold str_eqb. apply bool_decide_eq_false. intros E.
      injection E as -> _. apply Hb. now left. }
    rewrite E1, E2. cbn [orb]. rewrite IH; [reflexivity|].
    intros H. apply Hb. now right.
Qed.

Lemma skip_lang_tag (tag rest : jsstring) :
  language_tag tag -> skip_lang (tag ++ LF :: rest) = LF :: rest.
Proof. intros [->|[->| ->]]; reflexivity. Qed.

Lemma not_In_trimStart (x : N) (s : jsstring) : ~ In x s -> ~ In x (trimStart s).
Proof.
  intros H Hin. apply H. destruct (trimStart_suffix s) as [pre Hpre].
  rewrite Hpre. apply in_or_app. now right.
Qed.

(** X5.  When the trimmed text is one fenced block (a fence, the tag
    [json] or [JSON] or none, a newline, a body without backtick, a newline
    and a fence), [extractJsonFromText] returns the trimmed body, whether it
    is valid JSON or not. *)
Theorem extractJsonFromText_fenced_block (text tag body : jsstring) :
  language_tag tag ->
  ~ In BACKTICK body ->
  trim text = fence ++ tag ++ LF :: body ++ LF :: fence ->
  extractJsonFromText text = trim body.
Proof.
  intros Htag Hbody Htext. unfold extractJsonFromText. rewrite Htext.
  unfold match_codeBlockPattern.
  change (startsWith (fence ++ tag ++ LF :: body ++ LF :: fence) fence) with true.
  cbv iota.
  change (drop 3 (fence ++ tag ++ LF :: body ++ LF :: fence))
    with (tag ++ LF :: body ++ LF :: fence).
  unfold after_opening_fence. rewrite (skip_lang_tag tag _ Htag).
  change (trimStart (LF :: body ++ LF :: fence))
    with (trimStart (body ++ LF :: fence)).
  rewrite trimStart_app_fence.
  pose proof (trimStart_head body) as Hhead.
  pose proof (not_In_trimStart BACKTICK body Hbody) as Hno.
  rewrite <- (trim_trimStart body).
  destruct (trimStart body) as [|c r].
  - reflexivity.
  - assert (Hc : (c =? LF) = false).
    { destruct (c =? LF) eqn:E; [|reflexivity].
      apply N.eqb_eq in E as ->. discriminate. }
    cbn [app skip_optional_newline]. rewrite Hc.
    change (c :: r ++ LF :: fence) with ((c :: r) ++ LF :: fence).
    now rewrite (capture_until_final_fence_body (c :: r) Hno).
Qed.

Lemma extractJsonFromPosition_shape_witness :
  exists before after middle openChar closeChar,
    text_with_object = before ++ dq "{'a': [1]}" ++ after /\
    length before = 4%nat /\
    dq "{'a': [1]}" = openChar :: middle ++ [closeChar] /\
    ((openChar = LBRACE /\ closeChar = RBRACE) \/
     (openChar = LBRACKET /\ closeChar = RBRACKET)).
Proof.
  refine (extractJsonFromPosition_shape text_with_object 4 (dq "{'a': [1]}") _).
  vm_compute. reflexivity.
Defined.

Lemma extractJsonFromText_plain_text_witness :
  extractJsonFromText plain_text = trim plain_text /\
  parseJsonFromText plain_text = JSON_parse (trim plain_text).
Proof.
  refine (extractJsonFromText_plain_text plain_text _). vm_compute. reflexivity.
Defined.

Lemma parseJsonFromText_unfenced_witness :
  (JSON_valid (extractJsonFromText plain_text) = true \/
   extractJsonFromText plain_text = trim plain_text) /\
  JSON_parse (trim plain_text) = None.
Proof.
  assert (Hplain : forallb plain_char plain_text = true) by (vm_compute; reflexivity).
  assert (Hthrows : parseJsonFromText plain_text = None) by (vm_compute; reflexivity).
  destruct (parseJsonFromText_unfenced plain_text (plain_not_fenced plain_text Hplain))
    as [Hreturned Hnone].
  split; [exact Hreturned | exact (proj1 (Hnone Hthrows))].
Defined.

Lemma extractJsonFromText_fenced_block_witness :
  extractJsonFromText fenced_text = dq "{'key': 'value'}".
Proof.
  refine (extractJsonFromText_fenced_block fenced_text (str "json")
            (dq "{'key': 'value'}") _ _ _).
  - right. left. reflexivity.
  - intros H. vm_compute in H. intuition discriminate.
  - vm_compute. reflexivity.
Defined.

End JsonUtilsTextFacts.

(** ** [config/auth.ts]: Vertex AI, and completing the environment *)

Module AuthEnvironmentFacts.

Import JS Json Auth AuthFacts AuthEnvironment.

Section More.
Variable loadEnvironment : Env -> Env.

(** X6.  For Vertex AI the result is [null] exactly when
    [GOOGLE_CLOUD_PROJECT] and [GOOGLE_CLOUD_LOCATION] are both set, or
    [GOOGLE_API_KEY] is; otherwise it carries the Vertex message and lists
    those of the three variables that are unset, in the order project,
    location, key, and [GOOGLE_API_KEY] is always among them. *)
Theorem validateAuthMethod_vertex (process_env : Env) :
  let env := loadEnvironment process_env in
  let result := validateAuthMethod loadEnvironment process_env (OfType USE_VERTEX_AI) in
  (result = None <->
   (is_set env "GOOGLE_CLOUD_PROJECT" = true /\
    is_set env "GOOGLE_CLOUD_LOCATION" = true) \/
   is_set env "GOOGLE_API_KEY" = true)
  /\
  (forall r, result = Some r ->
     message r = vertex_message /\
     missing r = List.filter (fun k => negb (is_set env k)) vertex_variables /\
     In "GOOGLE_API_KEY"%string (missing r)).
Proof.
  intros env result. subst result. unfold validateAuthMethod. fold env.
  rewrite !push_if_unset_filter. unfold vertex_variables. simpl.
  destruct (is_set env "GOOGLE_CLOUD_PROJECT"),
    (is_set env "GOOGLE_CLOUD_LOCATION"), (is_set env "GOOGLE_API_KEY");
    simpl; (split; [split; [intros H; try discriminate; tauto
                          | intros [[? ?]|?]; try discriminate; reflexivity]|]);
    intros r Hr; try discriminate; injection Hr as <-; simpl; tauto.
Qed.

(** X7.  A non-empty [missing] list is sound and sufficient: every
    variable it names is unset in the loaded environment, and in any
    environment where they are set beside the variables that were set
    before, the same method validates, provided loading the environment
    unsets nothing. *)
Theorem missing_variables_suffice (process_env env' : Env) (method : AuthMethod)
    (r : AuthValidationResult) :
  keeps_set_variables loadEnvironment ->
  validateAuthMethod loadEnvironment process_env method = Some r ->
  missing r <> [] ->
  (forall name, In name (missing r) -> is_set env' name = true) ->
  (forall name, is_set (loadEnvironment process_env) name = true ->
                is_set env' name = true) ->
  (forall name, In name (missing r) ->
                is_set (loadEnvironment process_env) name = false) /\
  validateAuthMethod loadEnvironment env' method = None.
Proof.
  intros Hkeep Hr Hne Hnew Hold.
  set (env := loadEnvironment process_env) in *.
  assert (Hset : forall name,
             is_set env name = true \/ In name (missing r) ->
             is_set (loadEnvironment env') name = true).
  { intros name [H|H]; apply Hkeep; [now apply Hold | now apply Hnew]. }
  destruct method as [s|]; [|discriminate].
  rewrite validateAuthMethod_string in Hr |- *. cbv zeta in Hr |- *.
  destruct (str_eqb s (authType_value USE_GEMINI)).
  - rewrite validateAuthMethod_USE_GEMINI in Hr |- *. fold env in Hr.
    destruct (is_set env "GEMINI_API_KEY") eqn:E; [discriminate|].
    injection Hr as <-. simpl in *. split.
    + intros name [<-|[]]. exact E.
    + rewrite (Hset "GEMINI_API_KEY"%string); [reflexivity | right; now left].
  - destruct (str_eqb s (authType_value USE_VERTEX_AI)).
    + rewrite validateAuthMethod_USE_VERTEX_AI in Hr |- *. cbv zeta in Hr |- *.
      fold env in Hr. simpl in Hr.
      destruct (is_set env "GOOGLE_CLOUD_PROJECT") eqn:E1,
        (is_set env "GOOGLE_CLOUD_LOCATION") eqn:E2,
        (is_set env "GOOGLE_API_KEY") eqn:E3; simpl in Hr; try discriminate;
        injection Hr as <-; simpl in *;
        (split; [intros name Hn; repeat (destruct Hn as [<-|Hn]; [assumption|]);
                 contradiction|]);
        rewrite (Hset "GOOGLE_API_KEY"%string) by (right; tauto);
        now rewrite andb_false_r.
    + injection Hr as <-. simpl in Hne. congruence.
Qed.

End More.

Lemma missing_variables_suffice_witness :
  validateAuthMethod (fun e => e) ∅ (OfType USE_GEMINI)
  = Some {| message :=
              str "GEMINI_API_KEY environment variable not found. Add that to your environment and try again (no reload needed if using .env)!";
            missing := ["GEMINI_API_KEY"%string] |}
  /\ validateAuthMethod (fun e => e) gemini_env (OfType USE_GEMINI) = None.
Proof.
  assert (E : validateAuthMethod (fun e => e) ∅ (OfType USE_GEMINI)
              = Some {| message :=
                          str "GEMINI_API_KEY environment variable not found. Add that to your environment and try again (no reload needed if using .env)!";
                        missing := ["GEMINI_API_KEY"%string] |})
    by (vm_compute; reflexivity).
  split; [exact E|].
  refine (proj2 (missing_variables_suffice (fun e => e) ∅ gemini_env
                   (OfType USE_GEMINI) _ _ E _ _ _)).
  - intros env name H. exact H.
  - discriminate.
  - intros name [<-|[]]. reflexivity.
  - intros name H. vm_compute in H. discriminate.
Defined.

End AuthEnvironmentFacts.

(** ** [contentGenerator.ts]: from the environment to the generator *)

Module ContentGeneratorFacts.

Import JS ContentGenerator.

Lemma truthy_opt_Some (o : option jsstring) :
  truthy_opt o = true -> exists k, o = Some k /\ k <> [].
Proof.
  destruct o as [k|]; [|discriminate]. intros H. exists k. split; [reflexivity|].
  intros ->. discriminate.
Qed.

Lemma or_string_truthy (x : option jsstring) (fallback : jsstring) :
  fallback <> [] -> or_string x fallback <> [].
Proof.
  intros Hf. unfold or_string. destruct x as [s|]; [|exact Hf].
  destruct (truthy_str s) eqn:E; [|exact Hf]. intros ->. discriminate.
Qed.

Lemma effectiveModel_truthy (model runtimeModel : option jsstring) :
  or_string runtimeModel (or_string model DEFAULT_GEMINI_MODEL) <> [].
Proof. apply or_string_truthy, or_string_truthy. discriminate. Qed.

Lemma truthy_str_nonempty (s : jsstring) : s <> [] -> truthy_str s = true.
Proof. destruct s; [congruence|reflexivity]. Qed.

Lemma or_string_Some (s fallback : jsstring) :
  s <> [] -> or_string (Some s) fallback = s.
Proof. intros H. unfold or_string. now rewrite (truthy_str_nonempty _ H). Qed.

Section Facts.
Variable getEffectiveModel : jsstring -> jsstring -> option jsstring.
Variable env : Auth.Env.
Variable process : Process.
Variables model runtimeModel : option jsstring.

Ltac branches authType :=
  unfold createContentGeneratorConfig;
  destruct authType as [[]|]; cbn [is_authType andb orb].

(** X8.  A configuration carries the auth type it was asked for, and no
    credential of another provider: its [apiKey], when set, is the non-empty
    value of [GEMINI_API_KEY], [DEEPSEEK_API_KEY] or [GOOGLE_API_KEY], for
    the auth type of that provider; its [openaiLikeConfig], when set, holds
    the non-empty key and base URL of the OpenAI-like or of the Azure
    variables, for that auth type, a non-empty model name, and comes without
    [apiKey]. *)
Theorem createContentGeneratorConfig_credentials (authType : option AuthType)
    (c : ContentGeneratorConfig) :
  createContentGeneratorConfig getEffectiveModel env model authType runtimeModel
    = Some c ->
  cfg_authType c = authType
  /\ (forall k, cfg_apiKey c = Some k ->
        k <> []
        /\ (authType = Some USE_GEMINI /\ env !! "GEMINI_API_KEY"%string = Some k
            \/ authType = Some USE_DEEPSEEK
               /\ env !! "DEEPSEEK_API_KEY"%string = Some k
            \/ authType = Some USE_VERTEX_AI
               /\ env !! "GOOGLE_API_KEY"%string = Some k))
  /\ (forall o, cfg_openaiLikeConfig c = Some o ->
        cfg_apiKey c = None /\ olc_apiKey o <> [] /\ olc_baseUrl o <> []
        /\ olc_modelName o <> []
        /\ (authType = Some USE_OPENAI_LIKE
            /\ env !! "OPENAI_LIKE_API_KEY"%string = Some (olc_apiKey o)
            /\ env !! "OPENAI_LIKE_BASE_URL"%string = Some (olc_baseUrl o)
            \/ authType = Some USE_AZURE_OPENAI
               /\ env !! "AZURE_OPENAI_API_KEY"%string = Some (olc_apiKey o)
               /\ env !! "AZURE_OPENAI_BASE_URL"%string = Some (olc_baseUrl o))).
Proof.
  assert (Hbase : forall c0 : ContentGeneratorConfig,
             cfg_apiKey c0 = None -> cfg_openaiLikeConfig c0 = None ->
             (forall k, cfg_apiKey c0 = Some k ->
                k <> []
                /\ (authType = Some USE_GEMINI
                      /\ env !! "GEMINI_API_KEY"%string = Some k
                    \/ authType = Some USE_DEEPSEEK
                       /\ env !! "DEEPSEEK_API_KEY"%string = Some k
                    \/ authType = Some USE_VERTEX_AI
                       /\ env !! "GOOGLE_API_KEY"%string = Some k))
             /\ (forall o, cfg_openaiLikeConfig c0 = Some o ->
                   cfg_apiKey c0 = None /\ olc_apiKey o <> [] /\ olc_baseUrl o <> []
                   /\ olc_modelName o <> []
                   /\ (authType = Some USE_OPENAI_LIKE
                       /\ env !! "OPENAI_LIKE_API_KEY"%string = Some (olc_apiKey o)
                       /\ env !! "OPENAI_LIKE_BASE_URL"%string = Some (olc_baseUrl o)
                       \/ authType = Some USE_AZURE_OPENAI
                          /\ env !! "AZURE_OPENAI_API_KEY"%string
                             = Some (olc_apiKey o)
                          /\ env !! "AZURE_OPENAI_BASE_URL"%string
                             = Some (olc_baseUrl o)))).
  { intros c0 -> ->. split; intros ? ?; discriminate. }
  revert Hbase. branches authType; intros Hbase.
  - intros [= <-]. split; [reflexivity|]. now apply Hbase.
  - destruct (truthy_opt (env !! "GEMINI_API_KEY"%string)) eqn:E.
    + destruct (truthy_opt_Some _ E) as (k & Hk & Hne). rewrite Hk. cbn.
      destruct (getEffectiveModel k _); [|discriminate]. cbn. intros [= <-]. cbn.
      split; [reflexivity|]. split; [|intros ? ?; discriminate].
      intros k' [= <-]. split; [exact Hne|]. left. now split.
    + intros [= <-]. split; [reflexivity|]. now apply Hbase.
  - destruct (truthy_opt (env !! "GOOGLE_API_KEY"%string)) eqn:E1; cbn [andb];
      [destruct (truthy_opt (env !! "GOOGLE_CLOUD_PROJECT"%string)) eqn:E2; cbn [andb];
       [destruct (truthy_opt (env !! "GOOGLE_CLOUD_LOCATION"%string)) eqn:E3;
        cbn [andb]|]|];
      try (intros [= <-]; split; [reflexivity|]; now apply Hbase).
    destruct (truthy_opt_Some _ E1) as (k & Hk & Hne). rewrite Hk. cbn.
    destruct (getEffectiveModel k _); [|discriminate]. cbn. intros [= <-]. cbn.
    split; [reflexivity|]. split; [|intros ? ?; discriminate].
    intros k' [= <-]. split; [exact Hne|]. right. right. now split.
  - destruct (truthy_opt (env !! "DEEPSEEK_API_KEY"%string)) eqn:E;
      try (intros [= <-]; split; [reflexivity|]; now apply Hbase).
    destruct (truthy_opt_Some _ E) as (k & Hk & Hne). rewrite Hk.
    intros [= <-]. cbn. split; [reflexivity|]. split; [|intros ? ?; discriminate].
    intros k' [= <-]. split; [exact Hne|]. right. left. now split.
  - destruct (truthy_opt (env !! "OPENAI_LIKE_API_KEY"%string)) eqn:E1; cbn [andb];
      [destruct (truthy_opt (env !! "OPENAI_LIKE_BASE_URL"%string)) eqn:E2;
       cbn [andb]|];
      try (intros [= <-]; split; [reflexivity|]; now apply Hbase).
    destruct (truthy_opt_Some _ E1) as (k & Hk & Hne).
    destruct (truthy_opt_Some _ E2) as (u & Hu & Hnu). rewrite Hk, Hu.
    intros [= <-]. cbn. split; [reflexivity|]. split; [intros ? ?; discriminate|].
    intros o [= <-]. cbn. split; [reflexivity|]. split; [exact Hne|].
    split; [exact Hnu|]. split; [apply or_string_truthy; discriminate|].
    left. now repeat split.
  - destruct (truthy_opt (env !! "AZURE_OPENAI_API_KEY"%string)) eqn:E1; cbn [andb];
      [destruct (truthy_opt (env !! "AZURE_OPENAI_BASE_URL"%string)) eqn:E2;
       cbn [andb]|];
      try (intros [= <-]; split; [reflexivity|]; now apply Hbase).
    destruct (truthy_opt_Some _ E1) as (k & Hk & Hne).
    destruct (truthy_opt_Some _ E2) as (u & Hu & Hnu). rewrite Hk, Hu.
    intros [= <-]. cbn. split; [reflexivity|]. split; [intros ? ?; discriminate|].
    intros o [= <-]. cbn. split; [reflexivity|]. split; [exact Hne|].
    split; [exact Hnu|]. split; [apply or_string_truthy; discriminate|].
    right. now repeat split.
  - intros [= <-]. split; [reflexivity|]. now apply Hbase.
Qed.

(** X9.  From the environment to the generator, for DeepSeek and for the
    OpenAI-like provider: the generator is built from the key (and the base
    URL and model name) of the environment when they are set, and
    [createContentGenerator] throws the error of the provider otherwise. *)
Theorem createContentGenerator_key_providers :
  (exists c,
     createContentGeneratorConfig getEffectiveModel env model (Some USE_DEEPSEEK)
       runtimeModel = Some c
     /\ createContentGenerator env process c
        = if Auth.is_set env "DEEPSEEK_API_KEY"
          then inl (DeepSeek (default [] (env !! "DEEPSEEK_API_KEY"%string)))
          else inr (Error (str "DeepSeek API key is required")))
  /\ (exists c,
        createContentGeneratorConfig getEffectiveModel env model
          (Some USE_OPENAI_LIKE) runtimeModel = Some c
        /\ createContentGenerator env process c
           = if Auth.is_set env "OPENAI_LIKE_API_KEY"
                && Auth.is_set env "OPENAI_LIKE_BASE_URL"
             then inl (OpenAILike
                         {| olc_apiKey :=
                              default [] (env !! "OPENAI_LIKE_API_KEY"%string);
                            olc_baseUrl :=
                              default [] (env !! "OPENAI_LIKE_BASE_URL"%string);
                            olc_modelName :=
                              if Auth.is_set env "OPENAI_LIKE_MODEL"
                              then default [] (env !! "OPENAI_LIKE_MODEL"%string)
                              else DEFAULT_OPENAI_LIKE_MODEL |})
             else inr (Error (str "OpenAI-like API configuration is required"))).
Proof.
  unfold Auth.is_set. split.
  - unfold createContentGeneratorConfig. cbn [is_authType].
    destruct (env !! "DEEPSEEK_API_KEY"%string) as [[|a k]|]; eexists;
      (split; [reflexivity|]); reflexivity.
  - unfold createContentGeneratorConfig. cbn [is_authType].
    destruct (env !! "OPENAI_LIKE_API_KEY"%string) as [[|a k]|];
      destruct (env !! "OPENAI_LIKE_BASE_URL"%string) as [[|b u]|]; eexists;
      (split; [reflexivity|]); try reflexivity.
    unfold createContentGenerator. cbn.
    destruct (env !! "OPENAI_LIKE_MODEL"%string) as [[|x m]|]; reflexivity.
Qed.

(** X10.  For Azure OpenAI, [createContentGenerator] on the configuration
    that [createContentGeneratorConfig] builds never returns a generator:
    without the key or the base URL it throws [Azure OpenAI configuration is
    required]; with both, the constructor reads [endpoint] of an object that
    has [apiKey], [baseUrl] and [modelName], and calling [replace] on
    [undefined] throws a [TypeError]. *)
Theorem createContentGenerator_azure_throws :
  exists c,
    createContentGeneratorConfig getEffectiveModel env model
      (Some USE_AZURE_OPENAI) runtimeModel = Some c
    /\ createContentGenerator env process c
       = if Auth.is_set env "AZURE_OPENAI_API_KEY"
            && Auth.is_set env "AZURE_OPENAI_BASE_URL"
         then inr TypeError
         else inr (Error (str "Azure OpenAI configuration is required")).
Proof.
  unfold createContentGeneratorConfig, Auth.is_set. cbn [is_authType].
  destruct (truthy_opt (env !! "AZURE_OPENAI_API_KEY"%string));
    destruct (truthy_opt (env !! "AZURE_OPENAI_BASE_URL"%string));
    eexists; (split; [reflexivity|]); reflexivity.
Qed.

(** X11.  For every auth type but Gemini and Vertex AI the configuration is
    returned without asking the service, and its model is never empty: it
    is the runtime model, else the requested model, else [gemini-2.5-pro];
    but for DeepSeek with a key [gemini-2.5-pro] is replaced by
    [deepseek-chat], and for a configured OpenAI-like provider the model is
    [OPENAI_LIKE_MODEL], else [gpt-3.5-turbo], whatever was requested. *)
Theorem createContentGeneratorConfig_model (authType : option AuthType) :
  authType <> Some USE_GEMINI -> authType <> Some USE_VERTEX_AI ->
  exists c,
    createContentGeneratorConfig getEffectiveModel env model authType runtimeModel
      = Some c
    /\ cfg_model c <> []
    /\ cfg_model c
       = let requested :=
           or_string runtimeModel (or_string model DEFAULT_GEMINI_MODEL) in
         match authType with
         | Some USE_DEEPSEEK =>
             if Auth.is_set env "DEEPSEEK_API_KEY"
                && str_eqb requested DEFAULT_GEMINI_MODEL
             then DEFAULT_DEEPSEEK_MODEL else requested
         | Some USE_OPENAI_LIKE =>
             if Auth.is_set env "OPENAI_LIKE_API_KEY"
                && Auth.is_set env "OPENAI_LIKE_BASE_URL"
             then or_string (env !! "OPENAI_LIKE_MODEL"%string)
                    DEFAULT_OPENAI_LIKE_MODEL
             else requested
         | _ => requested
         end.
Proof.
  intros Hg Hv. pose proof (effectiveModel_truthy model runtimeModel) as He.
  unfold Auth.is_set. cbv zeta.
  branches authType; try congruence.
  - eexists. split; [reflexivity|]. cbn [cfg_model]. now split.
  - rewrite (truthy_str_nonempty _ He). cbn [negb orb].
    destruct (truthy_opt (env !! "DEEPSEEK_API_KEY"%string)); cbn [andb];
      eexists; (split; [reflexivity|]); cbn [cfg_model]; [|now split].
    destruct (str_eqb _ DEFAULT_GEMINI_MODEL); (split; [|reflexivity]);
      [discriminate|exact He].
  - destruct (truthy_opt (env !! "OPENAI_LIKE_API_KEY"%string)); cbn [andb];
      [destruct (truthy_opt (env !! "OPENAI_LIKE_BASE_URL"%string)); cbn [andb]|];
      eexists; (split; [reflexivity|]); cbn [cfg_model]; try (now split).
    split; [apply or_string_truthy; discriminate|reflexivity].
  - destruct (truthy_opt (env !! "AZURE_OPENAI_API_KEY"%string)); cbn [andb];
      [destruct (truthy_opt (env !! "AZURE_OPENAI_BASE_URL"%string)); cbn [andb]|];
      eexists; (split; [reflexivity|]); cbn [cfg_model]; try (now split).
    rewrite !(or_string_Some _ _ He). now split.
  - eexists. split; [reflexivity|]. cbn [cfg_model]. now split.
Qed.

End Facts.

Lemma remove_trailing_slash_app (e : jsstring) :
  remove_trailing_slash (e ++ [47]) = e.
Proof. unfold remove_trailing_slash. rewrite rev_app_distr. cbn. apply rev_involutive. Qed.

Lemma remove_trailing_slash_keeps (e : jsstring) :
  List.last e 0 <> 47 -> remove_trailing_slash e = e.
Proof.
  unfold remove_trailing_slash. destruct e as [|c r] using rev_ind; [reflexivity|].
  rewrite List.last_last, rev_app_distr. cbn. intros H.
  destruct (N.eqb_spec c 47); [congruence|reflexivity].
Qed.

(** X12.  The constructor of the Azure generator removes one slash from
    the end of the endpoint and no more: an endpoint and the same endpoint
    followed by a slash give the same generator, two slashes leave one, and
    an argument without [endpoint] makes the constructor throw a
    [TypeError]. *)
Theorem new_AzureOpenAIContentGenerator_endpoint (config : ConstructorArgument)
    (e : jsstring) :
  List.last e 0 <> 47 ->
  (arg_endpoint config = Some e \/ arg_endpoint config = Some (e ++ [47]) ->
   new_AzureOpenAIContentGenerator config
   = inl {| gen_apiKey := arg_apiKey config; gen_endpoint := e;
            gen_model := arg_model config |})
  /\ (arg_endpoint config = Some (e ++ [47; 47]) ->
      exists g, new_AzureOpenAIContentGenerator config = inl g
                /\ gen_endpoint g = e ++ [47])
  /\ (arg_endpoint config = None ->
      new_AzureOpenAIContentGenerator config = inr TypeError).
Proof.
  intros Hl. unfold new_AzureOpenAIContentGenerator. repeat split.
  - intros [-> | ->]; [now rewrite remove_trailing_slash_keeps
                      |now rewrite remove_trailing_slash_app].
  - intros ->. eexists. split; [reflexivity|]. cbn [gen_endpoint].
    change (e ++ [47; 47]) with (e ++ [47] ++ [47]). rewrite app_assoc.
    apply remove_trailing_slash_app.
  - now intros ->.
Qed.

Lemma createContentGeneratorConfig_credentials_witness :
  exists c,
    createContentGeneratorConfig accept_model deepseek_env None (Some USE_DEEPSEEK)
      None = Some c
    /\ cfg_authType c = Some USE_DEEPSEEK
    /\ cfg_apiKey c = Some (str "sk-1")
    /\ cfg_openaiLikeConfig c = None.
Proof.
  destruct (createContentGeneratorConfig accept_model deepseek_env None
              (Some USE_DEEPSEEK) None) as [c|] eqn:E; [|discriminate].
  exists c. split; [reflexivity|].
  split;
    [exact (proj1 (createContentGeneratorConfig_credentials accept_model
                     deepseek_env None None (Some USE_DEEPSEEK) c E))|].
  vm_compute in E. injection E as <-. split; reflexivity.
Defined.

Lemma createContentGeneratorConfig_model_witness :
  exists c,
    createContentGeneratorConfig accept_model deepseek_env None (Some USE_DEEPSEEK)
      None = Some c
    /\ cfg_model c = DEFAULT_DEEPSEEK_MODEL.
Proof.
  destruct (createContentGeneratorConfig_model accept_model deepseek_env None None
              (Some USE_DEEPSEEK) ltac:(discriminate) ltac:(discriminate))
    as (c & Hc & _ & Hm).
  exists c. split; [exact Hc|]. rewrite Hm. vm_compute. reflexivity.
Defined.

Lemma new_AzureOpenAIContentGenerator_endpoint_witness :
  new_AzureOpenAIContentGenerator azure_argument
  = inl {| gen_apiKey := Some (str "secret");
           gen_endpoint := str "https://example.openai.azure.com";
           gen_model := Some (str "gpt-4o") |}.
Proof.
  refine (proj1 (new_AzureOpenAIContentGenerator_endpoint azure_argument
                   (str "https://example.openai.azure.com") _) (or_intror eq_refl)).
  vm_compute. discriminate.
Defined.

End ContentGeneratorFacts.

(** ** Messages: function results, skipped turns, synthesized ids *)

Module TurnFacts.

Import JS Json Azure JSFacts MessageFacts Turns.

Lemma omap_nil_none {A B : Type} (f : A -> option B) (l : list A) :
  forallb (fun a => negb (defined f a)) l = true -> omap f l = [].
Proof. apply omap_nil_forallb. Qed.

(** X13.  A turn with function-result parts and no function-call part
    contributes one [tool] message per function-result part, in order, at
    the turn's place: each carries the id of the result as [tool_call_id]
    and [JSON.stringify(response)] as content.  The text parts of the turn
    and its role are dropped, and the clock is not read. *)
Theorem convertToOpenAIMessages_functionResponse_turn
    (clock : Clock) (pre post : list Content) (content : Content) :
  let ps := default [] (parts content) in
  let ticks := (convertContents_from clock 0 pre).2 in
  forallb (fun p => negb (has_functionCall p)) ps = true ->
  existsb has_functionResponse ps = true ->
  convertToOpenAIMessages clock (pre ++ content :: post)
  = convertToOpenAIMessages clock pre
      ++ List.map tool_message (omap functionResponse ps)
      ++ (convertContents_from clock ticks post).1.
Proof.
  intros ps ticks Hno Hsome. rewrite convertToOpenAIMessages_turn. fold ticks.
  assert (Hstep : convertContent clock ticks content
                  = (List.map tool_message (omap functionResponse ps), ticks)).
  { unfold convertContent. fold ps.
    rewrite (omap_nil_forallb functionCall ps Hno). simpl.
    pose proof (omap_length_existsb functionResponse ps Hsome) as Hlen.
    apply Nat.ltb_lt in Hlen. rewrite Hlen. reflexivity. }
  now rewrite Hstep.
Qed.

(** X14.  A turn none of whose parts is a text, a function call or a
    function result (a turn without parts among them) contributes no
    message: the output is that of the conversation without the turn. *)
Theorem convertToOpenAIMessages_skips_turn
    (clock : Clock) (pre post : list Content) (content : Content) :
  forallb (fun p => negb (has_functionCall p) && negb (has_functionResponse p)
                    && negb (has_text p))
    (default [] (parts content)) = true ->
  convertToOpenAIMessages clock (pre ++ content :: post)
  = convertToOpenAIMessages clock (pre ++ post).
Proof.
  intros H. set (ps := default [] (parts content)) in *.
  assert (Hstep : forall ticks, convertContent clock ticks content = ([], ticks)).
  { intros ticks. unfold convertContent. fold ps.
    rewrite (omap_nil_forallb functionCall ps), (omap_nil_forallb functionResponse ps),
      (omap_nil_forallb text ps); [reflexivity| | |];
      (eapply forallb_weaken; [|exact H]); intros p Hp;
      apply andb_true_iff in Hp as [Hp Ht]; apply andb_true_iff in Hp as [Hc Hr];
      assumption. }
  unfold convertToOpenAIMessages. rewrite !convertContents_from_app. simpl.
  rewrite Hstep.
  destruct (convertContents_from clock 0 pre) as [ms t]. simpl.
  now destruct (convertContents_from clock t post).
Qed.

Lemma convertContent_contents (clock clock' : Clock) (ticks ticks' : nat)
    (content : Content) :
  List.map m_content (convertContent clock ticks content).1
  = List.map m_content (convertContent clock' ticks' content).1.
Proof.
  unfold convertContent.
  destruct (0 <? length (omap functionCall (default [] (parts content))))%nat.
  - destruct (toolCalls_from clock ticks 0 _) as [tcs t1].
    destruct (toolCalls_from clock' ticks' 0 _) as [tcs' t1']. reflexivity.
  - destruct (0 <? length (omap functionResponse (default [] (parts content))))%nat;
      [reflexivity|].
    destruct (0 <? length (omap text (default [] (parts content))))%nat; reflexivity.
Qed.

Lemma convertContents_from_contents (clock clock' : Clock) (contents : list Content) :
  forall ticks ticks',
    List.map m_content (convertContents_from clock ticks contents).1
    = List.map m_content (convertContents_from clock' ticks' contents).1.
Proof.
  induction contents as [|c cs IH]; intros ticks ticks'; [reflexivity|].
  cbn [convertContents_from].
  pose proof (convertContent_contents clock clock' ticks ticks' c) as Hc.
  destruct (convertContent clock ticks c) as [ms t1].
  destruct (convertContent clock' ticks' c) as [ms' t1'].
  specialize (IH t1 t1').
  destruct (convertContents_from clock t1 cs) as [ms2 t2].
  destruct (convertContents_from clock' t1' cs) as [ms2' t2'].
  simpl in *. now rewrite !List.map_app, Hc, IH.
Qed.

(** X15.  [countTokens] does not depend on the clock: the synthesized ids
    of tool calls are not part of the counted text. *)
Theorem countTokens_ignores_clock (clock clock' : Clock) (contents : ContentListUnion) :
  countTokens clock contents = countTokens clock' contents.
Proof.
  unfold countTokens, totalText, convertToOpenAIMessages.
  rewrite <- !(List.map_map m_content content_or_empty).
  now rewrite (convertContents_from_contents clock clock' (toContents contents) 0 0)%nat.
Qed.

Lemma str_inj (a b : string) : str a = str b -> a = b.
Proof.
  unfold str. intros H.
  assert (Hl : list_ascii_of_string a = list_ascii_of_string b).
  { revert H. generalize (list_ascii_of_string a) (list_ascii_of_string b).
    induction l as [|x l IH]; intros [|y l'] H; simpl in H; try discriminate;
      [reflexivity|].
    injection H as Hx Hl. f_equal; [|now apply IH].
    rewrite <- (ascii_N_embedding x), <- (ascii_N_embedding y). now rewrite Hx. }
  rewrite <- (string_of_list_ascii_of_string a),
    <- (string_of_list_ascii_of_string b). now rewrite Hl.
Qed.

Lemma decimal_inj (a b : N) : decimal a = decimal b -> a = b.
Proof.
  unfold decimal. intros H. apply str_inj in H.
  apply DecimalN.Unsigned.to_uint_inj.
  assert (Hnn : forall n : N, N.to_uint n <> Decimal.Nil).
  { intros [|p]; [discriminate | apply DecimalPos.Unsigned.to_uint_nonnil]. }
  pose proof (NilZero.usu _ (Hnn a)) as Ha.
  pose proof (NilZero.usu _ (Hnn b)) as Hb.
  rewrite H in Ha. congruence.
Qed.

Lemma string_of_uint_digits (d : Decimal.uint) :
  forallb is_digit_char (str (NilEmpty.string_of_uint d)) = true.
Proof. induction d; simpl; [reflexivity | assumption ..]. Qed.

Lemma decimal_digits (n : N) : forallb is_digit_char (decimal n) = true.
Proof.
  unfold decimal, NilZero.string_of_uint.
  destruct (N.to_uint n) eqn:E; try reflexivity;
    rewrite <- E; apply string_of_uint_digits.
Qed.

Lemma split_at_separator (x : N) (a a' b b' : list N) :
  ~ In x a -> ~ In x a' -> a ++ x :: b = a' ++ x :: b' -> a = a' /\ b = b'.
Proof.
  revert a'. induction a as [|c a IH]; intros [|c' a'] Ha Ha' H; simpl in *.
  - injection H as <-. now split.
  - injection H as <- _. tauto.
  - injection H as -> _. tauto.
  - injection H as <- H.
    assert (Hn : ~ In x a) by tauto. assert (Hn' : ~ In x a') by tauto.
    destruct (IH a' Hn Hn' H) as [-> ->]. now split.
Qed.

Lemma decimal_no_underscore (n : N) : ~ In 95 (decimal n).
Proof.
  intros H. pose proof (decimal_digits n) as Hd.
  rewrite forallb_forall in Hd. specialize (Hd _ H). discriminate.
Qed.

Lemma synthesized_id_inj (now now' : N) (i j : nat) :
  synthesized_id now i = synthesized_id now' j -> now = now' /\ i = j.
Proof.
  unfold synthesized_id. intros H. apply app_inv_head in H.
  change (str "_") with [95] in H. cbn [app] in H.
  apply split_at_separator in H as [Hn Hi];
    [|apply decimal_no_underscore | apply decimal_no_underscore].
  split; [now apply decimal_inj|]. apply decimal_inj in Hi. lia.
Qed.

(** X16.  Within one message the ids synthesized for two function calls
    without id differ, whatever the clock reads: the index of the call in
    the message is part of the id. *)
Theorem synthesized_ids_differ
    (clock : Clock) (ticks : nat) (content : Content)
    (m : OpenAILikeMessage) (ticks' : nat) (tcs : list ToolCall)
    (i j : nat) (fci fcj : FunctionCall) (tci tcj : ToolCall) :
  let fcs := omap functionCall (default [] (parts content)) in
  convertContent clock ticks content = ([m], ticks') ->
  m_tool_calls m = Some tcs ->
  fcs !! i = Some fci -> fcs !! j = Some fcj ->
  truthy_opt (fc_id fci) = false -> truthy_opt (fc_id fcj) = false ->
  tcs !! i = Some tci -> tcs !! j = Some tcj ->
  i <> j ->
  tc_id tci <> tc_id tcj.
Proof.
  intros fcs Hc Hm Hi Hj Hni Hnj Hti Htj Hij.
  assert (Hex : existsb has_functionCall (default [] (parts content)) = true).
  { destruct (existsb has_functionCall (default [] (parts content))) eqn:E;
      [reflexivity|].
    exfalso. assert (Hnil : fcs = []).
    { apply omap_nil_forallb. apply forallb_forall. intros p Hp.
      apply negb_true_iff. destruct (defined functionCall p) eqn:Ed; [|reflexivity].
      assert (existsb has_functionCall (default [] (parts content)) = true)
        by (apply existsb_exists; exists p; split; [exact Hp | exact Ed]).
      congruence. }
    rewrite Hnil in Hi. discriminate. }
  destruct (convertContent_functionCall_message clock ticks content Hex)
    as [m0 [tcs0 [t0 [Hc0 [_ [_ [Hm0 [_ [Hget _]]]]]]]]].
  rewrite Hc in Hc0. injection Hc0 as <- _. rewrite Hm in Hm0. injection Hm0 as <-.
  destruct (Hget i fci Hi) as [ti [Hti' [_ [_ [_ [_ Hidi]]]]]].
  destruct (Hget j fcj Hj) as [tj [Htj' [_ [_ [_ [_ Hidj]]]]]].
  fold fcs in Hti', Htj'.
  rewrite Hti in Hti'. injection Hti' as <-.
  rewrite Htj in Htj'. injection Htj' as <-.
  rewrite (Hidi Hni), (Hidj Hnj). intros E.
  apply synthesized_id_inj in E as [_ E]. contradiction.
Qed.

Lemma convertToOpenAIMessages_functionResponse_turn_witness :
  convertToOpenAIMessages sample_clock
    (text_conversation ++ result_turn :: text_conversation)
  = convertToOpenAIMessages sample_clock text_conversation
      ++ [tool_message sample_result]
      ++ convertToOpenAIMessages sample_clock text_conversation.
Proof.
  exact (convertToOpenAIMessages_functionResponse_turn sample_clock
           text_conversation text_conversation result_turn eq_refl eq_refl).
Defined.

Lemma convertToOpenAIMessages_skips_turn_witness :
  convertToOpenAIMessages sample_clock
    (text_conversation ++ other_turn :: text_conversation)
  = convertToOpenAIMessages sample_clock (text_conversation ++ text_conversation).
Proof.
  exact (convertToOpenAIMessages_skips_turn sample_clock text_conversation
           text_conversation other_turn eq_refl).
Defined.

Lemma synthesized_ids_differ_witness :
  exists m tci tcj,
    convertContent frozen_clock 0 two_calls_turn = ([m], 2%nat) /\
    m_tool_calls m = Some [tci; tcj] /\
    tc_id tci <> tc_id tcj.
Proof.
  destruct (convertContent frozen_clock 0 two_calls_turn) as [ms ticks] eqn:E.
  vm_compute in E. injection E as <- <-.
  eexists. eexists. eexists. split; [reflexivity|]. split; [reflexivity|].
  refine (synthesized_ids_differ frozen_clock 0 two_calls_turn _ 2 _ 0 1
            sample_call sample_call _ _ _ _ _ _ _ _ _ _ _);
    try (vm_compute; reflexivity); try discriminate.
Defined.

End TurnFacts.

(** ** Responses: what is thrown, what is returned *)

Module ResponseShapeFacts.

Import JS Json Azure AzureResponse ResponseFacts Responses.

Lemma mapM_Throw_In {A B : Type} (f : A -> Result B) (xs : list A) (e : Error) :
  mapM f xs = Throw e -> exists x, In x xs /\ f x = Throw e.
Proof.
  induction xs as [|x xs IH]; simpl; [discriminate|].
  destruct (f x) as [y|e0] eqn:E; simpl.
  - destruct (mapM f xs) as [ys|e1]; simpl; [discriminate|].
    intros H. injection H as ->. destruct (IH eq_refl) as [x' [Hin Hx']].
    exists x'. split; [now right | exact Hx'].
  - intros H. injection H as ->. exists x. split; [now left | exact E].
Qed.

Lemma omap_functionCall_parts (fcs : list FunctionCall) :
  omap functionCall (List.map functionCall_part fcs) = fcs.
Proof. induction fcs as [|fc fcs IH]; [reflexivity|]. simpl. f_equal. exact IH. Qed.

Lemma functionCall_of_toolCall_Throw (tc : WireToolCall) (e : Error) :
  functionCall_of_toolCall tc = Throw e ->
  e = JSONSyntaxError (wtc_arguments tc) /\
  wtc_arguments tc <> [] /\ JSON_parse (wtc_arguments tc) = None.
Proof.
  unfold functionCall_of_toolCall, parse_arguments.
  destruct (wtc_arguments tc) as [|c a] eqn:Ea.
  - vm_compute. discriminate.
  - rewrite (arguments_text_nonempty (c :: a)) by discriminate.
    destruct (JSON_parse (c :: a)); simpl; [discriminate|].
    intros H. injection H as <-. repeat split. discriminate.
Qed.

(** X17.  [convertToGeminiResponse] throws in two cases only: the response
    has no choice, or the first choice has a tool call whose [arguments] is
    a non-empty string that [JSON.parse] rejects; the error is then the
    syntax error of that string. *)
Theorem convertToGeminiResponse_errors (response : OpenAILikeResponse) (e : Error) :
  convertToGeminiResponse response = Throw e ->
  match e with
  | NoChoices => choices response = []
  | JSONSyntaxError text =>
      exists choice rest tool_calls tc,
        choices response = choice :: rest /\
        wm_tool_calls (ch_message choice) = Some tool_calls /\
        In tc tool_calls /\ wtc_arguments tc = text /\
        text <> [] /\ JSON_parse text = None
  end.
Proof.
  unfold convertToGeminiResponse.
  destruct (choices response) as [|choice rest] eqn:Hc.
  - intros H. injection H as <-. reflexivity.
  - destruct (wm_tool_calls (ch_message choice)) as [tcs|] eqn:Ht; [|discriminate].
    destruct (0 <? length tcs)%nat; [|discriminate].
    destruct (mapM functionCall_of_toolCall tcs) as [fcs|e1] eqn:Em; simpl;
      [discriminate|].
    intros H. injection H as <-.
    destruct (mapM_Throw_In _ _ _ Em) as [tc [Hin Htc]].
    destruct (functionCall_of_toolCall_Throw tc e1 Htc) as [-> [Hne Hp]].
    exists choice, rest, tcs, tc. repeat split; assumption.
Qed.

Lemma convertToGeminiResponse_errors_witness :
  exists choice rest tool_calls tc,
    choices (response_with (dq "{'path': ")) = choice :: rest /\
    wm_tool_calls (ch_message choice) = Some tool_calls /\
    In tc tool_calls /\ wtc_arguments tc = dq "{'path': " /\
    dq "{'path': " <> [] /\ JSON_parse (dq "{'path': ") = None.
Proof.
  exact (convertToGeminiResponse_errors (response_with (dq "{'path': "))
           (JSONSyntaxError (dq "{'path': ")) eq_refl).
Defined.

(** X18.  A response that [convertToGeminiResponse] returns has exactly one
    candidate, of role [model] and index 0, with at least one part.  With
    function calls, [functionCalls] lists the function-call parts of the
    candidate in order and [usageMetadata] is not set; without, the
    candidate has a single text part and [usageMetadata] carries the three
    token counts of the wire response. *)
Theorem convertToGeminiResponse_shape (response : OpenAILikeResponse)
    (r : GenerateContentResponse) :
  convertToGeminiResponse response = Ok r ->
  exists c,
    candidates r = [c] /\ cand_role c = str "model" /\ cand_index c = 0%Z /\
    cand_parts c <> [] /\
    match functionCalls r with
    | Some fcs =>
        fcs <> [] /\ omap functionCall (cand_parts c) = fcs /\
        usageMetadata r = None
    | None =>
        (exists content, cand_parts c = [text_part content]) /\
        usageMetadata r
        = Some {| promptTokenCount := prompt_tokens (usage response);
                  candidatesTokenCount := completion_tokens (usage response);
                  totalTokenCount := total_tokens (usage response) |}
    end.
Proof.
  unfold convertToGeminiResponse.
  destruct (choices response) as [|choice rest]; [discriminate|].
  assert (Htext : forall r0,
             Ok {| candidates :=
                     [candidate
                        [text_part (default [] (wm_content (ch_message choice)))]
                        (Some (ch_finish_reason choice))];
                   functionCalls := None;
                   usageMetadata :=
                     Some {| promptTokenCount := prompt_tokens (usage response);
                             candidatesTokenCount := completion_tokens (usage response);
                             totalTokenCount := total_tokens (usage response) |} |}
             = Ok r0 ->
             exists c,
               candidates r0 = [c] /\ cand_role c = str "model" /\
               cand_index c = 0%Z /\ cand_parts c <> [] /\
               match functionCalls r0 with
               | Some fcs =>
                   fcs <> [] /\ omap functionCall (cand_parts c) = fcs /\
                   usageMetadata r0 = None
               | None =>
                   (exists content, cand_parts c = [text_part content]) /\
                   usageMetadata r0
                   = Some {| promptTokenCount := prompt_tokens (usage response);
                             candidatesTokenCount := completion_tokens (usage response);
                             totalTokenCount := total_tokens (usage response) |}
               end).
  { intros r0 H. injection H as <-. eexists. simpl.
    repeat split; try reflexivity; [discriminate | eauto]. }
  destruct (wm_tool_calls (ch_message choice)) as [tcs|]; [|apply Htext].
  destruct (0 <? length tcs)%nat eqn:Hlen; [|apply Htext].
  destruct (mapM functionCall_of_toolCall tcs) as [fcs|e1] eqn:Em; simpl;
    [|discriminate].
  intros H. injection H as <-. eexists.
  cbn [candidates functionCalls usageMetadata].
  assert (Hne : fcs <> []).
  { intros ->. apply mapM_length in Em. simpl in Em.
    rewrite <- Em in Hlen. discriminate. }
  split; [reflexivity|]. cbn [candidate cand_parts cand_role cand_index].
  split; [reflexivity|]. split; [reflexivity|]. split.
  - destruct fcs; [congruence|]. now destruct (truthy_opt _).
  - split; [exact Hne|]. split; [|reflexivity].
    rewrite omap_app, omap_functionCall_parts.
    now destruct (truthy_opt _).
Qed.

Lemma convertToGeminiResponse_shape_witness :
  exists r c,
    convertToGeminiResponse (text_response None) = Ok r /\
    candidates r = [c] /\ cand_parts c = [text_part []] /\
    functionCalls r = None.
Proof.
  destruct (convertToGeminiResponse (text_response None)) as [r|e] eqn:E;
    [|discriminate].
  destruct (convertToGeminiResponse_shape (text_response None) r E)
    as [c [Hc _]].
  exists r, c. vm_compute in E. injection E as <-. simpl in Hc.
  injection Hc as <-. repeat split.
Defined.

End ResponseShapeFacts.

(** ** The stream: reads, lines, and what is accumulated *)

Module LineFacts.

Import JS Json Azure AzureResponse AzureStream ResponseFacts StreamFacts Lines.

Lemma no_newline_app (a b : jsstring) :
  no_newline a -> no_newline b -> no_newline (a ++ b).
Proof. unfold no_newline. rewrite forallb_app. intros -> ->. reflexivity. Qed.

Lemma complete_lines_tail (s tail : jsstring) :
  no_newline tail -> complete_lines (s ++ tail) = complete_lines s.
Proof.
  intros Ht. unfold complete_lines. rewrite split_lines_app.
  rewrite (split_lines_no_newline (List.last (split_lines s) [] ++ tail)).
  - apply removelast_last.
  - apply no_newline_app; [apply last_split_lines_no_newline | exact Ht].
Qed.

Lemma split_lines_line (line rest : jsstring) :
  no_newline line ->
  split_lines (line ++ LF :: rest) = line :: split_lines rest.
Proof.
  unfold no_newline. induction line as [|c r IH]; intros H.
  - reflexivity.
  - simpl in H. apply andb_true_iff in H as [Hc Hr].
    apply negb_true_iff in Hc. cbn [app].
    rewrite (split_lines_cons c _ Hc), (IH Hr). reflexivity.
Qed.

Lemma complete_lines_line (line rest : jsstring) :
  no_newline line ->
  complete_lines (line ++ LF :: rest) = line :: complete_lines rest.
Proof.
  intros H. unfold complete_lines. rewrite (split_lines_line _ _ H).
  pose proof (split_lines_nonempty rest).
  destruct (split_lines rest); [congruence | reflexivity].
Qed.

Lemma last_split_lines_ended (s : jsstring) :
  ends_a_line s -> List.last (split_lines s) [] = [].
Proof.
  intros [->|[b ->]]; [reflexivity|].
  rewrite split_lines_app.
  rewrite (split_lines_line (List.last (split_lines b) []) []
             (last_split_lines_no_newline b)).
  set (l := List.last (split_lines b) []).
  change (l :: split_lines []) with ([l] ++ [[]]). rewrite app_assoc. apply last_last.
Qed.

Lemma complete_lines_app (a b : jsstring) :
  ends_a_line a -> complete_lines (a ++ b) = complete_lines a ++ complete_lines b.
Proof.
  intros Ha. unfold complete_lines. rewrite split_lines_app.
  rewrite (last_split_lines_ended a Ha). cbn [app].
  apply removelast_app, split_lines_nonempty.
Qed.

Lemma frame_of_ignored (parseChunk : jsstring -> option OpenAILikeStreamChunk)
    (line : jsstring) :
  ignored_line parseChunk line ->
  match frame_of parseChunk line with
  | Some chunk => first_choice chunk = None
  | None => True
  end.
Proof.
  unfold frame_of. intros [H|[H|[H|[H|[chunk [H Hc]]]]]].
  - rewrite H. exact I.
  - rewrite H. simpl. exact I.
  - rewrite H. now destruct (_ || _).
  - rewrite H. destruct (_ || _); [exact I|]. now destruct (startsWith _ _).
  - rewrite H. destruct (_ || _); [exact I|]. now destruct (startsWith _ _).
Qed.

Lemma processChunk_no_choice (st : StreamState) (chunk : OpenAILikeStreamChunk) :
  first_choice chunk = None -> processChunk st chunk = ([], st, false).
Proof.
  unfold first_choice, processChunk, handleChunk.
  destruct (chunk_choices chunk) as [[|c cs]|]; [reflexivity|discriminate|reflexivity].
Qed.

Lemma runChunks_skip (before after : list OpenAILikeStreamChunk)
    (chunk : OpenAILikeStreamChunk) (st : StreamState) :
  first_choice chunk = None ->
  runChunks st (before ++ chunk :: after) = runChunks st (before ++ after).
Proof.
  intros H. rewrite !runChunks_stepChunks.
  destruct (stepChunks st before) as [[ys st1] ret]. simpl.
  destruct ret; [reflexivity|]. now rewrite (processChunk_no_choice st1 chunk H).
Qed.

(** X19.  What the streaming generator yields depends only on the bytes of
    the body, not on how the reads of the response cut them: any sequence
    of reads yields what the single read of their concatenation yields. *)
Theorem generateContentStream_read_boundaries
    (parseChunk : jsstring -> option OpenAILikeStreamChunk)
    (reads : list jsstring) :
  generateContentStream parseChunk reads
  = generateContentStream parseChunk [concat reads].
Proof.
  rewrite !generateContentStream_frames. unfold frames. simpl.
  now rewrite app_nil_r.
Qed.

(** X20.  A last read that holds no newline is never processed: the text
    after the last newline of the body stays in the buffer when the reader
    is done, and the generator yields what it yields without it. *)
Theorem generateContentStream_unterminated_line
    (parseChunk : jsstring -> option OpenAILikeStreamChunk)
    (reads : list jsstring) (tail : jsstring) :
  no_newline tail ->
  generateContentStream parseChunk (reads ++ [tail])
  = generateContentStream parseChunk reads.
Proof.
  intros Ht. rewrite !generateContentStream_frames. unfold frames.
  rewrite concat_app. simpl. rewrite app_nil_r.
  now rewrite (complete_lines_tail _ _ Ht).
Qed.

(** X21.  A line of the body has no effect, on what is yielded and on what
    is accumulated, when it is blank, is the [data: [DONE]] marker, does not
    start with [data: ], carries a payload that does not parse, or carries a
    chunk without a first choice: the generator yields the same with the
    line taken out of the body. *)
Theorem generateContentStream_ignored_line
    (parseChunk : jsstring -> option OpenAILikeStreamChunk)
    (before line after : jsstring) :
  ends_a_line before ->
  no_newline line ->
  ignored_line parseChunk line ->
  generateContentStream parseChunk [before ++ line ++ LF :: after]
  = generateContentStream parseChunk [before ++ after].
Proof.
  intros Hb Hl Hi. rewrite !generateContentStream_frames. unfold frames.
  simpl. rewrite !app_nil_r.
  rewrite !(complete_lines_app before _ Hb), (complete_lines_line _ _ Hl).
  rewrite !omap_app.
  change (omap (frame_of parseChunk) (line :: complete_lines after))
    with (match frame_of parseChunk line with
          | Some chunk => chunk :: omap (frame_of parseChunk) (complete_lines after)
          | None => omap (frame_of parseChunk) (complete_lines after)
          end).
  pose proof (frame_of_ignored parseChunk line Hi) as Hf.
  destruct (frame_of parseChunk line) as [chunk|]; [|reflexivity].
  now apply runChunks_skip.
Qed.

Lemma content_responses_no_calls (choice : StreamChoice) :
  List.Forall
    (fun r => functionCalls r = None /\
              forall c, In c (candidates r) -> omap functionCall (cand_parts c) = [])
    (content_responses choice).
Proof.
  unfold content_responses. destruct (truthy_opt _); constructor; [|constructor].
  split; [reflexivity|]. intros c [<-|[]]. reflexivity.
Qed.

(** X22.  When no chunk of the stream carries a finish reason, the generator
    yields the content responses of the chunks and nothing else: the tool
    calls accumulated from the deltas are never emitted, no response has
    [functionCalls] and no part is a function call. *)
Theorem stream_without_finish_reason
    (parseChunk : jsstring -> option OpenAILikeStreamChunk)
    (reads : list jsstring) :
  List.Forall (fun c => finishes c = false) (frames parseChunk reads) ->
  generateContentStream parseChunk reads
  = flat_map chunk_content_responses (frames parseChunk reads)
  /\ List.Forall
       (fun r => functionCalls r = None /\
                 forall c, In c (candidates r) ->
                           omap functionCall (cand_parts c) = [])
       (generateContentStream parseChunk reads).
Proof.
  intros Hno.
  assert (Hrun : generateContentStream parseChunk reads
                 = flat_map chunk_content_responses (frames parseChunk reads)).
  { rewrite generateContentStream_frames.
    rewrite <- (app_nil_r (frames parseChunk reads)) at 1.
    rewrite (runChunks_no_finish _ [] initial_state Hno). simpl.
    now rewrite app_nil_r. }
  split; [exact Hrun|]. rewrite Hrun.
  apply List.Forall_forall. intros r Hr. apply in_flat_map in Hr as [c [_ Hr]].
  unfold chunk_content_responses in Hr.
  destruct (first_choice c) as [choice|]; [|contradiction].
  pose proof (content_responses_no_calls choice) as Hall.
  rewrite List.Forall_forall in Hall. now apply Hall.
Qed.

Lemma stream_without_finish_reason_witness :
  generateContentStream parseChunk_json unfinished_reads
  = [response_of [text_part (str "Hi")] None None].
Proof.
  assert (H : List.Forall (fun c => finishes c = false)
                (frames parseChunk_json unfinished_reads)).
  { vm_compute. repeat constructor. }
  rewrite (proj1 (stream_without_finish_reason parseChunk_json unfinished_reads H)).
  vm_compute. reflexivity.
Defined.

Lemma map_update_keys (m : ToolCallMap) (k : Z)
    (f : AccumulatedToolCall -> AccumulatedToolCall) :
  List.map fst (map_update m k f) = List.map fst m.
Proof.
  induction m as [|[k0 v] m IH]; [reflexivity|]. simpl.
  destruct (k0 =? k)%Z; simpl; [reflexivity | now rewrite IH].
Qed.

Lemma map_has_keys (m : ToolCallMap) (k : Z) :
  map_has m k = existsb (fun k' => (k' =? k)%Z) (List.map fst m).
Proof.
  unfold map_has. induction m as [|[k0 v] m IH]; [reflexivity|].
  simpl. now rewrite IH.
Qed.

Lemma applyDelta_keys (m : ToolCallMap) (d : ToolCallDelta) :
  List.map fst (applyDelta m d)
  = if existsb (fun k' => (k' =? delta_index d)%Z) (List.map fst m)
    then List.map fst m else List.map fst m ++ [delta_index d].
Proof.
  unfold applyDelta, delta_index. rewrite map_update_keys, map_has_keys.
  destruct (existsb _ _); [reflexivity|]. unfold map_add.
  now rewrite List.map_app.
Qed.

Lemma foldl_applyDelta_keys (ds : list ToolCallDelta) :
  forall m,
    List.map fst (foldl applyDelta m ds)
    = List.map fst m ++ first_occurrences (List.map fst m) (List.map delta_index ds).
Proof.
  induction ds as [|d ds IH]; intros m; simpl; [now rewrite app_nil_r|].
  rewrite IH, applyDelta_keys.
  destruct (existsb _ _); [reflexivity|]. now rewrite <- app_assoc.
Qed.

Lemma existsb_eqb_In (k : Z) (l : list Z) :
  existsb (fun k' => (k' =? k)%Z) l = true <-> In k l.
Proof.
  rewrite existsb_exists. split.
  - intros [x [Hx E]]. apply Z.eqb_eq in E. now subst.
  - intros H. exists k. split; [exact H | apply Z.eqb_refl].
Qed.

Lemma first_occurrences_NoDup (ks : list Z) :
  forall seen, NoDup seen -> NoDup (seen ++ first_occurrences seen ks).
Proof.
  induction ks as [|k ks IH]; intros seen Hs; simpl; [now rewrite app_nil_r|].
  destruct (existsb _ seen) eqn:E; [now apply IH|].
  change (k :: first_occurrences (seen ++ [k]) ks)
    with ([k] ++ first_occurrences (seen ++ [k]) ks).
  rewrite app_assoc. apply IH.
  apply NoDup_app. split; [exact Hs|]. split; [|apply NoDup_singleton].
  intros x Hx Hk. apply list_elem_of_In in Hx.
  apply list_elem_of_In in Hk. destruct Hk as [<-|[]].
  apply existsb_eqb_In in Hx. congruence.
Qed.

Lemma first_occurrences_In (ks : list Z) :
  forall seen k, In k (seen ++ first_occurrences seen ks) <-> In k seen \/ In k ks.
Proof.
  induction ks as [|k0 ks IH]; intros seen k; simpl.
  - rewrite app_nil_r. tauto.
  - destruct (existsb _ seen) eqn:E.
    + rewrite IH. apply existsb_eqb_In in E. split; [tauto|].
      intros [H|[<-|H]]; tauto.
    + change (k0 :: first_occurrences (seen ++ [k0]) ks)
        with ([k0] ++ first_occurrences (seen ++ [k0]) ks).
      rewrite app_assoc, IH, in_app_iff. simpl. tauto.
Qed.

(** X23.  The map of accumulated tool calls holds one record per index that
    occurs in the deltas, and lists the indexes in the order in which they
    first arrived, not in numerical order. *)
Theorem accumulated_calls_in_order_of_arrival (chunks : list OpenAILikeStreamChunk) :
  let deltas := flat_map chunk_deltas chunks in
  let indexes := List.map fst (accumulatedToolCalls (foldl absorb initial_state chunks)) in
  indexes = first_occurrences [] (List.map delta_index deltas) /\
  NoDup indexes /\
  forall k, In k indexes <-> exists d, In d deltas /\ delta_index d = k.
Proof.
  intros deltas indexes. subst indexes.
  rewrite absorbed_calls. fold deltas. simpl.
  rewrite (foldl_applyDelta_keys deltas []). simpl.
  split; [reflexivity|]. split.
  - exact (first_occurrences_NoDup (List.map delta_index deltas) [] (NoDup_nil_2)).
  - intros k.
    rewrite (first_occurrences_In (List.map delta_index deltas) [] k).
    rewrite in_map_iff. simpl. split.
    + intros [[]|[d [E H]]]. eauto.
    + intros [d [H E]]. right. eauto.
Qed.

Lemma generateContentStream_unterminated_line_witness :
  no_newline unterminated_line /\
  generateContentStream parseChunk_json (unfinished_reads ++ [unterminated_line])
  = generateContentStream parseChunk_json unfinished_reads.
Proof.
  assert (H : no_newline unterminated_line) by (vm_compute; reflexivity).
  split; [exact H|].
  exact (generateContentStream_unterminated_line parseChunk_json unfinished_reads
           unterminated_line H).
Defined.

Lemma generateContentStream_ignored_line_witness :
  generateContentStream parseChunk_json
    [content_line ++ comment_line ++ LF :: content_line]
  = generateContentStream parseChunk_json [content_line ++ content_line].
Proof.
  refine (generateContentStream_ignored_line parseChunk_json content_line
            comment_line content_line _ _ _).
  - right. exists (removelast content_line). vm_compute. reflexivity.
  - vm_compute. reflexivity.
  - right. right. left. vm_compute. reflexivity.
Defined.

End LineFacts.

(** ** The schema conversion run twice *)

Module ShapeFacts.

Import JS Json JSFacts AzureTools ToolsFacts Shapes.

Local Open Scope nat_scope.

Section WithToLowerCase.

Context {lower : ToLowerCase}.

(** [toLowerCase] leaves the strings it returns as they are. *)
Hypothesis toLowerCase_idempotent :
  forall s : jsstring, toLowerCase (toLowerCase s) = toLowerCase s.

Lemma toLowerCase_lowercase (s : jsstring) : is_lowercase s -> toLowerCase s = s.
Proof. intros [s0 ->]. apply toLowerCase_idempotent. Qed.

Lemma set_field_same (fields : list (jsstring * val)) (name : jsstring) (v : val) :
  get_field fields name = Some v -> set_field fields name v = fields.
Proof.
  induction fields as [|[k x] rest IH]; [discriminate|]. simpl.
  destruct (str_eqb k name); [now intros [= ->] | intros H; now rewrite IH].
Qed.

Lemma write_same (h : heap) (l : nat) (name : jsstring) (v : val) :
  read h (VRef l) (KName name) = Some v -> write h l name v = h.
Proof.
  simpl. unfold write. destruct (h !! l) as [[fields|elems]|] eqn:Hc;
    try discriminate.
  intros Hg. rewrite (set_field_same _ _ _ Hg). now apply list_insert_id.
Qed.

Lemma covered_child (h : heap) (x c : val) :
  covered h x -> child h x c -> covered h c.
Proof. intros Hx Hc w Hw. apply Hx. eapply position_child; eassumption. Qed.

Lemma visit_fixed (rec : heap -> val -> option heap)
    (container : heap -> option val) (h : heap) (cont : val) (keys : list key) :
  container h = Some cont ->
  (forall k c hx, read h cont k = Some c -> rec h c = Some hx -> hx = h) ->
  forall h', visit rec container h keys = Some h' -> h' = h.
Proof.
  intros Hcont Hrec. induction keys as [|k rest IH]; intros h' Hv.
  - now injection Hv as <-.
  - cbn [visit] in Hv. rewrite Hcont in Hv.
    destruct (read h cont k) as [c|] eqn:Hc.
    + destruct (rec h c) as [hx|] eqn:Hx; [|discriminate].
      rewrite (Hrec k c hx Hc Hx) in Hv. now apply IH.
    + now apply IH.
Qed.

Lemma forEach_schema_fixed (rec : heap -> val -> option heap) (h : heap)
    (schema : val) (name : jsstring) :
  (forall a k c hx,
      read h schema (KName name) = Some a -> is_array h a = true ->
      read h a k = Some c -> rec h c = Some hx -> hx = h) ->
  forall h', forEach_schema rec h schema name = Some h' -> h' = h.
Proof.
  intros Hrec h'. unfold forEach_schema.
  destruct (read h schema (KName name)) as [a|] eqn:Ha; [|now intros [= <-]].
  destruct (is_array h a) eqn:Harr; [|now intros [= <-]].
  apply (visit_fixed rec _ h a); [reflexivity|].
  intros k c hx. now apply Hrec.
Qed.

(** A schema whose types are lowercase is left as it is. *)
Lemma lowercase_schema_fixed (fuel : nat) (h : heap) (v : val) (h' : heap) :
  covered h v -> convertSchemaTypeToLowerCase fuel h v = Some h' -> h' = h.
Proof.
  revert h v h'. induction fuel as [|fuel IH]; intros h x h' Hcov Hconv;
    [discriminate|].
  cbn [convertSchemaTypeToLowerCase] in Hconv.
  destruct x as [|b|n|s|l]; try (now injection Hconv as <-).
  assert (H1 : match read h (VRef l) (KName TYPE) with
               | Some (VStr s) => write h l TYPE (VStr (toLowerCase s))
               | _ => h
               end = h).
  { destruct (read h (VRef l) (KName TYPE)) as [[| | |s|]|] eqn:Ht; try reflexivity.
    rewrite (toLowerCase_lowercase s); [now apply write_same|].
    apply (Hcov (VRef l) (position_here h _)). exact Ht. }
  rewrite H1 in Hconv. clear H1.
  destruct (match read h (VRef l) (KName PROPERTIES) with
            | Some p => _ | None => _ end) as [h2|] eqn:H2; [|discriminate].
  assert (E2 : h2 = h).
  { destruct (read h (VRef l) (KName PROPERTIES)) as [p|] eqn:Hp;
      [|now injection H2 as <-].
    destruct (truthy_val p); [|now injection H2 as <-].
    apply (visit_fixed _ _ h p _ Hp) in H2; [exact H2|].
    intros k c hx Hc Hx. apply (IH h c hx); [|exact Hx].
    apply (covered_child h (VRef l)); [exact Hcov|]. left. eauto. }
  subst h2. clear H2.
  destruct (match read h (VRef l) (KName ITEMS) with
            | Some i => _ | None => _ end) as [h3|] eqn:H3; [|discriminate].
  assert (E3 : h3 = h).
  { destruct (read h (VRef l) (KName ITEMS)) as [i|] eqn:Hi;
      [|now injection H3 as <-].
    destruct (truthy_val i); [|now injection H3 as <-].
    apply (IH h i h3); [|exact H3].
    apply (covered_child h (VRef l)); [exact Hcov|]. right. now left. }
  subst h3. clear H3.
  assert (Hcomb : forall name, name = ANY_OF \/ name = ALL_OF \/ name = ONE_OF ->
            forall hx, forEach_schema (convertSchemaTypeToLowerCase fuel) h
                         (VRef l) name = Some hx -> hx = h).
  { intros name Hname. apply forEach_schema_fixed.
    intros a k c hx Ha Harr Hc Hx. apply (IH h c hx); [|exact Hx].
    apply (covered_child h (VRef l)); [exact Hcov|]. right. right.
    exists name, a, k. auto. }
  destruct (forEach_schema _ h (VRef l) ANY_OF) as [h4|] eqn:H4; [|discriminate].
  apply Hcomb in H4; [|auto]. subst h4.
  destruct (forEach_schema _ h (VRef l) ALL_OF) as [h5|] eqn:H5; [|discriminate].
  apply Hcomb in H5; [|auto]. subst h5.
  apply Hcomb in Hconv; auto.
Qed.

(** *** Heaps of the same shape *)

Lemma field_similar_refl (f : jsstring * val) : field_similar f f.
Proof. split; [reflexivity | now left]. Qed.

Lemma field_similar_sym (f g : jsstring * val) :
  field_similar f g -> field_similar g f.
Proof.
  intros [Hk [Hv|[Ht (s & s' & Hs & Hs')]]]; (split; [now symmetry|]).
  - left. now symmetry.
  - right. split; [congruence|]. eauto.
Qed.

Lemma field_similar_trans (f g k : jsstring * val) :
  field_similar f g -> field_similar g k -> field_similar f k.
Proof.
  intros [Hk1 H1] [Hk2 H2]. split; [congruence|].
  destruct H1 as [E1|[Ht1 (s & s' & Hs & Hs')]];
    destruct H2 as [E2|[Ht2 (t & t' & Ht & Ht')]].
  - left. congruence.
  - right. split; [congruence|]. exists t, t'. split; congruence.
  - right. split; [exact Ht1|]. exists s, s'. split; congruence.
  - right. split; [exact Ht1|]. exists s, t'. split; congruence.
Qed.

Lemma cell_similar_refl (c : cell) : cell_similar c c.
Proof.
  destruct c as [fields|elems]; simpl; [|reflexivity].
  induction fields; constructor; auto using field_similar_refl.
Qed.

Lemma cell_similar_sym (c c' : cell) : cell_similar c c' -> cell_similar c' c.
Proof.
  destruct c as [fs|es], c' as [fs'|es']; simpl; try contradiction; [|congruence].
  induction 1; constructor; auto using field_similar_sym.
Qed.

Lemma cell_similar_trans (a b c : cell) :
  cell_similar a b -> cell_similar b c -> cell_similar a c.
Proof.
  destruct a as [fa|ea], b as [fb|eb], c as [fc|ec]; simpl; try contradiction;
    [|congruence].
  intros H. revert fc. induction H as [|x y xs ys Hxy _ IH]; intros fc Hbc;
    inversion Hbc; subst; constructor.
  - eapply field_similar_trans; eassumption.
  - now apply IH.
Qed.

Lemma similar_refl (h : heap) : similar h h.
Proof. intros l. destruct (h !! l); [apply cell_similar_refl | exact I]. Qed.

Lemma similar_sym (h g : heap) : similar h g -> similar g h.
Proof.
  intros H l. specialize (H l).
  destruct (h !! l), (g !! l); try contradiction; [|exact I].
  now apply cell_similar_sym.
Qed.

Lemma similar_trans (a b c : heap) : similar a b -> similar b c -> similar a c.
Proof.
  intros H1 H2 l. specialize (H1 l). specialize (H2 l).
  destruct (a !! l), (b !! l), (c !! l); try contradiction; [|exact I].
  eapply cell_similar_trans; eassumption.
Qed.

Lemma field_lowered_similar (f f' : jsstring * val) :
  field_lowered f f' -> field_similar f f'.
Proof.
  intros [Hk [Hv|[Ht (s & s' & Hs & Hs' & _)]]]; (split; [exact Hk|]);
    [now left | right; eauto].
Qed.

Lemma lowers_similar (base : nat) (h h' : heap) : lowers base h h' -> similar h h'.
Proof.
  intros Hlow l. destruct (h !! l) as [c|] eqn:Hc.
  - destruct (proj2 Hlow l c Hc) as (c' & -> & Hcell & _).
    destruct c as [fs|es], c' as [fs'|es']; simpl in *; try contradiction;
      [|exact Hcell].
    clear Hc. induction Hcell; constructor; auto using field_lowered_similar.
  - now rewrite (lowers_lookup_None _ _ _ _ Hlow Hc).
Qed.

Lemma get_field_similar (fields fields' : list (jsstring * val)) (name : jsstring) :
  Forall2 field_similar fields fields' ->
  match get_field fields name, get_field fields' name with
  | Some v, Some v' => val_similar (KName name) v v'
  | None, None => True
  | _, _ => False
  end.
Proof.
  induction 1 as [|[k v] [k' v'] fs fs' [Hk Hv] _ IH]; simpl; [exact I|].
  simpl in Hk, Hv. subst k'.
  destruct (str_eqb k name) eqn:E; [|exact IH].
  apply str_eqb_eq in E. subst name.
  destruct Hv as [->|[Ht Hs]]; [now left|]. right. split; [now rewrite Ht|].
  exact Hs.
Qed.

Lemma read_similar (h g : heap) (x : val) (k : key) :
  similar h g ->
  match read h x k, read g x k with
  | Some v, Some v' => val_similar k v v'
  | None, None => True
  | _, _ => False
  end.
Proof.
  intros Hs. destruct x as [| | | |l]; simpl; try exact I.
  specialize (Hs l). destruct (h !! l) as [c|], (g !! l) as [c'|];
    try contradiction; [|exact I].
  destruct c as [fields|elems], c' as [fields'|elems']; simpl in Hs;
    try contradiction.
  - destruct k as [name|i]; [|exact I]. now apply get_field_similar.
  - subst elems'. destruct k as [name|i]; [exact I|].
    destruct (elems !! i); [now left | exact I].
Qed.

Lemma read_similar_eq (h g : heap) (x : val) (k : key) :
  similar h g -> k <> KName TYPE -> read g x k = read h x k.
Proof.
  intros Hs Hk. pose proof (read_similar h g x k Hs) as H.
  destruct (read h x k), (read g x k); try contradiction; [|reflexivity].
  destruct H as [->|[Hk' _]]; [reflexivity | contradiction].
Qed.

Lemma keys_of_similar (h g : heap) (x : val) :
  similar h g -> keys_of g x = keys_of h x.
Proof.
  intros Hs. destruct x as [| | | |l]; simpl; try reflexivity.
  specialize (Hs l). destruct (h !! l) as [c|], (g !! l) as [c'|];
    try contradiction; [|reflexivity].
  destruct c as [fields|elems], c' as [fields'|elems']; simpl in Hs;
    try contradiction; simpl.
  - induction Hs as [|f f' fs fs' [Hk _] _ IH]; simpl; [reflexivity|].
    now rewrite Hk, IH.
  - now subst.
Qed.

Lemma is_array_similar (h g : heap) (x : val) :
  similar h g -> is_array g x = is_array h x.
Proof.
  intros Hs. destruct x as [| | | |l]; simpl; try reflexivity.
  specialize (Hs l). destruct (h !! l) as [c|], (g !! l) as [c'|];
    try contradiction; [|reflexivity].
  destruct c, c'; simpl in Hs; try contradiction; reflexivity.
Qed.

(** A loop ends on a heap when it ends on one of the same shape. *)
Lemma visit_similar (rec : heap -> val -> option heap)
    (container : heap -> option val) (keys : list key) :
  (forall h x h', rec h x = Some h' -> lowers 0 h h') ->
  (forall h g x h', similar h g -> rec h x = Some h' -> exists g', rec g x = Some g') ->
  (forall h g s s' h', rec h (VStr s) = Some h' -> exists g', rec g (VStr s') = Some g') ->
  (forall h g, similar h g -> container g = container h) ->
  forall h g h', similar h g -> visit rec container h keys = Some h' ->
                 exists g', visit rec container g keys = Some g'.
Proof.
  intros Hlow Hrec Hstr Hcont. induction keys as [|k rest IH]; intros h g h' Hs Hv.
  - now exists g.
  - cbn [visit] in Hv |- *. rewrite (Hcont h g Hs).
    destruct (container h) as [c|]; [|discriminate].
    pose proof (read_similar h g c k Hs) as Hr.
    destruct (read h c k) as [child|], (read g c k) as [child'|];
      try contradiction.
    + destruct (rec h child) as [h1|] eqn:H1; [|discriminate].
      assert (Hg : exists g1, rec g child' = Some g1).
      { destruct Hr as [->|[_ (s & s' & -> & ->)]].
        - eapply Hrec; eassumption.
        - eapply Hstr; eassumption. }
      destruct Hg as [g1 Hg1]. rewrite Hg1.
      apply (IH h1 g1 h'); [|exact Hv].
      apply similar_trans with h;
        [apply similar_sym, (lowers_similar 0), (Hlow _ _ _ H1)|].
      apply similar_trans with g; [exact Hs|].
      apply (lowers_similar 0), (Hlow _ _ _ Hg1).
    + now apply (IH h g h').
Qed.

Lemma forEach_schema_similar (rec : heap -> val -> option heap) (schema : val)
    (name : jsstring) :
  (forall h x h', rec h x = Some h' -> lowers 0 h h') ->
  (forall h g x h', similar h g -> rec h x = Some h' -> exists g', rec g x = Some g') ->
  (forall h g s s' h', rec h (VStr s) = Some h' -> exists g', rec g (VStr s') = Some g') ->
  name <> TYPE ->
  forall h g h', similar h g -> forEach_schema rec h schema name = Some h' ->
                 exists g', forEach_schema rec g schema name = Some g'.
Proof.
  intros Hlow Hrec Hstr Hname h g h' Hs. unfold forEach_schema.
  rewrite (read_similar_eq h g schema _ Hs (key_not_type _ Hname)).
  destruct (read h schema (KName name)) as [a|]; [|now exists g].
  rewrite (is_array_similar h g a Hs), (keys_of_similar h g a Hs).
  destruct (is_array h a); [|now exists g].
  now apply visit_similar.
Qed.

Lemma convertSchemaTypeToLowerCase_string (fuel : nat) (h g : heap)
    (s s' : jsstring) (h' : heap) :
  convertSchemaTypeToLowerCase fuel h (VStr s) = Some h' ->
  exists g', convertSchemaTypeToLowerCase fuel g (VStr s') = Some g'.
Proof. destruct fuel; [discriminate|]. now exists g. Qed.

Lemma typed_similar (h : heap) (l : nat) :
  similar h
    match read h (VRef l) (KName TYPE) with
    | Some (VStr s) => write h l TYPE (VStr (toLowerCase s))
    | _ => h
    end.
Proof.
  destruct (read h (VRef l) (KName TYPE)) as [[| | |s|]|] eqn:Ht;
    try apply similar_refl.
  apply (lowers_similar 0), (write_type_lowers 0 h l s (Nat.le_0_l l) Ht).
Qed.

(** The conversion ends on a heap when it ends on one of the same shape. *)
Lemma convertSchemaTypeToLowerCase_similar (fuel : nat) (h g : heap) (v : val)
    (h' : heap) :
  similar h g ->
  convertSchemaTypeToLowerCase fuel h v = Some h' ->
  exists g', convertSchemaTypeToLowerCase fuel g v = Some g'.
Proof.
  revert h g v h'. induction fuel as [|fuel IH]; intros h g x h' Hs Hconv;
    [discriminate|].
  pose proof (convertSchemaTypeToLowerCase_lowers_heap fuel) as Hlow.
  pose proof (convertSchemaTypeToLowerCase_string fuel) as Hstr.
  cbn [convertSchemaTypeToLowerCase] in Hconv |- *.
  destruct x as [|b|n|s|l]; try (now exists g).
  pose proof (typed_similar h l) as Hh1. pose proof (typed_similar g l) as Hg1.
  set (h1 := match read h (VRef l) (KName TYPE) with
             | Some (VStr s) => write h l TYPE (VStr (toLowerCase s))
             | _ => h
             end) in *.
  set (g1 := match read g (VRef l) (KName TYPE) with
             | Some (VStr s) => write g l TYPE (VStr (toLowerCase s))
             | _ => g
             end) in *.
  assert (S1 : similar h1 g1).
  { apply similar_trans with h; [now apply similar_sym|].
    now apply similar_trans with g. }
  clearbody h1 g1. clear Hh1 Hg1 Hs.
  (* properties *)
  destruct (match read h1 (VRef l) (KName PROPERTIES) with
            | Some p => _ | None => _ end) as [h2|] eqn:H2; [|discriminate].
  assert (P2 : exists g2,
             match read g1 (VRef l) (KName PROPERTIES) with
             | Some p =>
                 if truthy_val p
                 then visit (convertSchemaTypeToLowerCase fuel)
                        (fun h' => read h' (VRef l) (KName PROPERTIES))
                        g1 (keys_of g1 p)
                 else Some g1
             | None => Some g1
             end = Some g2 /\ similar h2 g2).
  { rewrite (read_similar_eq h1 g1 _ _ S1 (key_not_type _ PROPERTIES_not_TYPE)).
    destruct (read h1 (VRef l) (KName PROPERTIES)) as [p|];
      [|injection H2 as <-; now exists g1].
    destruct (truthy_val p); [|injection H2 as <-; now exists g1].
    rewrite (keys_of_similar h1 g1 p S1).
    destruct (visit_similar (convertSchemaTypeToLowerCase fuel)
                (fun h' => read h' (VRef l) (KName PROPERTIES)) (keys_of h1 p)
                Hlow IH Hstr) with (h := h1) (g := g1) (h' := h2) as [g2 Hg2];
      [|exact S1|exact H2|].
    { intros ha ga Ha.
      apply (read_similar_eq ha ga _ _ Ha (key_not_type _ PROPERTIES_not_TYPE)). }
    exists g2. split; [exact Hg2|].
    apply similar_trans with h1;
      [apply similar_sym, (lowers_similar 0),
         (proj1 (visit_round _ _ _ Hlow h1 h2 H2))|].
    apply similar_trans with g1; [exact S1|].
    apply (lowers_similar 0), (proj1 (visit_round _ _ _ Hlow g1 g2 Hg2)). }
  destruct P2 as (g2 & -> & S2). clear H2 S1.
  (* items *)
  destruct (match read h2 (VRef l) (KName ITEMS) with
            | Some i => _ | None => _ end) as [h3|] eqn:H3; [|discriminate].
  assert (P3 : exists g3,
             match read g2 (VRef l) (KName ITEMS) with
             | Some i =>
                 if truthy_val i then convertSchemaTypeToLowerCase fuel g2 i
                 else Some g2
             | None => Some g2
             end = Some g3 /\ similar h3 g3).
  { rewrite (read_similar_eq h2 g2 _ _ S2 (key_not_type _ ITEMS_not_TYPE)).
    destruct (read h2 (VRef l) (KName ITEMS)) as [i|];
      [|injection H3 as <-; now exists g2].
    destruct (truthy_val i); [|injection H3 as <-; now exists g2].
    destruct (IH h2 g2 i h3 S2 H3) as [g3 Hg3]. exists g3. split; [exact Hg3|].
    apply similar_trans with h2;
      [apply similar_sym, (lowers_similar 0), (Hlow _ _ _ H3)|].
    apply similar_trans with g2; [exact S2|].
    apply (lowers_similar 0), (Hlow _ _ _ Hg3). }
  destruct P3 as (g3 & -> & S3). clear H3 S2.
  (* combinators *)
  assert (Hcomb : forall name ha ga ha',
             name = ANY_OF \/ name = ALL_OF \/ name = ONE_OF ->
             similar ha ga ->
             forEach_schema (convertSchemaTypeToLowerCase fuel) ha (VRef l) name
             = Some ha' ->
             exists ga',
               forEach_schema (convertSchemaTypeToLowerCase fuel) ga (VRef l) name
               = Some ga' /\ similar ha' ga').
  { intros name ha ga ha' Hname Sa Ha.
    destruct (forEach_schema_similar (convertSchemaTypeToLowerCase fuel) (VRef l)
                name Hlow IH Hstr (combinator_not_TYPE name Hname) ha ga ha' Sa Ha)
      as [ga' Hga].
    exists ga'. split; [exact Hga|].
    apply similar_trans with ha;
      [apply similar_sym, (lowers_similar 0),
         (forEach_schema_lowers_heap _ _ _ _ _ Hlow Ha)|].
    apply similar_trans with ga; [exact Sa|].
    apply (lowers_similar 0), (forEach_schema_lowers_heap _ _ _ _ _ Hlow Hga). }
  destruct (forEach_schema _ h3 (VRef l) ANY_OF) as [h4|] eqn:H4; [|discriminate].
  destruct (Hcomb ANY_OF h3 g3 h4 ltac:(auto) S3 H4) as (g4 & -> & S4).
  destruct (forEach_schema _ h4 (VRef l) ALL_OF) as [h5|] eqn:H5; [|discriminate].
  destruct (Hcomb ALL_OF h4 g4 h5 ltac:(auto) S4 H5) as (g5 & -> & S5).
  destruct (Hcomb ONE_OF h5 g5 h' ltac:(auto) S5 Hconv) as (g6 & -> & _).
  now exists g6.
Qed.

(** X24.  [convertSchemaTypeToLowerCase] is idempotent when [toLowerCase]
    is: on the heap that a run leaves, a second run on the same schema ends
    as well and changes nothing. *)
Theorem convertSchemaTypeToLowerCase_idempotent (fuel : nat) (h : heap) (v : val)
    (h' : heap) :
  convertSchemaTypeToLowerCase fuel h v = Some h' ->
  convertSchemaTypeToLowerCase fuel h' v = Some h'.
Proof.
  intros Hconv.
  destruct (convertSchemaTypeToLowerCase_similar fuel h h' v h'
              (lowers_similar 0 _ _
                 (convertSchemaTypeToLowerCase_lowers_heap fuel h v h' Hconv))
              Hconv) as [h2 H2].
  rewrite H2. f_equal.
  apply (lowercase_schema_fixed fuel h' v h2); [|exact H2].
  apply (convertSchemaTypeToLowerCase_covers fuel h v h' Hconv).
Qed.

End WithToLowerCase.

Lemma convertSchemaTypeToLowerCase_idempotent_witness :
  (forall s : jsstring,
     toLowerCase_latin1 (toLowerCase_latin1 s) = toLowerCase_latin1 s) /\
  exists h',
    convertSchemaTypeToLowerCase (lower := toLowerCase_latin1) 10 sample_heap
      (VRef 8) = Some h' /\
    h' <> sample_heap /\
    convertSchemaTypeToLowerCase (lower := toLowerCase_latin1) 10 h' (VRef 8)
    = Some h'.
Proof.
  split; [exact toLowerCase_latin1_idempotent|].
  destruct (convertSchemaTypeToLowerCase (lower := toLowerCase_latin1) 10
              sample_heap (VRef 8)) as [h'|] eqn:E; [|discriminate].
  exists h'. split; [reflexivity|]. split.
  - vm_compute in E. injection E as <-. discriminate.
  - exact (convertSchemaTypeToLowerCase_idempotent (lower := toLowerCase_latin1)
             toLowerCase_latin1_idempotent 10 sample_heap (VRef 8) h' E).
Defined.

End ShapeFacts.
